(** * gwf: dependency graph, staleness and scheduling

    A shallow embedding of [gwf/core.py] ([Graph] and [Scheduler]) and a
    verification of its specification.  Python objects are modelled by
    records, dictionaries by [gmap], sets by [gset] (or by the list that
    iteration over them yields, where the code iterates), exceptions by an
    explicit result type, and recursion by fuel: [None] stands for a
    recursion that does not come back. *)

From stdpp Require Import gmap strings list sorting relations.
From Stdlib Require Import ZArith.

(** ** Python values and exceptions *)

(** Values of target options: scalars, or Python's [None]. *)
Inductive OptVal :=
  | PyNone
  | PyInt (z : Z)
  | PyStr (s : string).

#[global] Instance OptVal_eq_dec : EqDecision OptVal.
Proof. solve_decision. Defined.

(** [WorkflowError] is raised with three different messages in core.py; the
    constructors keep what each message names. *)
Inductive WorkflowError :=
  | FileProvidedByMultipleTargets (path first second : string)
  | CircularDependency (node : string)
  | FileRequiredButNotProvided (path target : string).

Inductive exn :=
  | Workflow (e : WorkflowError)
  | TypeError        (* an order comparison with None *)
  | ValueError       (* max() or min() of an empty sequence *)
  | KeyError (key : string).

Inductive result (A : Type) :=
  | Ok (a : A)
  | Raise (e : exn).
Arguments Ok {A} a.
Arguments Raise {A} e.

#[global] Instance WorkflowError_eq_dec : EqDecision WorkflowError.
Proof. solve_decision. Defined.
#[global] Instance exn_eq_dec : EqDecision exn.
Proof. solve_decision. Defined.
#[global] Instance result_eq_dec `{EqDecision A} : EqDecision (result A).
Proof. solve_decision. Defined.

(** ** Targets *)

Record Target := {
  name : string;
  flattened_inputs : list string;
  flattened_outputs : list string;
  options : gmap string OptVal;
}.

#[global] Instance Target_eq_dec : EqDecision Target.
Proof. solve_decision. Defined.

Definition is_source (t : Target) : bool := bool_decide (flattened_inputs t = []).
Definition is_sink (t : Target) : bool := bool_decide (flattened_outputs t = []).

(** ** TargetStatus and the persisted state *)

Module TargetStatus.
Inductive t := SHOULDRUN | SUBMITTED | RUNNING | COMPLETED | FAILED | KILLED | CANCELLED.
#[global] Instance eq_dec : EqDecision t.
Proof. solve_decision. Defined.
End TargetStatus.

(** Modelled from the spec: the persisted execution state ([gwf.models],
    which core.py imports, is not among the sources).  Section 3 of the
    specification gives the seven states, [reset] moving to UNKNOWN and
    [submitted] moving to SUBMITTED. *)
Module TargetState.
Inductive t := UNKNOWN | SUBMITTED | RUNNING | COMPLETED | FAILED | CANCELLED | KILLED.
#[global] Instance eq_dec : EqDecision t.
Proof. solve_decision. Defined.
End TargetState.

(** Modelled from the spec: [TargetMeta], the handle [get_target_meta]
    returns.  The store is keyed by target name; a record is created lazily on
    first lookup, in state UNKNOWN, so a name without an entry reads as
    UNKNOWN.  A mutator changes the handle and, unless [autocommit] is false,
    makes the change durable at once; [commit] writes the handle back. *)
Record TargetMeta := {
  meta_target : string;
  state : TargetState.t;
}.

Abbreviation StateDb := (gmap string TargetState.t).

Definition state_of (db : StateDb) (n : string) : TargetState.t :=
  default TargetState.UNKNOWN (db !! n).

Definition get_target_meta (t : Target) (db : StateDb) : TargetMeta :=
  {| meta_target := name t; state := state_of db (name t) |}.

Definition commit (m : TargetMeta) (db : StateDb) : StateDb :=
  <[meta_target m := state m]> db.

Definition move_to (st : TargetState.t) (autocommit : bool) (m : TargetMeta) (db : StateDb)
    : TargetMeta * StateDb :=
  let m' := {| meta_target := meta_target m; state := st |} in
  (m', if autocommit then commit m' db else db).

Definition reset := move_to TargetState.UNKNOWN.
Definition submitted := move_to TargetState.SUBMITTED.

Definition is_unknown (m : TargetMeta) : bool := bool_decide (state m = TargetState.UNKNOWN).
Definition is_submitted (m : TargetMeta) : bool := bool_decide (state m = TargetState.SUBMITTED).
Definition is_running (m : TargetMeta) : bool := bool_decide (state m = TargetState.RUNNING).
Definition is_completed (m : TargetMeta) : bool := bool_decide (state m = TargetState.COMPLETED).
Definition is_failed (m : TargetMeta) : bool := bool_decide (state m = TargetState.FAILED).
Definition is_cancelled (m : TargetMeta) : bool := bool_decide (state m = TargetState.CANCELLED).
Definition is_killed (m : TargetMeta) : bool := bool_decide (state m = TargetState.KILLED).

(** ** The graph *)

(** Targets are hashed by identity in Python; a workflow holds one target per
    name, so every dictionary keyed by a target is keyed by its name here.
    A set of targets that the code iterates over is the list of its elements
    in iteration order (any order: no theorem below depends on it). *)
Record Graph := {
  targets : list Target;
  provides : gmap string Target;
  dependencies : gmap string (list Target);
  dependents : gmap string (list Target);
  unresolved : gset string;
}.

(** [self.dependencies[target]] on a [defaultdict(set)]. *)
Definition deps_of (dependencies : gmap string (list Target)) (t : Target) : list Target :=
  default [] (dependencies !! name t).

Definition deps (g : Graph) (t : Target) : list Target := deps_of (dependencies g) t.

(** [s.add(x)] on a set kept as a list. *)
Definition set_add (x : Target) (s : list Target) : list Target :=
  if decide (x ∈ s) then s else s ++ [x].

(** First pass of [from_targets]: the outputs of one target. *)
Fixpoint add_outputs (t : Target) (paths : list string) (provides : gmap string Target)
    : result (gmap string Target) :=
  match paths with
  | [] => Ok provides
  | path :: paths =>
      match provides !! path with
      | Some other => Raise (Workflow (FileProvidedByMultipleTargets path (name other) (name t)))
      | None => add_outputs t paths (<[path := t]> provides)
      end
  end.

Fixpoint build_provides (ts : list Target) (provides : gmap string Target)
    : result (gmap string Target) :=
  match ts with
  | [] => Ok provides
  | t :: ts =>
      match add_outputs t (flattened_outputs t) provides with
      | Ok provides => build_provides ts provides
      | Raise e => Raise e
      end
  end.

(** Second pass: the inputs of one target. *)
Fixpoint add_inputs (provides : gmap string Target) (t : Target) (paths : list string)
    (acc : gmap string (list Target) * gset string) : gmap string (list Target) * gset string :=
  match paths with
  | [] => acc
  | path :: paths =>
      add_inputs provides t paths
        match provides !! path with
        | Some p => (<[name t := set_add p (deps_of acc.1 t)]> acc.1, acc.2)
        | None => (acc.1, {[path]} ∪ acc.2)
        end
  end.

Definition build_dependencies (provides : gmap string Target) (ts : list Target)
    : gmap string (list Target) * gset string :=
  foldl (λ acc t, add_inputs provides t (flattened_inputs t) acc) (∅, ∅) ts.

(** Third pass, over the items of [dependencies]: the targets that have a
    dependency, in the order of the second pass;
    [dependents[dep].add(target)]. *)
Definition build_dependents (dependencies : gmap string (list Target)) (ts : list Target)
    : gmap string (list Target) :=
  foldl (λ acc t,
           foldl (λ acc dep, <[name dep := set_add t (deps_of acc dep)]> acc)
                 acc (deps_of dependencies t))
        ∅ ts.

(** *** [_check_for_circular_dependencies] *)

Inductive colour := fresh | started | done.

#[global] Instance colour_eq_dec : EqDecision colour.
Proof. solve_decision. Defined.

(** The loop of [visitor] over the dependencies of [node]; [visit] is the
    recursive call. *)
Fixpoint visit_deps (visit : Target → gmap string colour → option (result (gmap string colour)))
    (node : Target) (ds : list Target) (st : gmap string colour)
    : option (result (gmap string colour)) :=
  match ds with
  | [] => Some (Ok st)
  | dep :: ds =>
      match st !! name dep with
      | None => Some (Raise (KeyError (name dep)))
      | Some started => Some (Raise (Workflow (CircularDependency (name node))))
      | Some fresh =>
          match visit dep st with
          | Some (Ok st) => visit_deps visit node ds st
          | r => r
          end
      | Some done => visit_deps visit node ds st
      end
  end.

Fixpoint visitor (g : Graph) (fuel : nat) (node : Target) (st : gmap string colour)
    : option (result (gmap string colour)) :=
  match fuel with
  | O => None
  | S fuel =>
      match visit_deps (visitor g fuel) node (deps g node) (<[name node := started]> st) with
      | Some (Ok st) => Some (Ok (<[name node := done]> st))
      | r => r
      end
  end.

Fixpoint visit_all (g : Graph) (fuel : nat) (nodes : list Target) (st : gmap string colour)
    : option (result (gmap string colour)) :=
  match nodes with
  | [] => Some (Ok st)
  | node :: nodes =>
      match st !! name node with
      | None => Some (Raise (KeyError (name node)))
      | Some fresh =>
          match visitor g fuel node st with
          | Some (Ok st) => visit_all g fuel nodes st
          | r => r
          end
      | Some _ => visit_all g fuel nodes st
      end
  end.

Definition initial_colours (nodes : list Target) : gmap string colour :=
  list_to_map ((λ n, (name n, fresh)) <$> nodes).

(** Every call of [visitor] colours a fresh node, so the recursion is never
    deeper than the number of nodes. *)
Definition check_for_circular_dependencies (g : Graph) : option (result (gmap string colour)) :=
  visit_all g (S (length (targets g))) (targets g) (initial_colours (targets g)).

(** [Graph.__init__]: store the five fields, then check. *)
Definition Graph_init (g : Graph) : option (result Graph) :=
  match check_for_circular_dependencies g with
  | None => None
  | Some (Ok _) => Some (Ok g)
  | Some (Raise e) => Some (Raise e)
  end.

(** [Graph.from_targets]; [ts] is [targets.values()]. *)
Definition from_targets (ts : list Target) : option (result Graph) :=
  match build_provides ts ∅ with
  | Raise e => Some (Raise e)
  | Ok provides =>
      let '(dependencies, unresolved) := build_dependencies provides ts in
      Graph_init {| targets := ts;
                    provides := provides;
                    dependencies := dependencies;
                    dependents := build_dependents dependencies ts;
                    unresolved := unresolved |}
  end.

(** ** The scheduler *)

(** Modelled from the spec: the file cache ([LazyDict] of [gwf.utils] is not
    among the sources).  Section 4.2: a lazy mapping from a path to its
    modification time or to the missing sentinel, probed once and then fixed
    for the lifetime of the scheduler; so a function.  [st_mtime] is a finite
    float of which only the order is used; integers stand for it. *)
Definition FileCache := string → option Z.

(** Python's [a > b] on two cache entries. *)
Definition ts_gt (a b : option Z) : result bool :=
  match a, b with
  | Some x, Some y => Ok (bool_decide (y < x)%Z)
  | _, _ => Raise TypeError
  end.

(** Python's [x > y] on pairs [(timestamp, path)]: the first components that
    differ decide; equal pairs are not greater. *)
Definition pair_gt (x y : option Z * string) : result bool :=
  if decide (x.1 = y.1) then
    Ok (if decide (x.2 = y.2) then false else String.ltb y.2 x.2)
  else ts_gt x.1 y.1.

(** [max(iterable)]: keep the first item, replace it by every later item that
    is greater. *)
Fixpoint max_from (cur : option Z * string) (l : list (option Z * string))
    : result (option Z * string) :=
  match l with
  | [] => Ok cur
  | x :: l =>
      match pair_gt x cur with
      | Ok b => max_from (if b then x else cur) l
      | Raise e => Raise e
      end
  end.

Definition py_max (l : list (option Z * string)) : result (option Z * string) :=
  match l with
  | [] => Raise ValueError
  | x :: l => max_from x l
  end.

(** [x < y] on the same pairs. *)
Definition pair_lt (x y : option Z * string) : result bool := pair_gt y x.

Fixpoint min_from (cur : option Z * string) (l : list (option Z * string))
    : result (option Z * string) :=
  match l with
  | [] => Ok cur
  | x :: l =>
      match pair_lt x cur with
      | Ok b => min_from (if b then x else cur) l
      | Raise e => Raise e
      end
  end.

Definition py_min (l : list (option Z * string)) : result (option Z * string) :=
  match l with
  | [] => Raise ValueError
  | x :: l => min_from x l
  end.

(** The first loop of [should_run]: the first dependency that should run
    ends it. *)
Fixpoint any_dep_should_run (rec : Target → option (result bool)) (ds : list Target)
    : option (result bool) :=
  match ds with
  | [] => Some (Ok false)
  | dep :: ds =>
      match rec dep with
      | Some (Ok false) => any_dep_should_run rec ds
      | r => r
      end
  end.

(** The second loop: the first input that is unresolved and missing. *)
Definition missing_required (g : Graph) (fc : FileCache) (t : Target) : option string :=
  head (filter (λ path, path ∈ unresolved g ∧ fc path = None) (flattened_inputs t)).

(** [should_run] is memoised with [@cache]; it reads only the graph and the
    file cache, so the memo returns what a fresh evaluation returns. *)
Fixpoint should_run (g : Graph) (fc : FileCache) (fuel : nat) (t : Target)
    : option (result bool) :=
  match fuel with
  | O => None
  | S fuel =>
      match any_dep_should_run (should_run g fc fuel) (deps g t) with
      | Some (Ok false) =>
          match missing_required g fc t with
          | Some path => Some (Raise (Workflow (FileRequiredButNotProvided path (name t))))
          | None =>
              if is_sink t then Some (Ok true)
              else if bool_decide (Exists (λ path, fc path = None) (flattened_outputs t))
              then Some (Ok true)
              else if is_source t then Some (Ok false)
              else
                match py_max ((λ path, (fc path, path)) <$> flattened_inputs t) with
                | Raise e => Some (Raise e)
                | Ok (youngest_in_ts, _) =>
                    match py_min ((λ path, (fc path, path)) <$> flattened_outputs t) with
                    | Raise e => Some (Raise e)
                    | Ok (oldest_out_ts, _) => Some (ts_gt youngest_in_ts oldest_out_ts)
                    end
                end
          end
      | r => r
      end
  end.

(** The loop of [update_state] over the dependencies; [state] is the handle
    fetched before the loop. *)
Fixpoint update_deps (rec : Target → StateDb → option (StateDb * TargetMeta))
    (ds : list Target) (state : TargetMeta) (db : StateDb) : option (StateDb * TargetMeta) :=
  match ds with
  | [] => Some (db, state)
  | dep :: ds =>
      match rec dep db with
      | None => None
      | Some (db, dep_state) =>
          if is_failed dep_state || is_killed dep_state
             || is_cancelled dep_state || is_unknown dep_state
          then let '(state, db) := reset true state db in update_deps rec ds state db
          else update_deps rec ds state db
      end
  end.

Fixpoint update_state (g : Graph) (fuel : nat) (t : Target) (db : StateDb)
    : option (StateDb * TargetMeta) :=
  match fuel with
  | O => None
  | S fuel => update_deps (update_state g fuel) (deps g t) (get_target_meta t db) db
  end.

(** The chain of tests in [status]; a chain that falls through returns
    Python's [None]. *)
Definition status_of (state : TargetMeta) (should_run : bool) : option TargetStatus.t :=
  if is_unknown state then
    if should_run then Some TargetStatus.SHOULDRUN else Some TargetStatus.COMPLETED
  else if is_submitted state then Some TargetStatus.SUBMITTED
  else if is_running state then Some TargetStatus.RUNNING
  else if is_completed state then
    if should_run then Some TargetStatus.SHOULDRUN else Some TargetStatus.COMPLETED
  else if is_failed state then Some TargetStatus.FAILED
  else if is_cancelled state then Some TargetStatus.CANCELLED
  else if is_killed state then Some TargetStatus.KILLED
  else None.

Definition status (g : Graph) (fc : FileCache) (fuel : nat) (t : Target) (db : StateDb)
    : option (StateDb * result (option TargetStatus.t)) :=
  match update_state g fuel t db with
  | None => None
  | Some (db, state) =>
      match should_run g fc fuel t with
      | None => None
      | Some (Raise e) => Some (db, Raise e)
      | Some (Ok should_run) => Some (db, Ok (status_of state should_run))
      end
  end.

(** *** Options *)

(** The loop of [prepare_target_options] runs over a snapshot of the items of
    [new_options] and deletes from [new_options]. *)
Definition strip_option (option_defaults : gmap string OptVal)
    (item : string * OptVal) (new_options : gmap string OptVal) : gmap string OptVal :=
  if decide (item.1 ∉ dom option_defaults) then delete item.1 new_options
  else if decide (item.2 = PyNone) then delete item.1 new_options
  else new_options.

(** The value [prepare_target_options] assigns to [target.options];
    [dict(defaults)] updated with the options of the target is the
    left-biased union. *)
Definition prepared_options (option_defaults options : gmap string OptVal)
    : gmap string OptVal :=
  let new_options := options ∪ option_defaults in
  foldr (strip_option option_defaults) new_options (map_to_list new_options).

(** The parts of a scheduler that a pass does not change. *)
Record Scheduler := {
  graph : Graph;
  option_defaults : gmap string OptVal;       (* backend.option_defaults *)
  dry_run : bool;
  file_cache : FileCache;
}.

(** What a pass can observe of the backend and of the log: a call of
    [backend.submit], and under dry-run the record "Would submit target". *)
Inductive Event :=
  | Submit (target : string) (dependencies : gset string)
  | WouldSubmit (target : string).

#[global] Instance Event_eq_dec : EqDecision Event.
Proof. solve_decision. Defined.

Definition event_target (e : Event) : string :=
  match e with Submit t _ => t | WouldSubmit t => t end.

(** The parts a pass changes: the options of the targets it has normalised
    (a target not yet normalised has the options it was declared with), the
    dry-run memo, the state store, and the events so far. *)
Record Pass := {
  target_options : gmap string (gmap string OptVal);
  pretend_known : gset string;
  state_db : gmap string TargetState.t;
  trace : list Event;
}.

Definition options_of (s : Pass) (t : Target) : gmap string OptVal :=
  default (options t) (target_options s !! name t).

Definition with_db (s : Pass) (db : gmap string TargetState.t) : Pass :=
  {| target_options := target_options s; pretend_known := pretend_known s;
     state_db := db; trace := trace s |}.

Definition prepare_target_options (self : Scheduler) (t : Target) (s : Pass) : Pass :=
  {| target_options :=
       <[name t := prepared_options (option_defaults self) (options_of s t)]> (target_options s);
     pretend_known := pretend_known s;
     state_db := state_db s;
     trace := trace s |}.

(** [self.status(target)] inside a pass. *)
Definition pass_status (self : Scheduler) (fuel : nat) (t : Target) (s : Pass)
    : option (Pass * result (option TargetStatus.t)) :=
  match status (graph self) (file_cache self) fuel t (state_db s) with
  | None => None
  | Some (db, r) => Some (with_db s db, r)
  end.

Definition SHOULDRUN_STATES : list TargetStatus.t :=
  [TargetStatus.FAILED; TargetStatus.KILLED; TargetStatus.CANCELLED; TargetStatus.SHOULDRUN].

(** [status in Scheduler.SHOULDRUN_STATES]. *)
Definition in_shouldrun_states (st : option TargetStatus.t) : bool :=
  match st with
  | Some x => bool_decide (x ∈ SHOULDRUN_STATES)
  | None => false
  end.

(** The branch of [schedule] that submits, or pretends to. *)
Definition submit (self : Scheduler) (t : Target) (submitted_deps : gset string) (s : Pass) : Pass :=
  if dry_run self then
    {| target_options := target_options s;
       pretend_known := {[name t]} ∪ pretend_known s;
       state_db := state_db s;
       trace := trace s ++ [WouldSubmit (name t)] |}
  else
    let state := get_target_meta t (state_db s) in
    let '(state, db) := reset false state (state_db s) in
    let '(state, db) := submitted false state db in
    {| target_options := target_options s;
       pretend_known := pretend_known s;
       state_db := commit state db;
       trace := trace s ++ [Submit (name t) submitted_deps] |}.

(** The loop of [schedule] over the sorted dependencies. *)
Fixpoint schedule_deps (rec : Target → Pass → option (Pass * result bool))
    (ds : list Target) (submitted_deps : gset string) (s : Pass)
    : option (Pass * result (gset string)) :=
  match ds with
  | [] => Some (s, Ok submitted_deps)
  | dependency :: ds =>
      match rec dependency s with
      | None => None
      | Some (s, Raise e) => Some (s, Raise e)
      | Some (s, Ok true) => schedule_deps rec ds ({[name dependency]} ∪ submitted_deps) s
      | Some (s, Ok false) => schedule_deps rec ds submitted_deps s
      end
  end.

(** [sorted(self.graph.dependencies[target], key=lambda t: t.name)]. *)
Definition name_le (a b : Target) : Prop := String.le (name a) (name b).

#[global] Instance name_le_dec : RelDecision name_le.
Proof. intros a b. unfold name_le. apply _. Defined.

Definition sorted_deps (g : Graph) (t : Target) : list Target :=
  merge_sort name_le (deps g t).

Fixpoint schedule (self : Scheduler) (fuel : nat) (t : Target) (s : Pass)
    : option (Pass * result bool) :=
  match fuel with
  | O => None
  | S fuel' =>
      let s := prepare_target_options self t s in
      match pass_status self fuel t s with
      | None => None
      | Some (s, Raise e) => Some (s, Raise e)
      | Some (s, Ok st) =>
          if bool_decide (st = Some TargetStatus.SUBMITTED)
             || bool_decide (name t ∈ pretend_known s)
          then Some (s, Ok true)
          else
            match schedule_deps (schedule self fuel') (sorted_deps (graph self) t) ∅ s with
            | None => None
            | Some (s, Raise e) => Some (s, Raise e)
            | Some (s, Ok submitted_deps) =>
                if bool_decide (submitted_deps ≠ ∅)
                then Some (submit self t submitted_deps s, Ok true)
                else
                  match pass_status self fuel t s with
                  | None => None
                  | Some (s, Raise e) => Some (s, Raise e)
                  | Some (s, Ok st) =>
                      if in_shouldrun_states st
                      then Some (submit self t submitted_deps s, Ok true)
                      else Some (s, Ok false)
                  end
            end
      end
  end.

Fixpoint schedule_many (self : Scheduler) (fuel : nat) (ts : list Target) (s : Pass)
    : option (Pass * result (list bool)) :=
  match ts with
  | [] => Some (s, Ok [])
  | t :: ts =>
      match schedule self fuel t s with
      | None => None
      | Some (s, Raise e) => Some (s, Raise e)
      | Some (s, Ok was_submitted) =>
          match schedule_many self fuel ts s with
          | None => None
          | Some (s, Raise e) => Some (s, Raise e)
          | Some (s, Ok schedules) => Some (s, Ok (was_submitted :: schedules))
          end
      end
  end.

(** A pass begins with an empty memo and no event; the store is whatever
    earlier runs have left. *)
Definition new_pass (db : gmap string TargetState.t) : Pass :=
  {| target_options := ∅; pretend_known := ∅; state_db := db; trace := [] |}.

(** ** Scenarios of the specification *)

Definition target (n : string) (ins outs : list string) : Target :=
  {| name := n; flattened_inputs := ins; flattened_outputs := outs; options := ∅ |}.

(** A file system: the paths that exist, with their modification times. *)
Definition files (l : list (string * Z)) : FileCache :=
  λ path, (list_to_map l : gmap string Z) !! path.

(** S1: the chain A, B, C. *)
Definition tA : Target := target "A" [] ["a"].
Definition tB : Target := target "B" ["a"] ["b"].
Definition tC : Target := target "C" ["b"] ["c"].

Definition chain : Graph :=
  {| targets := [tA; tB; tC];
     provides := {[ "a" := tA; "b" := tB; "c" := tC ]};
     dependencies := {[ "B" := [tA]; "C" := [tB] ]};
     dependents := {[ "A" := [tB]; "B" := [tC] ]};
     unresolved := ∅ |}.

Definition scheduler (g : Graph) (dry : bool) (fc : FileCache) : Scheduler :=
  {| graph := g; option_defaults := ∅; dry_run := dry; file_cache := fc |}.

(** A sink whose only input is produced by no target. *)
Definition tD : Target := target "D" ["ext"] [].

Definition lone_sink : Graph :=
  {| targets := [tD]; provides := ∅; dependencies := ∅; dependents := ∅;
     unresolved := {["ext"]} |}.

(** A store for the chain of S1 after a failure upstream. *)
Definition failed_upstream : gmap string TargetState.t :=
  {[ "A" := TargetState.FAILED; "B" := TargetState.COMPLETED; "C" := TargetState.COMPLETED ]}.

(** S5: two targets that consume each other's output. *)
Definition tP : Target := target "P" ["q"] ["p"].
Definition tQ : Target := target "Q" ["p"] ["q"].

Definition two_cycle : Graph :=
  {| targets := [tP; tQ];
     provides := {[ "p" := tP; "q" := tQ ]};
     dependencies := {[ "P" := [tQ]; "Q" := [tP] ]};
     dependents := {[ "Q" := [tP]; "P" := [tQ] ]};
     unresolved := ∅ |}.

(** A backend with one option and its default, and a target that sets the
    option to [None]. *)
Definition one_core : gmap string OptVal := {[ "cores" := PyInt 1 ]}.

Definition tN : Target :=
  {| name := "N"; flattened_inputs := []; flattened_outputs := ["n"];
     options := {[ "cores" := PyNone ]} |}.

Definition lone_target : Graph :=
  {| targets := [tN]; provides := {[ "n" := tN ]}; dependencies := ∅; dependents := ∅;
     unresolved := ∅ |}.

Definition one_core_scheduler : Scheduler :=
  {| graph := lone_target; option_defaults := one_core; dry_run := false;
     file_cache := files [] |}.

(** A target with two dependencies of which the first by name depends on the
    second. *)
Definition tRight : Target := target "b" [] ["r"].
Definition tLeft : Target := target "a" ["r"] ["l"].
Definition tTop : Target := target "c" ["l"; "r"] ["o"].

Definition diamond : Graph :=
  {| targets := [tRight; tLeft; tTop];
     provides := {[ "r" := tRight; "l" := tLeft; "o" := tTop ]};
     dependencies := {[ "a" := [tRight]; "c" := [tLeft; tRight] ]};
     dependents := {[ "b" := [tLeft; tTop]; "a" := [tTop] ]};
     unresolved := ∅ |}.

(** A store in which an earlier run has left C submitted. *)
Definition submitted_before : gmap string TargetState.t :=
  {[ "A" := TargetState.COMPLETED; "B" := TargetState.COMPLETED;
     "C" := TargetState.SUBMITTED ]}.

(** S4: two targets that provide the same file. *)
Definition tX : Target := target "X" [] ["o"].
Definition tY : Target := target "Y" [] ["o"].

(** S7: a target whose input no target provides. *)
Definition tM : Target := target "M" ["ext"] ["m"].

(** What the scenarios observe of the outcome of [schedule]: the events, the
    stored states of the named targets, and the result. *)
Definition observe (names : list string) (r : option (Pass * result bool))
    : option (list Event * list TargetState.t * result bool) :=
  (λ p, (trace p.1, state_of (state_db p.1) <$> names, p.2)) <$> r.

(** ** Properties of graphs *)

(** [dep g t d]: [t] depends on [d]. *)
Definition dep (g : Graph) (t d : Target) : Prop := d ∈ deps g t.

Definition acyclic (g : Graph) : Prop := ∀ t, t ∈ targets g → ¬ tc (dep g) t t.

(** What [from_targets] establishes before the check for cycles: one target
    per name, and dependencies that are targets of the graph. *)
Record well_formed (g : Graph) : Prop := {
  wf_names : NoDup (name <$> targets g);
  wf_closed : ∀ t d, t ∈ targets g → d ∈ deps g t → d ∈ targets g;
}.

(** It also accounts for every input: a path is unresolved, or an output of
    a dependency. *)
Definition inputs_accounted (g : Graph) : Prop :=
  ∀ t path, t ∈ targets g → path ∈ flattened_inputs t →
    path ∈ unresolved g ∨ ∃ d, d ∈ deps g t ∧ path ∈ flattened_outputs d.

(** The length of the longest chain of dependencies below [t], cut at
    [fuel]. *)
Fixpoint height (g : Graph) (fuel : nat) (t : Target) : nat :=
  match fuel with
  | O => O
  | S fuel => S (max_list (height g fuel <$> deps g t))
  end.

Definition rank (g : Graph) (t : Target) : nat := height g (length (targets g)) t.

(** ** The rules of [should_run], as the specification words them *)

Definition is_max (y : Z) (l : list Z) : Prop := y ∈ l ∧ ∀ x, x ∈ l → (x ≤ y)%Z.
Definition is_min (y : Z) (l : list Z) : Prop := y ∈ l ∧ ∀ x, x ∈ l → (y ≤ x)%Z.

(** Section 4.4, rules 1 and 3 to 6 in order, for a run that returns [b];
    [sr] is [should_run] on the dependencies.  In the last rule every input
    and every output has a timestamp, [yin] is the greatest of the inputs and
    [yout] the least of the outputs. *)
Definition decided_by_rules (g : Graph) (fc : FileCache)
    (sr : Target → option (result bool)) (t : Target) (b : bool) : Prop :=
  if decide (Exists (λ d, sr d = Some (Ok true)) (deps g t)) then b = true
  else if is_sink t then b = true
  else if decide (Exists (λ path, fc path = None) (flattened_outputs t)) then b = true
  else if is_source t then b = false
  else ∃ ins outs yin yout,
      fc <$> flattened_inputs t = Some <$> ins ∧
      fc <$> flattened_outputs t = Some <$> outs ∧
      is_max yin ins ∧ is_min yout outs ∧
      b = bool_decide (yout < yin)%Z.

(** The only exception [should_run] is meant to raise. *)
Definition required_file_missing (e : exn) : Prop :=
  ∃ path target, e = Workflow (FileRequiredButNotProvided path target).

(** Rule 2 of section 4.4 and the propagation of its failure: [should_run]
    raises [e] when a dependency raises [e] before any dependency should run,
    or when no dependency should run and an unresolved input of [t] is
    missing; then [e] names that path and [t]. *)
Definition raised_by_rules (g : Graph) (fc : FileCache)
    (sr : Target → option (result bool)) (t : Target) (e : exn) : Prop :=
  required_file_missing e ∧
  ((∃ d, d ∈ deps g t ∧ sr d = Some (Raise e)) ∨
   ((∀ d, d ∈ deps g t → sr d = Some (Ok false)) ∧
    ∃ path, path ∈ flattened_inputs t ∧ path ∈ unresolved g ∧ fc path = None ∧
            e = Workflow (FileRequiredButNotProvided path (name t)))).

(** ** The rules of [should_run], in the order of the code *)

(** The dependency that ends the first loop of [should_run]: the first, in
    the order in which the dependencies are evaluated, whose [should_run]
    is not [false]. *)
Definition first_decisive (sr : Target → option (result bool)) (ds : list Target)
    (d : Target) : Prop :=
  ∃ i, ds !! i = Some d ∧ sr d ≠ Some (Ok false)
       ∧ ∀ j d', j < i → ds !! j = Some d' → sr d' = Some (Ok false).

(** The first input of [t] that is unresolved and missing on disk. *)
Definition first_missing (g : Graph) (fc : FileCache) (t : Target) (path : string) : Prop :=
  ∃ i, flattened_inputs t !! i = Some path ∧ path ∈ unresolved g ∧ fc path = None
       ∧ ∀ j p, j < i → flattened_inputs t !! j = Some p →
                ¬ (p ∈ unresolved g ∧ fc p = None).

(** The rules that look at the files of [t] alone: a sink, a missing output,
    a source, then the strict comparison of the youngest input with the
    oldest output, every path of which has a timestamp. *)
Definition decided_by_files (fc : FileCache) (t : Target) (b : bool) : Prop :=
  if is_sink t then b = true
  else if decide (Exists (λ path, fc path = None) (flattened_outputs t)) then b = true
  else if is_source t then b = false
  else ∃ ins outs yin yout,
      fc <$> flattened_inputs t = Some <$> ins ∧
      fc <$> flattened_outputs t = Some <$> outs ∧
      is_max yin ins ∧ is_min yout outs ∧
      b = bool_decide (yout < yin)%Z.

(** All the rules, each with the rules before it as its condition.  The
    first dependency that does not return [false] decides: [should_run]
    returns [true] if that dependency does, and raises what it raises.  When
    every dependency returns [false], the first unresolved input that is
    missing is an error that names it and [t].  When there is none, the
    files of [t] decide. *)
Definition decided_in_order (g : Graph) (fc : FileCache)
    (sr : Target → option (result bool)) (t : Target) (r : result bool) : Prop :=
  (∃ d, first_decisive sr (deps g t) d ∧ sr d = Some r)
  ∨ ((∀ d, d ∈ deps g t → sr d = Some (Ok false))
     ∧ ((∃ path, first_missing g fc t path
                 ∧ r = Raise (Workflow (FileRequiredButNotProvided path (name t))))
        ∨ ((∀ path, path ∈ flattened_inputs t → path ∈ unresolved g → fc path ≠ None)
           ∧ ∃ b, r = Ok b ∧ decided_by_files fc t b))).

(** ** Invalidation *)

(** The states of a dependency on which [update_state] resets the
    dependent. *)
Definition invalid (st : TargetState.t) : Prop :=
  st = TargetState.FAILED ∨ st = TargetState.KILLED
  ∨ st = TargetState.CANCELLED ∨ st = TargetState.UNKNOWN.

#[global] Instance invalid_dec st : Decision (invalid st).
Proof. unfold invalid. apply _. Defined.

(** [settled g db t]: below [t], every target with an invalid dependency is
    already UNKNOWN; [update_state] has nothing left to do there. *)
Definition settled (g : Graph) (db : gmap string TargetState.t) (t : Target) : Prop :=
  ∀ x d, rtc (dep g) t x → d ∈ deps g x →
         invalid (state_of db (name d)) → state_of db (name x) = TargetState.UNKNOWN.

(** ** The table of [status], as the specification words it *)

(** Section 4.5, row by row. *)
Definition status_table (persisted : TargetState.t) (should_run : bool) : TargetStatus.t :=
  match persisted, should_run with
  | TargetState.UNKNOWN, true => TargetStatus.SHOULDRUN
  | TargetState.UNKNOWN, false => TargetStatus.COMPLETED
  | TargetState.SUBMITTED, _ => TargetStatus.SUBMITTED
  | TargetState.RUNNING, _ => TargetStatus.RUNNING
  | TargetState.COMPLETED, true => TargetStatus.SHOULDRUN
  | TargetState.COMPLETED, false => TargetStatus.COMPLETED
  | TargetState.FAILED, _ => TargetStatus.FAILED
  | TargetState.CANCELLED, _ => TargetStatus.CANCELLED
  | TargetState.KILLED, _ => TargetStatus.KILLED
  end.

(** ** Invariants of the walk for cycles *)

(** Every target has a colour. *)
Definition coloured (g : Graph) (st : gmap string colour) : Prop :=
  ∀ x, x ∈ targets g → is_Some (st !! name x).

(** The targets that are done have only done dependencies and lie on no
    cycle. *)
Definition done_closed (g : Graph) (st : gmap string colour) : Prop :=
  ∀ x, x ∈ targets g → st !! name x = Some done →
       (∀ d, d ∈ deps g x → st !! name d = Some done) ∧ ¬ tc (dep g) x x.

(** From [st] to [st'] a colour stays, or goes from fresh to done. *)
Definition advances (st st' : gmap string colour) : Prop :=
  ∀ n, st' !! n = st !! n ∨ (st !! n = Some fresh ∧ st' !! n = Some done).

Definition fresh_count (g : Graph) (st : gmap string colour) : nat :=
  length (filter (λ x, st !! name x = Some fresh) (targets g)).

(** What a run of [visitor], or of one of its loops, may end in: never in a
    recursion too deep, and in no exception but the one for a cycle. *)
Definition walk_result (g : Graph) (Post : gmap string colour → Prop)
    (r : option (result (gmap string colour))) : Prop :=
  match r with
  | None => False
  | Some (Raise e) => ∃ x, x ∈ targets g ∧ tc (dep g) x x
                          ∧ e = Workflow (CircularDependency (name x))
  | Some (Ok st') => Post st'
  end.

(** ** Options *)

(** The options a target sets to [None] have no default, or [None]. *)
Definition no_default_switched_off (option_defaults options : gmap string OptVal) : Prop :=
  ∀ k v, options !! k = Some PyNone → option_defaults !! k = Some v → v = PyNone.

(** ** Invariants of a pass *)

(** [should_run] with the fuel that suffices for every target. *)
Definition decided (self : Scheduler) (t : Target) : option (result bool) :=
  should_run (graph self) (file_cache self) (S (length (targets (graph self)))) t.

(** A target at rest: not in the dry-run memo, and reporting RUNNING or
    COMPLETED. *)
Definition resting (self : Scheduler) (s : Pass) (x : Target) : Prop :=
  (name x ∉ pretend_known s)
  ∧ (∃ b, decided self x = Some (Ok b)
          ∧ (status_table (state_of (state_db s) (name x)) b = TargetStatus.RUNNING
             ∨ status_table (state_of (state_db s) (name x)) b = TargetStatus.COMPLETED)).

(** [idle self s t]: nothing below [t] is left to do in this pass.  The
    states are settled and every target below [t] is at rest. *)
Definition idle (self : Scheduler) (s : Pass) (t : Target) : Prop :=
  settled (graph self) (state_db s) t
  ∧ (∀ x, rtc (dep (graph self)) t x → resting self s x).

(** [firm self s t]: [t] is SUBMITTED and no state below it is invalid, so
    that no update resets it. *)
Definition firm (self : Scheduler) (s : Pass) (t : Target) : Prop :=
  state_of (state_db s) (name t) = TargetState.SUBMITTED ∧
  ∀ x, rtc (dep (graph self)) t x → ¬ invalid (state_of (state_db s) (name x)).

Definition quiet (self : Scheduler) (s : Pass) (t : Target) : Prop :=
  idle self s t ∨ firm self s t.

(** The events of [s'] that [s] did not have yet. *)
Definition new_events (s s' : Pass) : list Event := drop (length (trace s)) (trace s').

Definition event_targets (l : list Event) : list string := event_target <$> l.

(** [evolves g X s s']: what scheduling inside the set [X] of targets does to
    a pass.  Events are added for targets of [X] only; the memo grows by
    targets of new events; states change for targets of [X] only, and below a
    settled target only where an event is new. *)
Record evolves (g : Graph) (X : Target → Prop) (s s' : Pass) : Prop := {
  ev_trace : trace s' = trace s ++ new_events s s';
  ev_region : ∀ e, e ∈ new_events s s' → ∃ x, X x ∧ name x = event_target e;
  ev_memo_mono : pretend_known s ⊆ pretend_known s';
  ev_memo : ∀ n, n ∈ pretend_known s' →
      n ∈ pretend_known s ∨ n ∈ event_targets (new_events s s');
  ev_frame : ∀ n, state_of (state_db s') n = state_of (state_db s) n
                  ∨ (∃ x, X x ∧ name x = n);
  ev_settled : ∀ x, x ∈ targets g → settled g (state_db s) x →
      (∀ y, rtc (dep g) x y → name y ∉ event_targets (new_events s s')) →
      ∀ y, rtc (dep g) x y → state_of (state_db s') (name y) = state_of (state_db s) (name y);
}.

(** Under dry-run the memo holds only targets with an event. *)
Definition memo_logged (s : Pass) : Prop :=
  ∀ n, n ∈ pretend_known s → n ∈ event_targets (trace s).


(** The invariant that gives it: a dependency without an earlier event is
    quiet and has no event at all. *)
Definition ordering_invariant (self : Scheduler) (s : Pass) : Prop :=
  ∀ i e x d, trace s !! i = Some e → x ∈ targets (graph self) →
    event_target e = name x → d ∈ deps (graph self) x →
    (∃ j e', j < i ∧ trace s !! j = Some e' ∧ event_target e' = name d)
    ∨ (quiet self s d ∧ name d ∉ event_targets (trace s)).

(** What a call of [schedule] on [t] guarantees, from [s] to [s'] with
    result [r]: the frame of [evolves]; no event below an idle target; firm
    targets stay firm and get no event; an idle target is not submitted; a
    call that returns [false] leaves [t] idle and adds no event; a call that
    returns [true] leaves [t] with an event or firm; the ordering invariant
    is kept. *)
Record schedule_post (self : Scheduler) (s : Pass) (t : Target) (s' : Pass)
    (r : result bool) : Prop := {
  sp_evolves : evolves (graph self) (rtc (dep (graph self)) t) s s';
  sp_idle : ∀ x, x ∈ targets (graph self) → idle self s x →
      ∀ y, rtc (dep (graph self)) x y → name y ∉ event_targets (new_events s s');
  sp_firm : ∀ x, x ∈ targets (graph self) → firm self s x →
      firm self s' x ∧ name x ∉ event_targets (new_events s s');
  sp_idle_false : idle self s t → r = Ok false;
  sp_false : r = Ok false → idle self s' t ∧ new_events s s' = [];
  sp_true : r = Ok true → memo_logged s →
      name t ∈ event_targets (trace s') ∨ firm self s' t;
  sp_ordering : memo_logged s → ordering_invariant self s → ordering_invariant self s';
}.

(** The same for the loop of [schedule] over the dependencies [ds], where
    [r] carries the names of the dependencies that returned [true]. *)
Record schedule_deps_post (self : Scheduler) (s : Pass) (ds : list Target)
    (sd0 : gset string) (s' : Pass) (r : result (gset string)) : Prop := {
  dp_evolves : evolves (graph self)
      (λ x, ∃ d, d ∈ ds ∧ rtc (dep (graph self)) d x) s s';
  dp_idle : ∀ x, x ∈ targets (graph self) → idle self s x →
      ∀ y, rtc (dep (graph self)) x y → name y ∉ event_targets (new_events s s');
  dp_firm : ∀ x, x ∈ targets (graph self) → firm self s x →
      firm self s' x ∧ name x ∉ event_targets (new_events s s');
  dp_idle_false : (∀ d, d ∈ ds → idle self s d) → r = Ok sd0;
  dp_mono : ∀ sd, r = Ok sd → sd0 ⊆ sd;
  dp_false : r = Ok ∅ → (∀ d, d ∈ ds → idle self s' d) ∧ new_events s s' = [];
  dp_quiet : ∀ sd, r = Ok sd → memo_logged s →
      ∀ d, d ∈ ds → name d ∈ event_targets (trace s') ∨ quiet self s' d;
  dp_ordering : memo_logged s → ordering_invariant self s → ordering_invariant self s';
}.

(** The events a loop over [ds] has added, grouped by dependency: one
    segment for each dependency the loop has reached, in the order of [ds],
    each with events for targets below that dependency only. *)
Definition segments_of (g : Graph) (ds : list Target) (segs : list (list Event)) : Prop :=
  Forall2 (λ d seg, ∀ e, e ∈ seg → ∃ x, rtc (dep g) d x ∧ name x = event_target e)
          (take (length segs) ds) segs.

(** ** Traversal and endpoints *)

(** [Graph.endpoints]: the targets that are no key of [dependents]. *)
Definition endpoints (g : Graph) : list Target :=
  filter (λ t, name t ∉ dom (dependents g)) (targets g).

(** The loop of [dfs_inner] over the dependencies of a node; the state is
    the set [visited] and the list [path]. *)
Fixpoint dfs_deps (rec : Target → gset string * list Target → option (gset string * list Target))
    (ds : list Target) (st : gset string * list Target)
    : option (gset string * list Target) :=
  match ds with
  | [] => Some st
  | dep :: ds =>
      match rec dep st with
      | Some st => dfs_deps rec ds st
      | None => None
      end
  end.

Fixpoint dfs_inner (g : Graph) (fuel : nat) (node : Target) (st : gset string * list Target)
    : option (gset string * list Target) :=
  match fuel with
  | O => None
  | S fuel =>
      if decide (name node ∈ st.1) then Some st
      else
        match dfs_deps (dfs_inner g fuel) (deps g node) ({[name node]} ∪ st.1, st.2) with
        | Some (visited, path) => Some (visited, path ++ [node])
        | None => None
        end
  end.

(** [Graph.dfs]; a call of [dfs_inner] that goes past the test of [visited]
    adds a node to it, so the recursion is never deeper than the number of
    nodes plus one. *)
Definition dfs (g : Graph) (root : Target) : option (list Target) :=
  snd <$> dfs_inner g (S (length (targets g))) root (∅, []).

(** ** Invariants of the traversal *)

(** The targets [dfs] has not visited yet. *)
Definition unvisited (g : Graph) (visited : gset string) : nat :=
  length (filter (λ x, name x ∉ visited) (targets g)).

(** [dfs_extends g st st' new]: from [st] to [st'] the traversal has added
    [new] to the path.  The nodes of [new] were not visited before, each is
    there once, their dependencies are visited, and a dependency of a node
    is either visited before, or earlier in [new], or on a cycle with the
    node. *)
Record dfs_extends (g : Graph) (st st' : gset string * list Target) (new : list Target)
    : Prop := {
  de_path : st'.2 = st.2 ++ new;
  de_visited : st'.1 = st.1 ∪ list_to_set (name <$> new);
  de_fresh : ∀ x, x ∈ new → name x ∉ st.1;
  de_nodup : NoDup (name <$> new);
  de_targets : ∀ x, x ∈ new → x ∈ targets g;
  de_closed : ∀ x d, x ∈ new → d ∈ deps g x → name d ∈ st'.1;
  de_order : ∀ i x d, new !! i = Some x → d ∈ deps g x →
      name d ∈ st.1 ∨ d ∈ take i new ∨ rtc (dep g) d x;
}.

(** What a call of [dfs_inner] on [node] gives: it comes back, [node] is
    visited, the nodes it has added are below [node], and [node] is the last
    of them unless it was visited before. *)
Definition dfs_inner_post (g : Graph) (node : Target) (st : gset string * list Target)
    (r : option (gset string * list Target)) : Prop :=
  ∃ st' new, r = Some st' ∧ dfs_extends g st st' new
    ∧ name node ∈ st'.1 ∧ (∀ x, x ∈ new → rtc (dep g) node x)
    ∧ (name node ∉ st.1 → last new = Some node).

(** [dependents] is [dependencies] turned around. *)
Definition dependents_inverse (g : Graph) : Prop :=
  ∀ n x, x ∈ default [] (dependents g !! n) ↔
         x ∈ targets g ∧ ∃ d, d ∈ deps g x ∧ name d = n.

(** What [from_targets] has computed: a path is provided by the target that
    lists it as output; a dependency of a target provides one of its inputs;
    a path is unresolved when it is an input that no target provides. *)
Record resolved (g : Graph) : Prop := {
  rs_provides : ∀ p t, provides g !! p = Some t ↔ t ∈ targets g ∧ p ∈ flattened_outputs t;
  rs_dependencies : ∀ t d, t ∈ targets g →
      d ∈ deps g t ↔ ∃ p, p ∈ flattened_inputs t ∧ provides g !! p = Some d;
  rs_nodup : ∀ t, NoDup (deps g t);
  rs_unresolved : ∀ p, p ∈ unresolved g ↔
      provides g !! p = None ∧ ∃ t, t ∈ targets g ∧ p ∈ flattened_inputs t;
  rs_dependents : dependents_inverse g;
  rs_dependents_keys : ∀ n, n ∈ dom (dependents g) ↔
      ∃ x d, x ∈ targets g ∧ d ∈ deps g x ∧ name d = n;
}.

(** [consumes ts t d]: the target [d] of [ts] lists as output a path that
    [t] lists as input. *)
Definition consumes (ts : list Target) (t d : Target) : Prop :=
  d ∈ ts ∧ ∃ p, p ∈ flattened_inputs t ∧ p ∈ flattened_outputs d.

(** ** What [update_state] changes *)

(** From [db] to [db'] a state stays or has been reset. *)
Definition only_resets (db db' : gmap string TargetState.t) : Prop :=
  ∀ n, state_of db' n = state_of db n ∨ state_of db' n = TargetState.UNKNOWN.

(** Every state that differs belongs to a target below [t] that has a
    dependency in a state that invalidates it. *)
Definition reset_for_cause (g : Graph) (t : Target) (db db' : gmap string TargetState.t)
    : Prop :=
  ∀ n, state_of db' n ≠ state_of db n →
    ∃ x d, rtc (dep g) t x ∧ name x = n ∧ d ∈ deps g x ∧ invalid (state_of db' (name d)).

(** ** What a call of [schedule] emits *)

(** [emitted self X e]: the event [e] is what the scheduler emits for a
    target of [X]: under dry-run the record that it would submit it, else a
    call of [backend.submit] whose dependencies are dependencies of the
    target. *)
Definition emitted (self : Scheduler) (X : Target → Prop) (e : Event) : Prop :=
  ∃ x, X x ∧
    if dry_run self then e = WouldSubmit (name x)
    else ∃ sd : gset string, e = Submit (name x) sd
           ∧ ∀ n, n ∈ sd → ∃ d, d ∈ deps (graph self) x ∧ name d = n.

(** [emits self X s s']: from [s] to [s'] the pass has added events for
    targets of [X]; under dry-run it has added their targets to the memo and
    has only reset states; else it has left the memo alone. *)
Definition emits (self : Scheduler) (X : Target → Prop) (s s' : Pass) : Prop :=
  ∃ l, trace s' = trace s ++ l
    ∧ Forall (emitted self X) l
    ∧ pretend_known s'
      = (if dry_run self then pretend_known s ∪ list_to_set (event_target <$> l)
         else pretend_known s)
    ∧ (dry_run self = true → only_resets (state_db s) (state_db s')).

(** The states in which a target that should not run is left alone. *)
Definition at_rest (st : TargetState.t) : Prop :=
  st = TargetState.UNKNOWN ∨ st = TargetState.COMPLETED ∨ st = TargetState.RUNNING.

(** ** What a pass covers *)

(** [covered self s y]: every target below [y] that should run has an event
    in the trace of [s]. *)
Definition covered (self : Scheduler) (s : Pass) (y : Target) : Prop :=
  ∀ x, rtc (dep (graph self)) y x → decided self x = Some (Ok true) →
       name x ∈ event_targets (trace s).

(** The invariant of a pass that began with no target stored as SUBMITTED or
    RUNNING: a target stored as SUBMITTED, or held in the memo, has an
    event; no target is stored as RUNNING; and a target with an event is
    covered. *)
Record accounted (self : Scheduler) (s : Pass) : Prop := {
  ac_submitted : ∀ n, state_of (state_db s) n = TargetState.SUBMITTED →
      n ∈ event_targets (trace s);
  ac_running : ∀ n, state_of (state_db s) n ≠ TargetState.RUNNING;
  ac_memo : memo_logged s;
  ac_covered : ∀ y, y ∈ targets (graph self) → name y ∈ event_targets (trace s) →
      covered self s y;
}.

(** ** Why a target is submitted *)

(** [cause self s s' x]: a reason for which the pass, from [s] to [s'],
    submits [x]: it should run; or it was stored as FAILED, KILLED or
    CANCELLED; or one of its dependencies is submitted in the pass, or was
    stored as SUBMITTED, or was in the memo. *)
Definition cause (self : Scheduler) (s s' : Pass) (x : Target) : Prop :=
  decided self x = Some (Ok true)
  ∨ (state_of (state_db s) (name x) = TargetState.FAILED
     ∨ state_of (state_db s) (name x) = TargetState.KILLED
     ∨ state_of (state_db s) (name x) = TargetState.CANCELLED)
  ∨ ∃ d, d ∈ deps (graph self) x
      ∧ (name d ∈ event_targets (trace s')
         ∨ state_of (state_db s) (name d) = TargetState.SUBMITTED
         ∨ name d ∈ pretend_known s).

(** [justified self X s s']: the events added from [s] to [s'] are for
    targets of [X] and have a cause; a state that differs is UNKNOWN, or
    SUBMITTED for a target with a new event; the memo has grown by targets
    with a new event. *)
Definition justified (self : Scheduler) (X : Target → Prop) (s s' : Pass) : Prop :=
  ∃ l, trace s' = trace s ++ l
    ∧ (∀ e, e ∈ l → ∃ x, X x ∧ event_target e = name x ∧ cause self s s' x)
    ∧ (∀ n, state_of (state_db s') n = state_of (state_db s) n
            ∨ state_of (state_db s') n = TargetState.UNKNOWN
            ∨ (state_of (state_db s') n = TargetState.SUBMITTED ∧ n ∈ event_targets l))
    ∧ (∀ n, n ∈ pretend_known s' → n ∈ pretend_known s ∨ n ∈ event_targets l).

(** What a call of [schedule] that returns [true] says of [t]. *)
Definition submitted_or_known (s s' : Pass) (t : Target) : Prop :=
  name t ∈ event_targets (trace s')
  ∨ state_of (state_db s) (name t) = TargetState.SUBMITTED
  ∨ name t ∈ pretend_known s.

(** ** A pass under dry-run *)

(** No target has two events, and every target with an event is in the
    memo. *)
Definition recorded (s : Pass) : Prop :=
  NoDup (event_targets (trace s))
  ∧ ∀ n, n ∈ event_targets (trace s) → n ∈ pretend_known s.

(** ** gwf/workflow.py *)

Module workflow.

(** The exceptions that the modelled code raises: the [WorkflowError]s of
    workflow.py with their messages, the KeyError of a dictionary, and the
    RuntimeError of a dictionary that changes while it is iterated. *)
Inductive error :=
  | TargetExists (target_name : string)
  | NotNamed
  | SameName
  | MissingKey (key : string)        (* KeyError *)
  | ChangedSize.                     (* RuntimeError: dictionary changed size during iteration *)

#[global] Instance error_eq_dec : EqDecision error.
Proof. solve_decision. Defined.

(** The loop of [select] over [fields] for one item:
    [dct[name] = item[name]]. *)
Fixpoint select_item {V} (fields : list string) (item dct : gmap string V)
    : gmap string V + error :=
  match fields with
  | [] => inl dct
  | name :: fields =>
      match item !! name with
      | Some v => select_item fields item (<[name := v]> dct)
      | None => inr (MissingKey name)
      end
  end.

(** [select] is a generator.  A consumer gets the dictionaries yielded for
    the items before the first one that lacks a field, and then the
    KeyError; the pair is what was yielded and how the iteration ended. *)
Fixpoint select {V} (lst : list (gmap string V)) (fields : list string)
    : list (gmap string V) * option error :=
  match lst with
  | [] => ([], None)
  | item :: lst =>
      match select_item fields item ∅ with
      | inl dct => let '(out, e) := select lst fields in (dct :: out, e)
      | inr e => ([], Some e)
      end
  end.

(** [rename.get(name, name + "s")] *)
Definition selected_name (rename : gmap string string) (name : string) : string :=
  default (name +:+ "s") (rename !! name).

(** The inner loop of [collect] for one item;
    [selected] is a [defaultdict(list)]. *)
Fixpoint collect_item {V} (rename : gmap string string) (fields : list string)
    (item : gmap string V) (selected : gmap string (list V)) : gmap string (list V) + error :=
  match fields with
  | [] => inl selected
  | name :: fields =>
      match item !! name with
      | Some v =>
          collect_item rename fields item
            (<[selected_name rename name :=
                 default [] (selected !! selected_name rename name) ++ [v]]> selected)
      | None => inr (MissingKey name)
      end
  end.

Fixpoint collect_from {V} (rename : gmap string string) (fields : list string)
    (lst : list (gmap string V)) (selected : gmap string (list V))
    : gmap string (list V) + error :=
  match lst with
  | [] => inl selected
  | item :: lst =>
      match collect_item rename fields item selected with
      | inl selected => collect_from rename fields lst selected
      | inr e => inr e
      end
  end.

(** [collect(lst, fields, rename)]; [rename=None] is the empty mapping. *)
Definition collect {V} (lst : list (gmap string V)) (fields : list string)
    (rename : gmap string string) : gmap string (list V) + error :=
  collect_from rename fields lst ∅.

(** The part of a [Workflow] that the graph is built from: its name and its
    dictionary of targets, in the order of insertion. *)
Record Workflow := {
  workflow_name : option string;
  workflow_targets : list (string * Target);
}.

(** A workflow is an object, and [include_workflow] can be given the
    workflow it is called on: its argument is this workflow itself, or
    another object.  Each workflow makes its own dictionary of targets in
    [__init__], so the dictionary of another workflow is another
    dictionary. *)
Inductive Included :=
  | Itself
  | Another (other_workflow : Workflow).

Definition included (self : Workflow) (other_workflow : Included) : Workflow :=
  match other_workflow with
  | Itself => self
  | Another w => w
  end.

Definition with_name (n : string) (t : Target) : Target :=
  {| name := n; flattened_inputs := flattened_inputs t;
     flattened_outputs := flattened_outputs t; options := options t |}.

Section qualname.
(** [Target.qualname] is not among the sources (workflow.py imports [Target]
    from gwf.core, which does not define it here); it is a parameter. *)
Variable qualname : Target → string → string.

(** [Workflow._add_target]; the result is the dictionary of targets. *)
Definition add_target (targets : list (string * Target)) (target : Target)
    (namespace : option string) : list (string * Target) + error :=
  let target :=
    match namespace with
    | Some ns => with_name (qualname target ns) target
    | None => target
    end in
  if decide (name target ∈ targets.*1) then inr (TargetExists (name target))
  else inl (targets ++ [(name target, target)]).

(** The target as [_add_target] stores it. *)
Definition qualified (namespace : option string) (target : Target) : Target :=
  match namespace with
  | Some ns => with_name (qualname target ns) target
  | None => target
  end.

(** The dictionary [other_workflow.targets] while the loop of
    [include_workflow] runs, [targets] being the dictionary of this
    workflow: the same dictionary when the workflow includes itself. *)
Definition live_targets (other_workflow : Included) (targets : list (string * Target))
    : list (string * Target) :=
  match other_workflow with
  | Itself => targets
  | Another w => workflow_targets w
  end.

(** The loop [for target in other_workflow.targets.values()].  The iterator
    keeps the size [used] that the dictionary had when the loop began, and
    its position; [rest] is what is left from the position to that size.  At
    each step it first compares the size of the dictionary with [used], and
    raises when they differ; then it takes the entry at the position, or
    ends.  [_add_target] gets a copy of the target; the targets added before
    an error stay in the workflow. *)
Fixpoint add_targets (rest used : nat) (targets : list (string * Target))
    (other_workflow : Included) (namespace : option string)
    : list (string * Target) * option error :=
  if decide (length (live_targets other_workflow targets) ≠ used)
  then (targets, Some ChangedSize)
  else
    match rest with
    | O => (targets, None)
    | S rest =>
        match live_targets other_workflow targets !! (used - S rest) with
        | None => (targets, None)
        | Some (_, target) =>
            match add_target targets target namespace with
            | inl targets => add_targets rest used targets other_workflow namespace
            | inr e => (targets, Some e)
            end
        end
    end.

(** Python's [namespace or other_workflow.name]: an empty namespace is
    false. *)
Definition namespace_or (namespace other_name : option string) : option string :=
  match namespace with
  | Some ns => if decide (ns = "") then other_name else Some ns
  | None => other_name
  end.

(** [Workflow.include_workflow]; the result is this workflow after the call
    and the exception, if any. *)
Definition include_workflow (self : Workflow) (other_workflow : Included)
    (namespace : option string) : Workflow * option error :=
  let other_name := workflow_name (included self other_workflow) in
  if decide (other_name = None ∧ namespace = None) then (self, Some NotNamed)
  else
    let namespace_prefix := namespace_or namespace other_name in
    if decide (namespace_prefix = workflow_name self) then (self, Some SameName)
    else
      let used := length (live_targets other_workflow (workflow_targets self)) in
      let '(targets, e) :=
        add_targets used used (workflow_targets self) other_workflow namespace_prefix in
      ({| workflow_name := workflow_name self; workflow_targets := targets |}, e).
End qualname.

(** The qualified name that the documentation of [include] shows:
    the namespace, a dot, the name. *)
Definition dotted (t : Target) (ns : string) : string := ns +:+ "." +:+ name t.

(** The dictionary of targets is keyed by the names of its targets, each
    key once. *)
Definition keyed (targets : list (string * Target)) : Prop :=
  NoDup targets.*1 ∧ ∀ k t, (k, t) ∈ targets → name t = k.

(** [restrict fields item]: the entries of [item] whose key is a field. *)
Definition restrict {V} (fields : list string) (item : gmap string V) : gmap string V :=
  filter (λ kv, kv.1 ∈ fields) item.

(** What [collect] appends under the key [n] for one item: the values of the
    fields that are collected under [n], in the order of the fields. *)
Definition collected {V} (rename : gmap string string) (fields : list string) (n : string)
    (item : gmap string V) : list V :=
  omap (λ k, item !! k) (filter (λ k, selected_name rename k = n) fields).

End workflow.

(** ** Workflows of the examples *)

(** A workflow with the first target of the chain, and a workflow named
    [sub] with the second. *)
Definition main_workflow : workflow.Workflow :=
  {| workflow.workflow_name := None; workflow.workflow_targets := [("A", tA)] |}.

Definition sub_workflow : workflow.Workflow :=
  {| workflow.workflow_name := Some "sub"; workflow.workflow_targets := [("B", tB)] |}.

(** A target with a dependency and an input that no target provides. *)
Definition tE : Target := target "E" ["a"; "ext"] ["e"].

Definition lone_dependent : Graph :=
  {| targets := [tA; tE];
     provides := {[ "a" := tA; "e" := tE ]};
     dependencies := {[ "E" := [tA] ]};
     dependents := {[ "A" := [tE] ]};
     unresolved := {["ext"]} |}.

(** ** Scheduling a target again *)

(** The states that a sequence of calls of [schedule] reaches from the
    beginning of a pass, whatever the calls return. *)
Inductive in_pass (self : Scheduler) (fuel : nat) (db : gmap string TargetState.t)
    : Pass → Prop :=
  | in_pass_new : in_pass self fuel db (new_pass db)
  | in_pass_schedule s t s' r :
      in_pass self fuel db s → t ∈ targets (graph self) →
      schedule self fuel t s = Some (s', r) → in_pass self fuel db s'.

(** [calm self s d]: nothing that [schedule] asks about [d] raises.
    [should_run] of [d] returns; and the dedup test will fire for [d], or
    the dependencies of [d] are calm. *)
Inductive calm (self : Scheduler) (s : Pass) : Target → Prop :=
  | calm_gate d b :
      decided self d = Some (Ok b) →
      firm self s d ∨ name d ∈ pretend_known s →
      calm self s d
  | calm_deps d b :
      decided self d = Some (Ok b) →
      (∀ d', d' ∈ deps (graph self) d → calm self s d') →
      calm self s d.

(** [sure self s d]: [d] has an event in the pass, or is firm. *)
Definition sure (self : Scheduler) (s : Pass) (d : Target) : Prop :=
  name d ∈ event_targets (trace s) ∨ firm self s d.

(** [hot self s x]: what a pass keeps of a target with an event.
    [should_run] returns for it.  Under dry-run it is in the memo.  Else it is
    stored as SUBMITTED, or has been reset; its dependencies are calm; and
    when it should not run, it is firm or one of its dependencies is
    sure. *)
Definition hot (self : Scheduler) (s : Pass) (x : Target) : Prop :=
  ∃ b, decided self x = Some (Ok b)
    ∧ if dry_run self then name x ∈ pretend_known s
      else (state_of (state_db s) (name x) = TargetState.SUBMITTED
            ∨ state_of (state_db s) (name x) = TargetState.UNKNOWN)
           ∧ (∀ d, d ∈ deps (graph self) x → calm self s d)
           ∧ (b = false →
              firm self s x ∨ ∃ d, d ∈ deps (graph self) x ∧ sure self s d).

Definition pass_invariant (self : Scheduler) (s : Pass) : Prop :=
  memo_logged s
  ∧ ∀ x, x ∈ targets (graph self) → name x ∈ event_targets (trace s) → hot self s x.

(** [proceeds self s s']: what every step of a pass keeps.  Firm targets
    stay firm, the memo and the trace grow, and a state that changes becomes
    UNKNOWN or SUBMITTED. *)
Record proceeds (self : Scheduler) (s s' : Pass) : Prop := {
  pr_firm : ∀ x, x ∈ targets (graph self) → firm self s x → firm self s' x;
  pr_memo : pretend_known s ⊆ pretend_known s';
  pr_trace : ∃ l, trace s' = trace s ++ l;
  pr_states : ∀ n, state_of (state_db s') n = state_of (state_db s) n
                   ∨ state_of (state_db s') n = TargetState.UNKNOWN
                   ∨ state_of (state_db s') n = TargetState.SUBMITTED;
}.

(** What a call of [schedule] on [d] gives for the calls that follow: the
    invariant is kept; a call that returns leaves [d] calm, and leaves it
    sure when it returns [true]; a call on a calm target returns; on a firm
    target it does not return [false]; on a target with an event it returns
    [true]. *)
Record again_post (self : Scheduler) (s : Pass) (d : Target) (s' : Pass)
    (r : result bool) : Prop := {
  ag_invariant : pass_invariant self s';
  ag_proceeds : proceeds self s s';
  ag_calm : ∀ b, r = Ok b → calm self s' d;
  ag_sure : r = Ok true → sure self s' d;
  ag_returns : calm self s d → ∃ b, r = Ok b;
  ag_firm : firm self s d → ∀ b, r = Ok b → b = true;
  ag_event : name d ∈ event_targets (trace s) → r = Ok true;
}.

(** * Proofs *)

(** ** Ranks in acyclic graphs *)

Section rank.
Context (g : Graph).
Hypothesis Hwf : well_formed g.
Hypothesis Hacyclic : acyclic g.

Lemma rtc_dep_targets t d : t ∈ targets g → rtc (dep g) t d → d ∈ targets g.
Proof.
  intros Ht Hr. induction Hr as [|x y z Hxy _ IH]; [done|].
  apply IH. eapply wf_closed; eauto.
Qed.

Lemma name_inj x y : x ∈ targets g → y ∈ targets g → name x = name y → x = y.
Proof.
  intros Hx Hy Hxy. pose proof (wf_names g Hwf) as Hnd.
  apply list_elem_of_lookup in Hx as [i Hi]. apply list_elem_of_lookup in Hy as [j Hj].
  assert (i = j) as ->; [|congruence].
  eapply NoDup_lookup; [exact Hnd| |]; rewrite list_lookup_fmap.
  - by rewrite Hi.
  - by rewrite Hj, Hxy.
Qed.

Lemma max_list_le (l : list nat) (n : nat) : Forall (λ x, x ≤ n) l → max_list l ≤ n.
Proof. induction 1; simpl; lia. Qed.

Lemma height_le fuel t : height g fuel t ≤ fuel.
Proof.
  revert t. induction fuel as [|fuel IH]; intros t; simpl; [lia|].
  apply le_n_S, max_list_le, Forall_fmap, Forall_forall. intros d _. apply IH.
Qed.

(** Along a chain of dependencies no target comes twice, so a chain is no
    longer than the list of targets; beyond that the height is stable. *)
Lemma height_stable fuel path t :
  NoDup path → t ∈ path →
  (∀ a, a ∈ path → a ∈ targets g ∧ rtc (dep g) a t) →
  length (targets g) < fuel + length path →
  height g (S fuel) t = height g fuel t.
Proof.
  revert path t. induction fuel as [|fuel IH]; intros path t Hnd Ht Hpath Hlen.
  - exfalso. assert (length path ≤ length (targets g)); [|lia].
    apply submseteq_length, NoDup_submseteq; [done|]. intros a Ha. by apply Hpath.
  - change (S (max_list (height g (S fuel) <$> deps g t))
            = S (max_list (height g fuel <$> deps g t))).
    f_equal. f_equal. apply list_fmap_ext. intros i d Hd.
    apply list_elem_of_lookup_2 in Hd.
    assert (d ∉ path) as Hnew.
    { intros Hin. destruct (Hpath d Hin) as [Hdt Hr].
      apply (Hacyclic d Hdt). eapply tc_rtc_l; [exact Hr|]. by apply tc_once. }
    apply (IH (d :: path)).
    + by constructor.
    + set_solver.
    + intros a [->|Ha]%elem_of_cons.
      * split; [|done]. eapply wf_closed; [done| |exact Hd]. by apply Hpath.
      * destruct (Hpath a Ha) as [? Hr]. split; [done|].
        eapply rtc_r; [exact Hr|exact Hd].
    + simpl. lia.
Qed.

Lemma height_rank fuel t :
  t ∈ targets g → length (targets g) ≤ fuel → height g fuel t = rank g t.
Proof.
  intros Ht. induction 1 as [|fuel Hle IH]; [done|].
  rewrite <-IH. apply (height_stable _ [t]).
  - apply NoDup_singleton.
  - set_solver.
  - intros a ->%list_elem_of_singleton. done.
  - simpl. lia.
Qed.

Lemma rank_dep t d : t ∈ targets g → d ∈ deps g t → rank g d < rank g t.
Proof.
  intros Ht Hd.
  rewrite <-(height_rank (S (length (targets g))) t) by (done || lia).
  simpl. apply Nat.lt_succ_r.
  change (rank g d) with (height g (length (targets g)) d).
  apply max_list_elem_of_le, list_elem_of_fmap. eauto.
Qed.

Lemma rank_le t : rank g t ≤ length (targets g).
Proof. apply height_le. Qed.
End rank.

(** ** [should_run] *)

Lemma any_dep_should_run_ext rec rec' ds r :
  (∀ d r, d ∈ ds → rec d = Some r → rec' d = Some r) →
  any_dep_should_run rec ds = Some r → any_dep_should_run rec' ds = Some r.
Proof.
  intros Hrec. induction ds as [|d ds IH]; simpl; [done|].
  destruct (rec d) as [rd|] eqn:Hd; [|done].
  rewrite (Hrec d rd) by (done || set_solver).
  destruct rd as [[]|]; try done. apply IH. intros ????. apply Hrec; set_solver.
Qed.

Lemma should_run_fuel_mono g fc fuel fuel' t r :
  should_run g fc fuel t = Some r → fuel ≤ fuel' → should_run g fc fuel' t = Some r.
Proof.
  revert fuel' t r. induction fuel as [|fuel IH]; intros fuel' t r; [done|].
  intros Hr Hle. destruct fuel' as [|fuel']; [lia|]. simpl in *.
  destruct (any_dep_should_run (should_run g fc fuel) (deps g t)) as [rd|] eqn:Hd; [|done].
  rewrite (any_dep_should_run_ext _ (should_run g fc fuel') _ _
             ltac:(intros; apply IH; [done|lia]) Hd).
  done.
Qed.

Lemma any_dep_should_run_false rec ds :
  any_dep_should_run rec ds = Some (Ok false) ↔ ∀ d, d ∈ ds → rec d = Some (Ok false).
Proof.
  induction ds as [|d ds IH]; simpl.
  - split; [|done]. intros _ d Hd. by apply elem_of_nil in Hd.
  - split.
    + intros H d' Hd'. destruct (rec d) as [[[]|]|] eqn:Hd; try done.
      apply elem_of_cons in Hd' as [->|Hd']; [done|]. by apply IH.
    + intros H. rewrite (H d) by set_solver. apply IH. intros d' Hd'. apply H. set_solver.
Qed.

Lemma any_dep_should_run_true rec ds :
  any_dep_should_run rec ds = Some (Ok true) → ∃ d, d ∈ ds ∧ rec d = Some (Ok true).
Proof.
  induction ds as [|d ds IH]; simpl; [done|].
  destruct (rec d) as [[[]|]|] eqn:Hd; try done.
  - intros _. exists d. split; [set_solver|done].
  - intros (d' & ? & ?)%IH. exists d'. split; [set_solver|done].
Qed.

(** The loop ends in an exception only with the exception of a dependency. *)
Lemma any_dep_should_run_raise rec ds e :
  any_dep_should_run rec ds = Some (Raise e) → ∃ d, d ∈ ds ∧ rec d = Some (Raise e).
Proof.
  induction ds as [|d ds IH]; simpl; [done|].
  destruct (rec d) as [[[]|]|] eqn:Hd; try done.
  - intros (d' & ? & ?)%IH. exists d'. split; [set_solver|done].
  - intros [= <-]. exists d. split; [set_solver|done].
Qed.

Lemma any_dep_should_run_total rec ds :
  (∀ d, d ∈ ds → is_Some (rec d)) → is_Some (any_dep_should_run rec ds).
Proof.
  induction ds as [|d ds IH]; simpl; [done|]. intros H.
  destruct (H d) as [[[]|] ->]; [set_solver|done| |done].
  apply IH. intros d' ?. apply H. set_solver.
Qed.

Lemma missing_required_None g fc t :
  missing_required g fc t = None ↔
  ∀ path, path ∈ flattened_inputs t → path ∈ unresolved g → fc path ≠ None.
Proof.
  unfold missing_required. rewrite head_None. split.
  - intros Hnil path Hin Hun Hfc. by eapply filter_nil_not_elem_of.
  - intros H. induction (flattened_inputs t) as [|p l IH]; [done|].
    rewrite filter_cons. destruct (decide _) as [[??]|_].
    + exfalso. eapply H; [|done..]. set_solver.
    + apply IH. intros ???. apply H; [set_solver|done].
Qed.

Lemma missing_required_Some g fc t path :
  missing_required g fc t = Some path →
  path ∈ flattened_inputs t ∧ path ∈ unresolved g ∧ fc path = None.
Proof.
  unfold missing_required. intros H%head_Some_elem_of.
  apply list_elem_of_filter in H. tauto.
Qed.

(** A dependency that should not run has all its outputs on disk. *)
Lemma should_run_false_outputs g fc fuel t path :
  should_run g fc fuel t = Some (Ok false) → path ∈ flattened_outputs t → fc path ≠ None.
Proof.
  destruct fuel as [|fuel]; [done|]. simpl.
  destruct (any_dep_should_run _ _) as [[[]|]|]; try done.
  destruct (missing_required g fc t); [done|].
  destruct (is_sink t); [done|].
  case_bool_decide as Hout; [done|].
  intros _ Hin Hfc. apply Hout, Exists_exists. eauto.
Qed.

(** *** Python's [max] and [min] on pairs whose timestamps are all present *)

Lemma max_from_present (c : Z) (cp : string) (l : list (Z * string)) :
  ∃ y p, max_from (Some c, cp) (prod_map Some id <$> l) = Ok (Some y, p)
         ∧ is_max y (c :: l.*1).
Proof.
  revert c cp. induction l as [|[x xp] l IH]; intros c cp; simpl.
  - exists c, cp. split; [done|]. split; [set_solver|]. intros ? ->%list_elem_of_singleton. lia.
  - unfold pair_gt; simpl. destruct (decide (Some x = Some c)) as [[= ->]|Hne].
    + destruct (IH c (if (if decide (xp = cp) then false else String.ltb cp xp) then xp else cp))
        as (y & p & Hy & Hin & Hmax).
      exists y, p. split.
      { by destruct (if decide (xp = cp) then false else String.ltb cp xp). }
      split; [set_solver|]. intros z Hz. apply Hmax. set_solver.
    + simpl. case_bool_decide as Hlt.
      * destruct (IH x xp) as (y & p & Hy & Hin & Hmax). exists y, p.
        split; [done|]. split; [set_solver|].
        intros z [->|Hz]%elem_of_cons; [|apply Hmax; set_solver].
        etrans; [|apply (Hmax x); set_solver]. lia.
      * destruct (IH c cp) as (y & p & Hy & Hin & Hmax). exists y, p.
        split; [done|]. split; [set_solver|].
        intros z [->|[->|Hz]%elem_of_cons]%elem_of_cons; [apply Hmax; set_solver| |apply Hmax; set_solver].
        etrans; [|apply (Hmax c); set_solver]. lia.
Qed.

Lemma min_from_present (c : Z) (cp : string) (l : list (Z * string)) :
  ∃ y p, min_from (Some c, cp) (prod_map Some id <$> l) = Ok (Some y, p)
         ∧ is_min y (c :: l.*1).
Proof.
  revert c cp. induction l as [|[x xp] l IH]; intros c cp; simpl.
  - exists c, cp. split; [done|]. split; [set_solver|]. intros ? ->%list_elem_of_singleton. lia.
  - unfold pair_lt, pair_gt; simpl. destruct (decide (Some c = Some x)) as [[= ->]|Hne].
    + destruct (IH x (if (if decide (cp = xp) then false else String.ltb xp cp) then xp else cp))
        as (y & p & Hy & Hin & Hmin).
      exists y, p. split.
      { by destruct (if decide (cp = xp) then false else String.ltb xp cp). }
      split; [set_solver|]. intros z Hz. apply Hmin. set_solver.
    + simpl. case_bool_decide as Hlt.
      * destruct (IH x xp) as (y & p & Hy & Hin & Hmin). exists y, p.
        split; [done|]. split; [set_solver|].
        intros z [->|Hz]%elem_of_cons; [|apply Hmin; set_solver].
        etrans; [apply (Hmin x); set_solver|]. lia.
      * destruct (IH c cp) as (y & p & Hy & Hin & Hmin). exists y, p.
        split; [done|]. split; [set_solver|].
        intros z [->|[->|Hz]%elem_of_cons]%elem_of_cons; [apply Hmin; set_solver| |apply Hmin; set_solver].
        etrans; [apply (Hmin c); set_solver|]. lia.
Qed.

Lemma present_pairs (fc : FileCache) (l : list string) :
  (∀ path, path ∈ l → fc path ≠ None) →
  ∃ l' : list (Z * string),
    (λ path, (fc path, path)) <$> l = prod_map Some id <$> l' ∧ fc <$> l = Some <$> l'.*1.
Proof.
  induction l as [|p l IH]; intros H.
  - by exists [].
  - destruct IH as (l' & H1 & H2); [intros ??; apply H; set_solver|].
    destruct (fc p) as [z|] eqn:Hp; [|exfalso; eapply H; [|done]; set_solver].
    exists ((z, p) :: l'). by rewrite !fmap_cons, Hp, H1, H2.
Qed.

Lemma py_max_present (l : list (Z * string)) :
  l ≠ [] → ∃ y p, py_max (prod_map Some id <$> l) = Ok (Some y, p) ∧ is_max y l.*1.
Proof. destruct l as [|[c cp] l]; [done|]. intros _. apply max_from_present. Qed.

Lemma py_min_present (l : list (Z * string)) :
  l ≠ [] → ∃ y p, py_min (prod_map Some id <$> l) = Ok (Some y, p) ∧ is_min y l.*1.
Proof. destruct l as [|[c cp] l]; [done|]. intros _. apply min_from_present. Qed.

(** [max] and [min] raise no [WorkflowError]. *)
Lemma pair_gt_raise x y e : pair_gt x y = Raise e → e = TypeError.
Proof.
  unfold pair_gt, ts_gt. destruct (decide _); [done|].
  destruct x.1, y.1; congruence.
Qed.

Lemma max_from_raise cur l e : max_from cur l = Raise e → e = TypeError.
Proof.
  revert cur. induction l as [|x l IH]; intros cur; simpl; [done|].
  destruct (pair_gt x cur) as [b|e'] eqn:Hgt; [apply IH|].
  intros [= <-]. by eapply pair_gt_raise.
Qed.

Lemma min_from_raise cur l e : min_from cur l = Raise e → e = TypeError.
Proof.
  revert cur. induction l as [|x l IH]; intros cur; simpl; [done|].
  destruct (pair_lt x cur) as [b|e'] eqn:Hlt; [apply IH|].
  intros [= <-]. by eapply pair_gt_raise.
Qed.

Lemma py_max_raise l e w : py_max l = Raise e → e ≠ Workflow w.
Proof.
  destruct l as [|x l]; simpl; [by intros [= <-]|]. by intros ->%max_from_raise.
Qed.

Lemma py_min_raise l e w : py_min l = Raise e → e ≠ Workflow w.
Proof.
  destruct l as [|x l]; simpl; [by intros [= <-]|]. by intros ->%min_from_raise.
Qed.

Section termination.
Context (g : Graph) (fc : FileCache).
Hypothesis Hwf : well_formed g.
Hypothesis Hacyclic : acyclic g.

Lemma should_run_terminates fuel t :
  t ∈ targets g → rank g t < fuel → is_Some (should_run g fc fuel t).
Proof.
  revert t. induction fuel as [|fuel IH]; intros t Ht Hrank; [lia|]. simpl.
  destruct (any_dep_should_run_total (should_run g fc fuel) (deps g t)) as [rd Hrd].
  { intros d Hd. apply IH; [by eapply wf_closed|].
    pose proof (rank_dep g Hwf Hacyclic t d Ht Hd). lia. }
  rewrite Hrd. destruct rd as [[]|]; [done| |done].
  destruct (missing_required g fc t); [done|].
  destruct (is_sink t); [done|]. case_bool_decide; [done|].
  destruct (is_source t); [done|].
  destruct (py_max _) as [[]|]; [|done]. by destruct (py_min _) as [[]|].
Qed.

Lemma should_run_any_fuel fuel fuel' t :
  t ∈ targets g → rank g t < fuel → rank g t < fuel' →
  should_run g fc fuel t = should_run g fc fuel' t.
Proof.
  intros Ht H1 H2.
  destruct (should_run_terminates (S (rank g t)) t Ht) as [r Hr]; [lia|].
  rewrite (should_run_fuel_mono _ _ _ fuel _ _ Hr) by lia.
  by rewrite (should_run_fuel_mono _ _ _ fuel' _ _ Hr) by lia.
Qed.

Lemma dep_fuel fuel t d :
  t ∈ targets g → d ∈ deps g t → length (targets g) < S fuel →
  d ∈ targets g ∧ rank g d < fuel.
Proof.
  intros Ht Hd Hfuel. split; [by eapply wf_closed|].
  pose proof (rank_dep g Hwf Hacyclic t d Ht Hd). pose proof (rank_le g t). lia.
Qed.
End termination.

Section should_run.
Context (g : Graph) (fc : FileCache).
Hypothesis Hwf : well_formed g.
Hypothesis Hinputs : inputs_accounted g.

(** One unfolding of [should_run], the dependencies having been decided. *)
Lemma should_run_step fuel t :
  t ∈ targets g →
  (∀ d, d ∈ deps g t → ∃ r, should_run g fc fuel d = Some r
                           ∧ match r with Ok _ => True | Raise e => required_file_missing e end) →
  ∃ r, should_run g fc (S fuel) t = Some r ∧
       match r with
       | Ok b => decided_by_rules g fc (should_run g fc fuel) t b
       | Raise e => raised_by_rules g fc (should_run g fc fuel) t e
       end.
Proof.
  intros Ht Hdeps. simpl. unfold decided_by_rules.
  destruct (any_dep_should_run_total (should_run g fc fuel) (deps g t)) as [rd Hrd].
  { intros d Hd. destruct (Hdeps d Hd) as (r & -> & _). done. }
  rewrite Hrd. destruct rd as [[]|e].
  - eexists; split; [done|]. simpl. rewrite decide_True; [done|].
    apply Exists_exists. by apply any_dep_should_run_true.
  - pose proof (proj1 (any_dep_should_run_false _ _) Hrd) as Hfalse.
    destruct (missing_required g fc t) as [path|] eqn:Hmiss.
    { eexists; split; [done|]. split; [by eexists _, _|]. right. split; [done|].
      exists path. apply missing_required_Some in Hmiss. naive_solver. }
    assert (¬ Exists (λ d, should_run g fc fuel d = Some (Ok true)) (deps g t)) as Hno.
    { intros (d & Hd & Hdt)%Exists_exists. by rewrite (Hfalse d Hd) in Hdt. }
    destruct (is_sink t) eqn:Hsink.
    { eexists; split; [done|]. simpl. by rewrite decide_False. }
    case_bool_decide as Hout.
    { eexists; split; [done|]. simpl. by rewrite decide_False, decide_True. }
    destruct (is_source t) eqn:Hsource.
    { eexists; split; [done|]. simpl. by rewrite decide_False, decide_False. }
    destruct (present_pairs fc (flattened_inputs t)) as (ins & Hins & Hins').
    { intros path Hpath. destruct (Hinputs t path Ht Hpath) as [Hun|(d & Hd & Hp)].
      - by apply (proj1 (missing_required_None g fc t) Hmiss).
      - eapply should_run_false_outputs; [by apply Hfalse|done]. }
    destruct (present_pairs fc (flattened_outputs t)) as (outs & Houts & Houts').
    { intros path Hpath Hfc. apply Hout, Exists_exists. eauto. }
    destruct (py_max_present ins) as (yin & pin & Hmax & Hyin).
    { intros ->. unfold is_source in Hsource. apply bool_decide_eq_false in Hsource.
      apply Hsource. by destruct (flattened_inputs t). }
    destruct (py_min_present outs) as (yout & pout & Hmin & Hyout).
    { intros ->. unfold is_sink in Hsink. apply bool_decide_eq_false in Hsink.
      apply Hsink. by destruct (flattened_outputs t). }
    rewrite Hins, Hmax, Houts, Hmin. eexists; split; [done|]. simpl.
    rewrite decide_False, decide_False by done.
    exists ins.*1, outs.*1, yin, yout. done.
  - eexists; split; [done|].
    apply any_dep_should_run_raise in Hrd as (d & Hd & Hr).
    destruct (Hdeps d Hd) as (r & Hr' & Hclass). rewrite Hr in Hr'. injection Hr' as <-.
    split; [done|]. left. eauto.
Qed.

Hypothesis Hacyclic : acyclic g.

Lemma should_run_total fuel t :
  t ∈ targets g → rank g t < fuel →
  ∃ r, should_run g fc fuel t = Some r
       ∧ match r with Ok _ => True | Raise e => required_file_missing e end.
Proof.
  revert t. induction fuel as [|fuel IH]; intros t Ht Hrank; [lia|].
  destruct (should_run_step fuel t Ht) as (r & Hr & Hclass).
  - intros d Hd. apply IH; [by eapply wf_closed|].
    pose proof (rank_dep g Hwf Hacyclic t d Ht Hd). lia.
  - exists r. split; [done|]. destruct r; [done|]. apply Hclass.
Qed.

Lemma should_run_rules fuel t :
  t ∈ targets g → length (targets g) < fuel →
  ∃ r, should_run g fc fuel t = Some r ∧
       match r with
       | Ok b => decided_by_rules g fc (should_run g fc fuel) t b
       | Raise e => raised_by_rules g fc (should_run g fc fuel) t e
       end.
Proof.
  intros Ht Hfuel. destruct fuel as [|fuel]; [lia|].
  assert (∀ d, d ∈ deps g t → should_run g fc fuel d = should_run g fc (S fuel) d) as Heq.
  { intros d Hd. pose proof (rank_dep g Hwf Hacyclic t d Ht Hd).
    pose proof (rank_le g t).
    apply (should_run_any_fuel g fc Hwf Hacyclic); [by eapply wf_closed|lia..]. }
  destruct (should_run_step fuel t Ht) as (r & Hr & Hrules).
  { intros d Hd. apply should_run_total; [by eapply wf_closed|].
    pose proof (rank_dep g Hwf Hacyclic t d Ht Hd). pose proof (rank_le g t). lia. }
  exists r. split; [done|]. destruct r as [b|e].
  - unfold decided_by_rules in *.
    assert (Exists (λ d, should_run g fc fuel d = Some (Ok true)) (deps g t)
            ↔ Exists (λ d, should_run g fc (S fuel) d = Some (Ok true)) (deps g t)) as Hiff.
    { rewrite !Exists_exists. split; intros (d & Hd & H); exists d; split; try done.
      - by rewrite <-Heq. - by rewrite Heq. }
    destruct (decide (Exists (λ d, should_run g fc fuel d = Some (Ok true)) (deps g t))).
    + rewrite decide_True; [done|]. by apply Hiff.
    + rewrite decide_False; [done|]. by rewrite <-Hiff.
  - destruct Hrules as [Hreq Hrules]. split; [done|].
    destruct Hrules as [(d & Hd & H)|[Hall Hpath]].
    + left. exists d. split; [done|]. by rewrite <-Heq.
    + right. split; [|done]. intros d Hd. rewrite <-Heq by done. by apply Hall.
Qed.
End should_run.

(** ** [update_state] *)

Lemma invalid_test (m : TargetMeta) :
  is_failed m || is_killed m || is_cancelled m || is_unknown m = true ↔ invalid (state m).
Proof.
  unfold is_failed, is_killed, is_cancelled, is_unknown, invalid.
  rewrite !orb_true_iff, !bool_decide_eq_true. tauto.
Qed.

Lemma state_of_insert db n st n' :
  state_of (<[n := st]> db) n' = if decide (n = n') then st else state_of db n'.
Proof. unfold state_of. rewrite lookup_insert. by destruct (decide (n = n')). Qed.

Section update_state.
Context (g : Graph).
Hypothesis Hwf : well_formed g.
Hypothesis Hacyclic : acyclic g.

(** A target is not below any of its dependencies. *)
Lemma below_dep_name t d x :
  t ∈ targets g → d ∈ deps g t → rtc (dep g) d x → name x ≠ name t.
Proof.
  intros Ht Hd Hr Hname.
  assert (d ∈ targets g) as Hdt by by eapply wf_closed.
  assert (x = t) as -> by (apply (name_inj g Hwf); [by eapply rtc_dep_targets|done..]).
  apply (Hacyclic t Ht). eapply tc_rtc_r; [by apply tc_once|done].
Qed.

Lemma settled_below db t x : settled g db t → rtc (dep g) t x → settled g db x.
Proof. intros Hs Hr y d Hy. apply Hs. by etrans. Qed.

Lemma settled_ext db db' t :
  (∀ x, rtc (dep g) t x → state_of db' (name x) = state_of db (name x)) →
  settled g db t → settled g db' t.
Proof.
  intros Heq Hs x d Hx Hd. rewrite !Heq; [by apply Hs|done|].
  eapply rtc_r; [done|exact Hd].
Qed.

(** The loop of [update_state] at [t], from a handle that agrees with the
    store, given what the recursive calls do on the dependencies. *)
Lemma update_deps_props fuel t ds m0 db0 db' m' :
  t ∈ targets g →
  (∀ d db db' m, d ∈ deps g t → update_state g fuel d db = Some (db', m) →
     state m = state_of db' (name d) ∧ settled g db' d
     ∧ (∀ x, x ∈ targets g → settled g db x →
           ∀ y, rtc (dep g) x y → state_of db' (name y) = state_of db (name y))
     ∧ (∀ n, state_of db' n = state_of db n ∨ ∃ x, rtc (dep g) d x ∧ name x = n)) →
  (∀ d, d ∈ ds → d ∈ deps g t) →
  meta_target m0 = name t → state m0 = state_of db0 (name t) →
  update_deps (update_state g fuel) ds m0 db0 = Some (db', m') →
  meta_target m' = name t ∧ state m' = state_of db' (name t)
  ∧ (state m' = state m0 ∨ state m' = TargetState.UNKNOWN)
  ∧ (∀ d, d ∈ ds → settled g db' d
        ∧ (invalid (state_of db' (name d)) → state_of db' (name t) = TargetState.UNKNOWN))
  ∧ (∀ x, x ∈ targets g → settled g db0 x →
        ∀ y, rtc (dep g) x y → state_of db' (name y) = state_of db0 (name y))
  ∧ (∀ n, state_of db' n = state_of db0 n ∨ ∃ x, rtc (dep g) t x ∧ name x = n).
Proof.
  intros Ht Hrec. revert m0 db0. induction ds as [|d ds IH]; intros m0 db0 Hds Hm0 Hst0 Hrun.
  - simpl in Hrun. injection Hrun as <- <-.
    split; [done|]. split; [done|]. split; [by left|]. split; [|split; [done|by left]].
    intros d Hd. by apply elem_of_nil in Hd.
  - simpl in Hrun.
    assert (d ∈ deps g t) as Hd by (apply Hds; set_solver).
    assert (d ∈ targets g) as Hdt by by eapply wf_closed.
    destruct (update_state g fuel d db0) as [[db1 dep_state]|] eqn:Hd1; [|done].
    destruct (Hrec d db0 db1 dep_state Hd Hd1) as (Hdep & Hsd & Hkeep1 & Hframe1').
    assert (∀ n, (∀ x, rtc (dep g) d x → name x ≠ n) → state_of db1 n = state_of db0 n)
      as Hframe1.
    { intros n Hn. destruct (Hframe1' n) as [?|(x & Hx & Hxn)]; [done|]. by destruct (Hn x). }
    assert (state_of db1 (name t) = state_of db0 (name t)) as Ht1.
    { apply Hframe1. intros x Hx. by eapply below_dep_name. }
    (* the state after the test on [dep_state] *)
    set (m2 := if is_failed dep_state || is_killed dep_state
                  || is_cancelled dep_state || is_unknown dep_state
               then (reset true m0 db1).1 else m0).
    set (db2 := if is_failed dep_state || is_killed dep_state
                   || is_cancelled dep_state || is_unknown dep_state
                then (reset true m0 db1).2 else db1).
    assert (update_deps (update_state g fuel) ds m2 db2 = Some (db', m')) as Hrun2.
    { subst m2 db2. by destruct (_ || _). }
    assert (meta_target m2 = name t) as Hm2 by (subst m2; by destruct (_ || _)).
    assert (state m2 = state_of db2 (name t)) as Hst2.
    { subst m2 db2. destruct (_ || _); simpl; [|congruence].
      unfold commit; simpl. rewrite state_of_insert, Hm0. by rewrite decide_True. }
    assert (∀ n, n ≠ name t → state_of db2 n = state_of db1 n) as Hother.
    { intros n Hn. subst db2. destruct (_ || _); simpl; [|done].
      unfold commit; simpl. rewrite state_of_insert, Hm0. by rewrite decide_False. }
    assert (invalid (state_of db1 (name d)) → state_of db2 (name t) = TargetState.UNKNOWN)
      as Hreset.
    { intros Hinv. rewrite <-Hdep in Hinv. apply invalid_test in Hinv.
      subst db2. rewrite Hinv. simpl. unfold commit; simpl.
      rewrite state_of_insert, Hm0. by rewrite decide_True. }
    assert (state m2 = state m0 ∨ state m2 = TargetState.UNKNOWN) as Hm2st.
    { subst m2. destruct (_ || _); simpl; auto. }
    assert (∀ x, x ∈ targets g → settled g db1 x →
              ∀ y, rtc (dep g) x y → state_of db2 (name y) = state_of db1 (name y)) as Hkeep2.
    { intros x Hx Hsx y Hy. destruct (decide (name y = name t)) as [Hyt|Hyt]; [|by apply Hother].
      assert (y = t) as -> by (apply (name_inj g Hwf); [by eapply rtc_dep_targets|done..]).
      subst db2. destruct (_ || _) eqn:Htest; simpl; [|done].
      unfold commit; simpl. rewrite state_of_insert, Hm0, decide_True by done.
      symmetry. apply (Hsx t d Hy Hd). apply invalid_test in Htest. by rewrite <-Hdep. }
    destruct (IH m2 db2) as (Hm' & Hst' & Hor & Hdone & Hkeep & Hframe); try done.
    { intros d' Hd'. apply Hds. set_solver. }
    assert (settled g db2 d) as Hsd2.
    { eapply settled_ext; [|exact Hsd]. intros x Hx. apply Hother. by eapply below_dep_name. }
    split; [done|]. split; [done|]. split; [|split; [|split]].
    + destruct Hor as [->| ->]; [|by right]. done.
    + intros d' [->|Hd']%elem_of_cons; [|by apply Hdone]. split.
      * eapply settled_ext; [|exact Hsd2]. intros x Hx. by apply (Hkeep d Hdt Hsd2).
      * rewrite (Hkeep d Hdt Hsd2 d (rtc_refl _ _)).
        rewrite Hother by (by eapply below_dep_name).
        intros Hinv. rewrite <-Hst'.
        destruct Hor as [->| ->]; [|done]. rewrite Hst2. by apply Hreset.
    + intros x Hx Hsx y Hy.
      assert (settled g db1 x) as Hsx1.
      { eapply settled_ext; [|exact Hsx]. intros z Hz. by apply (Hkeep1 x). }
      assert (settled g db2 x) as Hsx2.
      { eapply settled_ext; [|exact Hsx1]. intros z Hz. by apply (Hkeep2 x). }
      rewrite (Hkeep x Hx Hsx2 y Hy), (Hkeep2 x Hx Hsx1 y Hy). by apply (Hkeep1 x).
    + intros n. destruct (Hframe n) as [->|?]; [|by right].
      destruct (decide (n = name t)) as [->|Hn]; [right; by exists t|].
      rewrite Hother by done.
      destruct (Hframe1' n) as [->|(x & Hx & Hxn)]; [by left|].
      right. exists x. split; [|done]. eapply rtc_l; [exact Hd|done].
Qed.
Lemma update_state_props fuel t db db' m :
  t ∈ targets g → update_state g fuel t db = Some (db', m) →
  meta_target m = name t ∧ state m = state_of db' (name t) ∧ settled g db' t
  ∧ (∀ x, x ∈ targets g → settled g db x →
        ∀ y, rtc (dep g) x y → state_of db' (name y) = state_of db (name y))
  ∧ (∀ n, state_of db' n = state_of db n ∨ ∃ x, rtc (dep g) t x ∧ name x = n).
Proof.
  revert t db db' m. induction fuel as [|fuel IH]; intros t db db' m Ht Hrun; [done|].
  simpl in Hrun.
  destruct (update_deps_props fuel t (deps g t) (get_target_meta t db) db db' m)
    as (Hm & Hst & _ & Hdone & Hkeep & Hframe); try done.
  { intros d db1 db2 m1 Hd Hd1.
    destruct (IH d db1 db2 m1) as (_ & ? & ? & ? & ?); [by eapply wf_closed|done|done]. }
  split; [done|]. split; [done|]. split; [|done].
  intros x d Hx Hd Hinv. apply rtc_inv in Hx as [<-|(d0 & Hd0 & Hx)].
  - by apply (Hdone d Hd).
  - by apply (proj1 (Hdone d0 Hd0) x d).
Qed.

Lemma update_deps_total (rec : Target → gmap string TargetState.t → option (gmap string TargetState.t * TargetMeta))
    ds m db :
  (∀ d db, d ∈ ds → is_Some (rec d db)) → is_Some (update_deps rec ds m db).
Proof.
  revert m db. induction ds as [|d ds IH]; intros m db Hrec; simpl; [done|].
  destruct (Hrec d db) as [[db1 m1] ->]; [set_solver|].
  destruct (_ || _); simpl; apply IH; intros ???; apply Hrec; set_solver.
Qed.

Lemma update_state_total fuel t db :
  t ∈ targets g → rank g t < fuel → is_Some (update_state g fuel t db).
Proof.
  revert t db. induction fuel as [|fuel IH]; intros t db Ht Hrank; [lia|].
  simpl. apply update_deps_total. intros d db1 Hd.
  apply IH; [by eapply wf_closed|].
  pose proof (rank_dep g Hwf Hacyclic t d Ht Hd). lia.
Qed.

(** Where everything is settled, [update_state] changes no state. *)
Lemma update_state_settled fuel t db db' m :
  t ∈ targets g → settled g db t → update_state g fuel t db = Some (db', m) →
  (∀ n, state_of db' n = state_of db n) ∧ state m = state_of db (name t).
Proof.
  intros Ht Hs Hrun.
  destruct (update_state_props fuel t db db' m Ht Hrun) as (_ & Hst & _ & Hkeep & Hframe).
  assert (∀ n, state_of db' n = state_of db n) as Hall.
  { intros n. destruct (Hframe n) as [?|(x & Hx & <-)]; [done|]. by apply (Hkeep t). }
  split; [done|]. by rewrite Hst.
Qed.

End update_state.

(** ** [status] *)

Lemma status_of_table m b : status_of m b = Some (status_table (state m) b).
Proof.
  unfold status_of, is_unknown, is_submitted, is_running, is_completed,
    is_failed, is_cancelled, is_killed.
  destruct (state m), b; done.
Qed.

(** ** The walk for cycles *)

Lemma filter_length_le {A} (P Q : A → Prop) `{∀ x, Decision (P x)} `{∀ x, Decision (Q x)}
    (l : list A) :
  (∀ x, x ∈ l → P x → Q x) → length (filter P l) ≤ length (filter Q l).
Proof.
  induction l as [|a l IH]; intros HPQ; [done|].
  rewrite !filter_cons. assert (∀ x, x ∈ l → P x → Q x) by (intros ???; apply HPQ; set_solver).
  destruct (decide (P a)) as [HP|]; destruct (decide (Q a)) as [|HQ]; simpl.
  - apply le_n_S; auto.
  - destruct HQ. apply HPQ; [set_solver|done].
  - apply Nat.le_le_succ_r; auto.
  - auto.
Qed.

Lemma filter_length_lt {A} (P Q : A → Prop) `{∀ x, Decision (P x)} `{∀ x, Decision (Q x)}
    (l : list A) (a : A) :
  a ∈ l → Q a → ¬ P a →
  (∀ x, x ∈ l → P x → Q x) → length (filter P l) < length (filter Q l).
Proof.
  induction l as [|b l IH]; intros Ha HQa HPa HPQ; [by apply elem_of_nil in Ha|].
  rewrite !filter_cons. assert (∀ x, x ∈ l → P x → Q x) by (intros ???; apply HPQ; set_solver).
  apply elem_of_cons in Ha as [<-|Ha].
  - rewrite decide_False, decide_True by done. simpl.
    apply Nat.lt_succ_r. by apply filter_length_le.
  - destruct (decide (P b)) as [HP|]; destruct (decide (Q b)) as [|HQ]; simpl.
    + apply ->Nat.succ_lt_mono; auto.
    + destruct HQ. apply HPQ; [set_solver|done].
    + apply Nat.lt_lt_succ_r; auto.
    + auto.
Qed.

Lemma tc_inv_first {A} (R : relation A) x z : tc R x z → ∃ y, R x y ∧ rtc R y z.
Proof.
  destruct 1 as [x z Hxz|x y z Hxy Hyz].
  - exists z. by split.
  - exists y. split; [done|]. by apply tc_rtc.
Qed.

Section walk.
Context (g : Graph).
Hypothesis Hwf : well_formed g.

Lemma advances_refl st : advances st st.
Proof. intros n. by left. Qed.

Lemma advances_trans st1 st2 st3 : advances st1 st2 → advances st2 st3 → advances st1 st3.
Proof.
  intros H12 H23 n. destruct (H12 n) as [E12|[? E12]], (H23 n) as [E23|[? E23]].
  - left. congruence.
  - right. split; congruence.
  - right. split; congruence.
  - congruence.
Qed.

Lemma advances_fresh_count st st' : advances st st' → fresh_count g st' ≤ fresh_count g st.
Proof.
  intros Hadv. apply filter_length_le. intros x _ Hx.
  destruct (Hadv (name x)) as [<-|[_ ?]]; [done|congruence].
Qed.

Lemma advances_done st st' n : advances st st' → st !! n = Some done → st' !! n = Some done.
Proof. intros Hadv Hn. destruct (Hadv n) as [->|[? _]]; [done|congruence]. Qed.

Lemma advances_started st st' n :
  advances st st' → st' !! n = Some started ↔ st !! n = Some started.
Proof. intros Hadv. destruct (Hadv n) as [->|[? ?]]; [done|]. split; congruence. Qed.

Lemma advances_coloured st st' : advances st st' → coloured g st → coloured g st'.
Proof.
  intros Hadv Hc x Hx. destruct (Hadv (name x)) as [->|[_ ->]]; [by apply Hc|done].
Qed.

(** What is done stays closed under the dependencies. *)
Lemma done_closed_rtc st x y :
  done_closed g st → x ∈ targets g → st !! name x = Some done → rtc (dep g) x y →
  st !! name y = Some done.
Proof.
  intros Hdone Hx Hst Hr. induction Hr as [|x y z Hxy _ IH]; [done|].
  apply IH.
  - eapply wf_closed; eauto.
  - by apply (Hdone x).
Qed.

Lemma fresh_count_started st node :
  node ∈ targets g → st !! name node = Some fresh →
  fresh_count g (<[name node := started]> st) < fresh_count g st.
Proof.
  intros Hnode Hfresh. apply (filter_length_lt _ _ _ node); try done.
  - by rewrite lookup_insert_eq.
  - intros x _. rewrite lookup_insert. by case_decide as Hn; [|]; [rewrite <-Hn|].
Qed.

(** The loop of [visitor] over the dependencies of [node], which is
    started. *)
Lemma visit_deps_spec fuel node ds st :
  (∀ d st, d ∈ targets g → st !! name d = Some fresh →
     coloured g st → done_closed g st →
     (∀ x, x ∈ targets g → st !! name x = Some started → rtc (dep g) x d) →
     fresh_count g st < fuel →
     walk_result g (λ st', advances st st' ∧ st' !! name d = Some done ∧ done_closed g st')
       (visitor g fuel d st)) →
  node ∈ targets g → (∀ d, d ∈ ds → d ∈ deps g node) →
  st !! name node = Some started → coloured g st → done_closed g st →
  (∀ x, x ∈ targets g → st !! name x = Some started → rtc (dep g) x node) →
  fresh_count g st < fuel →
  walk_result g (λ st', advances st st' ∧ done_closed g st'
                        ∧ ∀ d, d ∈ ds → st' !! name d = Some done)
    (visit_deps (visitor g fuel) node ds st).
Proof.
  intros Hvisit Hnode. revert st.
  induction ds as [|d ds IH]; intros st Hds Hst Hcol Hdone Hreach Hfuel; simpl.
  - split; [apply advances_refl|]. split; [done|]. intros d Hd. by apply elem_of_nil in Hd.
  - assert (d ∈ deps g node) as Hd by (apply Hds; set_solver).
    assert (d ∈ targets g) as Hdt by by eapply wf_closed.
    assert (∀ d', d' ∈ ds → d' ∈ deps g node) as Hds' by (intros ??; apply Hds; set_solver).
    destruct (Hcol d Hdt) as [c Hc]. rewrite Hc. destruct c.
    + (* fresh: visit it *)
      assert (∀ x, x ∈ targets g → st !! name x = Some started → rtc (dep g) x d) as Hreach'.
      { intros x Hx Hxs. eapply rtc_r; [by apply Hreach|exact Hd]. }
      pose proof (Hvisit d st Hdt Hc Hcol Hdone Hreach' Hfuel) as Hv.
      destruct (visitor g fuel d st) as [[st1|e]|]; simpl in *; [|done..].
      destruct Hv as (Hadv & Hd1 & Hdone1).
      assert (fresh_count g st1 < fuel) as Hfuel1.
      { pose proof (advances_fresh_count st st1 Hadv). lia. }
      assert (∀ x, x ∈ targets g → st1 !! name x = Some started → rtc (dep g) x node)
        as Hreach1.
      { intros x Hx Hxs. apply Hreach; [done|]. by apply (advances_started st st1). }
      pose proof (IH st1 Hds' (proj2 (advances_started st st1 _ Hadv) Hst)
                    (advances_coloured st st1 Hadv Hcol) Hdone1 Hreach1 Hfuel1) as Hrest.
      destruct (visit_deps (visitor g fuel) node ds st1) as [[st2|e]|]; simpl in *; [|done..].
      destruct Hrest as (Hadv2 & Hdone2 & Hall).
      split; [by eapply advances_trans|]. split; [done|].
      intros d' [->|Hd']%elem_of_cons; [|by apply Hall].
      by eapply advances_done.
    + (* started: a cycle through [node] *)
      exists node. split; [done|]. split; [|done].
      eapply tc_rtc_r; [by apply tc_once|]. by apply Hreach.
    + (* done: skip it *)
      specialize (IH st Hds' Hst Hcol Hdone Hreach Hfuel).
      destruct (visit_deps (visitor g fuel) node ds st) as [[st2|e]|]; simpl in *; try done.
      destruct IH as (Hadv2 & Hdone2 & Hall).
      split; [done|]. split; [done|].
      intros d' [->|Hd']%elem_of_cons; [|by apply Hall].
      by eapply advances_done.
Qed.

Lemma visitor_spec fuel node st :
  node ∈ targets g → st !! name node = Some fresh →
  coloured g st → done_closed g st →
  (∀ x, x ∈ targets g → st !! name x = Some started → rtc (dep g) x node) →
  fresh_count g st < fuel →
  walk_result g (λ st', advances st st' ∧ st' !! name node = Some done ∧ done_closed g st')
    (visitor g fuel node st).
Proof.
  revert node st. induction fuel as [|fuel IH];
    intros node st Hnode Hfresh Hcol Hdone Hreach Hfuel; [lia|].
  simpl. set (st1 := <[name node := started]> st).
  assert (∀ n, n ≠ name node → st1 !! n = st !! n) as Hother.
  { intros n Hn. subst st1. by rewrite lookup_insert_ne. }
  assert (st1 !! name node = Some started) as Hst1 by apply lookup_insert_eq.
  assert (coloured g st1) as Hcol1.
  { intros x Hx. destruct (decide (name x = name node)) as [->|Hn]; [by rewrite Hst1|].
    rewrite Hother by done. by apply Hcol. }
  assert (done_closed g st1) as Hdone1.
  { intros x Hx Hxd.
    assert (name x ≠ name node) as Hn by (intros Hn; rewrite Hn in Hxd; congruence).
    rewrite Hother in Hxd by done. destruct (Hdone x Hx Hxd) as [Hdeps Hcyc].
    split; [|done]. intros d Hd.
    rewrite Hother; [by apply Hdeps|]. intros Hn'.
    specialize (Hdeps d Hd). rewrite Hn' in Hdeps. congruence. }
  assert (∀ x, x ∈ targets g → st1 !! name x = Some started → rtc (dep g) x node) as Hreach1.
  { intros x Hx Hxs. destruct (decide (name x = name node)) as [Hn|Hn].
    - by rewrite (name_inj g Hwf x node).
    - rewrite Hother in Hxs by done. by apply Hreach. }
  assert (fresh_count g st1 < fuel) as Hfuel1.
  { pose proof (fresh_count_started st node Hnode Hfresh). subst st1. lia. }
  pose proof (visit_deps_spec fuel node (deps g node) st1 IH Hnode
                (λ _ H, H) Hst1 Hcol1 Hdone1 Hreach1 Hfuel1) as Hloop.
  destruct (visit_deps (visitor g fuel) node (deps g node) st1) as [[st2|e]|];
    simpl in *; [|done..].
  destruct Hloop as (Hadv & Hdone2 & Hall).
  assert (st2 !! name node = Some started) as Hst2 by by apply (advances_started st1 st2).
  split; [|split].
  - intros n. rewrite lookup_insert. case_decide as Hn; [subst n; by right|].
    rewrite <-Hother by done. apply Hadv.
  - apply lookup_insert_eq.
  - intros x Hx. rewrite lookup_insert. case_decide as Hn.
    + intros _. apply symmetry, (name_inj g Hwf) in Hn as ->; try done. split.
      * intros d Hd. rewrite lookup_insert. case_decide; [done|]. by apply Hall.
      * intros (d & Hd & Hr)%tc_inv_first.
        assert (d ∈ targets g) as Hdt by by eapply wf_closed.
        pose proof (done_closed_rtc st2 d node Hdone2 Hdt (Hall d Hd) Hr). congruence.
    + intros Hxd. destruct (Hdone2 x Hx Hxd) as [Hdeps Hcyc]. split; [|done].
      intros d Hd. rewrite lookup_insert. case_decide; [done|]. by apply Hdeps.
Qed.

(** The loop of the check over all nodes: no node is started between two
    visits. *)
Lemma visit_all_spec fuel nodes st :
  (∀ x, x ∈ nodes → x ∈ targets g) →
  coloured g st → done_closed g st →
  (∀ x, x ∈ targets g → st !! name x ≠ Some started) →
  fresh_count g st < fuel →
  walk_result g (λ st', advances st st' ∧ done_closed g st'
                        ∧ ∀ x, x ∈ nodes → st' !! name x = Some done)
    (visit_all g fuel nodes st).
Proof.
  revert st. induction nodes as [|node nodes IH];
    intros st Hnodes Hcol Hdone Hns Hfuel; simpl.
  - split; [apply advances_refl|]. split; [done|]. intros x Hx. by apply elem_of_nil in Hx.
  - assert (node ∈ targets g) as Hnode by (apply Hnodes; set_solver).
    assert (∀ x, x ∈ nodes → x ∈ targets g) as Hnodes' by (intros ??; apply Hnodes; set_solver).
    destruct (Hcol node Hnode) as [c Hc]. rewrite Hc.
    assert (∀ st1, advances st st1 → done_closed g st1 → st1 !! name node = Some done →
              walk_result g (λ st', advances st st' ∧ done_closed g st'
                        ∧ ∀ x, x ∈ node :: nodes → st' !! name x = Some done)
                (visit_all g fuel nodes st1)) as Hrest.
    { intros st1 Hadv Hdone1 Hnd.
      assert (∀ x, x ∈ targets g → st1 !! name x ≠ Some started) as Hns1.
      { intros x Hx Hxs. apply (Hns x Hx). by apply (advances_started st st1). }
      assert (fresh_count g st1 < fuel) as Hfuel1.
      { pose proof (advances_fresh_count st st1 Hadv). lia. }
      specialize (IH st1 Hnodes' (advances_coloured st st1 Hadv Hcol) Hdone1 Hns1 Hfuel1).
      destruct (visit_all g fuel nodes st1) as [[st2|e]|]; simpl in *; [|done..].
      destruct IH as (Hadv2 & Hdone2 & Hall).
      split; [by eapply advances_trans|]. split; [done|].
      intros x [->|Hx]%elem_of_cons; [by eapply advances_done|by apply Hall]. }
    destruct c.
    + assert (∀ x, x ∈ targets g → st !! name x = Some started → rtc (dep g) x node) as Hreach.
      { intros x Hx Hxs. by destruct (Hns x Hx). }
      pose proof (visitor_spec fuel node st Hnode Hc Hcol Hdone Hreach Hfuel) as Hv.
      destruct (visitor g fuel node st) as [[st1|e]|]; simpl in *; [|done..].
      destruct Hv as (Hadv & Hnd & Hdone1). by apply Hrest.
    + by destruct (Hns node Hnode).
    + apply Hrest; [apply advances_refl|done..].
Qed.

Lemma initial_colours_fresh x :
  x ∈ targets g → initial_colours (targets g) !! name x = Some fresh.
Proof.
  intros Hx. unfold initial_colours. apply elem_of_list_to_map_1.
  - rewrite <-list_fmap_compose. apply (wf_names g Hwf).
  - apply list_elem_of_fmap. by exists x.
Qed.

Lemma initial_colours_inv n c : initial_colours (targets g) !! n = Some c → c = fresh.
Proof.
  unfold initial_colours. intros H%elem_of_list_to_map_2.
  apply list_elem_of_fmap in H as (x & [= _ ->] & _). done.
Qed.

(** The check ends; it raises only for a cycle, and when it does not raise
    there is none. *)
Lemma check_for_circular_dependencies_spec :
  walk_result g (λ _, acyclic g) (check_for_circular_dependencies g).
Proof.
  unfold check_for_circular_dependencies.
  assert (walk_result g
            (λ st', advances (initial_colours (targets g)) st' ∧ done_closed g st'
                    ∧ ∀ x, x ∈ targets g → st' !! name x = Some done)
            (visit_all g (S (length (targets g))) (targets g)
               (initial_colours (targets g)))) as Hall.
  { apply visit_all_spec; [done|..].
    - intros x Hx. rewrite initial_colours_fresh by done. by exists fresh.
    - intros x Hx Hd. by apply initial_colours_inv in Hd.
    - intros x Hx Hs. by apply initial_colours_inv in Hs.
    - apply Nat.lt_succ_r. unfold fresh_count. apply length_filter. }
  destruct (visit_all g _ (targets g) _) as [[st|e]|]; simpl in *; [|done..].
  destruct Hall as (_ & Hdone & Hall).
  intros x Hx. by apply (Hdone x Hx), Hall.
Qed.

End walk.

(** ** Checking the hypotheses on a given graph *)

Lemma well_formed_checked g :
  NoDup (name <$> targets g) →
  Forall (λ t, Forall (λ d, d ∈ targets g) (deps g t)) (targets g) →
  well_formed g.
Proof.
  intros Hnd Hcl. split; [done|]. intros t d Ht Hd.
  rewrite Forall_forall in Hcl. specialize (Hcl t Ht).
  rewrite Forall_forall in Hcl. by apply Hcl.
Qed.

Lemma inputs_accounted_checked g :
  Forall (λ t, Forall (λ path, path ∈ unresolved g
                               ∨ Exists (λ d, path ∈ flattened_outputs d) (deps g t))
                      (flattened_inputs t)) (targets g) →
  inputs_accounted g.
Proof.
  intros Hall t path Ht Hpath.
  rewrite Forall_forall in Hall. specialize (Hall t Ht).
  rewrite Forall_forall in Hall. destruct (Hall path Hpath) as [?|Hex]; [by left|].
  right. by apply Exists_exists in Hex.
Qed.

Lemma acyclic_checked g :
  well_formed g → (∃ st, check_for_circular_dependencies g = Some (Ok st)) → acyclic g.
Proof.
  intros Hwf [st Hst]. pose proof (check_for_circular_dependencies_spec g Hwf) as H.
  by rewrite Hst in H.
Qed.

(** ** What [from_targets] builds *)

Lemma deps_of_insert (m : gmap string (list Target)) t l t0 :
  deps_of (<[name t := l]> m) t0 = if decide (name t = name t0) then l else deps_of m t0.
Proof. unfold deps_of. rewrite lookup_insert. by destruct (decide (name t = name t0)). Qed.

Lemma elem_of_set_add x y s : x ∈ set_add y s ↔ x = y ∨ x ∈ s.
Proof. unfold set_add. case_decide; set_solver. Qed.

Lemma add_outputs_spec t paths pv pv' :
  add_outputs t paths pv = Ok pv' →
  ∀ p d, pv' !! p = Some d → pv !! p = Some d ∨ (d = t ∧ p ∈ paths).
Proof.
  revert pv. induction paths as [|path paths IH]; intros pv; simpl.
  - intros [= <-]. auto.
  - destruct (pv !! path) eqn:Hp; [done|]. intros Hrun p d Hd.
    destruct (IH _ Hrun p d Hd) as [Hin|[-> ?]]; [|right; split; [done|set_solver]].
    apply lookup_insert_Some in Hin as [[<- <-]|[_ ?]]; [right; split; [done|set_solver]|by left].
Qed.

Lemma build_provides_spec ts pv pv' :
  build_provides ts pv = Ok pv' →
  ∀ p d, pv' !! p = Some d → pv !! p = Some d ∨ (d ∈ ts ∧ p ∈ flattened_outputs d).
Proof.
  revert pv. induction ts as [|t ts IH]; intros pv; simpl.
  - intros [= <-]. auto.
  - destruct (add_outputs t (flattened_outputs t) pv) as [pv1|] eqn:Hout; [|done].
    intros Hrun p d Hd. destruct (IH _ Hrun p d Hd) as [Hin|[? ?]]; [|right; split; [set_solver|done]].
    destruct (add_outputs_spec _ _ _ _ Hout p d Hin) as [?|[-> ?]]; [by left|].
    right. split; [set_solver|done].
Qed.

(** The second pass on one target: nothing is lost, every dependency is a
    provider, and every input of the target is accounted for. *)
Lemma add_inputs_spec pv t paths acc :
  (∀ t0 d, d ∈ deps_of acc.1 t0 → d ∈ deps_of (add_inputs pv t paths acc).1 t0)
  ∧ acc.2 ⊆ (add_inputs pv t paths acc).2
  ∧ (∀ t0 d, d ∈ deps_of (add_inputs pv t paths acc).1 t0 →
       d ∈ deps_of acc.1 t0 ∨ ∃ p, pv !! p = Some d)
  ∧ (∀ p, p ∈ paths →
       p ∈ (add_inputs pv t paths acc).2
       ∨ ∃ d, pv !! p = Some d ∧ d ∈ deps_of (add_inputs pv t paths acc).1 t).
Proof.
  revert acc. induction paths as [|path paths IH]; intros acc; simpl.
  - split; [done|]. split; [done|]. split; [auto|]. intros p Hp. by apply elem_of_nil in Hp.
  - set (acc1 := match pv !! path with
                 | Some p => (<[name t := set_add p (deps_of acc.1 t)]> acc.1, acc.2)
                 | None => (acc.1, {[path]} ∪ acc.2)
                 end).
    destruct (IH acc1) as (Hmono & Hun & Horigin & Hcover).
    assert (∀ t0 d, d ∈ deps_of acc.1 t0 → d ∈ deps_of acc1.1 t0) as Hmono1.
    { intros t0 d Hd. subst acc1. destruct (pv !! path); simpl; [|done].
      rewrite deps_of_insert. case_decide as Hn; [|done].
      apply elem_of_set_add. right. unfold deps_of in *. by rewrite Hn. }
    assert (acc.2 ⊆ acc1.2) as Hun1.
    { subst acc1. destruct (pv !! path); simpl; set_solver. }
    assert (∀ t0 d, d ∈ deps_of acc1.1 t0 → d ∈ deps_of acc.1 t0 ∨ ∃ p, pv !! p = Some d)
      as Horigin1.
    { intros t0 d. subst acc1. destruct (pv !! path) as [pd|] eqn:Hp; simpl; [|auto].
      rewrite deps_of_insert. case_decide as Hn; [|auto].
      intros [->|Hd]%elem_of_set_add; [right; eauto|left].
      unfold deps_of in *. by rewrite <-Hn. }
    split; [auto|]. split; [set_solver|]. split.
    + intros t0 d Hd. destruct (Horigin t0 d Hd) as [?|?]; auto.
    + intros p [->|Hp]%elem_of_cons; [|by apply Hcover].
      subst acc1. destruct (pv !! path) as [pd|] eqn:Hp; simpl in *.
      * right. exists pd. split; [done|]. apply Hmono.
        rewrite deps_of_insert, decide_True by done. apply elem_of_set_add. by left.
      * left. apply Hun. set_solver.
Qed.

Lemma build_dependencies_spec pv ts :
  (∀ t0 d, d ∈ deps_of (build_dependencies pv ts).1 t0 → ∃ p, pv !! p = Some d)
  ∧ (∀ t p, t ∈ ts → p ∈ flattened_inputs t →
       p ∈ (build_dependencies pv ts).2
       ∨ ∃ d, pv !! p = Some d ∧ d ∈ deps_of (build_dependencies pv ts).1 t).
Proof.
  unfold build_dependencies.
  assert (∀ acc,
    let acc' := foldl (λ acc t, add_inputs pv t (flattened_inputs t) acc) acc ts in
    (∀ t0 d, d ∈ deps_of acc.1 t0 → d ∈ deps_of acc'.1 t0)
    ∧ acc.2 ⊆ acc'.2
    ∧ (∀ t0 d, d ∈ deps_of acc'.1 t0 → d ∈ deps_of acc.1 t0 ∨ ∃ p, pv !! p = Some d)
    ∧ (∀ t p, t ∈ ts → p ∈ flattened_inputs t →
         p ∈ acc'.2 ∨ ∃ d, pv !! p = Some d ∧ d ∈ deps_of acc'.1 t)) as Hgen.
  { induction ts as [|t ts IH]; intros acc; simpl.
    - split; [done|]. split; [done|]. split; [auto|]. intros t p Ht. by apply elem_of_nil in Ht.
    - destruct (add_inputs_spec pv t (flattened_inputs t) acc) as (Hm1 & Hu1 & Ho1 & Hc1).
      destruct (IH (add_inputs pv t (flattened_inputs t) acc)) as (Hm2 & Hu2 & Ho2 & Hc2).
      split; [auto|]. split; [set_solver|]. split.
      + intros t0 d Hd. destruct (Ho2 t0 d Hd) as [?|?]; auto.
      + intros t' p [->|Ht']%elem_of_cons Hp; [|by apply Hc2].
        destruct (Hc1 p Hp) as [?|(d & ? & ?)]; [left; by apply Hu2|].
        right. exists d. split; [done|]. by apply Hm2. }
  destruct (Hgen (∅, ∅)) as (_ & _ & Ho & Hc). split; [|done].
  intros t0 d Hd. destruct (Ho t0 d Hd) as [Hin|?]; [|done].
  unfold deps_of in Hin. simpl in Hin. rewrite lookup_empty in Hin. by apply elem_of_nil in Hin.
Qed.

(** Once every output has one provider, [from_targets] is [Graph.__init__] on
    a graph with one target per name, dependencies among its targets and
    every input accounted for. *)
Lemma from_targets_graph_init ts pv :
  NoDup (name <$> ts) → build_provides ts ∅ = Ok pv →
  ∃ g, targets g = ts ∧ provides g = pv ∧ well_formed g ∧ inputs_accounted g
       ∧ from_targets ts = Graph_init g.
Proof.
  intros Hnd Hpv. unfold from_targets. rewrite Hpv.
  destruct (build_dependencies pv ts) as [ds un] eqn:Hds.
  destruct (build_dependencies_spec pv ts) as [Horigin Hcover]. rewrite Hds in *. simpl in *.
  assert (∀ p d, pv !! p = Some d → d ∈ ts ∧ p ∈ flattened_outputs d) as Hprov.
  { intros p d Hd. destruct (build_provides_spec _ _ _ Hpv p d Hd) as [Hin|?]; [|done].
    by rewrite lookup_empty in Hin. }
  eexists. split; [|split; [|split; [|split; [|reflexivity]]]]; try done.
  - split; [done|]. intros t d _ Hd. destruct (Horigin t d Hd) as [p Hp]. by apply (Hprov p).
  - intros t p Ht Hp. destruct (Hcover t p Ht Hp) as [?|(d & Hd & Hin)]; [by left|].
    right. exists d. split; [done|]. by apply (Hprov p).
Qed.

(** A graph that [from_targets] returns satisfies what the theorems on the
    scheduler assume. *)
Lemma from_targets_well_formed ts g :
  NoDup (name <$> ts) → from_targets ts = Some (Ok g) →
  targets g = ts ∧ well_formed g ∧ inputs_accounted g ∧ acyclic g.
Proof.
  intros Hnd Hrun.
  destruct (build_provides ts ∅) as [pv|e] eqn:Hpv;
    [|by unfold from_targets in Hrun; rewrite Hpv in Hrun].
  destruct (from_targets_graph_init ts pv Hnd Hpv) as (g0 & Hts & _ & Hwf & Hin & Heq).
  rewrite Heq in Hrun. unfold Graph_init in Hrun.
  destruct (check_for_circular_dependencies g0) as [[st|e]|] eqn:Hcheck; [|done..].
  injection Hrun as <-. split; [done|]. split; [done|]. split; [done|].
  apply acyclic_checked; [done|]. by exists st.
Qed.

(** ** The graphs of the scenarios *)

Lemma chain_well_formed : well_formed chain.
Proof. apply well_formed_checked; compute_done. Qed.

Lemma chain_inputs_accounted : inputs_accounted chain.
Proof. apply inputs_accounted_checked; compute_done. Qed.

Lemma chain_acyclic : acyclic chain.
Proof. apply acyclic_checked; [apply chain_well_formed|]. eexists. by vm_compute. Qed.

Lemma two_cycle_well_formed : well_formed two_cycle.
Proof. apply well_formed_checked; compute_done. Qed.

Lemma lone_sink_well_formed : well_formed lone_sink.
Proof. apply well_formed_checked; compute_done. Qed.

Lemma lone_sink_inputs_accounted : inputs_accounted lone_sink.
Proof. apply inputs_accounted_checked; compute_done. Qed.

Lemma lone_sink_acyclic : acyclic lone_sink.
Proof. apply acyclic_checked; [apply lone_sink_well_formed|]. eexists. by vm_compute. Qed.

Lemma diamond_well_formed : well_formed diamond.
Proof. apply well_formed_checked; compute_done. Qed.

Lemma diamond_acyclic : acyclic diamond.
Proof. apply acyclic_checked; [apply diamond_well_formed|]. eexists. by vm_compute. Qed.

(** ** Construction of the graph *)

(** C7.  [Graph.__init__], on dependency sets that hold targets of the graph,
    raises the error for a circular dependency exactly when the relation
    [dependencies] has a cycle, and then names a target on a cycle; a target
    among its own dependencies is such a cycle; without a cycle the
    construction succeeds. *)
Theorem graph_init_cycle g :
  well_formed g →
  (∀ n, Graph_init g = Some (Raise (Workflow (CircularDependency n))) →
        ∃ t, t ∈ targets g ∧ name t = n ∧ tc (dep g) t t)
  ∧ ((∃ t, t ∈ targets g ∧ tc (dep g) t t) →
     ∃ n, Graph_init g = Some (Raise (Workflow (CircularDependency n))))
  ∧ (∀ t, t ∈ targets g → t ∈ deps g t →
     ∃ n, Graph_init g = Some (Raise (Workflow (CircularDependency n))))
  ∧ (acyclic g → Graph_init g = Some (Ok g)).
Proof.
  intros Hwf. pose proof (check_for_circular_dependencies_spec g Hwf) as Hcheck.
  unfold Graph_init.
  destruct (check_for_circular_dependencies g) as [[st|e]|]; simpl in Hcheck; [| |done].
  - split; [done|]. split; [|split; [|done]].
    + intros (t & Ht & Hcyc). by destruct (Hcheck t Ht).
    + intros t Ht Hself. destruct (Hcheck t Ht). by apply tc_once.
  - destruct Hcheck as (x & Hx & Hcyc & ->). split; [|split; [|split]].
    + intros n [= <-]. by exists x.
    + intros _. by eexists.
    + intros _ _ _. by eexists.
    + intros Hac. by destruct (Hac x Hx).
Qed.

Lemma graph_init_cycle_witness :
  well_formed two_cycle
  ∧ Graph_init two_cycle = Some (Raise (Workflow (CircularDependency "Q")))
  ∧ ∃ t, t ∈ targets two_cycle ∧ name t = "Q" ∧ tc (dep two_cycle) t t.
Proof.
  split; [apply two_cycle_well_formed|]. split; [by vm_compute|].
  apply (graph_init_cycle two_cycle two_cycle_well_formed). by vm_compute.
Defined.

(** ** Staleness *)

Lemma any_dep_should_run_first rec ds r :
  any_dep_should_run rec ds = Some r → r ≠ Ok false →
  ∃ d, first_decisive rec ds d ∧ rec d = Some r.
Proof.
  intros Hrun Hr. induction ds as [|d ds IH]; simpl in Hrun; [congruence|].
  destruct (rec d) as [[[]|e]|] eqn:Hd; [| | |done].
  - exists d. split; [|congruence]. exists 0. split; [done|]. split; [congruence|]. lia.
  - destruct (IH Hrun) as (d' & (i & Hi & Hne & Hbefore) & Hd'). exists d'. split; [|done].
    exists (S i). split; [done|]. split; [done|].
    intros [|j] d'' Hj Hlook; simpl in Hlook; [congruence|]. apply (Hbefore j); [lia|done].
  - exists d. split; [|congruence]. exists 0. split; [done|]. split; [congruence|]. lia.
Qed.

Lemma first_decisive_unique sr ds d d' :
  first_decisive sr ds d → first_decisive sr ds d' → d = d'.
Proof.
  intros (i & Hi & Hne & Hb) (i' & Hi' & Hne' & Hb').
  destruct (Nat.lt_trichotomy i i') as [Hlt|[->|Hlt]].
  - by destruct Hne; apply (Hb' i).
  - congruence.
  - by destruct Hne'; apply (Hb i').
Qed.

Lemma missing_required_first g fc t path :
  missing_required g fc t = Some path → first_missing g fc t path.
Proof.
  unfold missing_required, first_missing.
  induction (flattened_inputs t) as [|p l IH]; [done|].
  rewrite filter_cons. destruct (decide _) as [[Hun Hfc]|Hno]; simpl.
  - intros [= <-]. exists 0. split; [done|]. split; [done|]. split; [done|]. lia.
  - intros (i & Hi & Hun & Hfc & Hb)%IH. exists (S i). split; [done|].
    split; [done|]. split; [done|].
    intros [|j] p' Hj Hlook; simpl in Hlook; [congruence|]. apply (Hb j); [lia|done].
Qed.

Lemma first_missing_unique g fc t path path' :
  first_missing g fc t path → first_missing g fc t path' → path = path'.
Proof.
  intros (i & Hi & Hun & Hfc & Hb) (i' & Hi' & Hun' & Hfc' & Hb').
  destruct (Nat.lt_trichotomy i i') as [Hlt|[->|Hlt]].
  - by destruct (Hb' i path Hlt Hi).
  - congruence.
  - by destruct (Hb i' path' Hlt Hi').
Qed.

Lemma is_max_unique y y' l : is_max y l → is_max y' l → y = y'.
Proof. intros [Hin Hmax] [Hin' Hmax']. pose proof (Hmax _ Hin'). pose proof (Hmax' _ Hin). lia. Qed.

Lemma is_min_unique y y' l : is_min y l → is_min y' l → y = y'.
Proof. intros [Hin Hmin] [Hin' Hmin']. pose proof (Hmin _ Hin'). pose proof (Hmin' _ Hin). lia. Qed.

Lemma decided_by_files_unique fc t b b' :
  decided_by_files fc t b → decided_by_files fc t b' → b = b'.
Proof.
  unfold decided_by_files. destruct (is_sink t); [congruence|].
  destruct (decide _); [congruence|]. destruct (is_source t); [congruence|].
  intros (ins & outs & yin & yout & Hins & Houts & Hmax & Hmin & ->)
         (ins' & outs' & yin' & yout' & Hins' & Houts' & Hmax' & Hmin' & ->).
  rewrite Hins in Hins'. rewrite Houts in Houts'.
  apply (inj (fmap Some)) in Hins' as <-. apply (inj (fmap Some)) in Houts' as <-.
  by rewrite (is_max_unique _ _ _ Hmax Hmax'), (is_min_unique _ _ _ Hmin Hmin').
Qed.

(** The rules leave no choice. *)
Lemma decided_in_order_unique g fc sr t r r' :
  decided_in_order g fc sr t r → decided_in_order g fc sr t r' → r = r'.
Proof.
  intros [(d & Hd & Hr)|[Hall Hr]] [(d' & Hd' & Hr')|[Hall' Hr']].
  - rewrite <-(first_decisive_unique _ _ _ _ Hd Hd') in Hr'. congruence.
  - destruct Hd as (i & Hi & Hne & _). destruct Hne. apply Hall'.
    by eapply list_elem_of_lookup_2.
  - destruct Hd' as (i & Hi & Hne & _). destruct Hne. apply Hall.
    by eapply list_elem_of_lookup_2.
  - destruct Hr as [(p & Hp & ->)|(Hnone & b & -> & Hb)];
      destruct Hr' as [(p' & Hp' & ->)|(Hnone' & b' & -> & Hb')].
    + by rewrite (first_missing_unique _ _ _ _ _ Hp Hp').
    + destruct Hp as (i & Hi & Hun & Hfc & _). destruct (Hnone' p); [|done..].
      by eapply list_elem_of_lookup_2.
    + destruct Hp' as (i & Hi & Hun & Hfc & _). destruct (Hnone p'); [|done..].
      by eapply list_elem_of_lookup_2.
    + by rewrite (decided_by_files_unique _ _ _ _ Hb Hb').
Qed.

(** C1, as the code has it.  On a graph as [from_targets] builds it, without
    a cycle, [should_run] comes back, and its result is the one that the
    rules give in their order: the first dependency that does not return
    [false] decides, by returning [true] or by raising; else the first
    unresolved input that is missing is an error that names it and [t]; else
    a sink runs; else a target with a missing output runs; else a source
    does not run; else the target runs exactly when its youngest input is
    strictly younger than its oldest output, every path of which has a
    timestamp.  The rules give no other result, and the only exception is the
    error of a required file that is missing. *)
Theorem should_run_decided g fc fuel t :
  well_formed g → inputs_accounted g → acyclic g →
  t ∈ targets g → length (targets g) < fuel →
  ∃ r, should_run g fc fuel t = Some r
    ∧ decided_in_order g fc (should_run g fc fuel) t r
    ∧ (∀ r', decided_in_order g fc (should_run g fc fuel) t r' → r' = r)
    ∧ (∀ e, r = Raise e → required_file_missing e).
Proof.
  intros Hwf Hinputs Hac Ht Hfuel.
  destruct (should_run_rules g fc Hwf Hinputs Hac fuel t Ht Hfuel) as (r & Hr & Hrules).
  assert (decided_in_order g fc (should_run g fc fuel) t r) as Hord.
  { destruct fuel as [|fuel]; [lia|].
    assert (∀ d, d ∈ deps g t → should_run g fc fuel d = should_run g fc (S fuel) d) as Heq.
    { intros d Hd. pose proof (rank_dep g Hwf Hac t d Ht Hd). pose proof (rank_le g t).
      apply (should_run_any_fuel g fc Hwf Hac); [by eapply wf_closed|lia..]. }
    cbn [should_run] in Hr.
    destruct (any_dep_should_run (should_run g fc fuel) (deps g t)) as [rd|] eqn:Hrd0; [|done].
    assert (any_dep_should_run (should_run g fc (S fuel)) (deps g t) = Some rd) as Hrd.
    { eapply any_dep_should_run_ext; [|exact Hrd0]. intros d r' Hd Hr'. by rewrite <-Heq. }
    destruct (decide (rd = Ok false)) as [->|Hne].
    - right. split; [by apply any_dep_should_run_false|].
      destruct (missing_required g fc t) as [path|] eqn:Hmiss.
      + left. exists path. split; [by apply missing_required_first|]. congruence.
      + right. split; [by apply missing_required_None|].
        destruct r as [b|e].
        * exists b. split; [done|]. unfold decided_by_rules in Hrules.
          rewrite decide_False in Hrules; [done|].
          intros (d & Hd & Hdt)%Exists_exists.
          rewrite (proj1 (any_dep_should_run_false _ _) Hrd d Hd) in Hdt. done.
        * exfalso. destruct Hrules as [_ [(d & Hd & Hde)|[_ (p & Hp & Hun & Hfc & _)]]].
          -- by rewrite (proj1 (any_dep_should_run_false _ _) Hrd d Hd) in Hde.
          -- by apply (proj1 (missing_required_None g fc t) Hmiss p).
    - left. assert (rd = r) as ->.
      { destruct rd as [[]|]; [congruence|done|congruence]. }
      by apply any_dep_should_run_first. }
  exists r. split; [done|]. split; [done|]. split.
  - intros r' Hr'. exact (decided_in_order_unique g fc _ t r' r Hr' Hord).
  - intros e ->. apply Hrules.
Qed.

Lemma should_run_decided_witness :
  well_formed chain ∧ inputs_accounted chain ∧ acyclic chain ∧ tC ∈ targets chain
  ∧ length (targets chain) < 4
  ∧ ∃ r, should_run chain (files [("a", 1%Z); ("b", 3%Z); ("c", 3%Z)]) 4 tC = Some r
    ∧ decided_in_order chain (files [("a", 1%Z); ("b", 3%Z); ("c", 3%Z)])
        (should_run chain (files [("a", 1%Z); ("b", 3%Z); ("c", 3%Z)]) 4) tC r
    ∧ (∀ r', decided_in_order chain (files [("a", 1%Z); ("b", 3%Z); ("c", 3%Z)])
               (should_run chain (files [("a", 1%Z); ("b", 3%Z); ("c", 3%Z)]) 4) tC r' →
             r' = r)
    ∧ (∀ e, r = Raise e → required_file_missing e).
Proof.
  assert (tC ∈ targets chain) as Hin by compute_done.
  assert (length (targets chain) < 4) as Hlen by (simpl; lia).
  split; [apply chain_well_formed|]. split; [apply chain_inputs_accounted|].
  split; [apply chain_acyclic|]. split; [exact Hin|]. split; [exact Hlen|].
  exact (should_run_decided chain _ 4 tC chain_well_formed chain_inputs_accounted
           chain_acyclic Hin Hlen).
Defined.

(** C1 as it is worded has no rule for a missing required file: for a sink
    without dependencies its rules decide [true], and the code raises. *)
Lemma should_run_sink_raises :
  well_formed lone_sink ∧ inputs_accounted lone_sink ∧ acyclic lone_sink
  ∧ tD ∈ targets lone_sink
  ∧ decided_by_rules lone_sink (files []) (should_run lone_sink (files []) 2) tD true
  ∧ should_run lone_sink (files []) 2 tD
    = Some (Raise (Workflow (FileRequiredButNotProvided "ext" "D"))).
Proof.
  split; [apply lone_sink_well_formed|]. split; [apply lone_sink_inputs_accounted|].
  split; [apply lone_sink_acyclic|]. split; [compute_done|]. split; [|by vm_compute].
  unfold decided_by_rules. rewrite decide_False; [done|].
  intros (d & Hd & _)%Exists_exists. by apply elem_of_nil in Hd.
Qed.

(** C8.  Where no dependency of [t] should run: if an input of [t] is
    unresolved and missing on disk then [should_run], and with it [schedule],
    raises the error that names such a path and [t]; if every unresolved
    input of [t] is on disk, no such error is raised for [t]. *)
Theorem required_file_missing_raised (self : Scheduler) fuel t :
  well_formed (graph self) → acyclic (graph self) →
  t ∈ targets (graph self) → length (targets (graph self)) < fuel →
  (∀ d, d ∈ deps (graph self) t →
        should_run (graph self) (file_cache self) fuel d = Some (Ok false)) →
  ((∃ path, path ∈ flattened_inputs t ∧ path ∈ unresolved (graph self)
            ∧ file_cache self path = None) →
   ∃ path, path ∈ flattened_inputs t ∧ path ∈ unresolved (graph self)
           ∧ file_cache self path = None
           ∧ should_run (graph self) (file_cache self) fuel t
             = Some (Raise (Workflow (FileRequiredButNotProvided path (name t))))
           ∧ ∀ s, ∃ s', schedule self fuel t s
             = Some (s', Raise (Workflow (FileRequiredButNotProvided path (name t)))))
  ∧ ((∀ path, path ∈ flattened_inputs t → path ∈ unresolved (graph self) →
              file_cache self path ≠ None) →
     ∀ path, should_run (graph self) (file_cache self) fuel t
             ≠ Some (Raise (Workflow (FileRequiredButNotProvided path (name t))))).
Proof.
  intros Hwf Hac Ht Hfuel Hdeps. destruct fuel as [|fuel]; [lia|].
  assert (any_dep_should_run (should_run (graph self) (file_cache self) fuel)
            (deps (graph self) t) = Some (Ok false)) as Hloop.
  { apply any_dep_should_run_false. intros d Hd.
    destruct (dep_fuel _ Hwf Hac fuel t d Ht Hd Hfuel) as [Hdt Hrank].
    rewrite <-(Hdeps d Hd). apply should_run_any_fuel; try done. lia. }
  split.
  - intros (path & Hin & Hun & Hfc).
    destruct (missing_required (graph self) (file_cache self) t) as [path'|] eqn:Hmiss.
    + destruct (missing_required_Some _ _ _ _ Hmiss) as (Hin' & Hun' & Hfc').
      assert (should_run (graph self) (file_cache self) (S fuel) t
              = Some (Raise (Workflow (FileRequiredButNotProvided path' (name t))))) as Hsr.
      { simpl. by rewrite Hloop, Hmiss. }
      exists path'. split; [done|]. split; [done|]. split; [done|]. split; [done|].
      intros s. cbn [schedule]. unfold pass_status, status.
      destruct (update_state_total (graph self) Hwf Hac (S fuel) t
                  (state_db (prepare_target_options self t s)) Ht) as [[db m] ->].
      { pose proof (rank_le (graph self) t). lia. }
      rewrite Hsr. by eexists.
    + exfalso. by apply (proj1 (missing_required_None _ _ _) Hmiss path).
  - intros Hpresent path. simpl. rewrite Hloop.
    rewrite (proj2 (missing_required_None _ _ _) Hpresent).
    destruct (is_sink t); [done|]. case_bool_decide; [done|].
    destruct (is_source t); [done|].
    destruct (py_max _) as [[yin ?]|e] eqn:Hmax.
    + destruct (py_min _) as [[yout ?]|e] eqn:Hmin.
      * unfold ts_gt. by destruct yin, yout.
      * intros [= ->]. by eapply py_min_raise.
    + intros [= ->]. by eapply py_max_raise.
Qed.

Lemma required_file_missing_raised_witness :
  well_formed lone_sink ∧ acyclic lone_sink ∧ tD ∈ targets lone_sink
  ∧ length (targets lone_sink) < 2
  ∧ (∀ d, d ∈ deps lone_sink tD → should_run lone_sink (files []) 2 d = Some (Ok false))
  ∧ ∃ path, path ∈ flattened_inputs tD ∧ path ∈ unresolved lone_sink ∧ files [] path = None
      ∧ should_run lone_sink (files []) 2 tD
        = Some (Raise (Workflow (FileRequiredButNotProvided path (name tD))))
      ∧ ∀ s, ∃ s', schedule (scheduler lone_sink false (files [])) 2 tD s
        = Some (s', Raise (Workflow (FileRequiredButNotProvided path (name tD)))).
Proof.
  assert (tD ∈ targets lone_sink) as Hin by compute_done.
  assert (length (targets lone_sink) < 2) as Hlen by (simpl; lia).
  assert (∀ d, d ∈ deps lone_sink tD → should_run lone_sink (files []) 2 d = Some (Ok false))
    as Hdeps by (intros d Hd; by apply elem_of_nil in Hd).
  split; [apply lone_sink_well_formed|]. split; [apply lone_sink_acyclic|].
  split; [exact Hin|]. split; [exact Hlen|]. split; [exact Hdeps|].
  apply (required_file_missing_raised (scheduler lone_sink false (files [])) 2 tD
           lone_sink_well_formed lone_sink_acyclic Hin Hlen Hdeps).
  exists "ext". split; [compute_done|]. split; [compute_done|]. done.
Defined.

(** ** Invalidation through the dependencies *)

(** The failure of A has reached C through B. *)
Example update_state_chain :
  (λ r, (state_of r.1 "A", state_of r.1 "B", state_of r.1 "C", state r.2))
    <$> update_state chain 4 tC failed_upstream
  = Some (TargetState.FAILED, TargetState.UNKNOWN, TargetState.UNKNOWN, TargetState.UNKNOWN).
Proof. by vm_compute. Qed.

(** ** Status *)

(** C2, as the code has it.  [status] applies [update_state], then
    [should_run], whatever the state is.  When [should_run] raises, so does
    [status], the update having been applied, and no status is reported;
    else [status] reports the entry of the table for the state the store
    holds for [t] after the update and for the boolean [should_run]
    returns. *)
Theorem status_table_projection g fc fuel t db :
  well_formed g → acyclic g → t ∈ targets g → length (targets g) < fuel →
  ∃ db' m r, update_state g fuel t db = Some (db', m)
    ∧ should_run g fc fuel t = Some r
    ∧ status g fc fuel t db
      = Some (db', match r with
                   | Ok b => Ok (Some (status_table (state_of db' (name t)) b))
                   | Raise e => Raise e
                   end).
Proof.
  intros Hwf Hac Ht Hfuel. pose proof (rank_le g t) as Hrank.
  destruct (update_state_total g Hwf Hac fuel t db Ht) as [[db' m] Hrun]; [lia|].
  destruct (should_run_terminates g fc Hwf Hac fuel t Ht) as [r Hr]; [lia|].
  destruct (update_state_props g Hwf Hac fuel t db db' m Ht Hrun) as (_ & Hst & _).
  exists db', m, r. split; [done|]. split; [done|].
  unfold status. rewrite Hrun, Hr. destruct r as [b|e]; [|done].
  by rewrite status_of_table, Hst.
Qed.

Lemma status_table_projection_witness :
  well_formed chain ∧ acyclic chain ∧ tC ∈ targets chain ∧ length (targets chain) < 4
  ∧ ∃ db' m r, update_state chain 4 tC failed_upstream = Some (db', m)
    ∧ should_run chain (files [("a", 1%Z); ("b", 2%Z); ("c", 3%Z)]) 4 tC = Some r
    ∧ status chain (files [("a", 1%Z); ("b", 2%Z); ("c", 3%Z)]) 4 tC failed_upstream
      = Some (db', match r with
                   | Ok b => Ok (Some (status_table (state_of db' (name tC)) b))
                   | Raise e => Raise e
                   end).
Proof.
  assert (tC ∈ targets chain) as Hin by compute_done.
  assert (length (targets chain) < 4) as Hlen by (simpl; lia).
  split; [apply chain_well_formed|]. split; [apply chain_acyclic|].
  split; [exact Hin|]. split; [exact Hlen|].
  exact (status_table_projection chain _ 4 tC failed_upstream
           chain_well_formed chain_acyclic Hin Hlen).
Defined.

(** C2 as it is worded: a target stored as FAILED, or as SUBMITTED, reports
    that state whatever [should_run] says.  But [status] asks [should_run]
    before it looks at the state: for the sink whose required input is
    missing it raises, and reports no state. *)
Lemma status_raises_before_state :
  (∀ b, status_table TargetState.FAILED b = TargetStatus.FAILED)
  ∧ (∀ b, status_table TargetState.SUBMITTED b = TargetStatus.SUBMITTED)
  ∧ status lone_sink (files []) 2 tD {[ "D" := TargetState.FAILED ]}
    = Some ({[ "D" := TargetState.FAILED ]},
            Raise (Workflow (FileRequiredButNotProvided "ext" "D")))
  ∧ status lone_sink (files []) 2 tD {[ "D" := TargetState.SUBMITTED ]}
    = Some ({[ "D" := TargetState.SUBMITTED ]},
            Raise (Workflow (FileRequiredButNotProvided "ext" "D"))).
Proof. split; [by intros []|]. split; [by intros []|]. split; by vm_compute. Qed.

(** ** Options *)

Lemma strip_options_lookup defs (l : list (string * OptVal)) (m : gmap string OptVal) k :
  foldr (strip_option defs) m l !! k
  = if decide (Exists (λ item, item.1 = k ∧ (item.1 ∉ dom defs ∨ item.2 = PyNone)) l)
    then None else m !! k.
Proof.
  induction l as [|[k' v'] l IH].
  - done.
  - change (foldr (strip_option defs) m ((k', v') :: l))
      with (strip_option defs (k', v') (foldr (strip_option defs) m l)).
    destruct (decide (Exists _ ((k', v') :: l))) as [Hex|Hex]; rewrite Exists_cons in Hex.
    + unfold strip_option; simpl in *.
      destruct Hex as [[-> Hstrip]|Hex].
      * destruct (decide (k ∉ dom defs)); [by rewrite lookup_delete_eq|].
        destruct (decide (v' = PyNone)); [by rewrite lookup_delete_eq|]. tauto.
      * rewrite decide_True in IH by done.
        repeat case_decide; rewrite ?lookup_delete; repeat case_decide; done.
    + rewrite decide_False in IH by tauto.
      unfold strip_option; simpl in *.
      destruct (decide (k' = k)) as [->|Hk].
      * rewrite decide_False by tauto. rewrite decide_False by tauto. done.
      * repeat case_decide; rewrite ?lookup_delete_ne by done; done.
Qed.

(** The options after [prepare_target_options]: the option of the target,
    else the default, kept when the backend knows the option and the value is
    not [None]. *)
Lemma prepared_options_lookup defs opts k :
  prepared_options defs opts !! k
  = match (opts ∪ defs) !! k with
    | Some v => if decide (k ∈ dom defs ∧ v ≠ PyNone) then Some v else None
    | None => None
    end.
Proof.
  unfold prepared_options. rewrite strip_options_lookup.
  destruct ((opts ∪ defs) !! k) as [v|] eqn:Hk.
  - destruct (decide (k ∈ dom defs ∧ v ≠ PyNone)) as [[Hdom Hv]|Hno].
    + rewrite decide_False; [done|].
      intros ([k' v'] & Hin%elem_of_map_to_list & Heq & Hstrip)%Exists_exists.
      simpl in *. subst k'. rewrite Hk in Hin. injection Hin as <-. tauto.
    + rewrite decide_True; [done|]. apply Exists_exists. exists (k, v).
      split; [by apply elem_of_map_to_list|]. split; [done|]. simpl.
      destruct (decide (k ∈ dom defs)); [|by left].
      destruct (decide (v = PyNone)); [by right|]. tauto.
  - by case_decide.
Qed.

Lemma prepared_options_sound defs opts k v :
  prepared_options defs opts !! k = Some v → k ∈ dom defs ∧ v ≠ PyNone.
Proof.
  rewrite prepared_options_lookup. destruct (_ !! k); [|done].
  case_decide; [|done]. by intros [= <-].
Qed.

Lemma prepared_options_idempotent defs opts :
  prepared_options defs (prepared_options defs opts) = prepared_options defs opts
  ↔ no_default_switched_off defs opts.
Proof.
  split.
  - intros Heq k v Hopt Hdef.
    destruct (decide (v = PyNone)) as [|Hv]; [done|]. exfalso.
    assert (prepared_options defs opts !! k = None) as H1.
    { rewrite prepared_options_lookup, lookup_union_l' by done.
      rewrite Hopt. case_decide; tauto. }
    assert (prepared_options defs (prepared_options defs opts) !! k = Some v) as H2.
    { rewrite prepared_options_lookup, lookup_union_r by done.
      rewrite Hdef, decide_True; [done|]. split; [|done]. by apply elem_of_dom. }
    congruence.
  - intros Hno. apply map_eq. intros k.
    rewrite (prepared_options_lookup defs (prepared_options defs opts)).
    destruct (prepared_options defs opts !! k) as [v|] eqn:H1.
    + rewrite lookup_union_l' by done. rewrite H1.
      apply prepared_options_sound in H1. by rewrite decide_True.
    + rewrite lookup_union_r by done.
      destruct (defs !! k) as [v|] eqn:Hdef; [|done].
      case_decide as Hkeep; [|done]. exfalso. destruct Hkeep as [_ Hv].
      rewrite prepared_options_lookup in H1.
      destruct (opts !! k) as [v'|] eqn:Hopt.
      * rewrite lookup_union_l' in H1 by done. rewrite Hopt in H1.
        case_decide as Hkeep; [done|].
        destruct (decide (v' = PyNone)) as [->|]; [by apply Hv, (Hno k)|].
        apply Hkeep. split; [|done]. by apply elem_of_dom.
      * rewrite lookup_union_r in H1 by done. rewrite Hdef in H1.
        rewrite decide_True in H1; [done|]. split; [|done]. by apply elem_of_dom.
Qed.

(** After one call nothing is left to switch off. *)
Lemma prepared_options_settled defs opts :
  no_default_switched_off defs (prepared_options defs opts).
Proof. intros k v Hk. by apply prepared_options_sound in Hk as [_ ?]. Qed.

Lemma options_of_prepared self t s :
  options_of (prepare_target_options self t s) t
  = prepared_options (option_defaults self) (options_of s t).
Proof. unfold options_of at 1. simpl. by rewrite lookup_insert_eq. Qed.

(** C10, as the code has it.  After any call of [prepare_target_options]
    every option of the target is an option of the backend and none is
    [None].  A second call leaves the options as the first left them exactly
    when the target had set no option to [None] whose default is not [None]:
    a second call puts such a default back.  From the second call on nothing
    changes. *)
Theorem prepare_target_options_twice (self : Scheduler) (t : Target) (s : Pass) :
  (∀ k v, options_of (prepare_target_options self t s) t !! k = Some v →
          k ∈ dom (option_defaults self) ∧ v ≠ PyNone)
  ∧ (prepare_target_options self t (prepare_target_options self t s)
     = prepare_target_options self t s
     ↔ no_default_switched_off (option_defaults self) (options_of s t))
  ∧ prepare_target_options self t
      (prepare_target_options self t (prepare_target_options self t s))
    = prepare_target_options self t (prepare_target_options self t s).
Proof.
  assert (∀ s', prepare_target_options self t (prepare_target_options self t s')
                = prepare_target_options self t s'
                ↔ no_default_switched_off (option_defaults self) (options_of s' t)) as Hiff.
  { intros s'. rewrite <-prepared_options_idempotent. split.
    - intros Heq. apply (f_equal (λ s, options_of s t)) in Heq.
      by rewrite !options_of_prepared in Heq.
    - intros Heq. unfold prepare_target_options at 1 3. simpl. f_equal.
      rewrite insert_insert_eq. f_equal.
      by rewrite options_of_prepared. }
  split; [|split].
  - intros k v. rewrite options_of_prepared. apply prepared_options_sound.
  - apply Hiff.
  - apply Hiff. rewrite options_of_prepared. apply prepared_options_settled.
Qed.

(** C10 as it is worded: the target switches the default of [cores] off, the
    first call drops the option, the second call brings the default in. *)
Lemma prepare_target_options_not_idempotent :
  options_of (prepare_target_options one_core_scheduler tN (new_pass ∅)) tN = ∅
  ∧ options_of (prepare_target_options one_core_scheduler tN
                  (prepare_target_options one_core_scheduler tN (new_pass ∅))) tN
    = {[ "cores" := PyInt 1 ]}
  ∧ prepare_target_options one_core_scheduler tN
      (prepare_target_options one_core_scheduler tN (new_pass ∅))
    ≠ prepare_target_options one_core_scheduler tN (new_pass ∅).
Proof.
  assert (options_of (prepare_target_options one_core_scheduler tN (new_pass ∅)) tN = ∅)
    as H1 by by vm_compute.
  assert (options_of (prepare_target_options one_core_scheduler tN
                  (prepare_target_options one_core_scheduler tN (new_pass ∅))) tN
          = {[ "cores" := PyInt 1 ]}) as H2 by by vm_compute.
  split; [exact H1|]. split; [exact H2|]. intros Heq. rewrite Heq, H1 in H2.
  symmetry in H2. exact (map_non_empty_singleton _ _ H2).
Qed.

(** ** A pass: what scheduling does to it *)

Lemma new_events_self s : new_events s s = [].
Proof. unfold new_events. by rewrite drop_all. Qed.

Lemma new_events_app s l s' : trace s' = trace s ++ l → new_events s s' = l.
Proof. intros H. unfold new_events. by rewrite H, drop_app_length. Qed.

Lemma evolves_refl g X s : evolves g X s s.
Proof.
  split; rewrite ?new_events_self.
  - by rewrite app_nil_r.
  - intros e He. by apply elem_of_nil in He.
  - done.
  - auto.
  - auto.
  - auto.
Qed.

Lemma evolves_new_events g X Y s1 s2 s3 :
  evolves g X s1 s2 → evolves g Y s2 s3 →
  new_events s1 s3 = new_events s1 s2 ++ new_events s2 s3.
Proof.
  intros H12 H23. apply new_events_app.
  rewrite (ev_trace _ _ _ _ H23), (ev_trace _ _ _ _ H12). by rewrite app_assoc.
Qed.

Lemma event_targets_app l1 l2 n :
  n ∈ event_targets (l1 ++ l2) ↔ n ∈ event_targets l1 ∨ n ∈ event_targets l2.
Proof. unfold event_targets. by rewrite fmap_app, elem_of_app. Qed.

Lemma event_targets_trace g X s s' n :
  evolves g X s s' →
  n ∈ event_targets (trace s') ↔ n ∈ event_targets (trace s) ∨ n ∈ event_targets (new_events s s').
Proof. intros H. by rewrite (ev_trace _ _ _ _ H), event_targets_app. Qed.

Lemma evolves_trans g X s1 s2 s3 :
  evolves g X s1 s2 → evolves g X s2 s3 → evolves g X s1 s3.
Proof.
  intros H12 H23. pose proof (evolves_new_events g X X s1 s2 s3 H12 H23) as Hnew.
  split; rewrite ?Hnew.
  - rewrite (ev_trace _ _ _ _ H23), (ev_trace _ _ _ _ H12). by rewrite app_assoc.
  - intros e [He|He]%elem_of_app; [by apply (ev_region _ _ _ _ H12)|by apply (ev_region _ _ _ _ H23)].
  - etrans; [apply (ev_memo_mono _ _ _ _ H12)|apply (ev_memo_mono _ _ _ _ H23)].
  - intros n Hn. rewrite event_targets_app.
    destruct (ev_memo _ _ _ _ H23 n Hn) as [Hn2|?]; [|auto].
    destruct (ev_memo _ _ _ _ H12 n Hn2) as [?|?]; auto.
  - intros n. destruct (ev_frame _ _ _ _ H23 n) as [->|?]; [|auto].
    apply (ev_frame _ _ _ _ H12).
  - intros x Hx Hs Hno y Hy.
    assert (∀ y, rtc (dep g) x y → state_of (state_db s2) (name y) = state_of (state_db s1) (name y))
      as H2.
    { apply (ev_settled _ _ _ _ H12 x Hx Hs). intros z Hz Hin. apply (Hno z Hz).
      rewrite event_targets_app. auto. }
    rewrite <-H2 by done. apply (ev_settled _ _ _ _ H23 x Hx); [|intros z Hz Hin|done].
    + intros z d Hz Hd. rewrite !H2; [by apply Hs|done|]. eapply rtc_r; [done|exact Hd].
    + apply (Hno z Hz). rewrite event_targets_app. auto.
Qed.

Lemma evolves_weaken g (X Y : Target → Prop) s s' :
  (∀ x, X x → Y x) → evolves g X s s' → evolves g Y s s'.
Proof.
  intros HXY H. split; try apply H.
  - intros e He. destruct (ev_region _ _ _ _ H e He) as (x & ? & ?). eauto.
  - intros n. destruct (ev_frame _ _ _ _ H n) as [?|(x & ? & ?)]; eauto.
Qed.

(** A step that leaves the events and the memo, and the states up to what
    [state_of] reads. *)
Lemma evolves_silent g X s s' :
  trace s' = trace s → pretend_known s' = pretend_known s →
  (∀ n, state_of (state_db s') n = state_of (state_db s) n ∨ ∃ x, X x ∧ name x = n) →
  (∀ x, x ∈ targets g → settled g (state_db s) x →
     ∀ y, rtc (dep g) x y → state_of (state_db s') (name y) = state_of (state_db s) (name y)) →
  evolves g X s s'.
Proof.
  intros Htr Hmemo Hframe Hkeep.
  assert (new_events s s' = []) as Hnew by (apply new_events_app; by rewrite app_nil_r).
  split; rewrite ?Hnew.
  - by rewrite app_nil_r.
  - intros e He. by apply elem_of_nil in He.
  - by rewrite Hmemo.
  - rewrite Hmemo. auto.
  - done.
  - intros x Hx Hs _. by apply Hkeep.
Qed.

Section pass.
Context (self : Scheduler).
Local Abbreviation g := (graph self).
Hypothesis Hwf : well_formed g.
Hypothesis Hacyclic : acyclic g.

Lemma decided_fuel fuel t :
  t ∈ targets g → rank g t < fuel →
  should_run g (file_cache self) fuel t = decided self t.
Proof.
  intros Ht Hfuel. unfold decided. apply should_run_any_fuel; try done.
  pose proof (rank_le g t). lia.
Qed.

Lemma idle_below s t x : idle self s t → rtc (dep g) t x → idle self s x.
Proof.
  intros [Hs Hrest] Hx. split; [by eapply settled_below|].
  intros y Hy. apply Hrest. by etrans.
Qed.

Lemma idle_ext s s' t :
  pretend_known s' ⊆ pretend_known s →
  (∀ x, rtc (dep g) t x → state_of (state_db s') (name x) = state_of (state_db s) (name x)) →
  idle self s t → idle self s' t.
Proof.
  intros Hmemo Heq [Hs Hrest]. split; [by eapply settled_ext|].
  intros x Hx. destruct (Hrest x Hx) as [Hp Hb]. split; [set_solver|].
  by rewrite Heq.
Qed.

(** An idle target stays idle as long as no event is added below it. *)
Lemma idle_preserved X s s' x :
  evolves g X s s' → x ∈ targets g → idle self s x →
  (∀ y, rtc (dep g) x y → name y ∉ event_targets (new_events s s')) →
  idle self s' x.
Proof.
  intros Hev Hx [Hs Hrest] Hno.
  pose proof (ev_settled _ _ _ _ Hev x Hx Hs Hno) as Heq.
  split; [by eapply settled_ext|].
  intros y Hy. destruct (Hrest y Hy) as [Hp Hb]. split; [|by rewrite Heq].
  intros [?|?]%(ev_memo _ _ _ _ Hev); [done|]. by apply (Hno y).
Qed.

Lemma firm_settled s t : firm self s t → settled g (state_db s) t.
Proof.
  intros [_ Hvalid] x d Hx Hd Hinv. destruct (Hvalid d); [|done].
  eapply rtc_r; [done|exact Hd].
Qed.

(** A settled target that is SUBMITTED has nothing invalid below it. *)
Lemma settled_submitted_firm s t :
  settled g (state_db s) t → state_of (state_db s) (name t) = TargetState.SUBMITTED →
  firm self s t.
Proof.
  intros Hs Ht. split; [done|]. apply rtc_ind_r.
  - rewrite Ht. unfold invalid. naive_solver.
  - intros x y Hx Hxy IH Hinv. apply IH. rewrite (Hs x y Hx Hxy Hinv). unfold invalid. auto.
Qed.

Lemma firm_not_idle s t : firm self s t → ¬ idle self s t.
Proof.
  intros [Ht _] [_ Hrest]. destruct (Hrest t) as [_ (b & _ & Hb)]; [done|].
  rewrite Ht in Hb. destruct b, Hb; done.
Qed.

Lemma memo_logged_evolves X s s' : evolves g X s s' → memo_logged s → memo_logged s'.
Proof.
  intros Hev Hlog n Hn. rewrite (event_targets_trace _ _ _ _ _ Hev).
  destruct (ev_memo _ _ _ _ Hev n Hn) as [?|?]; [left; by apply Hlog|by right].
Qed.

(** [prepare_target_options] touches the options only. *)
Lemma prepare_evolves X t s : evolves g X s (prepare_target_options self t s).
Proof. apply evolves_silent; auto. Qed.

(** [status] inside a pass: the update of the states, then the table. *)
Lemma pass_status_spec fuel t s s1 r :
  t ∈ targets g → rank g t < fuel →
  pass_status self fuel t s = Some (s1, r) →
  evolves g (rtc (dep g) t) s s1
  ∧ trace s1 = trace s ∧ pretend_known s1 = pretend_known s
  ∧ settled g (state_db s1) t
  ∧ (∀ x, x ∈ targets g → settled g (state_db s) x →
       ∀ y, rtc (dep g) x y → state_of (state_db s1) (name y) = state_of (state_db s) (name y))
  ∧ match r with
    | Ok st => ∃ b, decided self t = Some (Ok b)
                    ∧ st = Some (status_table (state_of (state_db s1) (name t)) b)
    | Raise e => decided self t = Some (Raise e)
    end.
Proof.
  intros Ht Hfuel. unfold pass_status, status.
  destruct (update_state g fuel t (state_db s)) as [[db m]|] eqn:Hup; [|done].
  destruct (update_state_props g Hwf Hacyclic fuel t _ _ _ Ht Hup)
    as (_ & Hst & Hs & Hkeep & Hframe).
  rewrite decided_fuel by done.
  destruct (decided self t) as [[b|e]|] eqn:Hdec; [| |done]; intros [= <- <-]; simpl.
  - split; [by apply evolves_silent|]. do 4 (split; [done|]).
    exists b. split; [done|]. by rewrite status_of_table, Hst.
  - split; [by apply evolves_silent|]. done.
Qed.

Lemma pass_status_total fuel t s :
  t ∈ targets g → rank g t < fuel → is_Some (pass_status self fuel t s).
Proof.
  intros Ht Hfuel. unfold pass_status, status.
  destruct (update_state_total g Hwf Hacyclic fuel t (state_db s) Ht Hfuel) as [[db m] ->].
  destruct (should_run_terminates g (file_cache self) Hwf Hacyclic fuel t Ht Hfuel)
    as [[b|e] ->]; done.
Qed.

Lemma firm_preserved_silent X s s' x :
  evolves g X s s' → x ∈ targets g → new_events s s' = [] → firm self s x → firm self s' x.
Proof.
  intros Hev Hx Hnew Hfirm.
  assert (∀ y, rtc (dep g) x y → state_of (state_db s') (name y) = state_of (state_db s) (name y))
    as Heq.
  { apply (ev_settled _ _ _ _ Hev x Hx (firm_settled s x Hfirm)).
    intros y _. rewrite Hnew. by intros ?%elem_of_nil. }
  destruct Hfirm as [Ht Hvalid]. split; [by rewrite Heq|].
  intros y Hy. rewrite Heq by done. by apply Hvalid.
Qed.

Lemma quiet_preserved_silent X s s' x :
  evolves g X s s' → x ∈ targets g → new_events s s' = [] → quiet self s x → quiet self s' x.
Proof.
  intros Hev Hx Hnew [Hidle|Hfirm].
  - left. eapply idle_preserved; try done. intros y _. rewrite Hnew. by intros ?%elem_of_nil.
  - right. by eapply firm_preserved_silent.
Qed.

Lemma ordering_silent X s s' :
  evolves g X s s' → new_events s s' = [] →
  ordering_invariant self s → ordering_invariant self s'.
Proof.
  intros Hev Hnew Hord i e x d Hi Hx He Hd.
  assert (trace s' = trace s) as Htr.
  { rewrite (ev_trace _ _ _ _ Hev), Hnew. apply app_nil_r. }
  rewrite Htr in *. destruct (Hord i e x d Hi Hx He Hd) as [?|[Hq Hno]]; [by left|].
  right. split; [|done]. eapply quiet_preserved_silent; try done. by eapply wf_closed.
Qed.

(** The loop of [schedule] over dependencies, given what the recursive
    calls guarantee. *)
Lemma schedule_deps_spec fuel ds sd0 s s' r :
  (∀ d s s' r, d ∈ ds → schedule self fuel d s = Some (s', r) → schedule_post self s d s' r) →
  (∀ d, d ∈ ds → d ∈ targets g) →
  schedule_deps (schedule self fuel) ds sd0 s = Some (s', r) →
  schedule_deps_post self s ds sd0 s' r.
Proof.
  revert sd0 s. induction ds as [|d ds IH]; intros sd0 s Hrec Hds Hrun; simpl in Hrun.
  - injection Hrun as <- <-. split; rewrite ?new_events_self.
    + apply evolves_refl.
    + intros x _ _ y _. by intros ?%elem_of_nil.
    + intros x _ Hf. split; [done|]. by intros ?%elem_of_nil.
    + done.
    + by intros sd [= <-].
    + intros _. split; [|done]. intros d Hd. by apply elem_of_nil in Hd.
    + intros sd _ _ d Hd. by apply elem_of_nil in Hd.
    + done.
  - assert (d ∈ targets g) as Hdt by (apply Hds; set_solver).
    assert (∀ d', d' ∈ ds → d' ∈ targets g) as Hds' by (intros ??; apply Hds; set_solver).
    destruct (schedule self fuel d s) as [[s1 r1]|] eqn:Hd; [|done].
    pose proof (Hrec d s s1 r1 ltac:(set_solver) Hd) as Hpost.
    assert (evolves g (λ x, ∃ d0, d0 ∈ d :: ds ∧ rtc (dep g) d0 x) s s1) as Hev1.
    { eapply evolves_weaken; [|apply Hpost]. intros x Hx. exists d. split; [set_solver|done]. }
    destruct r1 as [b|e].
    + (* the call has returned *)
      set (sd1 := if b then {[name d]} ∪ sd0 else sd0).
      assert (schedule_deps (schedule self fuel) ds sd1 s1 = Some (s', r)) as Hrun'.
      { subst sd1. by destruct b. }
      clear Hrun.
      assert (schedule_deps_post self s1 ds sd1 s' r) as Hrest.
      { apply IH; try done. intros ?????. apply Hrec. set_solver. }
      assert (evolves g (λ x, ∃ d0, d0 ∈ d :: ds ∧ rtc (dep g) d0 x) s1 s') as Hev2.
      { eapply evolves_weaken; [|apply Hrest].
        intros x (d0 & Hd0 & Hx). exists d0. split; [set_solver|done]. }
      pose proof (evolves_new_events _ _ _ _ _ _ Hev1 Hev2) as Hnew.
      assert (∀ x, x ∈ targets g → idle self s x →
                ∀ y, rtc (dep g) x y → name y ∉ event_targets (new_events s s')) as Hidle.
      { intros x Hx Hix y Hy. rewrite Hnew, event_targets_app. intros [Hin|Hin].
        - by apply (sp_idle _ _ _ _ _ Hpost x Hx Hix y Hy).
        - apply (dp_idle _ _ _ _ _ _ Hrest x Hx) in Hin; [done| |done].
          eapply idle_preserved; [apply Hpost|done..|]. by apply (sp_idle _ _ _ _ _ Hpost). }
      split.
      * by eapply evolves_trans.
      * done.
      * intros x Hx Hfx. destruct (sp_firm _ _ _ _ _ Hpost x Hx Hfx) as [Hf1 Hn1].
        destruct (dp_firm _ _ _ _ _ _ Hrest x Hx Hf1) as [Hf2 Hn2].
        split; [done|]. rewrite Hnew, event_targets_app. tauto.
      * intros Hall. destruct b.
        -- by pose proof (sp_idle_false _ _ _ _ _ Hpost (Hall d ltac:(set_solver))).
        -- apply (dp_idle_false _ _ _ _ _ _ Hrest). intros d' Hd'.
           eapply idle_preserved; [apply Hpost|by apply Hds'|apply Hall; set_solver|].
           apply (sp_idle _ _ _ _ _ Hpost); [by apply Hds'|]. apply Hall. set_solver.
      * intros sd Hsd. pose proof (dp_mono _ _ _ _ _ _ Hrest sd Hsd) as Hmono.
        subst sd1. destruct b; set_solver.
      * intros Hr. destruct b.
        -- pose proof (dp_mono _ _ _ _ _ _ Hrest ∅ Hr) as Hmono. subst sd1. set_solver.
        -- destruct (sp_false _ _ _ _ _ Hpost eq_refl) as [Hid1 Hn1].
           destruct (dp_false _ _ _ _ _ _ Hrest Hr) as [Hid2 Hn2].
           split; [|by rewrite Hnew, Hn1, Hn2].
           intros d' [->|Hd']%elem_of_cons; [|by apply Hid2].
           eapply idle_preserved; [apply Hrest|done..|].
           intros y _. rewrite Hn2. by intros ?%elem_of_nil.
      * intros sd Hsd Hlog d' [->|Hd']%elem_of_cons.
        -- destruct b.
           ++ destruct (sp_true _ _ _ _ _ Hpost eq_refl Hlog) as [Hin|Hf].
              ** left. rewrite (event_targets_trace _ _ _ _ _ Hev2). by left.
              ** right. right. by apply (dp_firm _ _ _ _ _ _ Hrest).
           ++ right. left. destruct (sp_false _ _ _ _ _ Hpost eq_refl) as [Hid1 _].
              eapply idle_preserved; [apply Hrest|done..|].
              by apply (dp_idle _ _ _ _ _ _ Hrest).
        -- apply (dp_quiet _ _ _ _ _ _ Hrest sd Hsd); [|done].
           eapply memo_logged_evolves; [apply Hpost|done].
      * intros Hlog Hord. apply (dp_ordering _ _ _ _ _ _ Hrest).
        -- eapply memo_logged_evolves; [apply Hpost|done].
        -- by apply (sp_ordering _ _ _ _ _ Hpost).
    + (* the call has raised *)
      injection Hrun as <- <-. split.
      * done.
      * apply Hpost.
      * apply Hpost.
      * intros Hall. by pose proof (sp_idle_false _ _ _ _ _ Hpost (Hall d ltac:(set_solver))).
      * done.
      * done.
      * done.
      * apply Hpost.
Qed.

Lemma sorted_deps_elem_of t d : d ∈ sorted_deps g t ↔ d ∈ deps g t.
Proof. unfold sorted_deps. by rewrite merge_sort_Permutation. Qed.

Lemma status_table_submitted st b :
  status_table st b = TargetStatus.SUBMITTED → st = TargetState.SUBMITTED.
Proof. by destruct st, b. Qed.

Lemma status_table_rest st b :
  status_table st b ≠ TargetStatus.SUBMITTED →
  in_shouldrun_states (Some (status_table st b)) = false →
  status_table st b = TargetStatus.RUNNING ∨ status_table st b = TargetStatus.COMPLETED.
Proof. destruct st, b; simpl; intros ? H; try done; auto; by vm_compute in H. Qed.

Lemma status_table_resting st b :
  status_table st b = TargetStatus.RUNNING ∨ status_table st b = TargetStatus.COMPLETED →
  status_table st b ≠ TargetStatus.SUBMITTED
  ∧ in_shouldrun_states (Some (status_table st b)) = false.
Proof. intros [-> | ->]; split; try done; by vm_compute. Qed.

(** The branch that submits. *)
Lemma submit_spec t sd s :
  ∃ e, event_target e = name t
    ∧ trace (submit self t sd s) = trace s ++ [e]
    ∧ pretend_known s ⊆ pretend_known (submit self t sd s)
    ∧ (∀ n, n ∈ pretend_known (submit self t sd s) → n ∈ pretend_known s ∨ n = name t)
    ∧ (∀ n, n ≠ name t → state_of (state_db (submit self t sd s)) n = state_of (state_db s) n)
    ∧ (state_of (state_db (submit self t sd s)) (name t) = TargetState.SUBMITTED
       ∨ state_of (state_db (submit self t sd s)) (name t) = state_of (state_db s) (name t)).
Proof.
  unfold submit. destruct (dry_run self); simpl.
  - exists (WouldSubmit (name t)). repeat split; auto; set_solver.
  - exists (Submit (name t) sd). unfold commit; simpl.
    split; [done|]. split; [done|]. split; [done|]. split; [auto|]. split.
    + intros n Hn. rewrite state_of_insert. by rewrite decide_False.
    + left. rewrite state_of_insert. by rewrite decide_True.
Qed.

Lemma submit_evolves t sd s :
  t ∈ targets g → evolves g (λ x, x = t) s (submit self t sd s).
Proof.
  intros Ht. destruct (submit_spec t sd s) as (e & He & Htr & Hmono & Hmemo & Hother & _).
  pose proof (new_events_app _ _ _ Htr) as Hnew.
  split; rewrite ?Hnew.
  - done.
  - intros e' ->%list_elem_of_singleton. by exists t.
  - done.
  - intros n Hn. destruct (Hmemo n Hn) as [?| ->]; [by left|right].
    unfold event_targets. simpl. rewrite He. set_solver.
  - intros n. destruct (decide (n = name t)) as [->|Hn]; [right; by exists t|left; by apply Hother].
  - intros x Hx _ Hno y Hy. apply Hother. intros Hn. apply (Hno y Hy).
    unfold event_targets. simpl. rewrite He, Hn. set_solver.
Qed.

Lemma new_events_submit t sd s :
  event_targets (new_events s (submit self t sd s)) = [name t].
Proof.
  destruct (submit_spec t sd s) as (e & He & Htr & _).
  rewrite (new_events_app _ _ _ Htr). unfold event_targets. simpl. by rewrite He.
Qed.

Lemma firm_submit t sd s x :
  x ∈ targets g → t ∈ targets g → name x ≠ name t →
  firm self s x → firm self (submit self t sd s) x.
Proof.
  intros Hx Ht Hne [Hsub Hvalid].
  destruct (submit_spec t sd s) as (e & _ & _ & _ & _ & Hother & Hself).
  split; [by rewrite Hother|]. intros y Hy.
  destruct (decide (name y = name t)) as [Hn|Hn]; [|rewrite Hother by done; by apply Hvalid].
  assert (y = t) as ->.
  { apply (name_inj g Hwf); [exact (rtc_dep_targets g Hwf x y Hx Hy)|done..]. }
  destruct Hself as [-> | ->]; [|by apply Hvalid]. unfold invalid. naive_solver.
Qed.

Lemma quiet_submit t sd s x :
  x ∈ targets g → t ∈ targets g → ¬ rtc (dep g) x t →
  quiet self s x → quiet self (submit self t sd s) x.
Proof.
  intros Hx Ht Hnot [Hidle|Hfirm].
  - left. eapply idle_preserved; [by apply submit_evolves|done..|].
    intros y Hy. rewrite new_events_submit. intros Hn%list_elem_of_singleton.
    apply Hnot. by rewrite <-(name_inj g Hwf y t (rtc_dep_targets g Hwf x y Hx Hy) Ht Hn).
  - right. apply firm_submit; try done. intros Hn. apply Hnot.
    by rewrite (name_inj g Hwf x t).
Qed.

Lemma event_targets_lookup (l : list Event) n :
  n ∈ event_targets l ↔ ∃ j e, l !! j = Some e ∧ event_target e = n.
Proof.
  unfold event_targets. rewrite list_elem_of_fmap. split.
  - intros (e & -> & (j & Hj)%list_elem_of_lookup). eauto.
  - intros (j & e & Hj & <-). exists e. split; [done|]. by eapply list_elem_of_lookup_2.
Qed.

(** No dependency of [t] is above [t]. *)
Lemma dep_not_above t d : t ∈ targets g → d ∈ deps g t → ¬ rtc (dep g) d t.
Proof.
  intros Ht Hd Hr. apply (Hacyclic t Ht). eapply tc_rtc_r; [by apply tc_once|done].
Qed.

(** [schedule] at the point where it submits [t], from the state [sB] the
    loop over the dependencies (and the second call of [status]) has left. *)
Lemma schedule_post_submit s sB t sd :
  t ∈ targets g →
  evolves g (rtc (dep g) t) s sB →
  (∀ e, e ∈ new_events s sB →
        ∃ d x, d ∈ deps g t ∧ rtc (dep g) d x ∧ name x = event_target e) →
  (∀ x, x ∈ targets g → idle self s x →
        ∀ y, rtc (dep g) x y → name y ∉ event_targets (new_events s sB)) →
  (∀ x, x ∈ targets g → firm self s x →
        firm self sB x ∧ name x ∉ event_targets (new_events s sB)) →
  (memo_logged s → ordering_invariant self s → ordering_invariant self sB) →
  (memo_logged s → ∀ d, d ∈ deps g t → name d ∈ event_targets (trace sB) ∨ quiet self sB d) →
  ¬ idle self s t → ¬ firm self s t →
  schedule_post self s t (submit self t sd sB) (Ok true).
Proof.
  intros Ht HevB Hregion HidleB HfirmB HordB HquietB Hnot_idle Hnot_firm.
  pose proof (submit_evolves t sd sB Ht) as Hsub.
  assert (evolves g (rtc (dep g) t) sB (submit self t sd sB)) as Hsub'.
  { eapply evolves_weaken; [|exact Hsub]. by intros x ->. }
  pose proof (evolves_trans _ _ _ _ _ HevB Hsub') as Hev.
  pose proof (evolves_new_events _ _ _ _ _ _ HevB Hsub') as Hnew.
  pose proof (new_events_submit t sd sB) as Hlast.
  assert (∀ n, n ∈ event_targets (new_events s (submit self t sd sB))
               ↔ n ∈ event_targets (new_events s sB) ∨ n = name t) as Hnew_in.
  { intros n. rewrite Hnew, event_targets_app, Hlast. set_solver. }
  assert (∀ x, x ∈ targets g → idle self s x →
            ∀ y, rtc (dep g) x y → name y ∉ event_targets (new_events s (submit self t sd sB)))
    as Hidle.
  { intros x Hx Hix y Hy [Hin|Hn]%Hnew_in; [by apply (HidleB x Hx Hix y Hy)|].
    apply Hnot_idle. apply (idle_below s x); [done|].
    by rewrite <-(name_inj g Hwf y t (rtc_dep_targets g Hwf x y Hx Hy) Ht Hn). }
  assert (∀ x, x ∈ targets g → firm self s x →
            firm self (submit self t sd sB) x
            ∧ name x ∉ event_targets (new_events s (submit self t sd sB))) as Hfirm.
  { intros x Hx Hfx. destruct (HfirmB x Hx Hfx) as [HfB HnB].
    assert (name x ≠ name t) as Hne.
    { intros Hn. apply Hnot_firm. by rewrite <-(name_inj g Hwf x t Hx Ht Hn). }
    split; [by apply firm_submit|]. intros [?|?]%Hnew_in; done. }
  destruct (submit_spec t sd sB) as (et & Het & Htr & _).
  split; try done.
  - intros _ _. left. rewrite Htr, event_targets_app. right.
    unfold event_targets. simpl. rewrite Het. set_solver.
  - intros Hlog Hord i e x d Hi Hx He Hd.
    assert (d ∈ targets g) as Hdt by exact (wf_closed g Hwf x d Hx Hd).
    rewrite Htr in Hi. destruct (decide (i < length (trace sB))) as [Hlt|Hge].
    + rewrite lookup_app_l in Hi by done.
      destruct (decide (i < length (trace s))) as [Hold|Hnew'].
      * (* an event the pass had before the call *)
        rewrite (ev_trace _ _ _ _ HevB), lookup_app_l in Hi by done.
        destruct (Hord i e x d Hi Hx He Hd) as [(j & e' & Hj & Hje & He')|[Hq Hno]].
        { left. exists j, e'. split; [done|]. split; [|done].
          rewrite (ev_trace _ _ _ _ Hev). apply lookup_app_l_Some. done. }
        right. destruct Hq as [Hid|Hf].
        -- split.
           ++ left. eapply idle_preserved; [exact Hev|done..|]. by apply Hidle.
           ++ rewrite (event_targets_trace _ _ _ _ _ Hev). intros [?|Hin]; [done|].
              by apply (Hidle d Hdt Hid d).
        -- destruct (Hfirm d Hdt Hf) as [Hf' Hn']. split; [by right|].
           rewrite (event_targets_trace _ _ _ _ _ Hev). tauto.
      * (* an event of the loop over the dependencies *)
        assert (e ∈ new_events s sB) as Hin.
        { rewrite (ev_trace _ _ _ _ HevB), lookup_app_r in Hi by lia.
          by eapply list_elem_of_lookup_2. }
        destruct (Hregion e Hin) as (d0 & x0 & Hd0 & Hx0 & Hn0).
        assert (d0 ∈ targets g) as Hd0t by exact (wf_closed g Hwf t d0 Ht Hd0).
        assert (x0 = x) as ->.
        { apply (name_inj g Hwf); [exact (rtc_dep_targets g Hwf d0 x0 Hd0t Hx0)|done|congruence]. }
        assert (¬ rtc (dep g) d t) as Hnot.
        { intros Hr. apply (dep_not_above t d0 Ht Hd0). etrans; [exact Hx0|].
          eapply rtc_l; [exact Hd|done]. }
        destruct (HordB Hlog Hord i e x d Hi Hx He Hd) as [(j & e' & Hj & Hje & He')|[Hq Hno]].
        { left. exists j, e'. split; [done|]. split; [|done].
          rewrite Htr. by apply lookup_app_l_Some. }
        right. split; [by apply quiet_submit|].
        rewrite Htr, event_targets_app. intros [?|Hl]; [done|].
        unfold event_targets in Hl. simpl in Hl. rewrite Het in Hl.
        apply list_elem_of_singleton in Hl. apply Hnot.
        by rewrite (name_inj g Hwf d t Hdt Ht Hl).
    + (* the event of [t] itself *)
      assert (i = length (trace sB)) as ->.
      { apply lookup_lt_Some in Hi. rewrite length_app in Hi. simpl in Hi. lia. }
      rewrite lookup_app_r, Nat.sub_diag in Hi by lia. injection Hi as <-.
      assert (x = t) as -> by (apply (name_inj g Hwf); [done..|congruence]).
      assert (name d ≠ name t) as Hne.
      { intros Hn. apply (dep_not_above t d Ht Hd). by rewrite (name_inj g Hwf d t Hdt Ht Hn). }
      destruct (decide (name d ∈ event_targets (trace sB))) as [Hin|Hnin].
      * left. apply event_targets_lookup in Hin as (j & e' & Hj & He').
        exists j, e'. split; [by eapply lookup_lt_Some|]. split; [|done].
        rewrite Htr. by apply lookup_app_l_Some.
      * right. destruct (HquietB Hlog d Hd) as [?|Hq]; [done|].
        split; [apply quiet_submit; try done; by apply dep_not_above|].
        rewrite Htr, event_targets_app. intros [?|Hl]; [done|].
        unfold event_targets in Hl. simpl in Hl. rewrite Het in Hl.
        by apply list_elem_of_singleton in Hl.
Qed.

Lemma schedule_spec fuel t s s' r :
  t ∈ targets g → rank g t < fuel →
  schedule self fuel t s = Some (s', r) → schedule_post self s t s' r.
Proof.
  revert t s s' r. induction fuel as [|fuel IH]; intros t s s' r Ht Hfuel Hrun; [lia|].
  cbn [schedule] in Hrun.
  destruct (pass_status self (S fuel) t (prepare_target_options self t s))
    as [[s1 r1]|] eqn:Hst1; [|done].
  destruct (pass_status_spec (S fuel) t _ s1 r1 Ht Hfuel Hst1)
    as (Hev01 & Htr1 & Hmemo1 & Hset1 & Hkeep1 & Hr1).
  simpl in Htr1, Hmemo1.
  assert (evolves g (rtc (dep g) t) s s1) as Hev1.
  { eapply evolves_trans; [apply prepare_evolves|exact Hev01]. }
  assert (new_events s s1 = []) as Hnew1.
  { apply new_events_app. rewrite Htr1. by rewrite app_nil_r. }
  assert (∀ x, x ∈ targets g → idle self s x → idle self s1 x) as Hidle1.
  { intros x Hx Hix. eapply idle_preserved; [exact Hev1|done..|].
    intros y _. rewrite Hnew1. by intros ?%elem_of_nil. }
  assert (∀ x, x ∈ targets g → firm self s x → firm self s1 x) as Hfirm1.
  { intros x Hx. by eapply firm_preserved_silent. }
  assert (ordering_invariant self s → ordering_invariant self s1) as Hord1.
  { by eapply ordering_silent. }
  destruct r1 as [st1|e1].
  2:{ (* [status] has raised *)
    injection Hrun as <- <-. split; try done.
    - intros x _ _ y _. rewrite Hnew1. by intros ?%elem_of_nil.
    - intros x Hx Hf. split; [by apply Hfirm1|]. rewrite Hnew1. by intros ?%elem_of_nil.
    - intros [_ Hrest]. destruct (Hrest t) as [_ (b & Hb & _)]; [done|]. congruence. }
  destruct Hr1 as (b & Hdec & ->).
  destruct (bool_decide (Some (status_table (state_of (state_db s1) (name t)) b)
                         = Some TargetStatus.SUBMITTED)
            || bool_decide (name t ∈ pretend_known s1)) eqn:Hdedup.
  { (* already submitted, or in the memo *)
    injection Hrun as <- <-. split; try done.
    - intros x _ _ y _. rewrite Hnew1. by intros ?%elem_of_nil.
    - intros x Hx Hf. split; [by apply Hfirm1|]. rewrite Hnew1. by intros ?%elem_of_nil.
    - intros Hit. apply Hidle1 in Hit; [|done]. destruct Hit as [_ Hrest].
      destruct (Hrest t) as [Hp (b' & Hb' & Hres)]; [done|].
      rewrite Hdec in Hb'. injection Hb' as <-.
      apply status_table_resting in Hres as [Hns _].
      apply orb_true_iff in Hdedup as [Hg%bool_decide_eq_true|Hg%bool_decide_eq_true];
        [congruence|done].
    - intros _ Hlog.
      apply orb_true_iff in Hdedup as [Hg%bool_decide_eq_true|Hg%bool_decide_eq_true].
      + right. apply settled_submitted_firm; [done|].
        injection Hg as Hg. by apply status_table_submitted in Hg.
      + left. rewrite Htr1. apply Hlog. by rewrite <-Hmemo1. }
  apply orb_false_iff in Hdedup as [Hg1%bool_decide_eq_false Hg2%bool_decide_eq_false].
  assert (¬ firm self s t) as Hnot_firm.
  { intros Hf. apply Hfirm1 in Hf as [Hf _]; [|done]. apply Hg1. by rewrite Hf. }
  destruct (schedule_deps (schedule self fuel) (sorted_deps g t) ∅ s1)
    as [[s2 r2]|] eqn:Hloop; [|done].
  assert (schedule_deps_post self s1 (sorted_deps g t) ∅ s2 r2) as Hdeps.
  { apply (schedule_deps_spec fuel); [| |done].
    - intros d sa sb rd Hd%sorted_deps_elem_of Hrd. apply IH; [| |done].
      + exact (wf_closed g Hwf t d Ht Hd).
      + pose proof (rank_dep g Hwf Hacyclic t d Ht Hd). lia.
    - intros d Hd%sorted_deps_elem_of. exact (wf_closed g Hwf t d Ht Hd). }
  assert (evolves g (rtc (dep g) t) s1 s2) as Hev12.
  { eapply evolves_weaken; [|apply Hdeps].
    intros x (d & Hd%sorted_deps_elem_of & Hx). eapply rtc_l; [exact Hd|done]. }
  pose proof (evolves_trans _ _ _ _ _ Hev1 Hev12) as Hev2.
  assert (new_events s s2 = new_events s1 s2) as Hnew2.
  { by rewrite (evolves_new_events _ _ _ _ _ _ Hev1 Hev12), Hnew1. }
  assert (∀ e, e ∈ new_events s s2 →
               ∃ d x, d ∈ deps g t ∧ rtc (dep g) d x ∧ name x = event_target e) as Hregion.
  { intros e He. rewrite Hnew2 in He.
    destruct (ev_region _ _ _ _ (dp_evolves _ _ _ _ _ _ Hdeps) e He)
      as (x & (d & Hd%sorted_deps_elem_of & Hx) & Hn). eauto. }
  assert (∀ x, x ∈ targets g → idle self s x →
            ∀ y, rtc (dep g) x y → name y ∉ event_targets (new_events s s2)) as Hidle2.
  { intros x Hx Hix. rewrite Hnew2.
    apply (dp_idle _ _ _ _ _ _ Hdeps); [done|by apply Hidle1]. }
  assert (∀ x, x ∈ targets g → firm self s x →
            firm self s2 x ∧ name x ∉ event_targets (new_events s s2)) as Hfirm2.
  { intros x Hx Hfx. rewrite Hnew2.
    apply (dp_firm _ _ _ _ _ _ Hdeps); [done|by apply Hfirm1]. }
  assert (memo_logged s → memo_logged s1) as Hlog1 by by eapply memo_logged_evolves.
  assert (memo_logged s → ordering_invariant self s → ordering_invariant self s2) as Hord2.
  { intros Hlog Hord. apply (dp_ordering _ _ _ _ _ _ Hdeps); auto. }
  destruct r2 as [sd|e2].
  2:{ (* a dependency has raised *)
    injection Hrun as <- <-. split; try done.
    intros Hit. apply Hidle1 in Hit; [|done].
    assert (Raise e2 = Ok (∅ : gset string)) as Habs; [|done].
    apply (dp_idle_false _ _ _ _ _ _ Hdeps). intros d Hd%sorted_deps_elem_of.
    eapply idle_below; [done|]. by apply rtc_once. }
  assert (memo_logged s →
          ∀ d, d ∈ deps g t → name d ∈ event_targets (trace s2) ∨ quiet self s2 d) as Hquiet2.
  { intros Hlog d Hd. apply (dp_quiet _ _ _ _ _ _ Hdeps sd); auto.
    by apply sorted_deps_elem_of. }
  destruct (bool_decide (sd ≠ ∅)) eqn:Hsd.
  { (* some dependency was submitted *)
    apply bool_decide_eq_true in Hsd. injection Hrun as <- <-.
    apply schedule_post_submit; try done.
    intros Hit. apply Hsd. apply Hidle1 in Hit; [|done].
    assert (Ok sd = Ok (∅ : gset string)) as [= ->]; [|done].
    apply (dp_idle_false _ _ _ _ _ _ Hdeps). intros d Hd%sorted_deps_elem_of.
    eapply idle_below; [done|]. by apply rtc_once. }
  apply bool_decide_eq_false in Hsd. assert (sd = ∅) as -> by (by destruct (decide (sd = ∅)); [|destruct Hsd]).
  destruct (dp_false _ _ _ _ _ _ Hdeps eq_refl) as [Hidle_deps Hnone].
  (* nothing has happened since the first call of [status] *)
  assert (∀ y, rtc (dep g) t y →
            state_of (state_db s2) (name y) = state_of (state_db s1) (name y)) as Hsame2.
  { apply (ev_settled _ _ _ _ Hev12 t Ht Hset1). intros y _. rewrite Hnone.
    by intros ?%elem_of_nil. }
  assert (settled g (state_db s2) t) as Hset2 by by eapply settled_ext.
  destruct (pass_status self (S fuel) t s2) as [[s3 r3]|] eqn:Hst3; [|done].
  destruct (pass_status_spec (S fuel) t _ s3 r3 Ht Hfuel Hst3)
    as (Hev23 & Htr3 & Hmemo3 & Hset3 & Hkeep3 & Hr3).
  assert (new_events s2 s3 = []) as Hnew23.
  { apply new_events_app. rewrite Htr3. by rewrite app_nil_r. }
  pose proof (evolves_trans _ _ _ _ _ Hev2 Hev23) as Hev3.
  assert (new_events s s3 = new_events s s2) as Hnew3.
  { by rewrite (evolves_new_events _ _ _ _ _ _ Hev2 Hev23), Hnew23, app_nil_r. }
  destruct r3 as [st3|e3]; [|congruence].
  destruct Hr3 as (b' & Hdec' & ->). rewrite Hdec in Hdec'. injection Hdec' as <-.
  assert (state_of (state_db s3) (name t) = state_of (state_db s1) (name t)) as Hsame3.
  { rewrite (Hkeep3 t Ht Hset2 t) by done. by apply Hsame2. }
  assert (∀ x, x ∈ targets g → firm self s x →
            firm self s3 x ∧ name x ∉ event_targets (new_events s s3)) as Hfirm3.
  { intros x Hx Hfx. rewrite Hnew3. destruct (Hfirm2 x Hx Hfx) as [Hf2 Hn2].
    split; [|done]. exact (firm_preserved_silent _ s2 s3 x Hev23 Hx Hnew23 Hf2). }
  assert (memo_logged s → ordering_invariant self s → ordering_invariant self s3) as Hord3.
  { intros Hlog Hord. eapply ordering_silent; [exact Hev23|done|]. by apply Hord2. }
  rewrite Hsame3 in Hrun.
  destruct (in_shouldrun_states (Some (status_table (state_of (state_db s1) (name t)) b)))
    eqn:Hshould; injection Hrun as <- <-.
  - (* [t] reports a state in which it should run *)
    apply schedule_post_submit; try done.
    + by rewrite Hnew3.
    + by rewrite Hnew3.
    + intros Hlog d Hd. rewrite Htr3.
      destruct (Hquiet2 Hlog d Hd) as [?|Hq]; [by left|right].
      eapply quiet_preserved_silent; [exact Hev23| |done..].
      exact (wf_closed g Hwf t d Ht Hd).
    + intros Hit. apply Hidle1 in Hit as [_ Hrest]; [|done].
      destruct (Hrest t) as [_ (b' & Hb' & Hres)]; [done|].
      rewrite Hdec in Hb'. injection Hb' as <-.
      apply status_table_resting in Hres as [_ Hres]. congruence.
  - (* nothing to do for [t] *)
    split; try done.
    + by rewrite Hnew3.
    + intros _. split; [|by rewrite Hnew3, Hnew2].
      split; [done|]. intros x [<-|(d & Hd & Hx)]%rtc_inv.
      * split.
        -- rewrite Hmemo3. intros [?|Hin]%(ev_memo _ _ _ _ Hev12); [done|].
           rewrite Hnone in Hin. by apply elem_of_nil in Hin.
        -- exists b. split; [done|]. rewrite Hsame3. apply status_table_rest; [|done].
           intros Hs. apply Hg1. by rewrite Hs.
      * assert (idle self s3 d) as [_ Hrest]; [|by apply Hrest].
        assert (d ∈ targets g) as Hdt by exact (wf_closed g Hwf t d Ht Hd).
        eapply idle_preserved; [exact Hev23|done| |].
        -- apply Hidle_deps. by apply sorted_deps_elem_of.
        -- intros y _. rewrite Hnew23. by intros ?%elem_of_nil.
Qed.
End pass.

Lemma memo_logged_new db : memo_logged (new_pass db).
Proof. intros n Hn. simpl in Hn. set_solver. Qed.


Section pass_theorems.
Context (self : Scheduler).
Local Abbreviation g := (graph self).
Hypothesis Hwf : well_formed g.
Hypothesis Hacyclic : acyclic g.

Lemma schedule_deps_total (rec : Target → Pass → option (Pass * result bool)) ds sd s :
  (∀ d s, d ∈ ds → is_Some (rec d s)) → is_Some (schedule_deps rec ds sd s).
Proof.
  revert sd s. induction ds as [|d ds IH]; intros sd s Hrec; simpl; [done|].
  destruct (Hrec d s) as [[s1 [[]|e]] ->]; [set_solver| | |done];
    apply IH; intros ???; apply Hrec; set_solver.
Qed.

Lemma schedule_total fuel t s :
  t ∈ targets g → rank g t < fuel → is_Some (schedule self fuel t s).
Proof.
  revert t s. induction fuel as [|fuel IH]; intros t s Ht Hfuel; [lia|].
  cbn [schedule].
  destruct (pass_status_total self Hwf Hacyclic (S fuel) t (prepare_target_options self t s)
              Ht Hfuel) as [[s1 [st1|e1]] ->]; [|done].
  destruct (_ || _); [done|].
  destruct (schedule_deps_total (schedule self fuel) (sorted_deps g t) ∅ s1)
    as [[s2 [sd|e2]] ->]; [|..|done].
  { intros d sa Hd%sorted_deps_elem_of. apply IH; [exact (wf_closed g Hwf t d Ht Hd)|].
    pose proof (rank_dep g Hwf Hacyclic t d Ht Hd). lia. }
  destruct (bool_decide _); [done|].
  destruct (pass_status_total self Hwf Hacyclic (S fuel) t s2 Ht Hfuel)
    as [[s3 [st3|e3]] ->]; [|done].
  by destruct (in_shouldrun_states st3).
Qed.



Lemma schedule_many_total fuel ts s :
  (∀ t, t ∈ ts → t ∈ targets g) → length (targets g) < fuel →
  is_Some (schedule_many self fuel ts s).
Proof.
  intros Hts Hfuel. revert s. induction ts as [|t ts IH]; intros s; simpl; [done|].
  destruct (schedule_total fuel t s) as [[s1 [b|e]] ->]; [apply Hts; set_solver| | |done].
  { pose proof (rank_le g t). lia. }
  destruct (IH (λ t Ht, Hts t ltac:(set_solver)) s1) as [[s2 [l|e]] ->]; done.
Qed.

(** The events of the loop over the dependencies come in segments, one for
    each dependency in turn. *)
Lemma schedule_deps_segments fuel ds sd s s' r :
  (∀ d, d ∈ ds → d ∈ targets g ∧ rank g d < fuel) →
  schedule_deps (schedule self fuel) ds sd s = Some (s', r) →
  ∃ segs, trace s' = trace s ++ concat segs ∧ segments_of g ds segs
          ∧ (∀ sd', r = Ok sd' → length segs = length ds).
Proof.
  revert sd s. induction ds as [|d ds IH]; intros sd s Hds Hrun; simpl in Hrun.
  - injection Hrun as <- <-. exists []. simpl. rewrite app_nil_r.
    split; [done|]. split; [constructor|done].
  - destruct (Hds d) as [Hdt Hrk]; [set_solver|].
    destruct (schedule self fuel d s) as [[s1 r1]|] eqn:Hd; [|done].
    pose proof (schedule_spec self Hwf Hacyclic fuel d s s1 r1 Hdt Hrk Hd) as Hpost.
    pose proof (sp_evolves _ _ _ _ _ Hpost) as Hev1.
    assert (∀ e, e ∈ new_events s s1 → ∃ x, rtc (dep g) d x ∧ name x = event_target e)
      as Hseg by apply Hev1.
    destruct r1 as [b|e].
    + assert (∃ sd1, schedule_deps (schedule self fuel) ds sd1 s1 = Some (s', r))
        as [sd1 Hrun'] by (destruct b; eauto).
      destruct (IH sd1 s1) as (segs & Htr & Hsegs & Hlen); [|done|].
      { intros ??. apply Hds. set_solver. }
      exists (new_events s s1 :: segs). split; [|split].
      * simpl. by rewrite Htr, (ev_trace _ _ _ _ Hev1), app_assoc.
      * unfold segments_of. simpl. by constructor.
      * intros sd' Hr. simpl. f_equal. by eapply Hlen.
    + injection Hrun as <- <-. exists [new_events s s1]. split; [|split; [|done]].
      * simpl. rewrite app_nil_r. apply Hev1.
      * unfold segments_of. simpl. repeat constructor. done.
Qed.

End pass_theorems.

#[global] Instance name_le_total : Total name_le.
Proof. intros a b. unfold name_le. apply (total String.le). Qed.

#[global] Instance name_le_trans : Transitive name_le.
Proof. intros a b c. unfold name_le. apply transitivity. Qed.

(** ** Order of submission *)




(** ** What [schedule] returns *)

(** C4 as it is worded: an earlier run has left C submitted; in a new pass
    [schedule] returns [true] for it, and the pass has neither submitted it
    nor pretended to. *)
Lemma schedule_true_without_submission :
  (λ p, (trace p.1, elements (pretend_known p.1), p.2))
    <$> schedule (scheduler chain false (files [("a", 1%Z); ("b", 2%Z); ("c", 3%Z)])) 4 tC
          (new_pass submitted_before)
  = Some ([], [], Ok true).
Proof. by vm_compute. Qed.

(** ** Scheduling twice *)

(** C3 fails on the code.  The files a and b are there, c is not, no target
    has run under the scheduler before, nothing is dry: the first call
    submits C, the second call submits C again.  In between [update_state]
    has reset C, whose dependency B is UNKNOWN, so that the dedup test did not
    fire. *)
Lemma schedule_twice_submits_twice :
  ∃ s1 s2,
    schedule (scheduler chain false (files [("a", 1%Z); ("b", 2%Z)])) 4 tC (new_pass ∅)
    = Some (s1, Ok true)
    ∧ trace s1 = [Submit "C" ∅]
    ∧ state_of (state_db s1) "C" = TargetState.SUBMITTED
    ∧ schedule (scheduler chain false (files [("a", 1%Z); ("b", 2%Z)])) 4 tC s1
      = Some (s2, Ok true)
    ∧ trace s2 = [Submit "C" ∅; Submit "C" ∅].
Proof.
  eexists _, _. split; [by vm_compute|]. split; [by vm_compute|].
  split; [by vm_compute|]. split; [by vm_compute|]. by vm_compute.
Qed.

(** ** Dry run *)

Lemma state_of_all_unknown (db : gmap string TargetState.t) :
  map_Forall (λ _ st, st = TargetState.UNKNOWN) db →
  ∀ n, state_of db n = TargetState.UNKNOWN.
Proof.
  intros Hall n. unfold state_of. destruct (db !! n) as [st|] eqn:Hn; [|done].
  by apply (Hall n st).
Qed.

(** C9, as the code has it.  S1 under dry-run: [schedule] of C returns
    [true], nothing reaches the backend, and the memo is A, B and C.  Every
    target reads UNKNOWN afterwards as it did before; but the store has been
    written: [update_state] has reset B and C, whose dependencies are
    UNKNOWN.  Then [schedule] of B returns [true]: B is in the memo, and the
    call adds no event and nothing to the memo, and leaves the store as the
    first call has left it. *)
Theorem dry_run_chain :
  ∃ s1 s2,
    schedule (scheduler chain true (files [])) 4 tC (new_pass ∅) = Some (s1, Ok true)
    ∧ state_db s1 = {[ "B" := TargetState.UNKNOWN; "C" := TargetState.UNKNOWN ]}
    ∧ (∀ n, state_of (state_db s1) n = state_of ∅ n)
    ∧ trace s1 = [WouldSubmit "A"; WouldSubmit "B"; WouldSubmit "C"]
    ∧ pretend_known s1 = {[ "A"; "B"; "C" ]}
    ∧ schedule (scheduler chain true (files [])) 4 tB s1 = Some (s2, Ok true)
    ∧ name tB ∈ pretend_known s1
    ∧ trace s2 = trace s1 ∧ pretend_known s2 = pretend_known s1
    ∧ state_db s2 = state_db s1
    ∧ (∀ n, state_of (state_db s2) n = state_of ∅ n).
Proof.
  eexists _, _. split; [by vm_compute|]. split; [by vm_compute|]. split.
  { apply state_of_all_unknown. compute_done. }
  split; [by vm_compute|]. split; [by vm_compute|]. split; [by vm_compute|].
  split; [compute_done|]. split; [by vm_compute|]. split; [by vm_compute|].
  split; [by vm_compute|]. apply state_of_all_unknown. compute_done.
Qed.

(** C9 as it is worded: the call is to mutate no [TargetMeta].  The store
    was empty, and after the call it holds a record for B and one for C,
    written by the [reset] of [update_state]. *)
Lemma dry_run_chain_writes :
  state_db (new_pass ∅) = ∅
  ∧ (map_to_list ∘ state_db ∘ fst)
      <$> schedule (scheduler chain true (files [])) 4 tC (new_pass ∅)
    = Some [("C", TargetState.UNKNOWN); ("B", TargetState.UNKNOWN)].
Proof. split; by vm_compute. Qed.

(** ** The scenarios of the specification, run on the model *)

Example from_targets_chain : from_targets [tA; tB; tC] = Some (Ok chain).
Proof. by vm_compute. Qed.

Example from_targets_diamond : from_targets [tRight; tLeft; tTop] = Some (Ok diamond).
Proof. by vm_compute. Qed.

(** S1: a fresh chain is submitted from the source on. *)
Example scenario_fresh_chain :
  observe ["A"; "B"; "C"] (schedule (scheduler chain false (files [])) 4 tC (new_pass ∅))
  = Some ([Submit "A" ∅; Submit "B" {["A"]}; Submit "C" {["B"]}],
          [TargetState.SUBMITTED; TargetState.SUBMITTED; TargetState.SUBMITTED], Ok true).
Proof. by vm_compute. Qed.

(** S2: nothing is submitted when every file is up to date. *)
Example scenario_up_to_date :
  observe ["A"; "B"; "C"]
    (schedule (scheduler chain false (files [("a", 1%Z); ("b", 2%Z); ("c", 3%Z)])) 4 tC
       (new_pass ∅))
  = Some ([], [TargetState.UNKNOWN; TargetState.UNKNOWN; TargetState.UNKNOWN], Ok false).
Proof. by vm_compute. Qed.

(** S3: a sink runs whenever it is reached. *)
Example scenario_sink :
  observe ["D"] (schedule (scheduler lone_sink false (files [("ext", 1%Z)])) 2 tD (new_pass ∅))
  = Some ([Submit "D" ∅], [TargetState.SUBMITTED], Ok true).
Proof. by vm_compute. Qed.

(** S4: a file with two providers. *)
Example scenario_two_providers :
  from_targets [tX; tY] = Some (Raise (Workflow (FileProvidedByMultipleTargets "o" "X" "Y"))).
Proof. by vm_compute. Qed.

(** S5: a cycle. *)
Example scenario_cycle :
  from_targets [tP; tQ] = Some (Raise (Workflow (CircularDependency "Q"))).
Proof. by vm_compute. Qed.

(** S6: B stays FAILED while A is COMPLETED, and is reset once A has
    failed. *)
Example scenario_invalidation :
  (λ r, state_of r.1 "B") <$> update_state chain 4 tB
     {[ "A" := TargetState.COMPLETED; "B" := TargetState.FAILED ]}
  = Some TargetState.FAILED
  ∧ (λ r, state_of r.1 "B") <$> update_state chain 4 tB
       {[ "A" := TargetState.FAILED; "B" := TargetState.FAILED ]}
    = Some TargetState.UNKNOWN.
Proof. split; by vm_compute. Qed.

(** S7: an unresolved input that is missing. *)
Example scenario_required_missing :
  snd <$> (from_targets [tM] ≫= λ r,
           match r with
           | Ok g => schedule (scheduler g false (files [])) 2 tM (new_pass ∅)
           | Raise e => None
           end)
  = Some (Raise (Workflow (FileRequiredButNotProvided "ext" "M"))).
Proof. by vm_compute. Qed.

(** * Further properties of the graph *)

(** ** [dfs] *)

Section dfs.
Context (g : Graph).
Hypothesis Hwf : well_formed g.

Lemma unvisited_le V V' : V ⊆ V' → unvisited g V' ≤ unvisited g V.
Proof. intros HV. apply filter_length_le. intros x _ Hx. set_solver. Qed.

Lemma unvisited_lt V node :
  node ∈ targets g → name node ∉ V → unvisited g ({[name node]} ∪ V) < unvisited g V.
Proof.
  intros Hnode Hfresh. apply (filter_length_lt _ _ _ node); [done|done|set_solver|].
  intros x _ Hx. set_solver.
Qed.

Lemma dfs_extends_nil st : dfs_extends g st st [].
Proof.
  split; simpl.
  - by rewrite app_nil_r.
  - set_solver.
  - by intros x ?%elem_of_nil.
  - constructor.
  - by intros x ?%elem_of_nil.
  - by intros x d ?%elem_of_nil.
  - by intros i x d ?.
Qed.

(** A name of a target that is in a list of targets is the name of no
    other. *)
Lemma elem_of_names (l : list Target) d :
  d ∈ targets g → (∀ x, x ∈ l → x ∈ targets g) → name d ∈ name <$> l → d ∈ l.
Proof.
  intros Hd Hl (x & Hn & Hx)%list_elem_of_fmap.
  by rewrite (name_inj g Hwf d x Hd (Hl x Hx) Hn).
Qed.

Lemma dfs_extends_app st st1 st2 new1 new2 :
  dfs_extends g st st1 new1 → dfs_extends g st1 st2 new2 →
  dfs_extends g st st2 (new1 ++ new2).
Proof.
  intros H1 H2.
  pose proof (de_visited _ _ _ _ H1) as HV1. pose proof (de_visited _ _ _ _ H2) as HV2.
  split.
  - rewrite (de_path _ _ _ _ H2), (de_path _ _ _ _ H1). by rewrite app_assoc.
  - rewrite HV2, HV1, fmap_app, list_to_set_app_L. set_solver.
  - intros x [Hx|Hx]%elem_of_app; [by apply (de_fresh _ _ _ _ H1)|].
    pose proof (de_fresh _ _ _ _ H2 x Hx). set_solver.
  - rewrite fmap_app. apply NoDup_app.
    split; [apply (de_nodup _ _ _ _ H1)|]. split; [|apply (de_nodup _ _ _ _ H2)].
    intros n Hn (x & -> & Hx)%list_elem_of_fmap.
    apply (de_fresh _ _ _ _ H2 x Hx). rewrite HV1. set_solver.
  - intros x [Hx|Hx]%elem_of_app; [by apply (de_targets _ _ _ _ H1)|by apply (de_targets _ _ _ _ H2)].
  - intros x d [Hx|Hx]%elem_of_app Hd; [|by apply (de_closed _ _ _ _ H2 x)].
    pose proof (de_closed _ _ _ _ H1 x d Hx Hd). set_solver.
  - intros i x d Hi Hd. apply lookup_app_Some in Hi as [Hi|[Hlen Hi]].
    + rewrite take_app_le by (apply lookup_lt_Some in Hi; lia).
      by apply (de_order _ _ _ _ H1 i x).
    + destruct (de_order _ _ _ _ H2 _ x d Hi Hd) as [Hv|[Hin|Hr]]; [|right; left|by right; right].
      * rewrite HV1 in Hv. apply elem_of_union in Hv as [?|Hn]; [by left|].
        right; left. rewrite take_app_ge by done. apply elem_of_app. left.
        apply elem_of_list_to_set in Hn. apply elem_of_names; [|apply (de_targets _ _ _ _ H1)|done].
        eapply wf_closed; [done| |exact Hd].
        apply (de_targets _ _ _ _ H2). by eapply list_elem_of_lookup_2.
      * rewrite take_app_ge by done. apply elem_of_app. by right.
Qed.

Lemma dfs_deps_spec fuel ds st :
  (∀ d st, d ∈ targets g → unvisited g st.1 < fuel →
           dfs_inner_post g d st (dfs_inner g fuel d st)) →
  (∀ d, d ∈ ds → d ∈ targets g) → unvisited g st.1 < fuel →
  ∃ st' new, dfs_deps (dfs_inner g fuel) ds st = Some st' ∧ dfs_extends g st st' new
    ∧ (∀ d, d ∈ ds → name d ∈ st'.1)
    ∧ (∀ x, x ∈ new → ∃ d, d ∈ ds ∧ rtc (dep g) d x).
Proof.
  intros Hrec. revert st. induction ds as [|d ds IH]; intros st Hds Hfuel; simpl.
  - exists st, []. split; [done|]. split; [apply dfs_extends_nil|].
    split; [by intros d ?%elem_of_nil|by intros x ?%elem_of_nil].
  - destruct (Hrec d st) as (st1 & new1 & -> & Hext1 & Hd1 & Hreach1 & _);
      [apply Hds; set_solver|done|].
    pose proof (de_visited _ _ _ _ Hext1) as HV1.
    destruct (IH st1) as (st2 & new2 & -> & Hext2 & Hall2 & Hreach2).
    { intros d' Hd'. apply Hds. set_solver. }
    { assert (st.1 ⊆ st1.1) as Hsub by (rewrite HV1; set_solver).
      pose proof (unvisited_le _ _ Hsub). lia. }
    pose proof (de_visited _ _ _ _ Hext2) as HV2.
    exists st2, (new1 ++ new2). split; [done|]. split; [by eapply dfs_extends_app|]. split.
    + intros d' [->|Hd']%elem_of_cons; [|by apply Hall2]. rewrite HV2. set_solver.
    + intros x [Hx|Hx]%elem_of_app.
      * exists d. split; [set_solver|by apply Hreach1].
      * destruct (Hreach2 x Hx) as (d' & Hd' & Hr). exists d'. split; [set_solver|done].
Qed.

Lemma dfs_inner_spec fuel node st :
  node ∈ targets g → unvisited g st.1 < fuel →
  dfs_inner_post g node st (dfs_inner g fuel node st).
Proof.
  revert node st. induction fuel as [|fuel IH]; intros node [V P] Hnode Hfuel; [lia|].
  simpl in *. destruct (decide (name node ∈ V)) as [Hin|Hnew].
  - exists (V, P), []. split; [done|]. split; [apply dfs_extends_nil|].
    split; [done|]. split; [by intros x ?%elem_of_nil|done].
  - pose proof (unvisited_lt V node Hnode Hnew) as Hlt.
    destruct (dfs_deps_spec fuel (deps g node) ({[name node]} ∪ V, P) IH)
      as ([V2 P2] & new & -> & Hext & Hall & Hreach).
    { intros d Hd. by eapply wf_closed. }
    { simpl. lia. }
    pose proof (de_visited _ _ _ _ Hext) as HV. pose proof (de_path _ _ _ _ Hext) as HP.
    simpl in *.
    assert (∀ x, x ∈ new → rtc (dep g) node x) as Hreach'.
    { intros x Hx. destruct (Hreach x Hx) as (d & Hd & Hr). by eapply rtc_l. }
    exists (V2, P2 ++ [node]), (new ++ [node]). split; [done|]. split; [|split; [|split]].
    + split; simpl.
      * by rewrite HP, app_assoc.
      * rewrite HV, fmap_app, list_to_set_app_L. set_solver.
      * intros x [Hx|Hx%list_elem_of_singleton]%elem_of_app; [|by subst].
        pose proof (de_fresh _ _ _ _ Hext x Hx). set_solver.
      * rewrite fmap_app. apply NoDup_app. split; [apply (de_nodup _ _ _ _ Hext)|].
        split; [|apply NoDup_singleton].
        intros n (x & -> & Hx)%list_elem_of_fmap Hn%list_elem_of_singleton.
        apply (de_fresh _ _ _ _ Hext x Hx). set_solver.
      * intros x [Hx|Hx%list_elem_of_singleton]%elem_of_app; [|by subst].
        by apply (de_targets _ _ _ _ Hext).
      * intros x d [Hx|Hx%list_elem_of_singleton]%elem_of_app Hd; [|subst; by apply Hall].
        by apply (de_closed _ _ _ _ Hext x).
      * intros i x d Hi Hd. apply lookup_app_Some in Hi as [Hi|[Hlen Hi]].
        -- assert (x ∈ new) as Hx by by eapply list_elem_of_lookup_2.
           rewrite take_app_le by (apply lookup_lt_Some in Hi; lia).
           destruct (de_order _ _ _ _ Hext i x d Hi Hd) as [Hv|[?|?]]; [|by right; left|by right; right].
           simpl in Hv. apply elem_of_union in Hv as [Hn%elem_of_singleton|?]; [|by left].
           right; right.
           assert (d = node) as ->; [|by apply Hreach'].
           apply (name_inj g Hwf); [|done..].
           eapply wf_closed; [done| |exact Hd]. by apply (de_targets _ _ _ _ Hext).
        -- destruct (i - length new) as [|k] eqn:Hk; [|by destruct k].
           injection Hi as <-. specialize (Hall d Hd). rewrite HV in Hall.
           assert (d ∈ targets g) as Hdt by by eapply wf_closed.
           apply elem_of_union in Hall as [[Hn%elem_of_singleton|?]%elem_of_union|Hn]; [|by left|].
           ++ right; right. by rewrite (name_inj g Hwf d node).
           ++ right; left. rewrite take_app_ge by done. apply elem_of_app. left.
              apply elem_of_list_to_set in Hn.
              apply elem_of_names; [done|apply (de_targets _ _ _ _ Hext)|done].
    + simpl. rewrite HV. set_solver.
    + intros x [Hx|Hx%list_elem_of_singleton]%elem_of_app; [by apply Hreach'|by subst].
    + intros _. apply last_snoc.
Qed.
End dfs.

(** [dfs] on a target of the graph: the run and what it has added to the
    empty path. *)
Lemma dfs_run g root :
  well_formed g → root ∈ targets g →
  ∃ V path, dfs g root = Some path ∧ dfs_extends g (∅, []) (V, path) path
    ∧ root ∈ path ∧ last path = Some root ∧ ∀ x, x ∈ path → rtc (dep g) root x.
Proof.
  intros Hwf Hroot.
  destruct (dfs_inner_spec g Hwf (S (length (targets g))) root (∅, []) Hroot)
    as ([V path] & new & Hrun & Hext & _ & Hreach & Hlast).
  { apply Nat.lt_succ_r. apply length_filter. }
  pose proof (de_path _ _ _ _ Hext) as HP. simpl in HP. subst new.
  exists V, path. unfold dfs. rewrite Hrun. split; [done|]. split; [done|].
  specialize (Hlast ltac:(set_solver)). split; [by eapply last_Some_elem_of|done].
Qed.

(** [dfs] comes back on every graph, with or without a cycle; the path holds
    the targets below [root], each once, and [root] is the last. *)
Theorem dfs_reachable g root :
  well_formed g → root ∈ targets g →
  ∃ path, dfs g root = Some path ∧ NoDup path
    ∧ (∀ x, x ∈ path ↔ rtc (dep g) root x) ∧ last path = Some root.
Proof.
  intros Hwf Hroot.
  destruct (dfs_run g root Hwf Hroot) as (V & path & Hrun & Hext & Hin & Hlast & Hreach).
  exists path. split; [done|]. split; [|split; [|done]].
  - eapply NoDup_fmap_1, (de_nodup _ _ _ _ Hext).
  - intros x. split; [apply Hreach|]. intros Hr.
    revert x Hr. apply rtc_ind_r; [done|]. intros y z Hy Hyz IH.
    pose proof (de_closed _ _ _ _ Hext y z IH Hyz) as Hz.
    rewrite (de_visited _ _ _ _ Hext) in Hz. simpl in Hz.
    apply elem_of_union in Hz as [?|Hz%elem_of_list_to_set]; [set_solver|].
    apply (elem_of_names g Hwf); [|apply (de_targets _ _ _ _ Hext)|done].
    eapply wf_closed; [done| |exact Hyz]. by apply (de_targets _ _ _ _ Hext).
Qed.

Lemma dfs_reachable_witness :
  well_formed two_cycle ∧ tP ∈ targets two_cycle
  ∧ ∃ path, dfs two_cycle tP = Some path ∧ NoDup path
      ∧ (∀ x, x ∈ path ↔ rtc (dep two_cycle) tP x) ∧ last path = Some tP.
Proof.
  assert (tP ∈ targets two_cycle) as Hin by compute_done.
  split; [apply two_cycle_well_formed|]. split; [exact Hin|].
  exact (dfs_reachable two_cycle tP two_cycle_well_formed Hin).
Defined.

(** Without a cycle the path is in the order of the dependencies: every
    dependency of a target of the path stands before it. *)
Theorem dfs_dependencies_first g root :
  well_formed g → acyclic g → root ∈ targets g →
  ∃ path, dfs g root = Some path
    ∧ ∀ i x d, path !! i = Some x → d ∈ deps g x → ∃ j, j < i ∧ path !! j = Some d.
Proof.
  intros Hwf Hac Hroot.
  destruct (dfs_run g root Hwf Hroot) as (V & path & Hrun & Hext & _).
  exists path. split; [done|]. intros i x d Hi Hd.
  destruct (de_order _ _ _ _ Hext i x d Hi Hd) as [Hv|[Hin|Hr]].
  - set_solver.
  - apply elem_of_take in Hin as (j & Hj & Hlt). by exists j.
  - exfalso. apply (Hac x).
    + apply (de_targets _ _ _ _ Hext). by eapply list_elem_of_lookup_2.
    + eapply tc_rtc_r; [by apply tc_once|done].
Qed.

Lemma dfs_dependencies_first_witness :
  well_formed diamond ∧ acyclic diamond ∧ tTop ∈ targets diamond
  ∧ ∃ path, dfs diamond tTop = Some path
      ∧ ∀ i x d, path !! i = Some x → d ∈ deps diamond x → ∃ j, j < i ∧ path !! j = Some d.
Proof.
  assert (tTop ∈ targets diamond) as Hin by compute_done.
  split; [apply diamond_well_formed|]. split; [apply diamond_acyclic|]. split; [exact Hin|].
  exact (dfs_dependencies_first diamond tTop diamond_well_formed diamond_acyclic Hin).
Defined.

Example dfs_diamond : dfs diamond tTop = Some [tRight; tLeft; tTop].
Proof. by vm_compute. Qed.

(** On a cycle the order cannot hold: P stands after Q, which depends on
    it. *)
Example dfs_two_cycle : dfs two_cycle tP = Some [tQ; tP].
Proof. by vm_compute. Qed.

(** ** What [from_targets] computes *)

Lemma add_outputs_Ok t paths pv pv' :
  add_outputs t paths pv = Ok pv' →
  NoDup paths ∧ (∀ p, p ∈ paths → pv !! p = None)
  ∧ ∀ p, pv' !! p = if decide (p ∈ paths) then Some t else pv !! p.
Proof.
  revert pv. induction paths as [|path paths IH]; intros pv; simpl.
  - intros [= <-]. split; [constructor|]. split; [by intros p ?%elem_of_nil|done].
  - destruct (pv !! path) eqn:Hpath; [done|]. intros (Hnd & Hfree & Hpv')%IH.
    assert (path ∉ paths) as Hnotin.
    { intros Hin. specialize (Hfree path Hin). by rewrite lookup_insert_eq in Hfree. }
    split; [by constructor|]. split.
    + intros p [->|Hp]%elem_of_cons; [done|]. specialize (Hfree p Hp).
      rewrite lookup_insert_ne in Hfree; [done|]. by intros ->.
    + intros p. rewrite Hpv'. destruct (decide (p ∈ paths)) as [Hp|Hp].
      * rewrite decide_True; [done|set_solver].
      * destruct (decide (p = path)) as [->|Hne].
        -- rewrite lookup_insert_eq. rewrite decide_True; [done|set_solver].
        -- rewrite lookup_insert_ne by done. rewrite decide_False; [done|set_solver].
Qed.

Lemma add_outputs_Raise t paths pv e :
  add_outputs t paths pv = Raise e →
  ∃ p other, e = Workflow (FileProvidedByMultipleTargets p (name other) (name t))
    ∧ p ∈ paths ∧ (pv !! p = Some other ∨ other = t).
Proof.
  revert pv. induction paths as [|path paths IH]; intros pv; simpl; [done|].
  destruct (pv !! path) as [other|] eqn:Hpath.
  - intros [= <-]. exists path, other. split; [done|]. split; [set_solver|by left].
  - intros (p & other & -> & Hp & Hother)%IH. exists p, other.
    split; [done|]. split; [set_solver|].
    destruct Hother as [Hother|?]; [|by right].
    destruct (decide (p = path)) as [->|Hne].
    + rewrite lookup_insert_eq in Hother. right. congruence.
    + rewrite lookup_insert_ne in Hother by done. by left.
Qed.

Lemma add_outputs_total t paths pv :
  NoDup paths → (∀ p, p ∈ paths → pv !! p = None) → ∃ pv', add_outputs t paths pv = Ok pv'.
Proof.
  revert pv. induction paths as [|path paths IH]; intros pv Hnd Hfree; simpl; [by eexists|].
  apply NoDup_cons in Hnd as [Hnotin Hnd].
  rewrite (Hfree path) by set_solver. apply IH; [done|].
  intros p Hp. rewrite lookup_insert_ne by (by intros ->). apply Hfree. set_solver.
Qed.

Lemma build_provides_Ok ts pv pv' :
  build_provides ts pv = Ok pv' →
  NoDup (ts ≫= flattened_outputs) ∧ (∀ p, p ∈ ts ≫= flattened_outputs → pv !! p = None)
  ∧ ∀ p d, pv' !! p = Some d ↔ pv !! p = Some d ∨ (d ∈ ts ∧ p ∈ flattened_outputs d).
Proof.
  revert pv. induction ts as [|t ts IH]; intros pv; simpl.
  - intros [= <-]. split; [constructor|]. split; [by intros p ?%elem_of_nil|].
    intros p d. split; [by left|]. intros [?|[?%elem_of_nil _]]; done.
  - destruct (add_outputs t (flattened_outputs t) pv) as [pv1|] eqn:Hadd; [|done].
    apply add_outputs_Ok in Hadd as (Hnd1 & Hfree1 & Hpv1).
    intros (Hnd & Hfree & Hpv')%IH.
    assert (∀ p, p ∈ flattened_outputs t → p ∉ ts ≫= flattened_outputs) as Hdisj.
    { intros p Hp Hin. specialize (Hfree p Hin). rewrite Hpv1, decide_True in Hfree; done. }
    split; [|split].
    + apply NoDup_app. done.
    + intros p [Hp|Hp]%elem_of_app; [by apply Hfree1|].
      specialize (Hfree p Hp). rewrite Hpv1 in Hfree. by case_decide.
    + intros p d. rewrite Hpv', Hpv1. split.
      * intros [Hp|[Hd Hp]].
        -- case_decide; [|by left]. injection Hp as <-. right. split; [set_solver|done].
        -- right. split; [set_solver|done].
      * intros [Hp|[[->|Hd]%elem_of_cons Hp]].
        -- destruct (decide (p ∈ flattened_outputs t)) as [Hin|]; [|by left].
           by rewrite Hfree1 in Hp.
        -- left. by rewrite decide_True.
        -- by right.
Qed.

Lemma build_provides_Raise ts pv e :
  build_provides ts pv = Raise e →
  ∃ p t1 t2, e = Workflow (FileProvidedByMultipleTargets p (name t1) (name t2))
    ∧ t2 ∈ ts ∧ p ∈ flattened_outputs t2
    ∧ (pv !! p = Some t1 ∨ (t1 ∈ ts ∧ p ∈ flattened_outputs t1)).
Proof.
  revert pv. induction ts as [|t ts IH]; intros pv; simpl; [done|].
  destruct (add_outputs t (flattened_outputs t) pv) as [pv1|e1] eqn:Hadd.
  - intros (p & t1 & t2 & -> & Ht2 & Hp2 & H1)%IH.
    exists p, t1, t2. split; [done|]. split; [set_solver|]. split; [done|].
    destruct H1 as [H1|[? ?]]; [|right; split; [set_solver|done]].
    apply add_outputs_Ok in Hadd as (_ & _ & Hpv1). rewrite Hpv1 in H1.
    case_decide; [|by left]. injection H1 as <-. right. split; [set_solver|done].
  - intros [= <-]. apply add_outputs_Raise in Hadd as (p & other & -> & Hp & Hother).
    exists p, other, t. split; [done|]. split; [set_solver|]. split; [done|].
    destruct Hother as [?| ->]; [by left|]. right. split; [set_solver|done].
Qed.

Lemma build_provides_total ts pv :
  NoDup (ts ≫= flattened_outputs) → (∀ p, p ∈ ts ≫= flattened_outputs → pv !! p = None) →
  ∃ pv', build_provides ts pv = Ok pv'.
Proof.
  revert pv. induction ts as [|t ts IH]; intros pv Hnd Hfree; simpl; [by eexists|].
  simpl in Hnd. apply NoDup_app in Hnd as (Hnd1 & Hdisj & Hnd).
  destruct (add_outputs_total t (flattened_outputs t) pv Hnd1) as [pv1 Hadd].
  { intros p Hp. apply Hfree. set_solver. }
  rewrite Hadd. apply IH; [done|]. intros p Hp.
  apply add_outputs_Ok in Hadd as (_ & _ & ->).
  rewrite decide_False by (intros Hin; by apply (Hdisj p)). apply Hfree. set_solver.
Qed.

Lemma NoDup_set_add x (s : list Target) : NoDup s → NoDup (set_add x s).
Proof.
  intros Hs. unfold set_add. case_decide; [done|].
  apply NoDup_app. split; [done|]. split; [|apply NoDup_singleton].
  intros y Hy ->%list_elem_of_singleton. done.
Qed.

Lemma add_inputs_exact pv t paths acc :
  (∀ t0 d, d ∈ deps_of (add_inputs pv t paths acc).1 t0 ↔
      d ∈ deps_of acc.1 t0 ∨ (name t0 = name t ∧ ∃ p, p ∈ paths ∧ pv !! p = Some d))
  ∧ (∀ p, p ∈ (add_inputs pv t paths acc).2 ↔ p ∈ acc.2 ∨ (p ∈ paths ∧ pv !! p = None))
  ∧ ((∀ t0, NoDup (deps_of acc.1 t0)) → ∀ t0, NoDup (deps_of (add_inputs pv t paths acc).1 t0)).
Proof.
  revert acc. induction paths as [|path paths IH]; intros [ds un]; simpl.
  - split; [|split; [|done]].
    + intros t0 d. split; [by left|]. by intros [?|[_ (p & ?%elem_of_nil & _)]].
    + intros p. split; [by left|]. by intros [?|[?%elem_of_nil _]].
  - destruct (pv !! path) as [q|] eqn:Hpath.
    + destruct (IH (<[name t := set_add q (deps_of ds t)]> ds, un)) as (Hdeps & Hun & Hnd).
      simpl in *. split; [|split].
      * intros t0 d. rewrite Hdeps, deps_of_insert. split.
        -- intros [Hd|(Hn & p & Hp & Hpv)]; [|right; split; [done|]; exists p; set_solver].
           case_decide as Hn; [|by left]. apply elem_of_set_add in Hd as [->|Hd].
           ++ right. split; [done|]. exists path. set_solver.
           ++ left. unfold deps_of in *. by rewrite <-Hn.
        -- intros [Hd|(Hn & p & [->|Hp]%elem_of_cons & Hpv)].
           ++ left. case_decide as Hn; [|done]. apply elem_of_set_add. right.
              unfold deps_of in *. by rewrite Hn.
           ++ left. rewrite decide_True by done. apply elem_of_set_add. left. congruence.
           ++ right. split; [done|]. by exists p.
      * intros p. rewrite Hun. split.
        -- intros [?|[? ?]]; [by left|right; set_solver].
        -- intros [?|[[->|?]%elem_of_cons ?]]; [by left|congruence|by right].
      * intros Hall. apply Hnd. intros t0. rewrite deps_of_insert.
        case_decide; [|done]. by apply NoDup_set_add.
    + destruct (IH (ds, {[path]} ∪ un)) as (Hdeps & Hun & Hnd).
      simpl in *. split; [|split; [|done]].
      * intros t0 d. rewrite Hdeps. split.
        -- intros [?|(Hn & p & Hp & Hpv)]; [by left|]. right. split; [done|]. exists p. set_solver.
        -- intros [?|(Hn & p & [->|Hp]%elem_of_cons & Hpv)]; [by left|congruence|].
           right. split; [done|]. by exists p.
      * intros p. rewrite Hun. split.
        -- intros [[->%elem_of_singleton|?]%elem_of_union|[? ?]].
           ++ right. set_solver.
           ++ by left.
           ++ right. set_solver.
        -- intros [?|[[->|?]%elem_of_cons ?]]; [set_solver|set_solver|by right].
Qed.

Lemma build_dependencies_exact pv ts :
  (∀ t0 d, d ∈ deps_of (build_dependencies pv ts).1 t0 ↔
      ∃ t, t ∈ ts ∧ name t0 = name t ∧ ∃ p, p ∈ flattened_inputs t ∧ pv !! p = Some d)
  ∧ (∀ p, p ∈ (build_dependencies pv ts).2 ↔
      pv !! p = None ∧ ∃ t, t ∈ ts ∧ p ∈ flattened_inputs t)
  ∧ (∀ t0, NoDup (deps_of (build_dependencies pv ts).1 t0)).
Proof.
  unfold build_dependencies.
  assert (∀ acc,
    (∀ t0 d, d ∈ deps_of (foldl (λ acc t, add_inputs pv t (flattened_inputs t) acc) acc ts).1 t0 ↔
       d ∈ deps_of acc.1 t0
       ∨ ∃ t, t ∈ ts ∧ name t0 = name t ∧ ∃ p, p ∈ flattened_inputs t ∧ pv !! p = Some d)
    ∧ (∀ p, p ∈ (foldl (λ acc t, add_inputs pv t (flattened_inputs t) acc) acc ts).2 ↔
       p ∈ acc.2 ∨ (pv !! p = None ∧ ∃ t, t ∈ ts ∧ p ∈ flattened_inputs t))
    ∧ ((∀ t0, NoDup (deps_of acc.1 t0)) →
       ∀ t0, NoDup (deps_of (foldl (λ acc t, add_inputs pv t (flattened_inputs t) acc)
                               acc ts).1 t0))) as Hgen.
  { induction ts as [|t ts IH]; intros acc; simpl.
    - split; [|split; [|done]].
      + intros t0 d. split; [by left|]. by intros [?|(t & ?%elem_of_nil & _)].
      + intros p. split; [by left|]. by intros [?|(_ & t & ?%elem_of_nil & _)].
    - destruct (IH (add_inputs pv t (flattened_inputs t) acc)) as (Hdeps & Hun & Hnd).
      destruct (add_inputs_exact pv t (flattened_inputs t) acc) as (Hdeps1 & Hun1 & Hnd1).
      split; [|split].
      + intros t0 d. rewrite Hdeps, Hdeps1. split.
        * intros [[?|[Hn Hp]]|(t' & Ht' & Hrest)]; [by left|right..].
          -- exists t. split; [set_solver|done].
          -- exists t'. split; [set_solver|done].
        * intros [?|(t' & [->|Ht']%elem_of_cons & Hn & Hp)]; [by left; left|by left; right|].
          right. by exists t'.
      + intros p. rewrite Hun, Hun1. split.
        * intros [[?|[Hp Hpv]]|(Hpv & t' & Ht' & Hp)]; [by left|right..].
          -- split; [done|]. exists t. set_solver.
          -- split; [done|]. exists t'. set_solver.
        * intros [?|(Hpv & t' & [->|Ht']%elem_of_cons & Hp)]; [by left; left|by left; right|].
          right. split; [done|]. by exists t'.
      + intros Hall. by apply Hnd, Hnd1. }
  destruct (Hgen (∅, ∅)) as (Hdeps & Hun & Hnd). simpl in *. split; [|split].
  - intros t0 d. rewrite Hdeps. unfold deps_of at 1. rewrite lookup_empty. simpl.
    split; [by intros [?%elem_of_nil|?]|by right].
  - intros p. rewrite Hun. split; [intros [?|?]; [set_solver|done]|by right].
  - apply Hnd. intros t0. unfold deps_of. rewrite lookup_empty. constructor.
Qed.

Lemma build_dependents_exact ds ts :
  (∀ n x, x ∈ default [] (build_dependents ds ts !! n) ↔
      x ∈ ts ∧ ∃ d, d ∈ deps_of ds x ∧ name d = n)
  ∧ (∀ n, n ∈ dom (build_dependents ds ts) ↔
      ∃ x d, x ∈ ts ∧ d ∈ deps_of ds x ∧ name d = n).
Proof.
  unfold build_dependents.
  assert (∀ t l (acc : gmap string (list Target)),
    let acc' := foldl (λ acc dep, <[name dep := set_add t (deps_of acc dep)]> acc) acc l in
    (∀ n x, x ∈ default [] (acc' !! n) ↔
        x ∈ default [] (acc !! n) ∨ (x = t ∧ ∃ d, d ∈ l ∧ name d = n))
    ∧ (∀ n, n ∈ dom acc' ↔ n ∈ dom acc ∨ ∃ d, d ∈ l ∧ name d = n)) as Hinner.
  { intros t l. induction l as [|d l IH]; intros acc; simpl.
    - split.
      + intros n x. split; [by left|]. by intros [?|[_ (d & ?%elem_of_nil & _)]].
      + intros n. split; [by left|]. by intros [?|(d & ?%elem_of_nil & _)].
    - destruct (IH (<[name d := set_add t (deps_of acc d)]> acc)) as [Hmem Hdom]. split.
      + intros n x. rewrite Hmem. rewrite lookup_insert. split.
        * intros [Hx|[-> (d' & Hd' & Hn)]]; [|right; split; [done|]; exists d'; set_solver].
          case_decide as Hn; [|by left]. simpl in Hx. apply elem_of_set_add in Hx as [->|Hx].
          -- right. split; [done|]. exists d. set_solver.
          -- left. unfold deps_of in Hx. by rewrite Hn in Hx.
        * intros [Hx|[-> (d' & [->|Hd']%elem_of_cons & Hn)]].
          -- left. case_decide as Hn; [|done]. simpl. apply elem_of_set_add. right.
             unfold deps_of. by rewrite Hn.
          -- left. rewrite decide_True by done. simpl. apply elem_of_set_add. by left.
          -- right. split; [done|]. by exists d'.
      + intros n. rewrite Hdom, dom_insert. split.
        * intros [[->%elem_of_singleton|?]%elem_of_union|(d' & Hd' & Hn)].
          -- right. exists d. set_solver.
          -- by left.
          -- right. exists d'. set_solver.
        * intros [?|(d' & [->|Hd']%elem_of_cons & Hn)]; [set_solver|set_solver|].
          right. by exists d'. }
  assert (∀ acc : gmap string (list Target),
    let acc' := foldl (λ acc t,
                  foldl (λ acc dep, <[name dep := set_add t (deps_of acc dep)]> acc)
                        acc (deps_of ds t)) acc ts in
    (∀ n x, x ∈ default [] (acc' !! n) ↔
        x ∈ default [] (acc !! n) ∨ (x ∈ ts ∧ ∃ d, d ∈ deps_of ds x ∧ name d = n))
    ∧ (∀ n, n ∈ dom acc' ↔ n ∈ dom acc ∨ ∃ x d, x ∈ ts ∧ d ∈ deps_of ds x ∧ name d = n))
    as Houter.
  { induction ts as [|t ts IH]; intros acc; simpl.
    - split.
      + intros n x. split; [by left|]. by intros [?|[?%elem_of_nil _]].
      + intros n. split; [by left|]. by intros [?|(x & d & ?%elem_of_nil & _)].
    - destruct (IH (foldl (λ acc dep, <[name dep := set_add t (deps_of acc dep)]> acc)
                          acc (deps_of ds t))) as [Hmem Hdom].
      destruct (Hinner t (deps_of ds t) acc) as [Hmem1 Hdom1]. split.
      + intros n x. rewrite Hmem, Hmem1. split.
        * intros [[?|[-> Hd]]|[Hx Hd]]; [by left|right; split; [set_solver|done]..].
        * intros [?|[[->|Hx]%elem_of_cons Hd]]; [by left; left|by left; right|by right].
      + intros n. rewrite Hdom, Hdom1. split.
        * intros [[?|(d & Hd & Hn)]|(x & d & Hx & Hd & Hn)]; [by left|right..].
          -- exists t, d. set_solver.
          -- exists x, d. set_solver.
        * intros [?|(x & d & [->|Hx]%elem_of_cons & Hd & Hn)]; [by left; left| |].
          -- left; right. by exists d.
          -- right. by exists x, d. }
  destruct (Houter ∅) as [Hmem Hdom]. simpl in *. split.
  - intros n x. rewrite Hmem, lookup_empty. simpl.
    split; [by intros [?%elem_of_nil|?]|by right].
  - intros n. rewrite Hdom, dom_empty. split; [intros [?|?]; [set_solver|done]|by right].
Qed.

(** The graph [from_targets] hands to [Graph.__init__] once every output has
    one provider. *)
Lemma from_targets_built ts pv :
  NoDup (name <$> ts) → build_provides ts ∅ = Ok pv →
  ∃ g, targets g = ts ∧ well_formed g ∧ resolved g ∧ from_targets ts = Graph_init g.
Proof.
  intros Hnd Hpv. unfold from_targets. rewrite Hpv.
  destruct (build_dependencies pv ts) as [ds un] eqn:Hds.
  destruct (build_dependencies_exact pv ts) as (Hdeps & Hun & Hnodup).
  destruct (build_dependents_exact ds ts) as [Hmem Hdom].
  rewrite Hds in *. simpl in *.
  apply build_provides_Ok in Hpv as (_ & _ & Hprov).
  assert (∀ p d, pv !! p = Some d ↔ d ∈ ts ∧ p ∈ flattened_outputs d) as Hprov'.
  { intros p d. rewrite Hprov, lookup_empty. split; [by intros [?|?]|by right]. }
  set (g0 := {| targets := ts; provides := pv; dependencies := ds;
                dependents := build_dependents ds ts; unresolved := un |}).
  assert (well_formed g0) as Hwf.
  { split; [done|]. intros t d _ Hd. apply Hdeps in Hd as (t' & _ & _ & p & _ & Hp).
    by apply Hprov' in Hp as [? _]. }
  exists g0. split; [done|]. split; [done|]. split; [|done]. split; simpl; try done.
  intros t d Ht. unfold deps. simpl. rewrite Hdeps. split.
  - intros (t' & Ht' & Hn & Hp). by rewrite (name_inj g0 Hwf t t' Ht Ht' Hn).
  - intros Hp. by exists t.
Qed.

(** [Graph.__init__] raises nothing but what the walk raises. *)
Lemma visit_deps_raises (P : exn → Prop) visit node ds st e :
  (∀ n, P (KeyError n)) → (∀ n, P (Workflow (CircularDependency n))) →
  (∀ d st e, visit d st = Some (Raise e) → P e) →
  visit_deps visit node ds st = Some (Raise e) → P e.
Proof.
  intros Hkey Hcyc Hvisit. revert st. induction ds as [|d ds IH]; intros st; simpl; [done|].
  destruct (st !! name d) as [[]|]; [|by intros [= <-]|apply IH|by intros [= <-]].
  destruct (visit d st) as [[st1|e1]|] eqn:Hd; [apply IH| |done].
  intros [= <-]. by eapply Hvisit.
Qed.

Lemma Graph_init_raises g e :
  Graph_init g = Some (Raise e) →
  (∃ n, e = KeyError n) ∨ (∃ n, e = Workflow (CircularDependency n)).
Proof.
  set (P := λ e : exn, (∃ n, e = KeyError n) ∨ (∃ n, e = Workflow (CircularDependency n))).
  assert (∀ n, P (KeyError n)) as Hkey by (intros n; left; by exists n).
  assert (∀ n, P (Workflow (CircularDependency n))) as Hcyc by (intros n; right; by exists n).
  assert (∀ fuel node st e, visitor g fuel node st = Some (Raise e) → P e) as Hvisitor.
  { induction fuel as [|fuel IH]; intros node st e'; simpl; [done|].
    destruct (visit_deps _ _ _ _) as [[st1|e1]|] eqn:Hloop; [done| |done].
    intros [= <-]. eapply (visit_deps_raises P); [done|done| |exact Hloop].
    intros d st2 e2. apply IH. }
  assert (∀ fuel nodes st e, visit_all g fuel nodes st = Some (Raise e) → P e) as Hall.
  { intros fuel nodes. induction nodes as [|node nodes IH]; intros st e'; simpl; [done|].
    destruct (st !! name node) as [[]|]; [|apply IH|apply IH|by intros [= <-]].
    destruct (visitor g fuel node st) as [[st1|e1]|] eqn:Hv; [apply IH| |done].
    intros [= <-]. by eapply Hvisitor. }
  unfold Graph_init, check_for_circular_dependencies.
  destruct (visit_all _ _ _ _) as [[st|e1]|] eqn:Hrun; [done| |done].
  intros [= <-]. by eapply Hall.
Qed.

(** [from_targets] raises the error of a file with several providers exactly
    when a path stands twice among the outputs of the targets, be it twice
    in one target; the error names such a path and two targets that list it,
    and it comes before any look for cycles. *)
Theorem from_targets_multiple_providers ts :
  ((∃ p a b, from_targets ts
             = Some (Raise (Workflow (FileProvidedByMultipleTargets p a b))))
   ↔ ¬ NoDup (ts ≫= flattened_outputs))
  ∧ ∀ p a b, from_targets ts = Some (Raise (Workflow (FileProvidedByMultipleTargets p a b))) →
      ∃ t1 t2, t1 ∈ ts ∧ t2 ∈ ts ∧ name t1 = a ∧ name t2 = b
               ∧ p ∈ flattened_outputs t1 ∧ p ∈ flattened_outputs t2.
Proof.
  assert (∀ p a b, from_targets ts
                   = Some (Raise (Workflow (FileProvidedByMultipleTargets p a b))) →
            build_provides ts ∅ = Raise (Workflow (FileProvidedByMultipleTargets p a b)))
    as Hfrom.
  { intros p a b. unfold from_targets.
    destruct (build_provides ts ∅) as [pv|e]; [|by intros [= <-]].
    destruct (build_dependencies pv ts) as [ds un].
    intros [[n [=]]|[n [=]]]%Graph_init_raises. }
  split; [split|].
  - intros (p & a & b & Hrun%Hfrom) Hnd.
    destruct (build_provides_total ts ∅ Hnd) as [pv Hpv]; [done|]. congruence.
  - intros Hdup. unfold from_targets.
    destruct (build_provides ts ∅) as [pv|e] eqn:Hpv.
    + by apply build_provides_Ok in Hpv as [? _].
    + apply build_provides_Raise in Hpv as (p & t1 & t2 & -> & _). by eexists _, _, _.
  - intros p a b Hrun%Hfrom.
    apply build_provides_Raise in Hrun as (p' & t1 & t2 & [= -> -> ->] & Ht2 & Hp2 & H1).
    destruct H1 as [H1|[Ht1 Hp1]]; [by rewrite lookup_empty in H1|].
    by exists t1, t2.
Qed.

Lemma from_targets_graph_resolved ts g :
  NoDup (name <$> ts) → from_targets ts = Some (Ok g) → targets g = ts ∧ resolved g.
Proof.
  intros Hnd Hrun.
  destruct (build_provides ts ∅) as [pv|e] eqn:Hpv;
    [|by unfold from_targets in Hrun; rewrite Hpv in Hrun].
  destruct (from_targets_built ts pv Hnd Hpv) as (g0 & Hts & Hwf & Hres & Heq).
  rewrite Heq in Hrun. unfold Graph_init in Hrun.
  destruct (check_for_circular_dependencies g0) as [[st|e]|]; [|done..].
  by injection Hrun as <-.
Qed.

(** The graph that [from_targets] returns: [provides], [dependencies],
    [unresolved] and [dependents] are what the inputs and outputs of the
    targets say. *)
Theorem from_targets_resolved ts g :
  NoDup (name <$> ts) → from_targets ts = Some (Ok g) → targets g = ts ∧ resolved g.
Proof. apply from_targets_graph_resolved. Qed.

Lemma from_targets_resolved_witness :
  NoDup (name <$> [tRight; tLeft; tTop])
  ∧ from_targets [tRight; tLeft; tTop] = Some (Ok diamond)
  ∧ targets diamond = [tRight; tLeft; tTop] ∧ resolved diamond.
Proof.
  assert (NoDup (name <$> [tRight; tLeft; tTop])) as Hnd by compute_done.
  assert (from_targets [tRight; tLeft; tTop] = Some (Ok diamond)) as Hrun by by vm_compute.
  split; [exact Hnd|]. split; [exact Hrun|].
  exact (from_targets_resolved [tRight; tLeft; tTop] diamond Hnd Hrun).
Defined.

(** In the graph that [from_targets] builds, a target depends on the
    targets whose outputs it consumes. *)
Lemma resolved_dep_consumes g t d :
  resolved g → t ∈ targets g → dep g t d ↔ consumes (targets g) t d.
Proof.
  intros Hres Ht. unfold dep, consumes. rewrite (rs_dependencies g Hres t d Ht). split.
  - intros (p & Hp & [Hd Hout]%(rs_provides g Hres)). split; [done|]. by exists p.
  - intros (Hd & p & Hp & Hout). exists p. split; [done|]. by apply (rs_provides g Hres).
Qed.

Lemma resolved_tc_consumes g t x :
  well_formed g → resolved g → t ∈ targets g →
  tc (dep g) t x ↔ tc (consumes (targets g)) t x.
Proof.
  intros Hwf Hres Ht. split.
  - intros Htc. induction Htc as [t x Hd|t y x Hd _ IH].
    + apply tc_once. by apply resolved_dep_consumes.
    + eapply tc_l; [by apply resolved_dep_consumes|]. apply IH. by eapply wf_closed.
  - intros Htc. induction Htc as [t x Hd|t y x Hd _ IH].
    + apply tc_once. by apply resolved_dep_consumes.
    + eapply tc_l; [by apply resolved_dep_consumes|]. apply IH. by destruct Hd.
Qed.

(** With one provider for every output, [from_targets] raises the error of
    a circular dependency exactly when some target consumes, through a chain
    of targets, an output of its own; otherwise it returns the graph of the
    targets.  It comes back in either case, and raises nothing else. *)
Theorem from_targets_outcome ts :
  NoDup (name <$> ts) → NoDup (ts ≫= flattened_outputs) →
  ((∃ n, from_targets ts = Some (Raise (Workflow (CircularDependency n))))
   ↔ ∃ t, t ∈ ts ∧ tc (consumes ts) t t)
  ∧ ((∃ g, from_targets ts = Some (Ok g) ∧ targets g = ts)
     ↔ ∀ t, t ∈ ts → ¬ tc (consumes ts) t t)
  ∧ ((∃ n, from_targets ts = Some (Raise (Workflow (CircularDependency n))))
     ∨ ∃ g, from_targets ts = Some (Ok g)).
Proof.
  intros Hnames Houts.
  destruct (build_provides_total ts ∅ Houts) as [pv Hpv]; [done|].
  destruct (from_targets_built ts pv Hnames Hpv) as (g & <- & Hwf & Hres & ->).
  pose proof (check_for_circular_dependencies_spec g Hwf) as Hcheck.
  unfold Graph_init.
  destruct (check_for_circular_dependencies g) as [[st|e]|]; simpl in Hcheck; [| |done].
  - assert (∀ t, t ∈ targets g → ¬ tc (consumes (targets g)) t t) as Hnone.
    { intros t Ht Hcyc%resolved_tc_consumes; [|done..]. by apply (Hcheck t). }
    split; [|split].
    + split; [by intros [n ?]|]. intros (t & Ht & Hcyc). by destruct (Hnone t).
    + split; [done|]. intros _. by exists g.
    + right. by exists g.
  - destruct Hcheck as (x & Hx & Hcyc & ->). split; [|split].
    + split; [|by eexists]. intros _. exists x. split; [done|].
      by apply resolved_tc_consumes.
    + split; [by intros (g' & ? & _)|]. intros Hnone. destruct (Hnone x Hx).
      by apply resolved_tc_consumes.
    + left. by eexists.
Qed.

Lemma from_targets_outcome_witness :
  NoDup (name <$> [tP; tQ]) ∧ NoDup ([tP; tQ] ≫= flattened_outputs)
  ∧ (∃ n, from_targets [tP; tQ] = Some (Raise (Workflow (CircularDependency n))))
  ∧ ∃ t, t ∈ [tP; tQ] ∧ tc (consumes [tP; tQ]) t t.
Proof.
  assert (NoDup (name <$> [tP; tQ])) as Hnames by compute_done.
  assert (NoDup ([tP; tQ] ≫= flattened_outputs)) as Houts by compute_done.
  split; [exact Hnames|]. split; [exact Houts|].
  assert (∃ n, from_targets [tP; tQ] = Some (Raise (Workflow (CircularDependency n)))) as Hrun.
  { exists "Q". by vm_compute. }
  split; [exact Hrun|].
  by apply (from_targets_outcome [tP; tQ] Hnames Houts).
Defined.

(** ** Endpoints *)

Lemma endpoints_spec g t :
  well_formed g → resolved g →
  t ∈ endpoints g ↔ t ∈ targets g ∧ ∀ x, x ∈ targets g → t ∉ deps g x.
Proof.
  intros Hwf Hres. unfold endpoints. rewrite list_elem_of_filter.
  rewrite (rs_dependents_keys g Hres). split.
  - intros [Hkey Ht]. split; [done|]. intros x Hx Hd. apply Hkey. by exists x, t.
  - intros [Ht Hnone]. split; [|done]. intros (x & d & Hx & Hd & Hn).
    apply (Hnone x Hx).
    by rewrite <-(name_inj g Hwf d t (wf_closed g Hwf x d Hx Hd) Ht Hn).
Qed.

(** Every target is below an endpoint. *)
Lemma endpoint_above g t :
  well_formed g → acyclic g → resolved g → t ∈ targets g →
  ∃ e, e ∈ endpoints g ∧ rtc (dep g) e t.
Proof.
  intros Hwf Hac Hres.
  assert (∀ n t, t ∈ targets g → length (targets g) - rank g t ≤ n →
            ∃ e, e ∈ endpoints g ∧ rtc (dep g) e t) as Hgen.
  { induction n as [|n IH]; intros t' Ht Hn.
    - exists t'. split; [|done]. apply endpoints_spec; [done..|]. split; [done|].
      intros x Hx Hd. pose proof (rank_dep g Hwf Hac x t' Hx Hd).
      pose proof (rank_le g x). lia.
    - destruct (decide (Exists (λ x, t' ∈ deps g x) (targets g))) as [Hex|Hnone].
      + apply Exists_exists in Hex as (x & Hx & Hd).
        pose proof (rank_dep g Hwf Hac x t' Hx Hd). pose proof (rank_le g x).
        destruct (IH x Hx) as (e & He & Hr); [lia|].
        exists e. split; [done|]. eapply rtc_r; [done|exact Hd].
      + exists t'. split; [|done]. apply endpoints_spec; [done..|]. split; [done|].
        intros x Hx Hd. apply Hnone, Exists_exists. by exists x. }
  intros Ht. apply (Hgen (length (targets g)) t Ht). lia.
Qed.

(** In a graph that [from_targets] returns, the endpoints are the targets
    on which no target depends, and every target is an endpoint or below
    one: scheduling the endpoints reaches the whole workflow. *)
Theorem from_targets_endpoints ts g :
  NoDup (name <$> ts) → from_targets ts = Some (Ok g) →
  (∀ t, t ∈ endpoints g ↔ t ∈ ts ∧ ∀ x, x ∈ ts → t ∉ deps g x)
  ∧ (∀ t, t ∈ ts → ∃ e, e ∈ endpoints g ∧ rtc (dep g) e t).
Proof.
  intros Hnd Hrun.
  destruct (from_targets_well_formed ts g Hnd Hrun) as (Hts & Hwf & _ & Hac).
  destruct (from_targets_graph_resolved ts g Hnd Hrun) as [_ Hres]. subst ts. split.
  - intros t. by apply endpoints_spec.
  - intros t Ht. by apply endpoint_above.
Qed.

Lemma from_targets_endpoints_witness :
  NoDup (name <$> [tRight; tLeft; tTop])
  ∧ from_targets [tRight; tLeft; tTop] = Some (Ok diamond)
  ∧ (∀ t, t ∈ endpoints diamond ↔
          t ∈ [tRight; tLeft; tTop] ∧ ∀ x, x ∈ [tRight; tLeft; tTop] → t ∉ deps diamond x)
  ∧ (∀ t, t ∈ [tRight; tLeft; tTop] → ∃ e, e ∈ endpoints diamond ∧ rtc (dep diamond) e t).
Proof.
  assert (NoDup (name <$> [tRight; tLeft; tTop])) as Hnd by compute_done.
  assert (from_targets [tRight; tLeft; tTop] = Some (Ok diamond)) as Hrun by by vm_compute.
  split; [exact Hnd|]. split; [exact Hrun|].
  exact (from_targets_endpoints [tRight; tLeft; tTop] diamond Hnd Hrun).
Defined.

Example endpoints_diamond : endpoints diamond = [tTop].
Proof. by vm_compute. Qed.

(** * Further properties of the scheduler *)

(** ** [update_state] resets, and nothing else *)

Lemma only_resets_refl db : only_resets db db.
Proof. intros n. by left. Qed.

Lemma only_resets_trans db1 db2 db3 :
  only_resets db1 db2 → only_resets db2 db3 → only_resets db1 db3.
Proof.
  intros H12 H23 n. destruct (H23 n) as [->|?]; [|by right]. apply H12.
Qed.

Lemma only_resets_invalid db db' n :
  only_resets db db' → invalid (state_of db n) → invalid (state_of db' n).
Proof. intros Hr Hi. destruct (Hr n) as [-> | ->]; [done|]. unfold invalid. tauto. Qed.

Lemma only_resets_reset m db : only_resets db (reset true m db).2.
Proof.
  intros n. unfold reset, move_to, commit. simpl. rewrite state_of_insert.
  case_decide; [by right|by left].
Qed.

Lemma update_deps_resets (rec : Target → gmap string TargetState.t
                                 → option (gmap string TargetState.t * TargetMeta))
    ds m0 db0 db' m' :
  (∀ d db db' m, rec d db = Some (db', m) → only_resets db db') →
  update_deps rec ds m0 db0 = Some (db', m') →
  meta_target m' = meta_target m0 ∧ only_resets db0 db'.
Proof.
  intros Hrec. revert m0 db0. induction ds as [|d ds IH]; intros m0 db0; simpl.
  - intros [= <- <-]. split; [done|apply only_resets_refl].
  - destruct (rec d db0) as [[db1 md]|] eqn:Hd; [|done].
    pose proof (Hrec d db0 db1 md Hd) as H1.
    destruct (_ || _).
    + intros [Hm Hr]%IH. split; [done|]. eapply only_resets_trans; [|exact Hr].
      eapply only_resets_trans; [exact H1|apply (only_resets_reset m0 db1)].
    + intros [Hm Hr]%IH. split; [done|]. exact (only_resets_trans _ _ _ H1 Hr).
Qed.

Lemma update_state_resets g fuel t db db' m :
  update_state g fuel t db = Some (db', m) → only_resets db db'.
Proof.
  revert t db db' m. induction fuel as [|fuel IH]; intros t db db' m; simpl; [done|].
  intros Hrun. by apply (update_deps_resets _ _ _ _ _ _ IH) in Hrun as [_ ?].
Qed.

Section update_state_cause.
Context (g : Graph).
Hypothesis Hwf : well_formed g.
Hypothesis Hacyclic : acyclic g.

Lemma reset_for_cause_trans t db1 db2 db3 :
  reset_for_cause g t db1 db2 → reset_for_cause g t db2 db3 → only_resets db2 db3 →
  reset_for_cause g t db1 db3.
Proof.
  intros H12 H23 Hr n Hn.
  destruct (decide (state_of db3 n = state_of db2 n)) as [Heq|Hne]; [|by apply H23].
  destruct (H12 n) as (x & d & Hx & Hname & Hd & Hinv); [congruence|].
  exists x, d. split; [done|]. split; [done|]. split; [done|].
  by eapply only_resets_invalid.
Qed.

Lemma update_deps_cause fuel t ds m0 db0 db' m' :
  t ∈ targets g →
  (∀ d db db' m, d ∈ deps g t → update_state g fuel d db = Some (db', m) →
     reset_for_cause g d db db') →
  (∀ d, d ∈ ds → d ∈ deps g t) → meta_target m0 = name t →
  update_deps (update_state g fuel) ds m0 db0 = Some (db', m') →
  reset_for_cause g t db0 db'.
Proof.
  intros Ht Hrec. revert m0 db0.
  induction ds as [|d ds IH]; intros m0 db0 Hds Hm0; simpl.
  - intros [= <- <-] n Hn. done.
  - assert (d ∈ deps g t) as Hd by (apply Hds; set_solver).
    assert (d ∈ targets g) as Hdt by by eapply wf_closed.
    assert (∀ d', d' ∈ ds → d' ∈ deps g t) as Hds' by (intros ??; apply Hds; set_solver).
    destruct (update_state g fuel d db0) as [[db1 md]|] eqn:Hrun; [|done].
    pose proof (update_state_resets _ _ _ _ _ _ Hrun) as Hr1.
    assert (reset_for_cause g t db0 db1) as Hc1.
    { intros n Hn. destruct (Hrec d db0 db1 md Hd Hrun n Hn) as (x & d' & Hx & Hrest).
      exists x, d'. split; [by eapply rtc_l|done]. }
    destruct (update_state_props g Hwf Hacyclic fuel d db0 db1 md Hdt Hrun) as (_ & Hmd & _).
    destruct (_ || _) eqn:Htest.
    + apply invalid_test in Htest. rewrite Hmd in Htest.
      pose proof (only_resets_reset m0 db1) as Hr2.
      unfold reset, move_to, commit in *. simpl in *. rewrite Hm0 in *.
      set (db2 := <[name t := TargetState.UNKNOWN]> db1) in *. intros Hloop.
      pose proof (update_deps_resets _ _ _ _ _ _ (update_state_resets g fuel) Hloop)
        as [_ Hr3].
      eapply reset_for_cause_trans; [|exact (IH {| meta_target := name t; state := TargetState.UNKNOWN |} db2 Hds' eq_refl Hloop)|done].
      eapply reset_for_cause_trans; [exact Hc1| |done].
      intros n Hn. unfold db2 in Hn. rewrite state_of_insert in Hn.
      case_decide as Heq; [|done].
      exists t, d. split; [done|]. split; [done|]. split; [done|].
      unfold db2. rewrite state_of_insert. rewrite decide_False; [done|].
      intros Hname. by apply (below_dep_name g Hwf Hacyclic t d d Ht Hd).
    + intros Hloop.
      pose proof (update_deps_resets _ _ _ _ _ _ (update_state_resets g fuel) Hloop)
        as [_ Hr3].
      eapply reset_for_cause_trans; [exact Hc1|exact (IH _ _ Hds' Hm0 Hloop)|done].
Qed.

Lemma update_state_cause fuel t db db' m :
  t ∈ targets g → update_state g fuel t db = Some (db', m) → reset_for_cause g t db db'.
Proof.
  revert t db db' m. induction fuel as [|fuel IH]; intros t db db' m Ht; simpl; [done|].
  apply (update_deps_cause fuel t (deps g t)); try done.
  intros d db1 db2 m1 Hd. apply IH. by eapply wf_closed.
Qed.
End update_state_cause.

(** C6.  [update_state] comes back with the handle of [t], whose state is the
    one the store then holds for [t].  Everything below [t] has been updated
    before: updating a dependency once more changes no state, and wherever a
    target below [t] has a dependency in FAILED, KILLED, CANCELLED or
    UNKNOWN it is UNKNOWN itself; so is [t] when such a dependency is its
    own.  Nothing else has changed: a target below [t] none of whose
    dependencies ends in such a state keeps the state it had, and so does
    every target that is not below [t].  These equations have one solution
    below [t], so they say what the store holds after the call. *)
Theorem update_state_invalidates g fuel t db :
  well_formed g → acyclic g → t ∈ targets g → length (targets g) < fuel →
  ∃ db' m, update_state g fuel t db = Some (db', m)
    ∧ meta_target m = name t ∧ state m = state_of db' (name t)
    ∧ (∀ d, d ∈ deps g t → invalid (state_of db' (name d)) →
            state_of db' (name t) = TargetState.UNKNOWN)
    ∧ settled g db' t
    ∧ (∀ d db'' m', d ∈ deps g t → update_state g fuel d db' = Some (db'', m') →
            ∀ n, state_of db'' n = state_of db' n)
    ∧ (∀ x, rtc (dep g) t x →
            state_of db' (name x)
            = if decide (Exists (λ d, invalid (state_of db' (name d))) (deps g x))
              then TargetState.UNKNOWN else state_of db (name x))
    ∧ (∀ n, (∀ x, rtc (dep g) t x → name x ≠ n) → state_of db' n = state_of db n)
    ∧ (∀ db2,
         (∀ x, rtc (dep g) t x →
               state_of db2 (name x)
               = if decide (Exists (λ d, invalid (state_of db2 (name d))) (deps g x))
                 then TargetState.UNKNOWN else state_of db (name x)) →
         ∀ x, rtc (dep g) t x → state_of db2 (name x) = state_of db' (name x)).
Proof.
  intros Hwf Hac Ht Hfuel.
  destruct (update_state_total g Hwf Hac fuel t db Ht) as [[db' m] Hrun].
  { pose proof (rank_le g t). lia. }
  destruct (update_state_props g Hwf Hac fuel t db db' m Ht Hrun) as (Hm & Hst & Hs & _ & _).
  pose proof (update_state_resets _ _ _ _ _ _ Hrun) as Hr.
  pose proof (update_state_cause g Hwf Hac fuel t db db' m Ht Hrun) as Hc.
  assert (∀ x, rtc (dep g) t x →
            state_of db' (name x)
            = if decide (Exists (λ d, invalid (state_of db' (name d))) (deps g x))
              then TargetState.UNKNOWN else state_of db (name x)) as Hexact.
  { intros x Hx. destruct (decide _) as [(d & Hd & Hinv)%Exists_exists|Hnone].
    - by apply (Hs x d).
    - destruct (decide (state_of db' (name x) = state_of db (name x))) as [|Hne]; [done|].
      destruct (Hc _ Hne) as (y & d & Hy & Hn & Hd & Hinv). destruct Hnone.
      rewrite (name_inj g Hwf y x) in Hd;
        [|exact (rtc_dep_targets g Hwf t y Ht Hy)|exact (rtc_dep_targets g Hwf t x Ht Hx)|done].
      apply Exists_exists. eauto. }
  exists db', m. do 3 (split; [done|]). split; [|split; [done|split; [|split; [done|split]]]].
  - intros d Hd. by apply (Hs t d).
  - intros d db'' m' Hd Hrun'.
    apply (update_state_settled g Hwf Hac fuel d db' db'' m'); [by eapply wf_closed| |done].
    eapply settled_below; [done|]. by apply rtc_once.
  - intros n Hn. destruct (decide (state_of db' n = state_of db n)) as [|Hne]; [done|].
    destruct (Hc _ Hne) as (y & d & Hy & Hyn & _). by destruct (Hn y Hy).
  - intros db2 H2.
    assert (∀ k x, rank g x < k → rtc (dep g) t x →
                   state_of db2 (name x) = state_of db' (name x)) as Hind.
    { induction k as [|k IH]; intros x Hk Hx; [lia|].
      assert (∀ d, d ∈ deps g x → state_of db2 (name d) = state_of db' (name d)) as Hdeps.
      { intros d Hd. apply IH.
        - pose proof (rank_dep g Hwf Hac x d (rtc_dep_targets g Hwf t x Ht Hx) Hd). lia.
        - by eapply rtc_r. }
      rewrite (H2 x Hx), (Hexact x Hx).
      destruct (decide (Exists _ (deps g x))) as [H|H];
        destruct (decide (Exists _ (deps g x))) as [H'|H']; try done.
      - destruct H'. apply Exists_exists in H as (d & Hd & Hinv). apply Exists_exists.
        exists d. split; [done|]. by rewrite <-Hdeps.
      - destruct H. apply Exists_exists in H' as (d & Hd & Hinv). apply Exists_exists.
        exists d. split; [done|]. by rewrite Hdeps. }
    intros x Hx. by apply (Hind (S (rank g x))); [lia|].
Qed.

Lemma update_state_invalidates_witness :
  well_formed chain ∧ acyclic chain ∧ tC ∈ targets chain ∧ length (targets chain) < 4
  ∧ ∃ db' m, update_state chain 4 tC failed_upstream = Some (db', m)
    ∧ meta_target m = name tC ∧ state m = state_of db' (name tC)
    ∧ (∀ d, d ∈ deps chain tC → invalid (state_of db' (name d)) →
            state_of db' (name tC) = TargetState.UNKNOWN)
    ∧ settled chain db' tC
    ∧ (∀ d db'' m', d ∈ deps chain tC → update_state chain 4 d db' = Some (db'', m') →
            ∀ n, state_of db'' n = state_of db' n)
    ∧ (∀ x, rtc (dep chain) tC x →
            state_of db' (name x)
            = if decide (Exists (λ d, invalid (state_of db' (name d))) (deps chain x))
              then TargetState.UNKNOWN else state_of failed_upstream (name x))
    ∧ (∀ n, (∀ x, rtc (dep chain) tC x → name x ≠ n) →
            state_of db' n = state_of failed_upstream n)
    ∧ (∀ db2,
         (∀ x, rtc (dep chain) tC x →
               state_of db2 (name x)
               = if decide (Exists (λ d, invalid (state_of db2 (name d))) (deps chain x))
                 then TargetState.UNKNOWN else state_of failed_upstream (name x)) →
         ∀ x, rtc (dep chain) tC x → state_of db2 (name x) = state_of db' (name x)).
Proof.
  assert (tC ∈ targets chain) as Hin by compute_done.
  assert (length (targets chain) < 4) as Hlen by (simpl; lia).
  split; [apply chain_well_formed|]. split; [apply chain_acyclic|].
  split; [exact Hin|]. split; [exact Hlen|].
  exact (update_state_invalidates chain 4 tC failed_upstream
           chain_well_formed chain_acyclic Hin Hlen).
Defined.

(** [update_state] comes back, and every state it leaves is the state it
    found, or UNKNOWN for a target below [t] one of whose dependencies is
    then FAILED, KILLED, CANCELLED or UNKNOWN.  So a target without
    dependencies, and a target that is not below [t], keep their states. *)
Theorem update_state_frame g fuel t db :
  well_formed g → acyclic g → t ∈ targets g → length (targets g) < fuel →
  ∃ db' m, update_state g fuel t db = Some (db', m)
    ∧ (∀ n, state_of db' n = state_of db n
            ∨ (state_of db' n = TargetState.UNKNOWN
               ∧ ∃ x d, rtc (dep g) t x ∧ name x = n ∧ d ∈ deps g x
                        ∧ invalid (state_of db' (name d))))
    ∧ (∀ x, x ∈ targets g → deps g x = [] → state_of db' (name x) = state_of db (name x))
    ∧ (∀ x, x ∈ targets g → ¬ rtc (dep g) t x →
            state_of db' (name x) = state_of db (name x)).
Proof.
  intros Hwf Hac Ht Hfuel.
  destruct (update_state_total g Hwf Hac fuel t db Ht) as [[db' m] Hrun].
  { pose proof (rank_le g t). lia. }
  pose proof (update_state_resets _ _ _ _ _ _ Hrun) as Hr.
  pose proof (update_state_cause g Hwf Hac fuel t db db' m Ht Hrun) as Hc.
  assert (∀ n, state_of db' n = state_of db n
            ∨ (state_of db' n = TargetState.UNKNOWN
               ∧ ∃ x d, rtc (dep g) t x ∧ name x = n ∧ d ∈ deps g x
                        ∧ invalid (state_of db' (name d)))) as Hall.
  { intros n. destruct (decide (state_of db' n = state_of db n)) as [|Hne]; [by left|].
    right. split; [by destruct (Hr n)|by apply Hc]. }
  exists db', m. split; [done|]. split; [done|]. split.
  - intros x Hx Hnone. destruct (Hall (name x)) as [?|[_ (y & d & Hy & Hn & Hd & _)]]; [done|].
    rewrite (name_inj g Hwf y x) in Hd; [|exact (rtc_dep_targets g Hwf t y Ht Hy)|done..].
    rewrite Hnone in Hd. by apply elem_of_nil in Hd.
  - intros x Hx Hnot. destruct (Hall (name x)) as [?|[_ (y & d & Hy & Hn & _)]]; [done|].
    destruct Hnot. rewrite <-(name_inj g Hwf y x); [done|exact (rtc_dep_targets g Hwf t y Ht Hy)|done..].
Qed.

Lemma update_state_frame_witness :
  well_formed chain ∧ acyclic chain ∧ tC ∈ targets chain ∧ length (targets chain) < 4
  ∧ ∃ db' m, update_state chain 4 tC failed_upstream = Some (db', m)
    ∧ (∀ n, state_of db' n = state_of failed_upstream n
            ∨ (state_of db' n = TargetState.UNKNOWN
               ∧ ∃ x d, rtc (dep chain) tC x ∧ name x = n ∧ d ∈ deps chain x
                        ∧ invalid (state_of db' (name d))))
    ∧ (∀ x, x ∈ targets chain → deps chain x = [] →
            state_of db' (name x) = state_of failed_upstream (name x))
    ∧ (∀ x, x ∈ targets chain → ¬ rtc (dep chain) tC x →
            state_of db' (name x) = state_of failed_upstream (name x)).
Proof.
  assert (tC ∈ targets chain) as Hin by compute_done.
  assert (length (targets chain) < 4) as Hlen by (simpl; lia).
  split; [apply chain_well_formed|]. split; [apply chain_acyclic|].
  split; [exact Hin|]. split; [exact Hlen|].
  exact (update_state_frame chain 4 tC failed_upstream
           chain_well_formed chain_acyclic Hin Hlen).
Defined.

(** A second [update_state] finds nothing left to reset: it changes no state
    and returns the same state for [t]. *)
Theorem update_state_idempotent g fuel t db :
  well_formed g → acyclic g → t ∈ targets g → length (targets g) < fuel →
  ∃ db' m, update_state g fuel t db = Some (db', m)
    ∧ ∃ db'' m', update_state g fuel t db' = Some (db'', m')
        ∧ (∀ n, state_of db'' n = state_of db' n) ∧ state m' = state m.
Proof.
  intros Hwf Hac Ht Hfuel. pose proof (rank_le g t) as Hrank.
  destruct (update_state_total g Hwf Hac fuel t db Ht) as [[db' m] Hrun]; [lia|].
  destruct (update_state_props g Hwf Hac fuel t db db' m Ht Hrun) as (_ & Hm & Hsettled & _).
  destruct (update_state_total g Hwf Hac fuel t db' Ht) as [[db'' m'] Hrun']; [lia|].
  destruct (update_state_settled g Hwf Hac fuel t db' db'' m' Ht Hsettled Hrun') as [Hsame Hm'].
  exists db', m. split; [done|]. exists db'', m'. split; [done|]. split; [done|]. congruence.
Qed.

Lemma update_state_idempotent_witness :
  well_formed chain ∧ acyclic chain ∧ tC ∈ targets chain ∧ length (targets chain) < 4
  ∧ ∃ db' m, update_state chain 4 tC failed_upstream = Some (db', m)
    ∧ ∃ db'' m', update_state chain 4 tC db' = Some (db'', m')
        ∧ (∀ n, state_of db'' n = state_of db' n) ∧ state m' = state m.
Proof.
  assert (tC ∈ targets chain) as Hin by compute_done.
  assert (length (targets chain) < 4) as Hlen by (simpl; lia).
  split; [apply chain_well_formed|]. split; [apply chain_acyclic|].
  split; [exact Hin|]. split; [exact Hlen|].
  exact (update_state_idempotent chain 4 tC failed_upstream
           chain_well_formed chain_acyclic Hin Hlen).
Defined.

(** ** What [should_run] reads, and how staleness spreads *)

Lemma any_dep_should_run_eq rec rec' ds :
  (∀ d, d ∈ ds → rec d = rec' d) → any_dep_should_run rec ds = any_dep_should_run rec' ds.
Proof.
  intros Hrec. induction ds as [|d ds IH]; simpl; [done|].
  rewrite <-(Hrec d) by set_solver. rewrite IH; [done|]. intros ??. apply Hrec. set_solver.
Qed.

Lemma filter_agree {A} (P Q : A → Prop) `{∀ x, Decision (P x)} `{∀ x, Decision (Q x)}
    (l : list A) :
  (∀ x, x ∈ l → P x ↔ Q x) → filter P l = filter Q l.
Proof.
  intros HPQ. induction l as [|x l IH]; [done|]. rewrite !filter_cons.
  rewrite IH by (intros ??; apply HPQ; set_solver).
  destruct (decide (P x)) as [HP|HP], (decide (Q x)) as [HQ|HQ]; try done.
  - destruct HQ. apply HPQ; [set_solver|done].
  - destruct HP. apply HPQ; [set_solver|done].
Qed.

Lemma fmap_agree {A B} (f f' : A → B) (l : list A) :
  (∀ x, x ∈ l → f x = f' x) → f <$> l = f' <$> l.
Proof.
  intros Hf. apply list_fmap_ext. intros i x Hi. apply Hf. by eapply list_elem_of_lookup_2.
Qed.

(** [should_run] of [t] reads the file cache only at the inputs and outputs
    of [t] and of the targets below it: two caches that agree there give the
    same answer. *)
Theorem should_run_reads_below g fc fc' fuel t :
  (∀ x p, rtc (dep g) t x → p ∈ flattened_inputs x ∨ p ∈ flattened_outputs x →
          fc p = fc' p) →
  should_run g fc fuel t = should_run g fc' fuel t.
Proof.
  revert t. induction fuel as [|fuel IH]; intros t Hagree; [done|]. simpl.
  assert (∀ p, p ∈ flattened_inputs t → fc p = fc' p) as Hin.
  { intros p Hp. apply (Hagree t); [done|by left]. }
  assert (∀ p, p ∈ flattened_outputs t → fc p = fc' p) as Hout.
  { intros p Hp. apply (Hagree t); [done|by right]. }
  rewrite (any_dep_should_run_eq _ (should_run g fc' fuel)).
  2:{ intros d Hd. apply IH. intros x p Hx. apply Hagree. by eapply rtc_l. }
  assert (missing_required g fc t = missing_required g fc' t) as ->.
  { unfold missing_required. f_equal. apply filter_agree. intros p Hp. by rewrite Hin. }
  assert (bool_decide (Exists (λ path, fc path = None) (flattened_outputs t))
          = bool_decide (Exists (λ path, fc' path = None) (flattened_outputs t))) as ->.
  { apply bool_decide_ext. rewrite !Exists_exists.
    split; intros (p & Hp & Hnone); exists p; split; try done.
    - by rewrite <-Hout. - by rewrite Hout. }
  rewrite (fmap_agree (λ path, (fc path, path)) (λ path, (fc' path, path)) (flattened_inputs t))
    by (intros p Hp; by rewrite Hin).
  rewrite (fmap_agree (λ path, (fc path, path)) (λ path, (fc' path, path)) (flattened_outputs t))
    by (intros p Hp; by rewrite Hout).
  done.
Qed.

Lemma should_run_reads_below_witness :
  (∀ x p, rtc (dep chain) tA x → p ∈ flattened_inputs x ∨ p ∈ flattened_outputs x →
          files [("a", 1%Z)] p = files [("a", 1%Z); ("b", 5%Z)] p)
  ∧ should_run chain (files [("a", 1%Z)]) 4 tA
    = should_run chain (files [("a", 1%Z); ("b", 5%Z)]) 4 tA.
Proof.
  assert (∀ x p, rtc (dep chain) tA x → p ∈ flattened_inputs x ∨ p ∈ flattened_outputs x →
            files [("a", 1%Z)] p = files [("a", 1%Z); ("b", 5%Z)] p) as Hagree.
  { intros x p Hx Hp.
    assert (x = tA) as ->.
    { apply rtc_inv in Hx as [<-|(y & Hd & _)]; [done|]. by apply elem_of_nil in Hd. }
    destruct Hp as [Hp|Hp]; [by apply elem_of_nil in Hp|].
    apply list_elem_of_singleton in Hp as ->. by vm_compute. }
  split; [exact Hagree|].
  exact (should_run_reads_below chain _ _ 4 tA Hagree).
Defined.

Lemma any_dep_should_run_spreads rec ds :
  (∀ d, d ∈ ds → is_Some (rec d)) →
  (∃ d, d ∈ ds ∧ (rec d = Some (Ok true) ∨ ∃ e, rec d = Some (Raise e))) →
  any_dep_should_run rec ds = Some (Ok true)
  ∨ ∃ e, any_dep_should_run rec ds = Some (Raise e).
Proof.
  intros Htotal (d & Hd & Hrun). induction ds as [|d0 ds IH]; [by apply elem_of_nil in Hd|].
  simpl. destruct (Htotal d0) as [[[]|e] Hd0]; [set_solver| | |]; rewrite Hd0.
  - by left.
  - apply elem_of_cons in Hd as [->|Hd].
    + rewrite Hd0 in Hrun. by destruct Hrun as [?|[? ?]].
    + apply IH; [|done]. intros ??. apply Htotal. set_solver.
  - right. by exists e.
Qed.

Lemma should_run_above g fc fuel t x :
  well_formed g → acyclic g → x ∈ targets g → length (targets g) < fuel →
  rtc (dep g) x t → should_run g fc fuel t = Some (Ok true) →
  should_run g fc fuel x = Some (Ok true) ∨ ∃ e, should_run g fc fuel x = Some (Raise e).
Proof.
  intros Hwf Hac Hx Hfuel Hr Ht.
  induction Hr as [|x y t Hxy Hyt IH]; [by left|].
  assert (y ∈ targets g) as Hy by by eapply wf_closed.
  specialize (IH Hy Ht).
  destruct fuel as [|fuel]; [lia|]. cbn [should_run].
  assert (∀ d, d ∈ deps g x → should_run g fc fuel d = should_run g fc (S fuel) d) as Heq.
  { intros d Hd. destruct (dep_fuel g Hwf Hac fuel x d Hx Hd Hfuel) as [Hdt Hrank].
    apply (should_run_any_fuel g fc Hwf Hac); [done|lia..]. }
  destruct (any_dep_should_run_spreads (should_run g fc fuel) (deps g x)) as [Hrun|[e Hrun]].
  - intros d Hd. destruct (dep_fuel g Hwf Hac fuel x d Hx Hd Hfuel) as [Hdt Hrank].
    by apply (should_run_terminates g fc Hwf Hac).
  - exists y. split; [done|]. by rewrite Heq.
  - rewrite Hrun. by left.
  - rewrite Hrun. right. by exists e.
Qed.

(** Staleness spreads upwards: when [should_run] is true for [t], then for
    every target above [t] it is true as well, unless it raises; it is never
    false.  On a graph that accounts for every input, as [from_targets]
    builds it, what it raises is the error of a required file that is
    missing. *)
Theorem should_run_spreads g fc fuel t x :
  well_formed g → acyclic g → x ∈ targets g → length (targets g) < fuel →
  rtc (dep g) x t → should_run g fc fuel t = Some (Ok true) →
  should_run g fc fuel x = Some (Ok true)
  ∨ ∃ e, should_run g fc fuel x = Some (Raise e)
         ∧ (inputs_accounted g → required_file_missing e).
Proof.
  intros Hwf Hac Hx Hfuel Hr Ht.
  destruct (should_run_above g fc fuel t x Hwf Hac Hx Hfuel Hr Ht) as [?|[e He]]; [by left|].
  right. exists e. split; [done|]. intros Hinputs.
  destruct (should_run_total g fc Hwf Hinputs Hac fuel x Hx) as (r & Hrun & Hclass).
  { pose proof (rank_le g x). lia. }
  rewrite He in Hrun. by injection Hrun as <-.
Qed.

Lemma should_run_spreads_witness :
  well_formed lone_dependent ∧ acyclic lone_dependent ∧ tE ∈ targets lone_dependent
  ∧ length (targets lone_dependent) < 3
  ∧ rtc (dep lone_dependent) tE tA
  ∧ should_run lone_dependent (files []) 3 tA = Some (Ok true)
  ∧ (should_run lone_dependent (files []) 3 tE = Some (Ok true)
     ∨ ∃ e, should_run lone_dependent (files []) 3 tE = Some (Raise e)
            ∧ (inputs_accounted lone_dependent → required_file_missing e)).
Proof.
  assert (well_formed lone_dependent) as Hwf by (apply well_formed_checked; compute_done).
  assert (acyclic lone_dependent) as Hac.
  { apply acyclic_checked; [exact Hwf|]. eexists. by vm_compute. }
  assert (tE ∈ targets lone_dependent) as Hin by compute_done.
  assert (length (targets lone_dependent) < 3) as Hlen by (simpl; lia).
  assert (rtc (dep lone_dependent) tE tA) as Hr by (apply rtc_once; unfold dep; compute_done).
  assert (should_run lone_dependent (files []) 3 tA = Some (Ok true)) as Hrun by by vm_compute.
  split; [exact Hwf|]. split; [exact Hac|].
  split; [exact Hin|]. split; [exact Hlen|]. split; [exact Hr|]. split; [exact Hrun|].
  exact (should_run_spreads lone_dependent (files []) 3 tA tE Hwf Hac Hin Hlen Hr Hrun).
Defined.

(** There the dependency A runs, so the target above it runs too; when A is
    up to date, the target above it raises for the file it requires. *)
Example should_run_spreads_example :
  should_run lone_dependent (files []) 3 tE = Some (Ok true)
  ∧ should_run lone_dependent (files [("a", 1%Z)]) 3 tE
    = Some (Raise (Workflow (FileRequiredButNotProvided "ext" "E"))).
Proof. split; by vm_compute. Qed.

(** ** What [schedule] emits, by mode *)

Lemma emits_refl self X s s' :
  trace s' = trace s → pretend_known s' = pretend_known s →
  only_resets (state_db s) (state_db s') → emits self X s s'.
Proof.
  intros Htr Hmemo Hr. exists []. split; [by rewrite app_nil_r|]. split; [constructor|].
  split; [|done]. destruct (dry_run self); [|done]. rewrite Hmemo. set_solver.
Qed.

Lemma emits_trans self X s1 s2 s3 :
  emits self X s1 s2 → emits self X s2 s3 → emits self X s1 s3.
Proof.
  intros (l1 & Htr1 & Hl1 & Hm1 & Hr1) (l2 & Htr2 & Hl2 & Hm2 & Hr2).
  exists (l1 ++ l2). split; [by rewrite Htr2, Htr1, app_assoc|].
  split; [by apply Forall_app|]. split.
  - rewrite Hm2, Hm1. destruct (dry_run self); [|done].
    rewrite fmap_app, list_to_set_app_L. set_solver.
  - intros Hdry. eapply only_resets_trans; eauto.
Qed.

Lemma emits_weaken self (X Y : Target → Prop) s s' :
  (∀ x, X x → Y x) → emits self X s s' → emits self Y s s'.
Proof.
  intros HXY (l & Htr & Hl & Hrest). exists l. split; [done|]. split; [|done].
  eapply Forall_impl; [exact Hl|]. intros e (x & Hx & He). exists x. split; [by apply HXY|done].
Qed.

Lemma pass_status_frame self fuel t s s1 r :
  pass_status self fuel t s = Some (s1, r) →
  trace s1 = trace s ∧ pretend_known s1 = pretend_known s
  ∧ only_resets (state_db s) (state_db s1).
Proof.
  unfold pass_status, status.
  destruct (update_state _ _ _ _) as [[db1 m]|] eqn:Hup; [|done].
  apply update_state_resets in Hup.
  destruct (should_run _ _ _ _) as [[b|e]|]; [| |done]; by intros [= <- _].
Qed.

Lemma pass_status_emits self X fuel t s s1 r :
  pass_status self fuel t s = Some (s1, r) → emits self X s s1.
Proof. intros (? & ? & ?)%pass_status_frame. by apply emits_refl. Qed.

Lemma submit_emits self t (sd : gset string) s :
  (∀ n, n ∈ sd → ∃ d, d ∈ deps (graph self) t ∧ name d = n) →
  emits self (rtc (dep (graph self)) t) s (submit self t sd s).
Proof.
  intros Hsd. unfold submit, emits, emitted. destruct (dry_run self) eqn:Hdry; simpl.
  - exists [WouldSubmit (name t)]. split; [done|]. split.
    + constructor; [|constructor]. by exists t.
    + split; [set_solver|]. intros _. apply only_resets_refl.
  - exists [Submit (name t) sd]. split; [done|]. split; [|done].
    constructor; [|constructor]. exists t. split; [done|]. by exists sd.
Qed.

Lemma schedule_deps_emits self rec ds sd0 s s' r :
  (∀ d s s' r, d ∈ ds → rec d s = Some (s', r) →
               emits self (rtc (dep (graph self)) d) s s') →
  schedule_deps rec ds sd0 s = Some (s', r) →
  emits self (λ x, ∃ d, d ∈ ds ∧ rtc (dep (graph self)) d x) s s'
  ∧ ∀ sd, r = Ok sd → ∀ n, n ∈ sd → n ∈ sd0 ∨ ∃ d, d ∈ ds ∧ name d = n.
Proof.
  revert sd0 s. induction ds as [|d ds IH]; intros sd0 s Hrec; simpl.
  - intros [= <- <-]. split; [by apply emits_refl; [..|apply only_resets_refl]|].
    intros sd [= <-] n Hn. by left.
  - assert (∀ d0 s s' r, d0 ∈ ds → rec d0 s = Some (s', r) →
              emits self (rtc (dep (graph self)) d0) s s') as Hrec'.
    { intros ?????. apply Hrec. set_solver. }
    destruct (rec d s) as [[s1 [[]|e]]|] eqn:Hd; [| | |done].
    + intros Hloop. destruct (IH _ _ Hrec' Hloop) as [Hem Hsd]. split.
      * eapply emits_trans.
        -- eapply emits_weaken; [|eapply Hrec; [|exact Hd]; set_solver].
           intros x Hx. exists d. split; [set_solver|done].
        -- eapply emits_weaken; [|exact Hem]. intros x (d' & Hd' & Hx). exists d'. set_solver.
      * intros sd Hr n Hn. destruct (Hsd sd Hr n Hn) as [Hin|(d' & Hd' & Hn')].
        -- apply elem_of_union in Hin as [->%elem_of_singleton|?]; [|by left].
           right. exists d. set_solver.
        -- right. exists d'. set_solver.
    + intros Hloop. destruct (IH _ _ Hrec' Hloop) as [Hem Hsd]. split.
      * eapply emits_trans.
        -- eapply emits_weaken; [|eapply Hrec; [|exact Hd]; set_solver].
           intros x Hx. exists d. split; [set_solver|done].
        -- eapply emits_weaken; [|exact Hem]. intros x (d' & Hd' & Hx). exists d'. set_solver.
      * intros sd Hr n Hn. destruct (Hsd sd Hr n Hn) as [Hin|(d' & Hd' & Hn')]; [by left|].
        right. exists d'. set_solver.
    + intros [= <- <-]. split; [|done].
      eapply emits_weaken; [|eapply Hrec; [|exact Hd]; set_solver].
      intros x Hx. exists d. split; [set_solver|done].
Qed.

Lemma schedule_emits self fuel t s s' r :
  schedule self fuel t s = Some (s', r) → emits self (rtc (dep (graph self)) t) s s'.
Proof.
  revert t s s' r. induction fuel as [|fuel IH]; intros t s s' r; [done|].
  cbn [schedule].
  destruct (pass_status self (S fuel) t (prepare_target_options self t s))
    as [[s1 r1]|] eqn:Hst1; [|done].
  assert (emits self (rtc (dep (graph self)) t) s s1) as Hem1.
  { apply pass_status_frame in Hst1 as (? & ? & ?). by apply emits_refl. }
  destruct r1 as [st|e]; [|by intros [= <- <-]].
  destruct (_ || _); [by intros [= <- <-]|].
  destruct (schedule_deps _ _ _ _) as [[s2 r2]|] eqn:Hloop; [|done].
  apply (schedule_deps_emits self) in Hloop as [Hem2 Hsd]; [|intros d ???? ; apply IH].
  assert (emits self (rtc (dep (graph self)) t) s s2) as Hem12.
  { eapply emits_trans; [exact Hem1|]. eapply emits_weaken; [|exact Hem2].
    intros x (d & Hd%sorted_deps_elem_of & Hx). by eapply rtc_l. }
  destruct r2 as [sd|e]; [|by intros [= <- <-]].
  assert (∀ n, n ∈ sd → ∃ d, d ∈ deps (graph self) t ∧ name d = n) as Hsd'.
  { intros n Hn. destruct (Hsd sd eq_refl n Hn) as [?|(d & Hd%sorted_deps_elem_of & ?)];
      [set_solver|by exists d]. }
  destruct (bool_decide (sd ≠ ∅)).
  { intros [= <- <-]. eapply emits_trans; [exact Hem12|by apply submit_emits]. }
  destruct (pass_status self (S fuel) t s2) as [[s3 r3]|] eqn:Hst3; [|done].
  assert (emits self (rtc (dep (graph self)) t) s s3) as Hem3.
  { eapply emits_trans; [exact Hem12|by eapply pass_status_emits]. }
  destruct r3 as [st3|e]; [|by intros [= <- <-]].
  destruct (in_shouldrun_states st3); intros [= <- <-]; [|done].
  eapply emits_trans; [exact Hem3|by apply submit_emits].
Qed.

(** Under dry-run [schedule] never calls the backend and never stores
    SUBMITTED: it comes back, every event it adds is the record that it
    would submit a target below [t], the memo grows by the targets of these
    records, and a state stays or is reset. *)
Theorem schedule_dry_run self fuel t s :
  well_formed (graph self) → acyclic (graph self) →
  t ∈ targets (graph self) → length (targets (graph self)) < fuel →
  dry_run self = true →
  ∃ s' r, schedule self fuel t s = Some (s', r)
    ∧ ∃ l, trace s' = trace s ++ l
      ∧ (∀ e, e ∈ l → ∃ x, rtc (dep (graph self)) t x ∧ e = WouldSubmit (name x))
      ∧ pretend_known s' = pretend_known s ∪ list_to_set (event_target <$> l)
      ∧ only_resets (state_db s) (state_db s').
Proof.
  intros Hwf Hac Ht Hfuel Hdry.
  destruct (schedule_total self Hwf Hac fuel t s Ht) as [[s' r] Hrun].
  { pose proof (rank_le (graph self) t). lia. }
  exists s', r. split; [done|].
  apply schedule_emits in Hrun as (l & Htr & Hl & Hmemo & Hr). rewrite Hdry in Hmemo.
  exists l. split; [done|]. split; [|split; [done|by apply Hr]].
  intros e He. rewrite Forall_forall in Hl. destruct (Hl e He) as (x & Hx & Hev).
  rewrite Hdry in Hev. by exists x.
Qed.

Lemma schedule_dry_run_witness :
  well_formed chain ∧ acyclic chain ∧ tC ∈ targets chain ∧ length (targets chain) < 4
  ∧ dry_run (scheduler chain true (files [])) = true
  ∧ ∃ s' r, schedule (scheduler chain true (files [])) 4 tC (new_pass failed_upstream)
            = Some (s', r)
    ∧ ∃ l, trace s' = trace (new_pass failed_upstream) ++ l
      ∧ (∀ e, e ∈ l → ∃ x, rtc (dep chain) tC x ∧ e = WouldSubmit (name x))
      ∧ pretend_known s'
        = pretend_known (new_pass failed_upstream) ∪ list_to_set (event_target <$> l)
      ∧ only_resets (state_db (new_pass failed_upstream)) (state_db s').
Proof.
  assert (tC ∈ targets chain) as Hin by compute_done.
  assert (length (targets chain) < 4) as Hlen by (simpl; lia).
  split; [apply chain_well_formed|]. split; [apply chain_acyclic|].
  split; [exact Hin|]. split; [exact Hlen|]. split; [done|].
  exact (schedule_dry_run (scheduler chain true (files [])) 4 tC (new_pass failed_upstream)
           chain_well_formed chain_acyclic Hin Hlen eq_refl).
Defined.

(** Without dry-run [schedule] comes back, leaves the memo alone, and every
    event it adds is a call of [backend.submit] for a target below [t], with
    dependencies that are dependencies of that target. *)
Theorem schedule_real_run self fuel t s :
  well_formed (graph self) → acyclic (graph self) →
  t ∈ targets (graph self) → length (targets (graph self)) < fuel →
  dry_run self = false →
  ∃ s' r, schedule self fuel t s = Some (s', r)
    ∧ pretend_known s' = pretend_known s
    ∧ ∃ l, trace s' = trace s ++ l
        ∧ ∀ e, e ∈ l → ∃ x (sd : gset string),
            rtc (dep (graph self)) t x ∧ e = Submit (name x) sd
            ∧ ∀ n, n ∈ sd → ∃ d, d ∈ deps (graph self) x ∧ name d = n.
Proof.
  intros Hwf Hac Ht Hfuel Hdry.
  destruct (schedule_total self Hwf Hac fuel t s Ht) as [[s' r] Hrun].
  { pose proof (rank_le (graph self) t). lia. }
  exists s', r. split; [done|].
  apply schedule_emits in Hrun as (l & Htr & Hl & Hmemo & _). rewrite Hdry in Hmemo.
  split; [done|]. exists l. split; [done|].
  intros e He. rewrite Forall_forall in Hl. destruct (Hl e He) as (x & Hx & Hev).
  rewrite Hdry in Hev. destruct Hev as (sd & -> & Hsd). by exists x, sd.
Qed.

Lemma schedule_real_run_witness :
  well_formed chain ∧ acyclic chain ∧ tC ∈ targets chain ∧ length (targets chain) < 4
  ∧ dry_run (scheduler chain false (files [])) = false
  ∧ ∃ s' r, schedule (scheduler chain false (files [])) 4 tC (new_pass ∅) = Some (s', r)
    ∧ pretend_known s' = pretend_known (new_pass ∅)
    ∧ ∃ l, trace s' = trace (new_pass ∅) ++ l
        ∧ ∀ e, e ∈ l → ∃ x (sd : gset string),
            rtc (dep chain) tC x ∧ e = Submit (name x) sd
            ∧ ∀ n, n ∈ sd → ∃ d, d ∈ deps chain x ∧ name d = n.
Proof.
  assert (tC ∈ targets chain) as Hin by compute_done.
  assert (length (targets chain) < 4) as Hlen by (simpl; lia).
  split; [apply chain_well_formed|]. split; [apply chain_acyclic|].
  split; [exact Hin|]. split; [exact Hlen|]. split; [done|].
  exact (schedule_real_run (scheduler chain false (files [])) 4 tC (new_pass ∅)
           chain_well_formed chain_acyclic Hin Hlen eq_refl).
Defined.

(** ** What [schedule] leaves behind *)

(** Without dry-run, a call of [schedule] that returns [true] leaves [t]
    stored as SUBMITTED: it was found so, or it has just been submitted. *)
Theorem schedule_true_stores_submitted self fuel t s s' :
  well_formed (graph self) → acyclic (graph self) →
  t ∈ targets (graph self) → length (targets (graph self)) < fuel →
  dry_run self = false → name t ∉ pretend_known s →
  schedule self fuel t s = Some (s', Ok true) →
  state_of (state_db s') (name t) = TargetState.SUBMITTED.
Proof.
  intros Hwf Hac Ht Hfuel Hdry Hmemo. pose proof (rank_le (graph self) t) as Hrank.
  destruct fuel as [|fuel]; [lia|]. cbn [schedule].
  assert (∀ sd s0, state_of (state_db (submit self t sd s0)) (name t)
                   = TargetState.SUBMITTED) as Hsubmit.
  { intros sd s0. unfold submit. rewrite Hdry. unfold commit. simpl.
    rewrite state_of_insert. by rewrite decide_True. }
  destruct (pass_status self (S fuel) t (prepare_target_options self t s))
    as [[s1 r1]|] eqn:Hst1; [|done].
  destruct (pass_status_spec self Hwf Hac (S fuel) t _ s1 r1 Ht ltac:(lia) Hst1)
    as (_ & _ & Hmemo1 & _ & _ & Hr1). simpl in Hmemo1.
  destruct r1 as [st|e]; [|done]. destruct Hr1 as (b & _ & ->).
  destruct (bool_decide _ || bool_decide _) eqn:Hdedup.
  - intros [= <-].
    apply orb_true_iff in Hdedup as [Hst%bool_decide_eq_true|Hin%bool_decide_eq_true].
    + injection Hst as Hst. by eapply status_table_submitted.
    + by rewrite Hmemo1 in Hin.
  - destruct (schedule_deps _ _ _ _) as [[s2 [sd|e]]|]; [|done..].
    destruct (bool_decide (sd ≠ ∅)); [by intros [= <-]|].
    destruct (pass_status self (S fuel) t s2) as [[s3 [st3|e]]|]; [|done..].
    destruct (in_shouldrun_states st3); [by intros [= <-]|done].
Qed.

Lemma schedule_true_stores_submitted_witness :
  well_formed chain ∧ acyclic chain ∧ tC ∈ targets chain ∧ length (targets chain) < 4
  ∧ ∃ s', schedule (scheduler chain false (files [])) 4 tC (new_pass ∅) = Some (s', Ok true)
    ∧ state_of (state_db s') (name tC) = TargetState.SUBMITTED.
Proof.
  assert (tC ∈ targets chain) as Hin by compute_done.
  assert (length (targets chain) < 4) as Hlen by (simpl; lia).
  split; [apply chain_well_formed|]. split; [apply chain_acyclic|].
  split; [exact Hin|]. split; [exact Hlen|].
  assert (∃ s', schedule (scheduler chain false (files [])) 4 tC (new_pass ∅)
                = Some (s', Ok true)) as [s' Hrun] by (eexists; by vm_compute).
  exists s'. split; [exact Hrun|].
  apply (schedule_true_stores_submitted (scheduler chain false (files [])) 4 tC (new_pass ∅) s'
           chain_well_formed chain_acyclic Hin Hlen eq_refl); [|exact Hrun].
  simpl. set_solver.
Defined.

Lemma at_rest_resets db db' n :
  only_resets db db' → at_rest (state_of db n) → at_rest (state_of db' n).
Proof. intros Hr Hn. destruct (Hr n) as [-> | ->]; [done|by left]. Qed.

Lemma status_table_at_rest st :
  at_rest st →
  status_table st false = TargetStatus.COMPLETED ∨ status_table st false = TargetStatus.RUNNING.
Proof. intros [->|[->| ->]]; simpl; auto. Qed.

Section at_rest.
Context (self : Scheduler).
Hypothesis Hwf : well_formed (graph self).
Hypothesis Hacyclic : acyclic (graph self).

Local Abbreviation g := (graph self).

(** [status] of a target at rest that should not run. *)
Lemma pass_status_at_rest fuel t s :
  t ∈ targets g → rank g t < fuel →
  should_run g (file_cache self) fuel t = Some (Ok false) →
  at_rest (state_of (state_db s) (name t)) →
  ∃ s1 st, pass_status self fuel t s = Some (s1, Ok (Some st))
    ∧ (st = TargetStatus.COMPLETED ∨ st = TargetStatus.RUNNING)
    ∧ trace s1 = trace s ∧ pretend_known s1 = pretend_known s
    ∧ only_resets (state_db s) (state_db s1).
Proof.
  intros Ht Hrank Hsr Hrest. unfold pass_status, status.
  destruct (update_state_total g Hwf Hacyclic fuel t (state_db s) Ht Hrank) as [[db1 m] Hup].
  rewrite Hup, Hsr.
  destruct (update_state_props g Hwf Hacyclic fuel t _ db1 m Ht Hup) as (_ & Hm & _).
  pose proof (update_state_resets _ _ _ _ _ _ Hup) as Hr.
  rewrite status_of_table, Hm. eexists _, _. split; [done|].
  split; [|done]. apply status_table_at_rest. by eapply at_rest_resets.
Qed.

Lemma schedule_at_rest fuel t s :
  t ∈ targets g → rank g t < fuel →
  should_run g (file_cache self) fuel t = Some (Ok false) →
  (∀ x, rtc (dep g) t x → at_rest (state_of (state_db s) (name x))) →
  (∀ x, rtc (dep g) t x → name x ∉ pretend_known s) →
  ∃ s', schedule self fuel t s = Some (s', Ok false)
    ∧ trace s' = trace s ∧ pretend_known s' = pretend_known s
    ∧ only_resets (state_db s) (state_db s').
Proof.
  revert t s. induction fuel as [|fuel IH]; intros t s Ht Hrank Hsr Hrest Hmemo; [lia|].
  cbn [schedule].
  destruct (pass_status_at_rest (S fuel) t (prepare_target_options self t s) Ht Hrank Hsr)
    as (s1 & st & -> & Hst & Htr1 & Hmemo1 & Hr1); [by apply Hrest|]. simpl in *.
  rewrite bool_decide_eq_false_2 by (by destruct Hst as [-> | ->]).
  rewrite bool_decide_eq_false_2 by (rewrite Hmemo1; by apply Hmemo). simpl.
  assert (∀ d, d ∈ deps g t → should_run g (file_cache self) fuel d = Some (Ok false))
    as Hdeps.
  { simpl in Hsr. apply any_dep_should_run_false.
    by destruct (any_dep_should_run _ _) as [[[]|]|]. }
  assert (∀ ds s0, (∀ d, d ∈ ds → d ∈ deps g t) →
            (∀ x, rtc (dep g) t x → at_rest (state_of (state_db s0) (name x))) →
            (∀ x, rtc (dep g) t x → name x ∉ pretend_known s0) →
            ∃ s', schedule_deps (schedule self fuel) ds ∅ s0 = Some (s', Ok ∅)
              ∧ trace s' = trace s0 ∧ pretend_known s' = pretend_known s0
              ∧ only_resets (state_db s0) (state_db s')) as Hloop.
  { induction ds as [|d ds IHds]; intros s0 Hds Hrest0 Hmemo0; simpl.
    - exists s0. split; [done|]. split; [done|]. split; [done|apply only_resets_refl].
    - assert (d ∈ deps g t) as Hd by (apply Hds; set_solver).
      destruct (IH d s0) as (s0' & -> & Htr & Hm & Hr).
      { by eapply wf_closed. }
      { pose proof (rank_dep g Hwf Hacyclic t d Ht Hd). lia. }
      { by apply Hdeps. }
      { intros x Hx. apply Hrest0. by eapply rtc_l. }
      { intros x Hx. apply Hmemo0. by eapply rtc_l. }
      destruct (IHds s0') as (s' & -> & Htr' & Hm' & Hr').
      { intros ??. apply Hds. set_solver. }
      { intros x Hx. eapply at_rest_resets; [exact Hr|]. by apply Hrest0. }
      { intros x Hx. rewrite Hm. by apply Hmemo0. }
      exists s'. split; [done|]. split; [congruence|]. split; [congruence|].
      by eapply only_resets_trans. }
  destruct (Hloop (sorted_deps g t) s1) as (s2 & -> & Htr2 & Hmemo2 & Hr2).
  { intros d. by rewrite sorted_deps_elem_of. }
  { intros x Hx. eapply at_rest_resets; [exact Hr1|]. by apply Hrest. }
  { intros x Hx. rewrite Hmemo1. by apply Hmemo. }
  rewrite bool_decide_eq_false_2 by (by intros ?).
  destruct (pass_status_at_rest (S fuel) t s2 Ht Hrank Hsr)
    as (s3 & st3 & -> & Hst3 & Htr3 & Hmemo3 & Hr3).
  { eapply at_rest_resets; [exact Hr2|]. eapply at_rest_resets; [exact Hr1|]. by apply Hrest. }
  assert (in_shouldrun_states (Some st3) = false) as ->
    by (by destruct Hst3 as [-> | ->]; vm_compute).
  exists s3. split; [done|]. split; [congruence|]. split; [congruence|].
  eapply only_resets_trans; [|exact Hr3]. by eapply only_resets_trans.
Qed.
End at_rest.

(** A target that is up to date is left alone.  When [should_run] is false
    for [t], and the targets below [t] are stored as UNKNOWN, COMPLETED or
    RUNNING and are not in the memo, then [schedule] returns [false], adds no
    event and nothing to the memo, and stores nothing but resets. *)
Theorem schedule_up_to_date self fuel t s :
  well_formed (graph self) → acyclic (graph self) →
  t ∈ targets (graph self) → length (targets (graph self)) < fuel →
  should_run (graph self) (file_cache self) fuel t = Some (Ok false) →
  (∀ x, rtc (dep (graph self)) t x → at_rest (state_of (state_db s) (name x))) →
  (∀ x, rtc (dep (graph self)) t x → name x ∉ pretend_known s) →
  ∃ s', schedule self fuel t s = Some (s', Ok false)
    ∧ trace s' = trace s ∧ pretend_known s' = pretend_known s
    ∧ only_resets (state_db s) (state_db s').
Proof.
  intros Hwf Hac Ht Hfuel. apply schedule_at_rest; try done.
  pose proof (rank_le (graph self) t). lia.
Qed.

Lemma schedule_up_to_date_witness :
  well_formed chain ∧ acyclic chain ∧ tC ∈ targets chain ∧ length (targets chain) < 4
  ∧ ∃ s', schedule (scheduler chain false (files [("a", 1%Z); ("b", 2%Z); ("c", 3%Z)])) 4 tC
            (new_pass ∅) = Some (s', Ok false)
    ∧ trace s' = trace (new_pass ∅) ∧ pretend_known s' = pretend_known (new_pass ∅)
    ∧ only_resets (state_db (new_pass ∅)) (state_db s').
Proof.
  assert (tC ∈ targets chain) as Hin by compute_done.
  assert (length (targets chain) < 4) as Hlen by (simpl; lia).
  split; [apply chain_well_formed|]. split; [apply chain_acyclic|].
  split; [exact Hin|]. split; [exact Hlen|].
  apply (schedule_up_to_date (scheduler chain false (files [("a", 1%Z); ("b", 2%Z); ("c", 3%Z)]))
           4 tC (new_pass ∅) chain_well_formed chain_acyclic Hin Hlen).
  - by vm_compute.
  - intros x _. by left.
  - intros x _. simpl. set_solver.
Defined.

(** ** What a pass covers *)

Lemma covered_mono self s s' l y :
  trace s' = trace s ++ l → covered self s y → covered self s' y.
Proof.
  intros Htr Hcov x Hx Hrun. rewrite Htr. apply event_targets_app. left. by apply Hcov.
Qed.

Lemma accounted_resets self s s' :
  trace s' = trace s → pretend_known s' = pretend_known s →
  only_resets (state_db s) (state_db s') → accounted self s → accounted self s'.
Proof.
  intros Htr Hmemo Hr [Hsub Hrun Hm Hcov]. split.
  - intros n Hn. rewrite Htr. apply Hsub. destruct (Hr n) as [<-|Hu]; [done|congruence].
  - intros n Hn. destruct (Hr n) as [Heq|Hu]; [|congruence]. apply (Hrun n). congruence.
  - intros n Hn. rewrite Htr. apply Hm. by rewrite <-Hmemo.
  - intros y Hy Hev. rewrite Htr in Hev. eapply covered_mono; [by rewrite Htr, <-(app_nil_r (trace s))|].
    by apply Hcov.
Qed.

Section covers.
Context (self : Scheduler).
Hypothesis Hwf : well_formed (graph self).
Hypothesis Hacyclic : acyclic (graph self).

Local Abbreviation g := (graph self).

(** The branch that submits, once the dependencies are covered. *)
Lemma accounted_submit t sd s :
  t ∈ targets g → accounted self s → (∀ d, d ∈ deps g t → covered self s d) →
  accounted self (submit self t sd s) ∧ covered self (submit self t sd s) t.
Proof.
  intros Ht [Hsub Hrun Hm Hcov] Hdeps.
  destruct (submit_spec self Hwf Hacyclic t sd s) as (e & He & Htr & Hmemo1 & Hmemo2 & Hother & Hstate).
  assert (name t ∈ event_targets (trace (submit self t sd s))) as Hevent.
  { rewrite Htr. apply event_targets_app. right. unfold event_targets. simpl. rewrite He.
    set_solver. }
  assert (covered self (submit self t sd s) t) as Hcov_t.
  { intros x Hx Hxrun. apply rtc_inv in Hx as [<-|(d & Hd & Hx)]; [done|].
    rewrite Htr. apply event_targets_app. left. by apply (Hdeps d Hd). }
  split; [|done]. split.
  - intros n Hn. destruct (decide (n = name t)) as [->|Hne]; [done|].
    rewrite Htr. apply event_targets_app. left. apply Hsub. by rewrite <-Hother.
  - intros n. destruct (decide (n = name t)) as [->|Hne].
    + destruct Hstate as [-> | ->]; [done|apply Hrun].
    + rewrite Hother by done. apply Hrun.
  - intros n Hn. destruct (Hmemo2 n Hn) as [Hold| ->]; [|done].
    rewrite Htr. apply event_targets_app. left. by apply Hm.
  - intros y Hy Hev. rewrite Htr in Hev. apply event_targets_app in Hev as [Hev|Hev].
    + eapply covered_mono; [exact Htr|]. by apply Hcov.
    + unfold event_targets in Hev. simpl in Hev. apply list_elem_of_singleton in Hev.
      rewrite He in Hev. by rewrite (name_inj g Hwf y t Hy Ht Hev).
Qed.

Lemma schedule_covers fuel t s s' b :
  t ∈ targets g → rank g t < fuel → accounted self s →
  schedule self fuel t s = Some (s', Ok b) →
  accounted self s' ∧ covered self s' t.
Proof.
  revert t s s' b. induction fuel as [|fuel IH]; intros t s s' b Ht Hrank Hacc; [lia|].
  cbn [schedule].
  destruct (pass_status self (S fuel) t (prepare_target_options self t s))
    as [[s1 r1]|] eqn:Hst1; [|done].
  destruct (pass_status_spec self Hwf Hacyclic (S fuel) t _ s1 r1 Ht Hrank Hst1)
    as (_ & _ & _ & _ & _ & Hr1).
  apply pass_status_frame in Hst1 as (Htr1 & Hmemo1 & Hres1). simpl in Htr1, Hmemo1, Hres1.
  assert (accounted self s1) as Hacc1 by by eapply accounted_resets.
  destruct r1 as [st|e]; [|done]. destruct Hr1 as (b1 & Hdec & ->).
  destruct (bool_decide _ || bool_decide _) eqn:Hdedup.
  { intros [= <- <-]. split; [done|]. apply (ac_covered _ _ Hacc1 t Ht).
    apply orb_true_iff in Hdedup as [Hst%bool_decide_eq_true|Hin%bool_decide_eq_true].
    - injection Hst as Hst. apply status_table_submitted in Hst.
      by apply (ac_submitted _ _ Hacc1).
    - by apply (ac_memo _ _ Hacc1). }
  assert (∀ ds sd0 s0 s2 sd, (∀ d, d ∈ ds → d ∈ deps g t) → accounted self s0 →
            schedule_deps (schedule self fuel) ds sd0 s0 = Some (s2, Ok sd) →
            accounted self s2
            ∧ (∀ y, covered self s0 y → covered self s2 y)
            ∧ ∀ d, d ∈ ds → covered self s2 d) as Hloop.
  { induction ds as [|d ds IHds]; intros sd0 s0 s2 sd Hds Hacc0; simpl.
    - intros [= <- _]. split; [done|]. split; [done|]. by intros d ?%elem_of_nil.
    - assert (d ∈ deps g t) as Hd by (apply Hds; set_solver).
      destruct (schedule self fuel d s0) as [[s0' [bd|e]]|] eqn:Hrun; [|done..].
      destruct (IH d s0 s0' bd) as [Hacc0' Hcov_d]; [by eapply wf_closed| |done|done|].
      { pose proof (rank_dep g Hwf Hacyclic t d Ht Hd). lia. }
      apply schedule_emits in Hrun as (l & Htr & _).
      assert (∀ sd1, schedule_deps (schedule self fuel) ds sd1 s0' = Some (s2, Ok sd) →
                accounted self s2 ∧ (∀ y, covered self s0 y → covered self s2 y)
                ∧ ∀ d', d' ∈ d :: ds → covered self s2 d') as Hrest.
      { intros sd1 Hrest. destruct (IHds sd1 s0' s2 sd) as (Hacc2 & Hmono & Hall); try done.
        { intros ??. apply Hds. set_solver. }
        split; [done|]. split.
        - intros y Hy. apply Hmono. by eapply covered_mono.
        - intros d' [->|Hd']%elem_of_cons; [by apply Hmono|by apply Hall]. }
      destruct bd; apply Hrest. }
  destruct (schedule_deps _ _ _ _) as [[s2 [sd|e]]|] eqn:Hdeps; [|done..].
  destruct (Hloop _ _ _ _ _ ltac:(intros d; by rewrite sorted_deps_elem_of) Hacc1 Hdeps)
    as (Hacc2 & _ & Hcov2).
  assert (∀ d, d ∈ deps g t → covered self s2 d) as Hcov2'.
  { intros d Hd. apply Hcov2. by apply sorted_deps_elem_of. }
  destruct (bool_decide (sd ≠ ∅)).
  { intros [= <- <-]. by apply accounted_submit. }
  destruct (pass_status self (S fuel) t s2) as [[s3 r3]|] eqn:Hst3; [|done].
  destruct (pass_status_spec self Hwf Hacyclic (S fuel) t _ s3 r3 Ht Hrank Hst3)
    as (_ & _ & _ & _ & _ & Hr3).
  apply pass_status_frame in Hst3 as (Htr3 & Hmemo3 & Hres3).
  assert (accounted self s3) as Hacc3 by by eapply accounted_resets.
  assert (∀ d, d ∈ deps g t → covered self s3 d) as Hcov3.
  { intros d Hd. eapply covered_mono; [by rewrite Htr3, <-(app_nil_r (trace s2))|].
    by apply Hcov2'. }
  destruct r3 as [st3|e]; [|done]. destruct Hr3 as (b3 & Hdec3 & ->).
  destruct (in_shouldrun_states _) eqn:Hin.
  { intros [= <- <-]. by apply accounted_submit. }
  intros [= <- <-]. split; [done|].
  intros x Hx Hxrun. apply rtc_inv in Hx as [<-|(d & Hd & Hx)]; [|by apply (Hcov3 d Hd)].
  rewrite Hdec3 in Hxrun. injection Hxrun as ->.
  apply (ac_submitted _ _ Hacc3). pose proof (ac_running _ _ Hacc3 (name t)) as Hnot.
  destruct (state_of (state_db s3) (name t)); try done; by vm_compute in Hin.
Qed.

Lemma schedule_many_covers fuel ts s s' bs :
  (∀ t, t ∈ ts → t ∈ targets g) → length (targets g) < fuel → accounted self s →
  schedule_many self fuel ts s = Some (s', Ok bs) →
  accounted self s' ∧ (∀ y, covered self s y → covered self s' y)
  ∧ ∀ t, t ∈ ts → covered self s' t.
Proof.
  intros Hts Hfuel. revert s s' bs.
  induction ts as [|t ts IH]; intros s s' bs Hacc; simpl.
  - intros [= <- _]. split; [done|]. split; [done|]. by intros t ?%elem_of_nil.
  - assert (t ∈ targets g) as Ht by (apply Hts; set_solver).
    destruct (schedule self fuel t s) as [[s1 [b|e]]|] eqn:Hrun; [|done..].
    destruct (schedule_covers fuel t s s1 b Ht) as [Hacc1 Hcov1]; [|done|done|].
    { pose proof (rank_le g t). lia. }
    apply schedule_emits in Hrun as (l & Htr & _).
    destruct (schedule_many self fuel ts s1) as [[s2 [bs'|e]]|] eqn:Hmany; [|done..].
    intros [= <- _].
    destruct (IH ltac:(intros ??; apply Hts; set_solver) s1 s2 bs' Hacc1 Hmany)
      as (Hacc2 & Hmono & Hall).
    split; [done|]. split.
    + intros y Hy. apply Hmono. by eapply covered_mono.
    + intros t' [->|Ht']%elem_of_cons; [by apply Hmono|by apply Hall].
Qed.
End covers.

Lemma accounted_new self db :
  (∀ n, state_of db n ≠ TargetState.SUBMITTED ∧ state_of db n ≠ TargetState.RUNNING) →
  accounted self (new_pass db).
Proof.
  intros Hdb. split; simpl.
  - intros n Hn. by destruct (Hdb n).
  - intros n. by destruct (Hdb n).
  - apply memo_logged_new.
  - by intros y _ ?%elem_of_nil.
Qed.

(** A pass misses nothing.  When no target is stored as SUBMITTED or RUNNING
    at the start of a pass, [schedule_many] comes back, and unless it raises,
    every target that should run and is one of the scheduled targets, or
    below one, has been submitted, or under dry-run recorded as such. *)
Theorem schedule_many_submits_stale self fuel ts db :
  well_formed (graph self) → acyclic (graph self) →
  (∀ t, t ∈ ts → t ∈ targets (graph self)) → length (targets (graph self)) < fuel →
  (∀ n, state_of db n ≠ TargetState.SUBMITTED ∧ state_of db n ≠ TargetState.RUNNING) →
  ∃ s' r, schedule_many self fuel ts (new_pass db) = Some (s', r)
    ∧ ∀ bs, r = Ok bs →
        ∀ t x, t ∈ ts → rtc (dep (graph self)) t x →
          should_run (graph self) (file_cache self) fuel x = Some (Ok true) →
          name x ∈ event_targets (trace s').
Proof.
  intros Hwf Hac Hts Hfuel Hdb.
  destruct (schedule_many_total self Hwf Hac fuel ts (new_pass db) Hts Hfuel) as [[s' r] Hrun].
  exists s', r. split; [done|]. intros bs -> t x Ht Hx Hxrun.
  destruct (schedule_many_covers self Hwf Hac fuel ts _ s' bs Hts Hfuel
              (accounted_new self db Hdb) Hrun) as (_ & _ & Hall).
  apply (Hall t Ht x Hx). rewrite <-Hxrun. symmetry.
  apply (decided_fuel self Hwf Hac).
  - exact (rtc_dep_targets (graph self) Hwf t x (Hts t Ht) Hx).
  - pose proof (rank_le (graph self) x). lia.
Qed.

Lemma schedule_many_submits_stale_witness :
  well_formed chain ∧ acyclic chain ∧ (∀ t, t ∈ [tC] → t ∈ targets chain)
  ∧ length (targets chain) < 4
  ∧ (∀ n, state_of ∅ n ≠ TargetState.SUBMITTED ∧ state_of ∅ n ≠ TargetState.RUNNING)
  ∧ ∃ s' r, schedule_many (scheduler chain false (files [("a", 1%Z); ("c", 3%Z)])) 4 [tC]
              (new_pass ∅) = Some (s', r)
    ∧ ∀ bs, r = Ok bs →
        ∀ t x, t ∈ [tC] → rtc (dep chain) t x →
          should_run chain (files [("a", 1%Z); ("c", 3%Z)]) 4 x = Some (Ok true) →
          name x ∈ event_targets (trace s').
Proof.
  assert (∀ t, t ∈ [tC] → t ∈ targets chain) as Hin.
  { intros t ->%list_elem_of_singleton. compute_done. }
  assert (length (targets chain) < 4) as Hlen by (simpl; lia).
  assert (∀ n, state_of ∅ n ≠ TargetState.SUBMITTED ∧ state_of ∅ n ≠ TargetState.RUNNING)
    as Hdb.
  { intros n. unfold state_of. by rewrite lookup_empty. }
  split; [apply chain_well_formed|]. split; [apply chain_acyclic|].
  split; [exact Hin|]. split; [exact Hlen|]. split; [exact Hdb|].
  exact (schedule_many_submits_stale (scheduler chain false (files [("a", 1%Z); ("c", 3%Z)]))
           4 [tC] ∅ chain_well_formed chain_acyclic Hin Hlen Hdb).
Defined.

(** In that pass B and C are submitted and A, which is up to date, is
    not. *)
Example schedule_many_stale_chain :
  (event_targets ∘ trace ∘ fst)
    <$> schedule_many (scheduler chain false (files [("a", 1%Z); ("c", 3%Z)])) 4 [tC]
          (new_pass ∅)
  = Some ["B"; "C"].
Proof. by vm_compute. Qed.

(** ** Why a target is submitted *)

Lemma justified_silent self X s s' :
  trace s' = trace s → pretend_known s' = pretend_known s →
  only_resets (state_db s) (state_db s') → justified self X s s'.
Proof.
  intros Htr Hmemo Hr. exists []. split; [by rewrite app_nil_r|].
  split; [by intros e ?%elem_of_nil|]. split.
  - intros n. destruct (Hr n); auto.
  - intros n Hn. left. by rewrite <-Hmemo.
Qed.

Lemma justified_trans self X s1 s2 s3 :
  justified self X s1 s2 → justified self X s2 s3 → justified self X s1 s3.
Proof.
  intros (l1 & Htr1 & Hl1 & Hst1 & Hm1) (l2 & Htr2 & Hl2 & Hst2 & Hm2).
  exists (l1 ++ l2). split; [by rewrite Htr2, Htr1, app_assoc|]. split; [|split].
  - intros e [He|He]%elem_of_app.
    + destruct (Hl1 e He) as (x & Hx & Hname & Hcause). exists x. split; [done|].
      split; [done|]. destruct Hcause as [?|[?|(d & Hd & Hdep)]]; [by left|by right; left|].
      right; right. exists d. split; [done|].
      destruct Hdep as [Hev|[?|?]]; [left|by right; left|by right; right].
      rewrite Htr2. apply event_targets_app. by left.
    + destruct (Hl2 e He) as (x & Hx & Hname & Hcause). exists x. split; [done|].
      split; [done|]. destruct Hcause as [?|[Hfail|(d & Hd & Hdep)]]; [by left| |].
      * right; left.
        destruct (Hst1 (name x)) as [<-|[Hu|[Hs _]]]; [done|..];
          destruct Hfail as [?|[?|?]]; congruence.
      * right; right. exists d. split; [done|].
        destruct Hdep as [Hev|[Hsub|Hmemo]]; [by left| |].
        -- destruct (Hst1 (name d)) as [<-|[Hu|[_ Hev]]]; [by right; left|congruence|].
           left. rewrite Htr2, Htr1. apply event_targets_app. left.
           apply event_targets_app. by right.
        -- destruct (Hm1 _ Hmemo) as [?|Hev]; [by right; right|].
           left. rewrite Htr2, Htr1. apply event_targets_app. left.
           apply event_targets_app. by right.
  - intros n. destruct (Hst2 n) as [->|[?|[? Hev]]]; [|by right; left|].
    + destruct (Hst1 n) as [?|[?|[? Hev]]]; [by left|by right; left|].
      right; right. split; [done|]. apply event_targets_app. by left.
    + right; right. split; [done|]. apply event_targets_app. by right.
  - intros n Hn. destruct (Hm2 n Hn) as [Hn1|Hev].
    + destruct (Hm1 n Hn1) as [?|Hev]; [by left|]. right. apply event_targets_app. by left.
    + right. apply event_targets_app. by right.
Qed.

Lemma justified_weaken self (X Y : Target → Prop) s s' :
  (∀ x, X x → Y x) → justified self X s s' → justified self Y s s'.
Proof.
  intros HXY (l & Htr & Hl & Hrest). exists l. split; [done|]. split; [|done].
  intros e He. destruct (Hl e He) as (x & Hx & Hrest'). exists x. split; [by apply HXY|done].
Qed.

(** The state or the memo that made the test for an earlier submission
    fire, seen from the start of the pass. *)
Lemma submitted_or_known_trans self X Y s1 s2 s3 t :
  justified self X s1 s2 → justified self Y s2 s3 →
  submitted_or_known s2 s3 t → submitted_or_known s1 s3 t.
Proof.
  intros (l1 & Htr1 & _ & Hst1 & Hm1) (l2 & Htr2 & _). unfold submitted_or_known.
  assert (∀ n, n ∈ event_targets l1 → n ∈ event_targets (trace s3)) as Hold.
  { intros n Hn. rewrite Htr2, Htr1. apply event_targets_app. left.
    apply event_targets_app. by right. }
  intros [Hev|[Hsub|Hmemo]]; [by left| |].
  - destruct (Hst1 (name t)) as [Heq|[Hu|[_ Hev]]]; [|congruence|left; by apply Hold].
    right; left. congruence.
  - destruct (Hm1 _ Hmemo) as [?|Hev]; [by right; right|left; by apply Hold].
Qed.

Lemma cause_mono self s s2 s' l x :
  trace s' = trace s2 ++ l → cause self s s2 x → cause self s s' x.
Proof.
  intros Htr [?|[?|(d & Hd & Hdep)]]; [by left|by right; left|]. right; right.
  exists d. split; [done|]. destruct Hdep as [Hev|[?|?]]; [left|by right; left|by right; right].
  rewrite Htr. apply event_targets_app. by left.
Qed.

Lemma submitted_or_known_mono s s2 s' l t :
  trace s' = trace s2 ++ l → submitted_or_known s s2 t → submitted_or_known s s' t.
Proof.
  intros Htr [Hev|[?|?]]; [left|by right; left|by right; right].
  rewrite Htr. apply event_targets_app. by left.
Qed.

Lemma in_shouldrun_states_cause st b :
  in_shouldrun_states (Some (status_table st b)) = true →
  b = true ∨ st = TargetState.FAILED ∨ st = TargetState.KILLED ∨ st = TargetState.CANCELLED.
Proof. destruct st, b; intros H; auto; by vm_compute in H. Qed.

Section justified.
Context (self : Scheduler).
Hypothesis Hwf : well_formed (graph self).
Hypothesis Hacyclic : acyclic (graph self).

Local Abbreviation g := (graph self).

Lemma justified_submit (X : Target → Prop) s s2 t sd :
  justified self X s s2 → X t → cause self s (submit self t sd s2) t →
  justified self X s (submit self t sd s2)
  ∧ submitted_or_known s (submit self t sd s2) t.
Proof.
  intros (l & Htr & Hl & Hst & Hm) Ht Hcause.
  destruct (submit_spec self Hwf Hacyclic t sd s2)
    as (e & He & Htr' & _ & Hmemo & Hother & Hstate).
  assert (name t ∈ event_targets [e]) as Hev.
  { unfold event_targets. simpl. rewrite He. set_solver. }
  split.
  - exists (l ++ [e]). split; [by rewrite Htr', Htr, app_assoc|]. split; [|split].
    + intros e' [He'|He'%list_elem_of_singleton]%elem_of_app; [|subst e'; by exists t].
      destruct (Hl e' He') as (x & Hx & Hname & Hc). exists x. split; [done|].
      split; [done|]. by eapply cause_mono.
    + intros n. destruct (decide (n = name t)) as [->|Hne].
      * destruct Hstate as [->|Heq].
        -- right; right. split; [done|]. apply event_targets_app. by right.
        -- rewrite Heq. destruct (Hst (name t)) as [?|[?|[? ?]]]; [by left|by right; left|].
           right; right. split; [done|]. apply event_targets_app. by left.
      * rewrite Hother by done.
        destruct (Hst n) as [?|[?|[? ?]]]; [by left|by right; left|].
        right; right. split; [done|]. apply event_targets_app. by left.
    + intros n Hn. destruct (Hmemo n Hn) as [Hold| ->].
      * destruct (Hm n Hold) as [?|?]; [by left|]. right. apply event_targets_app. by left.
      * right. apply event_targets_app. by right.
  - left. rewrite Htr'. apply event_targets_app. by right.
Qed.

Lemma schedule_deps_justified rec ds sd0 s0 s2 r :
  (∀ d s s' r, d ∈ ds → rec d s = Some (s', r) →
     justified self (rtc (dep g) d) s s' ∧ (r = Ok true → submitted_or_known s s' d)) →
  schedule_deps rec ds sd0 s0 = Some (s2, r) →
  justified self (λ x, ∃ d, d ∈ ds ∧ rtc (dep g) d x) s0 s2
  ∧ ∀ sd, r = Ok sd → ∀ n, n ∈ sd →
      n ∈ sd0 ∨ ∃ d, d ∈ ds ∧ name d = n ∧ submitted_or_known s0 s2 d.
Proof.
  revert sd0 s0. induction ds as [|d ds IH]; intros sd0 s0 Hrec; simpl.
  - intros [= <- <-]. split; [by apply justified_silent; [..|apply only_resets_refl]|].
    intros sd [= <-] n Hn. by left.
  - assert (∀ d0 s s' r, d0 ∈ ds → rec d0 s = Some (s', r) →
              justified self (rtc (dep g) d0) s s'
              ∧ (r = Ok true → submitted_or_known s s' d0)) as Hrec'.
    { intros ?????. apply Hrec. set_solver. }
    destruct (rec d s0) as [[s1 r1]|] eqn:Hd; [|done].
    destruct (Hrec d s0 s1 r1 ltac:(set_solver) Hd) as [Hj1 Hsok1].
    assert (justified self (λ x, ∃ d0, d0 ∈ d :: ds ∧ rtc (dep g) d0 x) s0 s1) as Hj1'.
    { eapply justified_weaken; [|exact Hj1]. intros x Hx. exists d. split; [set_solver|done]. }
    assert (∀ sd1, schedule_deps rec ds sd1 s1 = Some (s2, r) →
              justified self (λ x, ∃ d0, d0 ∈ d :: ds ∧ rtc (dep g) d0 x) s0 s2
              ∧ ∀ sd, r = Ok sd → ∀ n, n ∈ sd →
                  n ∈ sd1 ∨ ∃ d0, d0 ∈ d :: ds ∧ name d0 = n ∧ submitted_or_known s0 s2 d0)
      as Hrest.
    { intros sd1 Hloop. destruct (IH sd1 s1 Hrec' Hloop) as [Hj2 Hsd]. split.
      - eapply justified_trans; [exact Hj1'|]. eapply justified_weaken; [|exact Hj2].
        intros x (d' & Hd' & Hx). exists d'. set_solver.
      - intros sd Hr n Hn. destruct (Hsd sd Hr n Hn) as [?|(d' & Hd' & Hn' & Hsok)]; [by left|].
        right. exists d'. split; [set_solver|]. split; [done|].
        by eapply submitted_or_known_trans. }
    destruct r1 as [[]|e].
    + intros Hloop. destruct (Hrest _ Hloop) as [Hj Hsd]. split; [done|].
      intros sd Hr n Hn. destruct (Hsd sd Hr n Hn) as [Hin|?]; [|by right].
      apply elem_of_union in Hin as [->%elem_of_singleton|?]; [|by left].
      right. exists d. split; [set_solver|]. split; [done|].
      destruct (IH _ _ Hrec' Hloop) as [(l2 & Htr2 & _) _].
      eapply submitted_or_known_mono; [exact Htr2|]. by apply Hsok1.
    + intros Hloop. by apply Hrest.
    + intros [= <- <-]. by split.
Qed.

Lemma schedule_justified fuel t s s' r :
  t ∈ targets g → rank g t < fuel → schedule self fuel t s = Some (s', r) →
  justified self (rtc (dep g) t) s s' ∧ (r = Ok true → submitted_or_known s s' t).
Proof.
  revert t s s' r. induction fuel as [|fuel IH]; intros t s s' r Ht Hrank; [lia|].
  cbn [schedule].
  destruct (pass_status self (S fuel) t (prepare_target_options self t s))
    as [[s1 r1]|] eqn:Hst1; [|done].
  destruct (pass_status_spec self Hwf Hacyclic (S fuel) t _ s1 r1 Ht Hrank Hst1)
    as (_ & _ & _ & _ & _ & Hr1).
  apply pass_status_frame in Hst1 as (Htr1 & Hmemo1 & Hres1). simpl in Htr1, Hmemo1, Hres1.
  assert (justified self (rtc (dep g) t) s s1) as Hj1 by by apply justified_silent.
  destruct r1 as [st|e]; [|by intros [= <- <-]]. destruct Hr1 as (b1 & Hdec & ->).
  destruct (bool_decide _ || bool_decide _) eqn:Hdedup.
  { intros [= <- <-]. split; [done|]. intros _.
    apply orb_true_iff in Hdedup as [Hst%bool_decide_eq_true|Hin%bool_decide_eq_true].
    - injection Hst as Hst. apply status_table_submitted in Hst.
      right; left. destruct (Hres1 (name t)); congruence.
    - right; right. by rewrite <-Hmemo1. }
  destruct (schedule_deps _ _ _ _) as [[s2 r2]|] eqn:Hloop; [|done].
  apply schedule_deps_justified in Hloop as [Hj2 Hsd].
  2:{ intros d s0 s0' r0 Hd%sorted_deps_elem_of. apply IH; [by eapply wf_closed|].
      pose proof (rank_dep g Hwf Hacyclic t d Ht Hd). lia. }
  assert (justified self (rtc (dep g) t) s1 s2) as Hj2'.
  { eapply justified_weaken; [|exact Hj2].
    intros x (d & Hd%sorted_deps_elem_of & Hx). by eapply rtc_l. }
  assert (justified self (rtc (dep g) t) s s2) as Hj12 by by eapply justified_trans.
  destruct r2 as [sd|e]; [|by intros [= <- <-]].
  destruct (bool_decide (sd ≠ ∅)) eqn:Hsome.
  { intros [= <- <-]. apply bool_decide_eq_true in Hsome.
    apply set_choose_L in Hsome as [n Hn].
    destruct (Hsd sd eq_refl n Hn) as [?|(d & Hd%sorted_deps_elem_of & _ & Hsok)];
      [set_solver|].
    destruct (justified_submit (rtc (dep g) t) s s2 t sd Hj12) as [Hj Hpost]; [done| |done].
    right; right. exists d. split; [done|].
    destruct (submit_spec self Hwf Hacyclic t sd s2) as (e & _ & Htr & _).
    eapply (submitted_or_known_mono s s2 _ [e] d Htr).
    exact (submitted_or_known_trans self _ _ s s1 s2 d Hj1 Hj2' Hsok). }
  destruct (pass_status self (S fuel) t s2) as [[s3 r3]|] eqn:Hst3; [|done].
  destruct (pass_status_spec self Hwf Hacyclic (S fuel) t _ s3 r3 Ht Hrank Hst3)
    as (_ & _ & _ & _ & _ & Hr3).
  apply pass_status_frame in Hst3 as (Htr3 & Hmemo3 & Hres3).
  assert (justified self (rtc (dep g) t) s s3) as Hj3.
  { eapply justified_trans; [exact Hj12|]. by apply justified_silent. }
  destruct r3 as [st3|e]; [|by intros [= <- <-]]. destruct Hr3 as (b3 & Hdec3 & ->).
  destruct (in_shouldrun_states _) eqn:Hin; [|by intros [= <- <-]].
  intros [= <- <-].
  destruct (justified_submit (rtc (dep g) t) s s3 t sd Hj3) as [Hj Hpost]; [done| |done].
  apply in_shouldrun_states_cause in Hin as [->|Hfailed]; [by left|]. right; left.
  destruct Hj3 as (l3 & _ & _ & Hst & _).
  destruct (Hst (name t)) as [Heq|[Hu|[Hs _]]]; [rewrite <-Heq; tauto|..];
    destruct Hfailed as [?|[?|?]]; congruence.
Qed.
End justified.

(** [schedule] submits nothing without a cause.  It comes back, and every
    event it adds is for a target below [t] that should run, or was stored
    as FAILED, KILLED or CANCELLED, or has a dependency that is submitted in
    the pass, or was stored as SUBMITTED, or was in the memo.  A state it
    changes becomes UNKNOWN, or SUBMITTED for a target it has submitted. *)
Theorem schedule_submits_for_cause self fuel t s :
  well_formed (graph self) → acyclic (graph self) →
  t ∈ targets (graph self) → length (targets (graph self)) < fuel →
  ∃ s' r, schedule self fuel t s = Some (s', r)
    ∧ justified self (rtc (dep (graph self)) t) s s'.
Proof.
  intros Hwf Hac Ht Hfuel. pose proof (rank_le (graph self) t) as Hrank.
  destruct (schedule_total self Hwf Hac fuel t s Ht) as [[s' r] Hrun]; [lia|].
  exists s', r. split; [done|].
  apply (schedule_justified self Hwf Hac fuel t s s' r Ht); [lia|done].
Qed.

Lemma schedule_submits_for_cause_witness :
  well_formed chain ∧ acyclic chain ∧ tC ∈ targets chain ∧ length (targets chain) < 4
  ∧ ∃ s' r, schedule (scheduler chain false (files [("a", 1%Z); ("c", 3%Z)])) 4 tC
              (new_pass failed_upstream) = Some (s', r)
    ∧ justified (scheduler chain false (files [("a", 1%Z); ("c", 3%Z)]))
        (rtc (dep chain) tC) (new_pass failed_upstream) s'.
Proof.
  assert (tC ∈ targets chain) as Hin by compute_done.
  assert (length (targets chain) < 4) as Hlen by (simpl; lia).
  split; [apply chain_well_formed|]. split; [apply chain_acyclic|].
  split; [exact Hin|]. split; [exact Hlen|].
  exact (schedule_submits_for_cause (scheduler chain false (files [("a", 1%Z); ("c", 3%Z)]))
           4 tC (new_pass failed_upstream) chain_well_formed chain_acyclic Hin Hlen).
Defined.

(** ** Scheduling a target again *)

Section again.
Context (self : Scheduler).
Local Abbreviation g := (graph self).
Hypothesis Hwf : well_formed g.
Hypothesis Hacyclic : acyclic g.

Lemma proceeds_refl s : proceeds self s s.
Proof. split; [done|done|exists []; by rewrite app_nil_r|auto]. Qed.

Lemma proceeds_trans s1 s2 s3 :
  proceeds self s1 s2 → proceeds self s2 s3 → proceeds self s1 s3.
Proof.
  intros [Hf1 Hm1 [l1 Ht1] Hs1] [Hf2 Hm2 [l2 Ht2] Hs2]. split.
  - intros x Hx Hfx. by apply Hf2, Hf1.
  - set_solver.
  - exists (l1 ++ l2). by rewrite Ht2, Ht1, app_assoc.
  - intros n. destruct (Hs2 n) as [->|[->| ->]]; auto.
Qed.

Lemma proceeds_prepare t s : proceeds self s (prepare_target_options self t s).
Proof. split; [done|done|exists []; by rewrite app_nil_r|auto]. Qed.

Lemma proceeds_status fuel t s s1 r :
  t ∈ targets g → rank g t < fuel → pass_status self fuel t s = Some (s1, r) →
  proceeds self s s1.
Proof.
  intros Ht Hrank Hst.
  destruct (pass_status_spec self Hwf Hacyclic fuel t s s1 r Ht Hrank Hst)
    as (Hev & Htr & Hmemo & _).
  apply pass_status_frame in Hst as (_ & _ & Hres). split.
  - intros x Hx. apply (firm_preserved_silent self _ s s1 x Hev Hx).
    apply new_events_app. by rewrite Htr, app_nil_r.
  - by rewrite Hmemo.
  - exists []. by rewrite Htr, app_nil_r.
  - intros n. destruct (Hres n); auto.
Qed.

Lemma proceeds_schedule fuel t s s' r :
  t ∈ targets g → rank g t < fuel → schedule self fuel t s = Some (s', r) →
  proceeds self s s'.
Proof.
  intros Ht Hrank Hrun.
  pose proof (schedule_spec self Hwf Hacyclic fuel t s s' r Ht Hrank Hrun) as Hpost.
  destruct (schedule_justified self Hwf Hacyclic fuel t s s' r Ht Hrank Hrun)
    as [(l & Htr & _ & Hst & _) _].
  split.
  - intros x Hx Hfx. by apply (sp_firm _ _ _ _ _ Hpost).
  - apply (ev_memo_mono _ _ _ _ (sp_evolves _ _ _ _ _ Hpost)).
  - by exists l.
  - intros n. destruct (Hst n) as [?|[?|[? _]]]; auto.
Qed.

(** What [submit] does to the store when nothing is dry. *)
Lemma submit_states t sd s n :
  dry_run self = false →
  state_of (state_db (submit self t sd s)) n
  = if decide (n = name t) then TargetState.SUBMITTED else state_of (state_db s) n.
Proof.
  intros Hdry. unfold submit. rewrite Hdry. simpl. unfold commit. simpl.
  unfold state_of. destruct (decide (n = name t)) as [->|Hne].
  - by rewrite lookup_insert_eq.
  - by rewrite lookup_insert_ne.
Qed.

Lemma firm_submit_all t sd s x : firm self s x → firm self (submit self t sd s) x.
Proof.
  destruct (submit_spec self Hwf Hacyclic t sd s) as (_ & _ & _ & _ & _ & Hother & Hown).
  assert (∀ n, ¬ invalid (state_of (state_db s) n) →
               ¬ invalid (state_of (state_db (submit self t sd s)) n)) as Hvalid.
  { intros n Hn. destruct (decide (n = name t)) as [->|Hne]; [|by rewrite Hother].
    destruct Hown as [->| ->]; [|done]. unfold invalid. naive_solver. }
  intros [Hx Hbelow]. split.
  - destruct (decide (name x = name t)) as [Heq|Hne]; [|by rewrite Hother].
    rewrite Heq in *. destruct Hown as [->| ->]; done.
  - intros y Hy. by apply Hvalid, Hbelow.
Qed.

Lemma proceeds_submit t sd s : proceeds self s (submit self t sd s).
Proof.
  destruct (submit_spec self Hwf Hacyclic t sd s) as (e & _ & Htr & Hmemo & _ & Hother & Hown).
  split.
  - intros x _. apply firm_submit_all.
  - done.
  - by exists [e].
  - intros n. destruct (decide (n = name t)) as [->|Hne]; [|left; by apply Hother].
    destruct Hown as [->| ->]; auto.
Qed.

Lemma calm_decided s d : calm self s d → ∃ b, decided self d = Some (Ok b).
Proof. intros [d' b Hb _|d' b Hb _]; by exists b. Qed.

Lemma calm_proceeds s s' d :
  proceeds self s s' → d ∈ targets g → calm self s d → calm self s' d.
Proof.
  intros Hpr Hd Hcalm. induction Hcalm as [d b Hb Hgate|d b Hb _ IH].
  - apply (calm_gate _ _ d b Hb). destruct Hgate as [Hf|Hm].
    + left. by apply (pr_firm _ _ _ Hpr).
    + right. by apply (pr_memo _ _ _ Hpr).
  - apply (calm_deps _ _ d b Hb). intros d' Hd'. apply IH; [done|].
    exact (wf_closed g Hwf d d' Hd Hd').
Qed.

Lemma event_proceeds s s' n :
  proceeds self s s' → n ∈ event_targets (trace s) → n ∈ event_targets (trace s').
Proof.
  intros Hpr Hn. destruct (pr_trace _ _ _ Hpr) as [l ->]. apply event_targets_app. by left.
Qed.

Lemma sure_proceeds s s' d :
  proceeds self s s' → d ∈ targets g → sure self s d → sure self s' d.
Proof.
  intros Hpr Hd [Hev|Hf]; [left; by eapply event_proceeds|right].
  by apply (pr_firm _ _ _ Hpr).
Qed.

Lemma hot_proceeds s s' x :
  proceeds self s s' → x ∈ targets g → hot self s x → hot self s' x.
Proof.
  intros Hpr Hx (b & Hb & Hhot). exists b. split; [done|].
  destruct (dry_run self); [by apply (pr_memo _ _ _ Hpr)|].
  destruct Hhot as (Hst & Hcalm & Hfalse). split; [|split].
  - destruct (pr_states _ _ _ Hpr (name x)) as [->|[->| ->]]; auto.
  - intros d Hd. apply (calm_proceeds s); [done|exact (wf_closed g Hwf x d Hx Hd)|by apply Hcalm].
  - intros Hbf. destruct (Hfalse Hbf) as [Hf|(d & Hd & Hsure)].
    + left. by apply (pr_firm _ _ _ Hpr).
    + right. exists d. split; [done|].
      apply (sure_proceeds s); [done|exact (wf_closed g Hwf x d Hx Hd)|done].
Qed.

(** A step that adds no event keeps the invariant. *)
Lemma pass_invariant_silent s s' :
  proceeds self s s' → trace s' = trace s → pretend_known s' = pretend_known s →
  pass_invariant self s → pass_invariant self s'.
Proof.
  intros Hpr Htr Hmemo [Hlog Hhot]. split.
  - intros n. rewrite Hmemo, Htr. apply Hlog.
  - intros x Hx Hev. apply (hot_proceeds s); [done..|]. apply Hhot; [done|]. by rewrite <-Htr.
Qed.

(** Below a settled target that is not UNKNOWN no state invalidates. *)
Lemma settled_valid_below db t :
  settled g db t → ¬ invalid (state_of db (name t)) →
  ∀ y, rtc (dep g) t y → ¬ invalid (state_of db (name y)).
Proof.
  intros Hs Ht. apply rtc_ind_r; [done|].
  intros x y Hx Hxy IH Hinv. apply IH. rewrite (Hs x y Hx Hxy Hinv). unfold invalid. auto.
Qed.

(** A target that is submitted from a state other than UNKNOWN is firm. *)
Lemma submit_firm t sd s :
  t ∈ targets g → dry_run self = false → settled g (state_db s) t →
  state_of (state_db s) (name t) ≠ TargetState.UNKNOWN →
  firm self (submit self t sd s) t.
Proof.
  intros Ht Hdry Hs Hst. split.
  - rewrite submit_states by done. by rewrite decide_True.
  - intros y Hy. rewrite submit_states by done.
    destruct (decide (name y = name t)); [unfold invalid; naive_solver|].
    apply rtc_inv in Hy as [<-|(d & Hd & Hy)]; [done|].
    apply (settled_valid_below (state_db s) d); [| |done].
    + eapply settled_below; [done|]. by apply rtc_once.
    + intros Hinv. apply Hst. by apply (Hs t d).
Qed.

(** The invariant after [submit]. *)
Lemma pass_invariant_submit s t sd b :
  t ∈ targets g → pass_invariant self s → decided self t = Some (Ok b) →
  (∀ d, d ∈ deps g t → calm self s d) →
  (dry_run self = false → b = false →
   firm self (submit self t sd s) t ∨ ∃ d, d ∈ deps g t ∧ sure self s d) →
  pass_invariant self (submit self t sd s).
Proof.
  intros Ht [Hlog Hhot] Hb Hcalm Hfalse.
  pose proof (proceeds_submit t sd s) as Hpr.
  destruct (submit_spec self Hwf Hacyclic t sd s) as (e & He & Htr & _ & Hmemo & _).
  split.
  - intros n [Hn| ->]%Hmemo; rewrite Htr; apply event_targets_app.
    + left. by apply Hlog.
    + right. unfold event_targets. simpl. rewrite He. set_solver.
  - intros x Hx Hev. rewrite Htr in Hev.
    apply event_targets_app in Hev as [Hev|Hev]; [by apply (hot_proceeds s), Hhot|].
    unfold event_targets in Hev. simpl in Hev. rewrite He in Hev.
    apply list_elem_of_singleton in Hev.
    rewrite (name_inj g Hwf x t Hx Ht Hev). exists b. split; [done|].
    destruct (dry_run self) eqn:Hdry.
    + unfold submit. rewrite Hdry. simpl. set_solver.
    + split; [|split].
      * left. rewrite submit_states by done. by rewrite decide_True.
      * intros d Hd. apply (calm_proceeds s); [done|exact (wf_closed g Hwf t d Ht Hd)|].
        by apply Hcalm.
      * intros Hbf. destruct (Hfalse eq_refl Hbf) as [?|(d & Hd & Hsure)]; [by left|right].
        exists d. split; [done|].
        apply (sure_proceeds s); [done|exact (wf_closed g Hwf t d Ht Hd)|done].
Qed.

(** The loop of [schedule] over the dependencies. *)
Lemma schedule_deps_again fuel ds sd0 s s' r :
  (∀ d, d ∈ ds → d ∈ targets g ∧ rank g d < fuel) →
  (∀ d s s' r, d ∈ ds → schedule self fuel d s = Some (s', r) → pass_invariant self s →
               again_post self s d s' r) →
  schedule_deps (schedule self fuel) ds sd0 s = Some (s', r) → pass_invariant self s →
  pass_invariant self s' ∧ proceeds self s s'
  ∧ (∀ sd, r = Ok sd → ∀ d, d ∈ ds → calm self s' d)
  ∧ ((∀ d, d ∈ ds → calm self s d) → ∃ sd, r = Ok sd)
  ∧ (∀ sd, r = Ok sd → sd0 ⊆ sd ∧ ∀ d, d ∈ ds → sure self s d → name d ∈ sd)
  ∧ (∀ sd, r = Ok sd → ∀ n, n ∈ sd → n ∈ sd0 ∨ ∃ d, d ∈ ds ∧ name d = n ∧ sure self s' d).
Proof.
  revert sd0 s. induction ds as [|d ds IH]; intros sd0 s Hds Hrec; simpl.
  { intros [= <- <-] Hinv. split; [done|]. split; [apply proceeds_refl|].
    split; [by intros ?? ? ?%elem_of_nil|]. split; [by eexists|].
    split; [intros sd [= <-]; split; [done|]; by intros ? ?%elem_of_nil|].
    intros sd [= <-] n Hn. by left. }
  destruct (Hds d) as [Hd Hrank]; [set_solver|].
  assert (∀ d', d' ∈ ds → d' ∈ targets g ∧ rank g d' < fuel) as Hds'.
  { intros d' Hd'. apply Hds. set_solver. }
  assert (∀ d' s s' r, d' ∈ ds → schedule self fuel d' s = Some (s', r) →
            pass_invariant self s → again_post self s d' s' r) as Hrec'.
  { intros d' sa sb rb Hd'. apply Hrec. set_solver. }
  destruct (schedule self fuel d s) as [[sa ra]|] eqn:Hrun; [|done].
  intros Hloop Hinv.
  destruct (Hrec d s sa ra ltac:(set_solver) Hrun Hinv)
    as [Hinva Hpra Hcalma Hsurea Hreturns Hfirm Hevent].
  assert (∀ d', sure self s d' → d' = d → ∀ b, ra = Ok b → b = true) as Htrue.
  { intros d' [Hev|Hf] -> b Hb; [|by apply Hfirm].
    rewrite (Hevent Hev) in Hb. by injection Hb as <-. }
  destruct ra as [[]|e].
  - (* the dependency returned [true] *)
    destruct (IH ({[name d]} ∪ sd0) sa Hds' Hrec' Hloop Hinva)
      as (Hinv' & Hpr' & Hcalm' & Hret' & Hsd' & Hin').
    split; [done|]. split; [by eapply proceeds_trans|]. split; [|split; [|split]].
    + intros sd Hr d' [->|Hd']%elem_of_cons; [|by eapply Hcalm'].
      apply (calm_proceeds sa); [done..|]. by eapply Hcalma.
    + intros Hall. apply Hret'. intros d' Hd'.
      apply (calm_proceeds s); [done|by apply Hds'|]. apply Hall. set_solver.
    + intros sd Hr. destruct (Hsd' sd Hr) as [Hsub Hsure]. split; [set_solver|].
      intros d' [->|Hd']%elem_of_cons Hs; [set_solver|].
      apply Hsure; [done|]. apply (sure_proceeds s); [done|by apply Hds'|done].
    + intros sd Hr n Hn. destruct (Hin' sd Hr n Hn) as [[Hn'%elem_of_singleton|?]%elem_of_union|Hex].
      * right. exists d. split; [set_solver|]. split; [done|].
        apply (sure_proceeds sa); [done..|]. by apply Hsurea.
      * by left.
      * right. destruct Hex as (d' & Hd' & Hnd' & Hs'). exists d'. split; [set_solver|done].
  - (* the dependency returned [false] *)
    destruct (IH sd0 sa Hds' Hrec' Hloop Hinva)
      as (Hinv' & Hpr' & Hcalm' & Hret' & Hsd' & Hin').
    split; [done|]. split; [by eapply proceeds_trans|]. split; [|split; [|split]].
    + intros sd Hr d' [->|Hd']%elem_of_cons; [|by eapply Hcalm'].
      apply (calm_proceeds sa); [done..|]. by eapply Hcalma.
    + intros Hall. apply Hret'. intros d' Hd'.
      apply (calm_proceeds s); [done|by apply Hds'|]. apply Hall. set_solver.
    + intros sd Hr. destruct (Hsd' sd Hr) as [Hsub Hsure]. split; [done|].
      intros d' [->|Hd']%elem_of_cons Hs.
      * by specialize (Htrue d Hs eq_refl false eq_refl).
      * apply Hsure; [done|]. apply (sure_proceeds s); [done|by apply Hds'|done].
    + intros sd Hr n Hn. destruct (Hin' sd Hr n Hn) as [?|(d' & Hd' & Hnd' & Hs')]; [by left|].
      right. exists d'. split; [set_solver|done].
  - (* the dependency raised *)
    injection Hloop as <- <-. split; [done|]. split; [done|].
    split; [done|]. split; [|done].
    intros Hall. destruct Hreturns as [b Hb]; [apply Hall; set_solver|done].
Qed.

Lemma schedule_again fuel t s s' r :
  t ∈ targets g → rank g t < fuel →
  schedule self fuel t s = Some (s', r) → pass_invariant self s →
  again_post self s t s' r.
Proof.
  revert t s s' r. induction fuel as [|fuel IH]; intros t s s' r Ht Hfuel Hrun Hinv; [lia|].
  pose proof (schedule_spec self Hwf Hacyclic (S fuel) t s s' r Ht Hfuel Hrun) as Hpost.
  pose proof (proceeds_schedule (S fuel) t s s' r Ht Hfuel Hrun) as Hpr.
  cbn [schedule] in Hrun.
  destruct (pass_status self (S fuel) t (prepare_target_options self t s))
    as [[s1 r1]|] eqn:Hst1; [|done].
  destruct (pass_status_spec self Hwf Hacyclic (S fuel) t _ s1 r1 Ht Hfuel Hst1)
    as (_ & Htr1 & Hmemo1 & Hset1 & _ & Hr1).
  simpl in Htr1, Hmemo1.
  assert (proceeds self s s1) as Hpr1.
  { eapply proceeds_trans; [apply (proceeds_prepare t)|].
    by eapply proceeds_status. }
  assert (only_resets (state_db s) (state_db s1)) as Hres1.
  { by apply pass_status_frame in Hst1 as (_ & _ & ?). }
  assert (pass_invariant self s1) as Hinv1 by by apply (pass_invariant_silent s).
  assert (∀ b, decided self t = Some (Ok b) → name t ∈ event_targets (trace s) →
               hot self s t) as Hhot.
  { intros b _ Hev. by apply Hinv. }
  destruct r1 as [st1|e1].
  2:{ (* [status] has raised *)
    injection Hrun as <- <-. split; try done.
    - intros [b Hb]%calm_decided. congruence.
    - intros Hev. destruct Hinv as [_ Hhots]. destruct (Hhots t Ht Hev) as (b & Hb & _).
      congruence. }
  destruct Hr1 as (b & Hdec & ->).
  destruct (bool_decide (Some (status_table (state_of (state_db s1) (name t)) b)
                         = Some TargetStatus.SUBMITTED)
            || bool_decide (name t ∈ pretend_known s1)) eqn:Hdedup.
  { (* the dedup test fires *)
    injection Hrun as <- <-.
    assert (firm self s1 t ∨ name t ∈ pretend_known s1) as Hgate.
    { apply orb_true_iff in Hdedup as [Hg%bool_decide_eq_true|Hg%bool_decide_eq_true];
        [left|by right].
      apply settled_submitted_firm; [done|]. injection Hg as Hg.
      by apply status_table_submitted in Hg. }
    split; try done.
    - intros _ _. by apply (calm_gate _ _ t b).
    - intros _. destruct Hgate as [?|Hm]; [by right|left].
      destruct Hinv1 as [Hlog _]. by apply Hlog.
    - by eexists.
    - by intros _ ? [= <-]. }
  apply orb_false_iff in Hdedup as [Hg1%bool_decide_eq_false Hg2%bool_decide_eq_false].
  assert (state_of (state_db s1) (name t) ≠ TargetState.SUBMITTED) as Hns.
  { intros Heq. apply Hg1. by rewrite Heq. }
  assert (¬ firm self s t) as Hnot_firm.
  { intros Hf. apply (pr_firm _ _ _ Hpr1) in Hf as [Hf _]; done. }
  assert (name t ∉ pretend_known s) as Hnot_memo by by rewrite <-Hmemo1.
  assert (∀ d, d ∈ sorted_deps g t → d ∈ targets g ∧ rank g d < fuel) as Hds.
  { intros d Hd%sorted_deps_elem_of. split; [exact (wf_closed g Hwf t d Ht Hd)|].
    pose proof (rank_dep g Hwf Hacyclic t d Ht Hd). lia. }
  destruct (schedule_deps (schedule self fuel) (sorted_deps g t) ∅ s1)
    as [[s2 r2]|] eqn:Hloop; [|done].
  destruct (schedule_deps_again fuel _ _ _ _ _ Hds
              ltac:(intros d sa sb rb Hd; apply IH; by apply Hds) Hloop Hinv1)
    as (Hinv2 & Hpr12 & Hcalm2 & Hret2 & Hsd2 & Hin2).
  assert (schedule_deps_post self s1 (sorted_deps g t) ∅ s2 r2) as Hdeps.
  { apply (schedule_deps_spec self Hwf Hacyclic fuel); [| |done].
    - intros d sa sb rd Hd Hrd. apply (schedule_spec self Hwf Hacyclic fuel); [| |done];
        by apply Hds.
    - intros d Hd. by apply Hds. }
  (* a calm target, or one with an event, has calm dependencies *)
  assert (calm self s t ∨ name t ∈ event_targets (trace s) →
          ∀ d, d ∈ sorted_deps g t → calm self s1 d) as Hcalm_deps.
  { intros Hc d Hd. apply (calm_proceeds s); [done|by apply Hds|].
    apply sorted_deps_elem_of in Hd. destruct Hc as [Hc|Hev].
    - inversion Hc as [d' b' Hb' [Hf|Hm]|d' b' Hb' Hall]; subst; [done|done|by apply Hall].
    - destruct (Hhot b Hdec Hev) as (b' & _ & Hh). destruct (dry_run self); [done|].
      destruct Hh as (_ & Hall & _). by apply Hall. }
  destruct r2 as [sd|e2].
  2:{ (* a dependency has raised *)
    injection Hrun as <- <-. split; try done.
    - intros Hc. destruct Hret2 as [sd Hsd]; [by apply Hcalm_deps; left|done].
    - intros Hev. destruct Hret2 as [sd Hsd]; [by apply Hcalm_deps; right|done]. }
  assert (∀ d, d ∈ deps g t → calm self s2 d) as Hcalm2'.
  { intros d Hd. apply (Hcalm2 sd eq_refl). by apply sorted_deps_elem_of. }
  (* the state of [t] after the loop *)
  assert (state_of (state_db s2) (name t) = state_of (state_db s1) (name t)) as Hsame2.
  { destruct (ev_frame _ _ _ _ (dp_evolves _ _ _ _ _ _ Hdeps) (name t))
      as [?|(x & (d & Hd%sorted_deps_elem_of & Hx) & Hn)]; [done|].
    destruct (dep_not_above self Hacyclic t d Ht Hd).
    assert (x ∈ targets g) as Hxt.
    { apply (rtc_dep_targets g Hwf d); [exact (wf_closed g Hwf t d Ht Hd)|done]. }
    by rewrite <-(name_inj g Hwf x t Hxt Ht Hn). }
  destruct (bool_decide (sd ≠ ∅)) eqn:Hsome.
  { (* a dependency was submitted *)
    apply bool_decide_eq_true in Hsome. injection Hrun as <- <-.
    assert (pass_invariant self (submit self t sd s2)) as Hinv'.
    { apply (pass_invariant_submit s2 t sd b); [done..|]. intros _ _. right.
      apply set_choose_L in Hsome as [n Hn].
      destruct (Hin2 sd eq_refl n Hn) as [?|(d & Hd%sorted_deps_elem_of & _ & Hs)];
        [set_solver|]. eauto. }
    split; try done.
    - intros _ _. apply (calm_proceeds s2); [apply proceeds_submit|done|].
      by apply (calm_deps _ _ t b).
    - intros _. left. destruct (submit_spec self Hwf Hacyclic t sd s2) as (e & He & -> & _).
      apply event_targets_app. right. unfold event_targets. simpl. rewrite He. set_solver.
    - by eexists. }
  apply bool_decide_eq_false in Hsome.
  assert (sd = ∅) as -> by (by destruct (decide (sd = ∅)); [|destruct Hsome]).
  destruct (pass_status self (S fuel) t s2) as [[s3 r3]|] eqn:Hst3; [|done].
  destruct (pass_status_spec self Hwf Hacyclic (S fuel) t _ s3 r3 Ht Hfuel Hst3)
    as (_ & Htr3 & Hmemo3 & Hset3 & _ & Hr3).
  assert (proceeds self s2 s3) as Hpr23 by by eapply proceeds_status.
  assert (only_resets (state_db s2) (state_db s3)) as Hres3.
  { by apply pass_status_frame in Hst3 as (_ & _ & ?). }
  assert (pass_invariant self s3) as Hinv3 by by apply (pass_invariant_silent s2).
  destruct r3 as [st3|e3]; [|congruence].
  destruct Hr3 as (b' & Hdec' & ->). rewrite Hdec in Hdec'. injection Hdec' as <-.
  assert (∀ d, d ∈ deps g t → calm self s3 d) as Hcalm3.
  { intros d Hd. apply (calm_proceeds s2); [done|exact (wf_closed g Hwf t d Ht Hd)|].
    by apply Hcalm2'. }
  destruct (in_shouldrun_states (Some (status_table (state_of (state_db s3) (name t)) b)))
    eqn:Hshould; injection Hrun as <- <-.
  - (* [t] reports a state in which it should run *)
    assert (pass_invariant self (submit self t ∅ s3)) as Hinv'.
    { apply (pass_invariant_submit s3 t ∅ b); [done..|]. intros Hdry ->. left.
      apply submit_firm; [done..|].
      apply in_shouldrun_states_cause in Hshould as [?|[->|[->| ->]]]; done. }
    split; try done.
    + intros _ _. apply (calm_proceeds s3); [apply proceeds_submit|done|].
      by apply (calm_deps _ _ t b).
    + intros _. left. destruct (submit_spec self Hwf Hacyclic t ∅ s3) as (e & He & -> & _).
      apply event_targets_app. right. unfold event_targets. simpl. rewrite He. set_solver.
    + by eexists.
  - (* nothing to do for [t] *)
    split; try done.
    + intros _ _. by apply (calm_deps _ _ t b).
    + by eexists.
    + intros Hev. exfalso. destruct (Hhot b Hdec Hev) as (b' & Hdec' & Hh).
      rewrite Hdec in Hdec'. injection Hdec' as <-.
      destruct (dry_run self); [done|]. destruct Hh as (Hst & _ & Hfalse).
      assert (state_of (state_db s3) (name t) = TargetState.UNKNOWN) as Hu.
      { assert (state_of (state_db s1) (name t) = TargetState.UNKNOWN) as Hu1.
        { destruct (Hres1 (name t)) as [Heq|?]; [|done]. simpl in Heq.
          destruct Hst as [Hst|Hst]; congruence. }
        destruct (Hres3 (name t)) as [Heq|?]; [|done]. congruence. }
      rewrite Hu in Hshould. destruct b; [done|].
      destruct (Hfalse eq_refl) as [?|(d & Hd & Hs)]; [done|].
      destruct (Hsd2 ∅ eq_refl) as [_ Hsure].
      assert (name d ∈ (∅ : gset string)) as Hin; [|set_solver].
      apply Hsure; [by apply sorted_deps_elem_of|].
      apply (sure_proceeds s); [done|exact (wf_closed g Hwf t d Ht Hd)|done].
Qed.

(** Every state of a pass satisfies the invariant. *)
Lemma in_pass_invariant fuel db s :
  length (targets g) < fuel → in_pass self fuel db s → pass_invariant self s.
Proof.
  intros Hfuel. induction 1 as [|s t s' r _ IH Ht Hrun].
  - split; [apply memo_logged_new|]. intros x _ Hx. by apply elem_of_nil in Hx.
  - apply (ag_invariant _ _ _ _ _ (schedule_again fuel t s s' r Ht
             ltac:(pose proof (rank_le g t); lia) Hrun IH)).
Qed.
(** A call of [schedule] that raises has added no event for its target. *)
Lemma schedule_raise_no_event fuel t s s' e :
  t ∈ targets g → rank g t < fuel →
  schedule self fuel t s = Some (s', Raise e) →
  name t ∉ event_targets (new_events s s').
Proof.
  intros Ht Hfuel Hrun. destruct fuel as [|fuel]; [lia|]. cbn [schedule] in Hrun.
  destruct (pass_status self (S fuel) t (prepare_target_options self t s))
    as [[s1 r1]|] eqn:Hst1; [|done].
  apply pass_status_frame in Hst1 as (Htr1 & _ & _). simpl in Htr1.
  destruct r1 as [st1|e1].
  2:{ injection Hrun as <- <-. rewrite (new_events_app s [] s1) by by rewrite app_nil_r.
      by intros ?%elem_of_nil. }
  destruct (_ || _); [done|].
  destruct (schedule_deps (schedule self fuel) (sorted_deps g t) ∅ s1)
    as [[s2 r2]|] eqn:Hloop; [|done].
  assert (∀ d, d ∈ sorted_deps g t → d ∈ targets g ∧ rank g d < fuel) as Hds.
  { intros d Hd%sorted_deps_elem_of. split; [exact (wf_closed g Hwf t d Ht Hd)|].
    pose proof (rank_dep g Hwf Hacyclic t d Ht Hd). lia. }
  assert (schedule_deps_post self s1 (sorted_deps g t) ∅ s2 r2) as Hdeps.
  { apply (schedule_deps_spec self Hwf Hacyclic fuel); [| |done].
    - intros d sa sb rd Hd Hrd. apply (schedule_spec self Hwf Hacyclic fuel); [| |done];
        by apply Hds.
    - intros d Hd. by apply Hds. }
  assert (name t ∉ event_targets (new_events s s2)) as Hno.
  { pose proof (dp_evolves _ _ _ _ _ _ Hdeps) as Hev.
    assert (new_events s s2 = new_events s1 s2) as ->.
    { unfold new_events. by rewrite Htr1. }
    intros (ev & Hn & Hin)%list_elem_of_fmap.
    destruct (ev_region _ _ _ _ Hev ev Hin) as (x & (d & Hd%sorted_deps_elem_of & Hx) & Hx').
    destruct (dep_not_above self Hacyclic t d Ht Hd).
    assert (x ∈ targets g) as Hxt.
    { apply (rtc_dep_targets g Hwf d); [exact (wf_closed g Hwf t d Ht Hd)|done]. }
    rewrite <-(name_inj g Hwf x t Hxt Ht); [done|congruence]. }
  destruct r2 as [sd|e2]; [|by injection Hrun as <- <-].
  destruct (bool_decide (sd ≠ ∅)); [done|].
  destruct (pass_status self (S fuel) t s2) as [[s3 r3]|] eqn:Hst3; [|done].
  apply pass_status_frame in Hst3 as (Htr3 & _ & _).
  destruct r3 as [st3|e3]; [by destruct (in_shouldrun_states st3)|].
  injection Hrun as <- <-. unfold new_events in *. by rewrite Htr3.
Qed.
End again.

(** C4, as the code has it.  [schedule] comes back.  Its first step after the
    normalisation of the options is [status]; when that raises, so does
    [schedule].  The dedup test is next: if the status is SUBMITTED or [t] is in
    the dry-run memo, [schedule] returns [true] in the state [status] has
    left, with no event added.  A call that returns, returns [true] exactly
    when that test has fired or the call has added an event for [t]: a
    submission, or under dry-run the record that stands for one.  In a pass,
    this makes [schedule] return [true] exactly when the call has added an
    event for [t], or the pass had an event for [t] already, or [t] is found
    SUBMITTED; on a target that has an event in the pass it raises nothing. *)
Theorem schedule_true_iff (self : Scheduler) fuel t s :
  well_formed (graph self) → acyclic (graph self) →
  t ∈ targets (graph self) → length (targets (graph self)) < fuel →
  ∃ s1 r1 s' r,
    pass_status self fuel t (prepare_target_options self t s) = Some (s1, r1)
    ∧ schedule self fuel t s = Some (s', r)
    ∧ trace s' = trace s ++ new_events s s'
    ∧ match r1 with
      | Raise e => s' = s1 ∧ r = Raise e
      | Ok st =>
          (st = Some TargetStatus.SUBMITTED ∨ name t ∈ pretend_known s →
             s' = s1 ∧ r = Ok true ∧ new_events s s' = [])
          ∧ (∀ b, r = Ok b →
               (b = true ↔ (st = Some TargetStatus.SUBMITTED ∨ name t ∈ pretend_known s)
                           ∨ name t ∈ event_targets (new_events s s')))
      end
    ∧ (∀ db, in_pass self fuel db s →
         (r = Ok true ↔
            name t ∈ event_targets (new_events s s')
            ∨ name t ∈ event_targets (trace s)
            ∨ r1 = Ok (Some TargetStatus.SUBMITTED))).
Proof.
  intros Hwf Hac Ht Hfuel. pose proof (rank_le (graph self) t) as Hrank.
  destruct (schedule_total self Hwf Hac fuel t s Ht) as [[s' r] Hrun]; [lia|].
  pose proof (schedule_spec self Hwf Hac fuel t s s' r Ht ltac:(lia) Hrun) as Hpost.
  assert (∀ e, r = Raise e → name t ∉ event_targets (new_events s s')) as Hraise.
  { intros e ->. apply (schedule_raise_no_event self Hwf Hac fuel t s s' e Ht); [lia|done]. }
  assert (∀ db, in_pass self fuel db s → again_post self s t s' r) as Hagain.
  { intros db Hin. apply (schedule_again self Hwf Hac fuel t s s' r Ht); [lia|done|].
    by apply (in_pass_invariant self Hwf Hac fuel db). }
  destruct fuel as [|fuel]; [lia|].
  destruct (pass_status_total self Hwf Hac (S fuel) t (prepare_target_options self t s) Ht)
    as [[s1 r1] Hst1]; [lia|].
  destruct (pass_status_spec self Hwf Hac (S fuel) t _ s1 r1 Ht ltac:(lia) Hst1)
    as (_ & Htr1 & Hmemo1 & _). simpl in Htr1, Hmemo1.
  exists s1, r1, s', r. split; [done|]. split; [done|].
  split; [apply (sp_evolves _ _ _ _ _ Hpost)|].
  assert (match r1 with
      | Raise e => s' = s1 ∧ r = Raise e
      | Ok st =>
          (st = Some TargetStatus.SUBMITTED ∨ name t ∈ pretend_known s →
             s' = s1 ∧ r = Ok true ∧ new_events s s' = [])
          ∧ (∀ b, r = Ok b →
               (b = true ↔ (st = Some TargetStatus.SUBMITTED ∨ name t ∈ pretend_known s)
                           ∨ name t ∈ event_targets (new_events s s')))
      end) as Hgate.
  { cbn [schedule] in Hrun. rewrite Hst1 in Hrun.
    destruct r1 as [st|e]; [|by injection Hrun as <- <-].
    assert (new_events s s1 = []) as Hnew1.
    { apply new_events_app. by rewrite Htr1, app_nil_r. }
    rewrite Hmemo1 in Hrun.
    destruct (bool_decide (st = Some TargetStatus.SUBMITTED)
              || bool_decide (name t ∈ pretend_known s)) eqn:Hdedup.
    - injection Hrun as <- <-.
      assert (st = Some TargetStatus.SUBMITTED ∨ name t ∈ pretend_known s) as Hg.
      { apply orb_true_iff in Hdedup as [?%bool_decide_eq_true|?%bool_decide_eq_true]; auto. }
      split; [done|]. intros b [= <-]. split; auto.
    - assert (¬ (st = Some TargetStatus.SUBMITTED ∨ name t ∈ pretend_known s)) as Hg.
      { apply orb_false_iff in Hdedup as [?%bool_decide_eq_false ?%bool_decide_eq_false].
        tauto. }
      split; [tauto|]. intros b ->. split.
      + intros ->. right.
        assert (∃ sB sd, s' = submit self t sd sB ∧ length (trace s) ≤ length (trace sB))
          as (sB & sd & -> & Hlen).
        { destruct (schedule_deps _ _ _ _) as [[s2 [sd|e2]]|] eqn:Hloop; [|done..].
          assert (length (trace s) ≤ length (trace s2)) as Hlen2.
          { assert (∀ d, d ∈ sorted_deps (graph self) t →
                         d ∈ targets (graph self) ∧ rank (graph self) d < fuel) as Hds.
            { intros d Hd%sorted_deps_elem_of. split; [exact (wf_closed _ Hwf t d Ht Hd)|].
              pose proof (rank_dep _ Hwf Hac t d Ht Hd). lia. }
            destruct (schedule_deps_segments self Hwf Hac fuel _ _ _ _ _ Hds Hloop)
              as (segs & Htr2 & _).
            rewrite Htr2, Htr1, length_app. lia. }
          destruct (bool_decide (sd ≠ ∅)); [injection Hrun as <-; eauto|].
          destruct (pass_status self (S fuel) t s2) as [[s3 [st3|e3]]|] eqn:Hst3; [|done..].
          destruct (pass_status_spec self Hwf Hac (S fuel) t _ s3 _ Ht ltac:(lia) Hst3)
            as (_ & Htr3 & _).
          destruct (in_shouldrun_states st3); [injection Hrun as <-|done].
          exists s3, sd. split; [done|]. by rewrite Htr3. }
        destruct (submit_spec self Hwf Hac t sd sB) as (e & He & Htr & _).
        unfold new_events. rewrite Htr, drop_app_le by done.
        rewrite event_targets_app. right. unfold event_targets. simpl. rewrite He. set_solver.
      + intros [?|Hin]; [tauto|]. destruct b; [done|].
        destruct (sp_false _ _ _ _ _ Hpost eq_refl) as [_ Hnone].
        rewrite Hnone in Hin. by apply elem_of_nil in Hin. }
  split; [exact Hgate|].
  intros db Hin. destruct (Hagain db Hin) as [[Hlog _] _ _ _ _ _ Hevent]. split.
  - intros ->. destruct r1 as [st|e]; [|by destruct Hgate].
    destruct Hgate as [_ Hiff].
    destruct (proj1 (Hiff true eq_refl) eq_refl) as [[->|Hmemo]|Hnew]; auto.
    right; left. destruct (in_pass_invariant self Hwf Hac (S fuel) db s Hfuel Hin) as [Hl _].
    by apply Hl.
  - intros [Hnew|[Hev|Hsub]].
    + destruct r as [b|e]; [|by destruct (Hraise e eq_refl)].
      destruct r1 as [st|e]; [|by destruct Hgate].
      destruct Hgate as [_ Hiff]. f_equal. apply (Hiff b eq_refl). by right.
    + by apply Hevent.
    + subst r1. destruct Hgate as [Hfire _]. destruct Hfire as (_ & -> & _); auto.
Qed.

Lemma schedule_true_iff_witness :
  well_formed chain ∧ acyclic chain ∧ tC ∈ targets chain ∧ length (targets chain) < 4
  ∧ ∃ s1 r1 s' r,
    pass_status (scheduler chain false (files [])) 4 tC
      (prepare_target_options (scheduler chain false (files [])) tC (new_pass ∅))
    = Some (s1, r1)
    ∧ schedule (scheduler chain false (files [])) 4 tC (new_pass ∅) = Some (s', r)
    ∧ trace s' = trace (new_pass ∅) ++ new_events (new_pass ∅) s'
    ∧ match r1 with
      | Raise e => s' = s1 ∧ r = Raise e
      | Ok st =>
          (st = Some TargetStatus.SUBMITTED ∨ name tC ∈ pretend_known (new_pass ∅) →
             s' = s1 ∧ r = Ok true ∧ new_events (new_pass ∅) s' = [])
          ∧ (∀ b, r = Ok b →
               (b = true ↔ (st = Some TargetStatus.SUBMITTED
                            ∨ name tC ∈ pretend_known (new_pass ∅))
                           ∨ name tC ∈ event_targets (new_events (new_pass ∅) s')))
      end
    ∧ (∀ db, in_pass (scheduler chain false (files [])) 4 db (new_pass ∅) →
         (r = Ok true ↔
            name tC ∈ event_targets (new_events (new_pass ∅) s')
            ∨ name tC ∈ event_targets (trace (new_pass ∅))
            ∨ r1 = Ok (Some TargetStatus.SUBMITTED))).
Proof.
  assert (tC ∈ targets chain) as Hin by compute_done.
  assert (length (targets chain) < 4) as Hlen by (simpl; lia).
  split; [apply chain_well_formed|]. split; [apply chain_acyclic|].
  split; [exact Hin|]. split; [exact Hlen|].
  exact (schedule_true_iff (scheduler chain false (files [])) 4 tC (new_pass ∅)
           chain_well_formed chain_acyclic Hin Hlen).
Defined.

(** The chain with a and b on disk: C is submitted, and reset by the next
    update because B is UNKNOWN; a second call on C in the same pass finds
    it so, submits it again, and returns [true] as the first did. *)
Example schedule_again_chain :
  ∃ s1 s2,
    schedule (scheduler chain false (files [("a", 1%Z); ("b", 2%Z)])) 4 tC (new_pass ∅)
    = Some (s1, Ok true)
    ∧ in_pass (scheduler chain false (files [("a", 1%Z); ("b", 2%Z)])) 4 ∅ s1
    ∧ name tC ∈ event_targets (trace s1)
    ∧ pass_status (scheduler chain false (files [("a", 1%Z); ("b", 2%Z)])) 4 tC
        (prepare_target_options (scheduler chain false (files [("a", 1%Z); ("b", 2%Z)])) tC s1)
      = Some (s2, Ok (Some TargetStatus.SHOULDRUN))
    ∧ snd <$> schedule (scheduler chain false (files [("a", 1%Z); ("b", 2%Z)])) 4 tC s1
      = Some (Ok true).
Proof.
  eexists _, _. split; [by vm_compute|]. split.
  { apply (in_pass_schedule _ _ _ (new_pass ∅) tC _ (Ok true));
      [apply in_pass_new|compute_done|by vm_compute]. }
  split; [compute_done|]. split; by vm_compute.
Qed.

(** ** A pass under dry-run *)

Section dry_run.
Context (self : Scheduler).
Hypothesis Hwf : well_formed (graph self).
Hypothesis Hacyclic : acyclic (graph self).
Hypothesis Hdry : dry_run self = true.

Local Abbreviation g := (graph self).

(** A call that returns [true] under dry-run leaves [t] in the memo, or
    stored as SUBMITTED with nothing left to update below it. *)
Lemma schedule_dry_true fuel t s s1 :
  t ∈ targets g → rank g t < fuel → schedule self fuel t s = Some (s1, Ok true) →
  (∃ b, decided self t = Some (Ok b))
  ∧ (name t ∈ pretend_known s1
     ∨ (state_of (state_db s1) (name t) = TargetState.SUBMITTED
        ∧ settled g (state_db s1) t)).
Proof.
  intros Ht Hrank. destruct fuel as [|fuel]; [lia|]. cbn [schedule].
  assert (∀ sd s0, name t ∈ pretend_known (submit self t sd s0)) as Hsubmit.
  { intros sd s0. unfold submit. rewrite Hdry. simpl. set_solver. }
  destruct (pass_status self (S fuel) t (prepare_target_options self t s))
    as [[sa ra]|] eqn:Hst1; [|done].
  destruct (pass_status_spec self Hwf Hacyclic (S fuel) t _ sa ra Ht Hrank Hst1)
    as (_ & _ & _ & Hsettled & _ & Hra).
  destruct ra as [st|e]; [|done]. destruct Hra as (b1 & Hdec & ->).
  intros Hrun. split; [by exists b1|]. revert Hrun.
  destruct (bool_decide _ || bool_decide _) eqn:Hdedup.
  - intros [= <-].
    apply orb_true_iff in Hdedup as [Hst%bool_decide_eq_true|Hin%bool_decide_eq_true];
      [|by left].
    right. injection Hst as Hst. split; [by eapply status_table_submitted|done].
  - destruct (schedule_deps _ _ _ _) as [[s2 [sd|e]]|]; [|done..].
    destruct (bool_decide (sd ≠ ∅)); [intros [= <-]; by left|].
    destruct (pass_status self (S fuel) t s2) as [[s3 [st3|e]]|]; [|done..].
    destruct (in_shouldrun_states st3); [intros [= <-]; by left|done].
Qed.

(** Such a target is found submitted by the next call. *)
Lemma schedule_dry_again fuel t s1 b :
  t ∈ targets g → rank g t < fuel → decided self t = Some (Ok b) →
  name t ∈ pretend_known s1
  ∨ (state_of (state_db s1) (name t) = TargetState.SUBMITTED ∧ settled g (state_db s1) t) →
  ∃ s2, schedule self fuel t s1 = Some (s2, Ok true)
    ∧ trace s2 = trace s1 ∧ pretend_known s2 = pretend_known s1.
Proof.
  intros Ht Hrank Hdec Hknown. destruct fuel as [|fuel]; [lia|]. cbn [schedule].
  destruct (pass_status_total self Hwf Hacyclic (S fuel) t (prepare_target_options self t s1)
              Ht Hrank) as [[sa ra] Hst].
  rewrite Hst.
  destruct (pass_status_spec self Hwf Hacyclic (S fuel) t _ sa ra Ht Hrank Hst)
    as (_ & Htr & Hmemo & _ & Hsame & Hra). simpl in Htr, Hmemo, Hsame.
  destruct ra as [st|e]; [|congruence]. destruct Hra as (b' & Hdec' & ->).
  assert (bool_decide (Some (status_table (state_of (state_db sa) (name t)) b')
                       = Some TargetStatus.SUBMITTED)
          || bool_decide (name t ∈ pretend_known sa) = true) as ->.
  { apply orb_true_iff. destruct Hknown as [Hin|[Hsub Hsettled]].
    - right. apply bool_decide_eq_true. by rewrite Hmemo.
    - left. apply bool_decide_eq_true. rewrite (Hsame t Ht Hsettled t) by done.
      by rewrite Hsub. }
  by exists sa.
Qed.

(** Scheduling a target once more under dry-run adds nothing: the second
    call returns what the first returned, with no event and nothing new in
    the memo. *)
Lemma schedule_dry_twice fuel t s s1 b :
  t ∈ targets g → rank g t < fuel → schedule self fuel t s = Some (s1, Ok b) →
  ∃ s2, schedule self fuel t s1 = Some (s2, Ok b)
    ∧ trace s2 = trace s1 ∧ pretend_known s2 = pretend_known s1.
Proof.
  intros Ht Hrank Hrun. destruct b.
  - destruct (schedule_dry_true fuel t s s1 Ht Hrank Hrun) as [[b Hdec] Hknown].
    by eapply schedule_dry_again.
  - pose proof (schedule_spec self Hwf Hacyclic fuel t s s1 _ Ht Hrank Hrun) as Hpost.
    destruct (sp_false _ _ _ _ _ Hpost eq_refl) as [Hidle _].
    destruct (schedule_total self Hwf Hacyclic fuel t s1 Ht Hrank) as [[s2 r2] Hrun2].
    pose proof (schedule_spec self Hwf Hacyclic fuel t s1 s2 r2 Ht Hrank Hrun2) as Hpost2.
    pose proof (sp_idle_false _ _ _ _ _ Hpost2 Hidle) as ->.
    destruct (sp_false _ _ _ _ _ Hpost2 eq_refl) as [_ Hnone].
    pose proof (sp_evolves _ _ _ _ _ Hpost2) as Hev.
    exists s2. split; [done|]. split.
    + by rewrite (ev_trace _ _ _ _ Hev), Hnone, app_nil_r.
    + apply set_eq. intros n. split.
      * intros Hn. destruct (ev_memo _ _ _ _ Hev n Hn) as [?|Hin]; [done|].
        rewrite Hnone in Hin. by apply elem_of_nil in Hin.
      * apply (ev_memo_mono _ _ _ _ Hev).
Qed.

Lemma schedule_recorded fuel t s s' r :
  t ∈ targets g → rank g t < fuel → recorded s →
  schedule self fuel t s = Some (s', r) → recorded s'.
Proof.
  revert t s s' r. induction fuel as [|fuel IH]; intros t s s' r Ht Hrank Hrec; [lia|].
  cbn [schedule].
  assert (∀ s0 s1, trace s1 = trace s0 → pretend_known s1 = pretend_known s0 →
            recorded s0 → recorded s1) as Hsilent.
  { intros s0 s1 Htr Hmemo [Hnd Hin]. split; rewrite Htr; [done|]. by rewrite Hmemo. }
  assert (∀ sd s0, recorded s0 → name t ∉ pretend_known s0 →
            recorded (submit self t sd s0)) as Hsubmit.
  { intros sd s0 [Hnd Hin] Hnew. unfold submit. rewrite Hdry. split; simpl.
    - unfold event_targets. rewrite fmap_app. apply NoDup_app. split; [done|].
      split; [|apply NoDup_singleton].
      intros n Hn ->%list_elem_of_singleton. by apply Hnew, Hin.
    - intros n [Hn|Hn]%event_targets_app; [apply elem_of_union_r; by apply Hin|].
      unfold event_targets in Hn. simpl in Hn. set_solver. }
  destruct (pass_status self (S fuel) t (prepare_target_options self t s))
    as [[s1 r1]|] eqn:Hst1; [|done].
  apply pass_status_frame in Hst1 as (Htr1 & Hmemo1 & _). simpl in Htr1, Hmemo1.
  assert (recorded s1) as Hrec1 by by eapply Hsilent.
  destruct r1 as [st|e]; [|by intros [= <- <-]].
  destruct (bool_decide (st = _)); [by intros [= <- <-]|]. simpl.
  destruct (bool_decide (name t ∈ pretend_known s1)) eqn:Hnew; [by intros [= <- <-]|].
  apply bool_decide_eq_false in Hnew.
  destruct (schedule_deps _ _ _ _) as [[s2 r2]|] eqn:Hloop; [|done].
  assert (recorded s2) as Hrec2.
  { clear Hnew. revert Hloop Hrec1. generalize (∅ : gset string) s1.
    assert (∀ d, d ∈ sorted_deps g t → d ∈ deps g t) as Hds
      by (intros d; by rewrite sorted_deps_elem_of).
    induction (sorted_deps g t) as [|d ds IHds]; intros sd0 s0; simpl.
    - by intros [= <- <-].
    - assert (d ∈ deps g t) as Hd by (apply Hds; set_solver).
      destruct (schedule self fuel d s0) as [[s0' r0]|] eqn:Hrun; [|done].
      intros Hrest Hrec0.
      assert (recorded s0') as Hrec0'.
      { eapply (IH d s0 s0' r0); [by eapply wf_closed| |done|done].
        pose proof (rank_dep g Hwf Hacyclic t d Ht Hd). lia. }
      destruct r0 as [[]|e]; [| |by injection Hrest as <- <-];
        (eapply IHds; [intros ??; apply Hds; set_solver|exact Hrest|done]). }
  assert (name t ∉ pretend_known s2) as Hnew2.
  { apply (schedule_deps_emits self) in Hloop as [(l & Htr & Hl & Hmemo & _) _].
    2:{ intros d s0 s0' r0 _. apply schedule_emits. }
    rewrite Hdry in Hmemo. rewrite Hmemo.
    intros [?|Hin%elem_of_list_to_set]%elem_of_union; [done|].
    apply list_elem_of_fmap in Hin as (e & Hname & He).
    rewrite Forall_forall in Hl. destruct (Hl e He) as (x & (d & Hd & Hx) & Hev).
    rewrite Hdry in Hev. subst e. simpl in Hname.
    apply sorted_deps_elem_of in Hd.
    assert (x = t) as ->.
    { apply (name_inj g Hwf); [|done..].
      exact (rtc_dep_targets g Hwf d x (wf_closed g Hwf t d Ht Hd) Hx). }
    by apply (dep_not_above self Hacyclic t d Ht Hd). }
  destruct r2 as [sd|e]; [|by intros [= <- <-]].
  destruct (bool_decide (sd ≠ ∅)); [intros [= <- <-]; by apply Hsubmit|].
  destruct (pass_status self (S fuel) t s2) as [[s3 r3]|] eqn:Hst3; [|done].
  apply pass_status_frame in Hst3 as (Htr3 & Hmemo3 & _).
  assert (recorded s3) as Hrec3 by by eapply Hsilent.
  destruct r3 as [st3|e]; [|by intros [= <- <-]].
  destruct (in_shouldrun_states st3); intros [= <- <-]; [|done].
  apply Hsubmit; [done|]. by rewrite Hmemo3.
Qed.
End dry_run.

(** Under dry-run a second call of [schedule] on the same target returns
    what the first returned and adds nothing: no event, and nothing to the
    memo. *)
Theorem schedule_dry_run_twice self fuel t s s1 b :
  well_formed (graph self) → acyclic (graph self) →
  t ∈ targets (graph self) → length (targets (graph self)) < fuel →
  dry_run self = true → schedule self fuel t s = Some (s1, Ok b) →
  ∃ s2, schedule self fuel t s1 = Some (s2, Ok b)
    ∧ trace s2 = trace s1 ∧ pretend_known s2 = pretend_known s1.
Proof.
  intros Hwf Hac Ht Hfuel Hdry. apply schedule_dry_twice; try done.
  pose proof (rank_le (graph self) t). lia.
Qed.

Lemma schedule_dry_run_twice_witness :
  well_formed chain ∧ acyclic chain ∧ tC ∈ targets chain ∧ length (targets chain) < 4
  ∧ ∃ s1, schedule (scheduler chain true (files [("a", 1%Z); ("b", 2%Z)])) 4 tC (new_pass ∅)
          = Some (s1, Ok true)
    ∧ ∃ s2, schedule (scheduler chain true (files [("a", 1%Z); ("b", 2%Z)])) 4 tC s1
            = Some (s2, Ok true)
        ∧ trace s2 = trace s1 ∧ pretend_known s2 = pretend_known s1.
Proof.
  assert (tC ∈ targets chain) as Hin by compute_done.
  assert (length (targets chain) < 4) as Hlen by (simpl; lia).
  split; [apply chain_well_formed|]. split; [apply chain_acyclic|].
  split; [exact Hin|]. split; [exact Hlen|].
  assert (∃ s1, schedule (scheduler chain true (files [("a", 1%Z); ("b", 2%Z)])) 4 tC
                  (new_pass ∅) = Some (s1, Ok true)) as [s1 Hrun] by (eexists; by vm_compute).
  exists s1. split; [exact Hrun|].
  exact (schedule_dry_run_twice (scheduler chain true (files [("a", 1%Z); ("b", 2%Z)])) 4 tC
           (new_pass ∅) s1 true chain_well_formed chain_acyclic Hin Hlen eq_refl Hrun).
Defined.

Lemma schedule_many_recorded self fuel ts s s' r :
  well_formed (graph self) → acyclic (graph self) →
  (∀ t, t ∈ ts → t ∈ targets (graph self)) → length (targets (graph self)) < fuel →
  dry_run self = true → recorded s →
  schedule_many self fuel ts s = Some (s', r) → recorded s'.
Proof.
  intros Hwf Hac Hts Hfuel Hdry. revert r s s'.
  induction ts as [|t ts IH]; intros r s s' Hrec; simpl.
  - by intros [= <- _].
  - assert (t ∈ targets (graph self)) as Ht by (apply Hts; set_solver).
    destruct (schedule self fuel t s) as [[s1 r1]|] eqn:Hrun1; [|done].
    assert (recorded s1) as Hrec1.
    { eapply (schedule_recorded self Hwf Hac Hdry fuel t s s1 r1); try done.
      pose proof (rank_le (graph self) t). lia. }
    destruct r1 as [b|e]; [|by intros [= <- _]].
    destruct (schedule_many self fuel ts s1) as [[s2 r2]|] eqn:Hmany; [|done].
    assert (recorded s2) as Hrec2.
    { eapply (IH ltac:(intros ??; apply Hts; set_solver)); [exact Hrec1|exact Hmany]. }
    destruct r2; by intros [= <- _].
Qed.

(** Under dry-run a pass records each target at most once. *)
Theorem schedule_many_dry_run_once self fuel ts db :
  well_formed (graph self) → acyclic (graph self) →
  (∀ t, t ∈ ts → t ∈ targets (graph self)) → length (targets (graph self)) < fuel →
  dry_run self = true →
  ∃ s' r, schedule_many self fuel ts (new_pass db) = Some (s', r)
    ∧ NoDup (event_targets (trace s')).
Proof.
  intros Hwf Hac Hts Hfuel Hdry.
  destruct (schedule_many_total self Hwf Hac fuel ts (new_pass db) Hts Hfuel) as [[s' r] Hrun].
  exists s', r. split; [done|].
  assert (recorded (new_pass db)) as Hrec.
  { split; simpl; [constructor|by intros n ?%elem_of_nil]. }
  by destruct (schedule_many_recorded self fuel ts _ s' r Hwf Hac Hts Hfuel Hdry Hrec Hrun).
Qed.

Lemma schedule_many_dry_run_once_witness :
  well_formed diamond ∧ acyclic diamond
  ∧ (∀ t, t ∈ [tLeft; tTop; tRight] → t ∈ targets diamond) ∧ length (targets diamond) < 4
  ∧ dry_run (scheduler diamond true (files [])) = true
  ∧ ∃ s' r, schedule_many (scheduler diamond true (files [])) 4 [tLeft; tTop; tRight]
              (new_pass ∅) = Some (s', r)
    ∧ NoDup (event_targets (trace s')).
Proof.
  assert (∀ t, t ∈ [tLeft; tTop; tRight] → t ∈ targets diamond) as Hin.
  { intros t Ht. repeat (apply elem_of_cons in Ht as [->|Ht]; [compute_done|]).
    by apply elem_of_nil in Ht. }
  assert (length (targets diamond) < 4) as Hlen by (simpl; lia).
  split; [apply diamond_well_formed|]. split; [apply diamond_acyclic|].
  split; [exact Hin|]. split; [exact Hlen|]. split; [done|].
  exact (schedule_many_dry_run_once (scheduler diamond true (files [])) 4 [tLeft; tTop; tRight]
           ∅ diamond_well_formed diamond_acyclic Hin Hlen eq_refl).
Defined.

(** ** Which option wins *)

(** The options of a target after [prepare_target_options]: the value the
    target gives an option wins over the default of the backend; an option
    that the backend does not know is dropped; a value [None], given by the
    target or by default, removes the option; an option the target does not
    mention gets the default.  The options of the other targets stay. *)
Theorem prepare_target_options_precedence self t s k :
  options_of (prepare_target_options self t s) t !! k
  = match options_of s t !! k with
    | Some v => if decide (k ∈ dom (option_defaults self) ∧ v ≠ PyNone) then Some v else None
    | None =>
        match option_defaults self !! k with
        | Some v => if decide (v ≠ PyNone) then Some v else None
        | None => None
        end
    end
  ∧ ∀ t', name t' ≠ name t → options_of (prepare_target_options self t s) t' = options_of s t'.
Proof.
  split.
  - rewrite options_of_prepared, prepared_options_lookup.
    destruct (options_of s t !! k) as [v|] eqn:Hk.
    + rewrite lookup_union_l' by (rewrite Hk; by eexists). by rewrite Hk.
    + rewrite lookup_union_r by done. destruct (option_defaults self !! k) as [v|] eqn:Hd; [|done].
      assert (k ∈ dom (option_defaults self)) by by apply elem_of_dom.
      destruct (decide (v ≠ PyNone)).
      * by rewrite decide_True.
      * rewrite decide_False; [done|]. tauto.
  - intros t' Hne. unfold options_of, prepare_target_options. simpl.
    by rewrite lookup_insert_ne.
Qed.

(** The target asks for two cores and for a queue the backend does not
    know; the backend defaults are one core and no account. *)
Example prepare_target_options_example :
  prepared_options {[ "cores" := PyInt 1; "account" := PyNone; "memory" := PyStr "1g" ]}
                   {[ "cores" := PyInt 2; "queue" := PyStr "fast" ]}
  = {[ "cores" := PyInt 2; "memory" := PyStr "1g" ]}.
Proof. by vm_compute. Qed.

(** * Properties of workflow.py *)

(** ** [select] *)

Lemma select_item_lookup {V} fields (item dct : gmap string V) :
  (∀ k, k ∈ fields → is_Some (item !! k)) →
  ∃ out, workflow.select_item fields item dct = inl out
    ∧ ∀ k, out !! k = if decide (k ∈ fields) then item !! k else dct !! k.
Proof.
  revert dct. induction fields as [|f fields IH]; intros dct Hall; cbn [workflow.select_item].
  - exists dct. split; [done|]. intros k. rewrite decide_False; [done|]. by intros ?%elem_of_nil.
  - destruct (Hall f) as [v Hv]; [set_solver|]. rewrite Hv.
    destruct (IH (<[f := v]> dct)) as (out & -> & Hout); [intros ??; apply Hall; set_solver|].
    exists out. split; [done|]. intros k. rewrite Hout.
    destruct (decide (k ∈ fields)) as [Hk|Hk].
    + rewrite decide_True; [done|set_solver].
    + destruct (decide (k = f)) as [->|Hne].
      * rewrite lookup_insert_eq. rewrite decide_True; [done|set_solver].
      * rewrite lookup_insert_ne by done. rewrite decide_False; [done|set_solver].
Qed.

Lemma select_item_complete {V} fields (item : gmap string V) :
  (∀ k, k ∈ fields → is_Some (item !! k)) →
  workflow.select_item fields item ∅ = inl (workflow.restrict fields item).
Proof.
  intros Hall. destruct (select_item_lookup fields item ∅ Hall) as (out & -> & Hout).
  f_equal. apply map_eq. intros k. rewrite Hout. unfold workflow.restrict.
  destruct (item !! k) as [v|] eqn:Hk.
  - case_decide.
    + symmetry. by apply map_lookup_filter_Some.
    + rewrite lookup_empty. symmetry. apply map_lookup_filter_None. right.
      intros v' Hv'. simpl. done.
  - rewrite lookup_empty. destruct (decide _); symmetry; apply map_lookup_filter_None; by left.
Qed.

Lemma select_item_missing {V} fields (item dct : gmap string V) e :
  workflow.select_item fields item dct = inr e →
  ∃ k, e = workflow.MissingKey k ∧ k ∈ fields ∧ item !! k = None.
Proof.
  revert dct. induction fields as [|f fields IH]; intros dct; simpl; [done|].
  destruct (item !! f) as [v|] eqn:Hf.
  - intros (k & -> & Hk & Hnone)%IH. exists k. split; [done|]. split; [set_solver|done].
  - intros [= <-]. exists f. split; [done|]. split; [set_solver|done].
Qed.

Lemma select_item_cases {V} fields (item : gmap string V) :
  (∀ k, k ∈ fields → is_Some (item !! k))
  ∨ ∃ e, workflow.select_item fields item ∅ = inr e.
Proof.
  destruct (workflow.select_item fields item ∅) as [out|e] eqn:Hrun; [|right; by exists e].
  left. intros k Hk. revert Hrun. generalize (∅ : gmap string V).
  induction fields as [|f fields IH]; intros dct; simpl; [by apply elem_of_nil in Hk|].
  destruct (item !! f) as [v|] eqn:Hf; [|done].
  apply elem_of_cons in Hk as [->|Hk]; [by rewrite Hf|]. by apply IH.
Qed.

Lemma select_prefix {V} (lst : list (gmap string V)) fields :
  ∃ n, (workflow.select lst fields).1 = workflow.restrict fields <$> take n lst
    ∧ Forall (λ item, ∀ k, k ∈ fields → is_Some (item !! k)) (take n lst)
    ∧ match (workflow.select lst fields).2 with
      | None => n = length lst
      | Some e => ∃ item k, lst !! n = Some item ∧ e = workflow.MissingKey k
                            ∧ k ∈ fields ∧ item !! k = None
      end.
Proof.
  induction lst as [|item lst (n & Hout & Hall & Hend)]; simpl.
  - exists 0. split; [done|]. split; [constructor|done].
  - destruct (select_item_cases fields item) as [Hitem|[e He]].
    + rewrite select_item_complete by done.
      destruct (workflow.select lst fields) as [out e]. simpl in *.
      exists (S n). simpl. split; [by rewrite Hout|]. split; [by constructor|].
      destruct e as [e|]; [done|by rewrite Hend].
    + rewrite He. exists 0. simpl. split; [done|]. split; [constructor|].
      apply select_item_missing in He as (k & -> & Hk & Hnone). by exists item, k.
Qed.

(** What a consumer of [select] gets: for the items before the first one
    that lacks a field, the dictionary of that item cut down to the fields;
    then the end of the iteration if there is no such item, else the
    KeyError for a field that the item lacks. *)
Theorem select_yields {V} (lst : list (gmap string V)) fields :
  ∃ n, (workflow.select lst fields).1 = workflow.restrict fields <$> take n lst
    ∧ Forall (λ item, ∀ k, k ∈ fields → is_Some (item !! k)) (take n lst)
    ∧ match (workflow.select lst fields).2 with
      | None => n = length lst
      | Some e => ∃ item k, lst !! n = Some item ∧ e = workflow.MissingKey k
                            ∧ k ∈ fields ∧ item !! k = None
      end.
Proof. apply select_prefix. Qed.

Lemma restrict_restrict {V} fields (item : gmap string V) :
  workflow.restrict fields (workflow.restrict fields item) = workflow.restrict fields item.
Proof.
  unfold workflow.restrict. apply map_eq. intros k. apply option_eq. intros v.
  rewrite !map_lookup_filter_Some. tauto.
Qed.

Lemma restrict_complete {V} fields (item : gmap string V) :
  (∀ k, k ∈ fields → is_Some (item !! k)) →
  ∀ k, k ∈ fields → is_Some (workflow.restrict fields item !! k).
Proof.
  intros Hall k Hk. destruct (Hall k Hk) as [v Hv]. exists v.
  unfold workflow.restrict. by apply map_lookup_filter_Some.
Qed.

Lemma select_complete {V} (lst : list (gmap string V)) fields :
  Forall (λ item, ∀ k, k ∈ fields → is_Some (item !! k)) lst →
  workflow.select lst fields = (workflow.restrict fields <$> lst, None).
Proof.
  induction 1 as [|item lst Hitem _ IH]; simpl; [done|].
  by rewrite select_item_complete, IH.
Qed.

(** Selecting the same fields again changes nothing, and cannot fail. *)
Theorem select_idempotent {V} (lst : list (gmap string V)) fields :
  workflow.select (workflow.select lst fields).1 fields
  = ((workflow.select lst fields).1, None).
Proof.
  destruct (select_prefix lst fields) as (n & -> & Hall & _).
  rewrite select_complete.
  - f_equal. rewrite <-list_fmap_compose. apply list_fmap_ext. intros i item _. simpl.
    apply restrict_restrict.
  - apply Forall_fmap. eapply Forall_impl; [exact Hall|]. intros item Hitem. simpl.
    by apply restrict_complete.
Qed.

(** The example of the documentation. *)
Example select_example :
  workflow.select
    [ ({[ "A" := "a1"; "B" := "b1" ]} : gmap string string);
      {[ "A" := "a2"; "B" := "b2" ]}; {[ "A" := "a3"; "B" := "b3" ]} ] ["A"]
  = ([ {[ "A" := "a1" ]}; {[ "A" := "a2" ]}; {[ "A" := "a3" ]} ], None).
Proof. by vm_compute. Qed.

(** ** [collect] *)

Lemma collect_item_spec {V} rename fields (item : gmap string V) selected :
  (∀ k, k ∈ fields → is_Some (item !! k)) →
  ∃ sel, workflow.collect_item rename fields item selected = inl sel
    ∧ (∀ n, default [] (sel !! n)
            = default [] (selected !! n) ++ workflow.collected rename fields n item)
    ∧ dom sel = dom selected ∪ list_to_set (workflow.selected_name rename <$> fields).
Proof.
  revert selected. induction fields as [|f fields IH]; intros selected Hall;
    cbn [workflow.collect_item].
  - exists selected. split; [done|]. split; [|set_solver].
    intros n. unfold workflow.collected. by rewrite filter_nil, app_nil_r.
  - destruct (Hall f) as [v Hv]; [set_solver|]. rewrite Hv.
    edestruct IH as (sel & -> & Hsel & Hdom); [intros ??; apply Hall; set_solver|].
    exists sel. split; [done|]. split.
    + intros n. rewrite Hsel. unfold workflow.collected. rewrite filter_cons.
      rewrite lookup_insert. destruct (decide (workflow.selected_name rename f = n)) as [Hn|Hn].
      * subst n. simpl. rewrite Hv. simpl. by rewrite <-app_assoc.
      * done.
    + rewrite Hdom, dom_insert_L, fmap_cons, list_to_set_cons. set_solver.
Qed.

Lemma collect_from_spec {V} rename fields (lst : list (gmap string V)) selected :
  Forall (λ item, ∀ k, k ∈ fields → is_Some (item !! k)) lst →
  ∃ sel, workflow.collect_from rename fields lst selected = inl sel
    ∧ (∀ n, default [] (sel !! n)
            = default [] (selected !! n) ++ (lst ≫= workflow.collected rename fields n))
    ∧ dom sel = dom selected
                ∪ (if decide (lst = []) then ∅
                   else list_to_set (workflow.selected_name rename <$> fields)).
Proof.
  intros Hall. revert selected. induction Hall as [|item lst Hitem _ IH]; intros selected; simpl.
  - exists selected. split; [done|]. split; [|set_solver]. intros n. by rewrite app_nil_r.
  - destruct (collect_item_spec rename fields item selected Hitem) as (sel1 & -> & Hsel1 & Hdom1).
    destruct (IH sel1) as (sel & -> & Hsel & Hdom).
    exists sel. split; [done|]. split.
    + intros n. by rewrite Hsel, Hsel1, <-app_assoc.
    + rewrite Hdom, Hdom1. destruct (decide (lst = [])); set_solver.
Qed.

Lemma collect_item_complete {V} rename fields (item : gmap string V) selected sel :
  workflow.collect_item rename fields item selected = inl sel →
  ∀ k, k ∈ fields → is_Some (item !! k).
Proof.
  revert selected. induction fields as [|f fields IH]; intros selected; simpl.
  - intros _ k Hk. by apply elem_of_nil in Hk.
  - destruct (item !! f) as [v|] eqn:Hf; [|done].
    intros Hrun k [->|Hk]%elem_of_cons; [by rewrite Hf|]. by eapply IH.
Qed.

Lemma collect_item_first {V} rename fields (item : gmap string V) selected e :
  workflow.collect_item rename fields item selected = inr e →
  ∃ j k, e = workflow.MissingKey k ∧ fields !! j = Some k ∧ item !! k = None
         ∧ ∀ j' k', j' < j → fields !! j' = Some k' → is_Some (item !! k').
Proof.
  revert selected. induction fields as [|f fields IH]; intros selected; simpl; [done|].
  destruct (item !! f) as [v|] eqn:Hf.
  - intros (j & k & -> & Hj & Hnone & Hbefore)%IH. exists (S j), k.
    split; [done|]. split; [done|]. split; [done|].
    intros [|j'] k' Hlt Hlook; simpl in Hlook.
    + injection Hlook as <-. by rewrite Hf.
    + apply (Hbefore j'); [lia|done].
  - intros [= <-]. exists 0, f. split; [done|]. split; [done|]. split; [done|]. lia.
Qed.

Lemma collect_from_complete {V} rename fields (lst : list (gmap string V)) selected sel :
  workflow.collect_from rename fields lst selected = inl sel →
  Forall (λ item, ∀ k, k ∈ fields → is_Some (item !! k)) lst.
Proof.
  revert selected. induction lst as [|item lst IH]; intros selected; simpl; [done|].
  destruct (workflow.collect_item rename fields item selected) as [sel1|e1] eqn:Hitem; [|done].
  intros Hrun. constructor; [by eapply collect_item_complete|by eapply IH].
Qed.

Lemma collect_from_first {V} rename fields (lst : list (gmap string V)) selected e :
  workflow.collect_from rename fields lst selected = inr e →
  ∃ i item j k, e = workflow.MissingKey k ∧ lst !! i = Some item
    ∧ Forall (λ item, ∀ k, k ∈ fields → is_Some (item !! k)) (take i lst)
    ∧ fields !! j = Some k ∧ item !! k = None
    ∧ ∀ j' k', j' < j → fields !! j' = Some k' → is_Some (item !! k').
Proof.
  revert selected. induction lst as [|item lst IH]; intros selected; simpl; [done|].
  destruct (workflow.collect_item rename fields item selected) as [sel1|e1] eqn:Hitem.
  - intros (i & item' & j & k & -> & Hi & Hall & Hj & Hnone & Hbefore)%IH.
    exists (S i), item', j, k. split; [done|]. split; [done|]. split; [|done].
    simpl. constructor; [by eapply collect_item_complete|done].
  - intros [= <-]. apply collect_item_first in Hitem as (j & k & -> & Hj & Hnone & Hbefore).
    exists 0, item, j, k. split; [done|]. split; [done|]. split; [by constructor|done].
Qed.

(** [collect] returns a dictionary exactly when every item has every field.
    Under each key the dictionary holds, item after item, the values of the
    fields that are collected under that key; its keys are the names under
    which the fields are collected, and there is none when the list is
    empty.  Else [collect] raises a KeyError: for the first item that lacks
    a field, and for the first field that this item lacks. *)
Theorem collect_lists {V} (lst : list (gmap string V)) fields rename :
  ((∃ m, workflow.collect lst fields rename = inl m)
   ↔ Forall (λ item, ∀ k, k ∈ fields → is_Some (item !! k)) lst)
  ∧ (∀ m, workflow.collect lst fields rename = inl m →
       (∀ n, default [] (m !! n) = lst ≫= workflow.collected rename fields n)
       ∧ dom m = (if decide (lst = []) then ∅
                  else list_to_set (workflow.selected_name rename <$> fields)))
  ∧ (∀ e, workflow.collect lst fields rename = inr e →
       ∃ i item j k, e = workflow.MissingKey k ∧ lst !! i = Some item
         ∧ Forall (λ item, ∀ k, k ∈ fields → is_Some (item !! k)) (take i lst)
         ∧ fields !! j = Some k ∧ item !! k = None
         ∧ ∀ j' k', j' < j → fields !! j' = Some k' → is_Some (item !! k')).
Proof.
  split; [split|split].
  - intros [m Hrun]. by eapply collect_from_complete.
  - intros Hall. destruct (collect_from_spec rename fields lst ∅ Hall) as (m & Hrun & _).
    by exists m.
  - intros m Hrun. pose proof (collect_from_complete _ _ _ _ _ Hrun) as Hall.
    destruct (collect_from_spec rename fields lst ∅ Hall) as (m' & Hrun' & Hm & Hdom).
    unfold workflow.collect in Hrun. rewrite Hrun in Hrun'. injection Hrun' as <-. split.
    + intros n. by rewrite Hm, lookup_empty.
    + rewrite Hdom. set_solver.
  - intros e. apply collect_from_first.
Qed.

Lemma filter_none {A} (P : A → Prop) `{∀ x, Decision (P x)} (l : list A) :
  (∀ x, x ∈ l → ¬ P x) → filter P l = [].
Proof.
  induction l as [|a l IH]; intros Hnone; [done|]. rewrite filter_cons.
  rewrite decide_False by (apply Hnone; set_solver). apply IH. intros ??. apply Hnone. set_solver.
Qed.

Lemma filter_same_name {A B} `{EqDecision B} (f : A → B) (l : list A) k :
  NoDup (f <$> l) → k ∈ l → filter (λ k', f k' = f k) l = [k].
Proof.
  induction l as [|a l IH]; intros Hnd Hk; [by apply elem_of_nil in Hk|].
  rewrite fmap_cons in Hnd. apply NoDup_cons in Hnd as [Ha Hnd]. rewrite filter_cons.
  apply elem_of_cons in Hk as [->|Hk].
  - rewrite decide_True by done. f_equal. apply filter_none.
    intros x Hx Heq. apply Ha. rewrite <-Heq. apply list_elem_of_fmap. by exists x.
  - rewrite decide_False; [by apply IH|].
    intros Heq. apply Ha. rewrite Heq. apply list_elem_of_fmap. by exists k.
Qed.

(** When the fields are collected under names that differ, the dictionary
    holds for each field the column of its values: one value for each item,
    in the order of the items. *)
Theorem collect_columns {V} (lst : list (gmap string V)) fields rename :
  Forall (λ item, ∀ k, k ∈ fields → is_Some (item !! k)) lst → lst ≠ [] →
  NoDup (workflow.selected_name rename <$> fields) →
  ∃ m, workflow.collect lst fields rename = inl m
    ∧ ∀ k, k ∈ fields →
        ∃ vs, m !! workflow.selected_name rename k = Some vs
              ∧ Forall2 (λ item v, item !! k = Some v) lst vs.
Proof.
  intros Hall Hne Hnd.
  destruct (collect_from_spec rename fields lst ∅ Hall) as (m & Hrun & Hm & Hdom).
  exists m. split; [done|]. intros k Hk.
  assert (workflow.selected_name rename k ∈ dom m) as [vs Hvs]%elem_of_dom.
  { rewrite Hdom, decide_False by done. apply elem_of_union_r, elem_of_list_to_set.
    apply list_elem_of_fmap. by exists k. }
  exists vs. split; [done|].
  specialize (Hm (workflow.selected_name rename k)). rewrite Hvs, lookup_empty in Hm.
  simpl in Hm. subst vs. clear Hrun Hdom Hvs Hne.
  induction Hall as [|item lst Hitem _ IH]; [constructor|].
  destruct (Hitem k Hk) as [v Hv].
  assert (workflow.collected rename fields (workflow.selected_name rename k) item = [v]) as Hone.
  { unfold workflow.collected. rewrite (filter_same_name _ _ k Hnd Hk). simpl. by rewrite Hv. }
  rewrite bind_cons, Hone. by constructor.
Qed.

Lemma collect_columns_witness :
  ∃ m, workflow.collect
         [ ({[ "A" := "a1"; "B" := "b1" ]} : gmap string string);
           {[ "A" := "a2"; "B" := "b2" ]} ] ["A"; "B"] {[ "B" := "bees" ]}
       = inl m
    ∧ ∀ k, k ∈ ["A"; "B"] →
        ∃ vs, m !! workflow.selected_name {[ "B" := "bees" ]} k = Some vs
              ∧ Forall2 (λ item v, item !! k = Some v)
                  [ ({[ "A" := "a1"; "B" := "b1" ]} : gmap string string);
                    {[ "A" := "a2"; "B" := "b2" ]} ] vs.
Proof.
  apply (collect_columns
           [ ({[ "A" := "a1"; "B" := "b1" ]} : gmap string string);
             {[ "A" := "a2"; "B" := "b2" ]} ] ["A"; "B"] {[ "B" := "bees" ]}).
  - repeat constructor; intros k Hk;
      repeat (apply elem_of_cons in Hk as [->|Hk]; [by eexists|]); by apply elem_of_nil in Hk.
  - done.
  - compute_done.
Defined.

Lemma collect_item_agree {V} rename fields (item item' : gmap string V) selected :
  (∀ k, k ∈ fields → item !! k = item' !! k) →
  workflow.collect_item rename fields item selected
  = workflow.collect_item rename fields item' selected.
Proof.
  revert selected. induction fields as [|f fields IH]; intros selected Hagree; simpl; [done|].
  rewrite <-(Hagree f) by set_solver. destruct (item !! f); [|done].
  apply IH. intros ??. apply Hagree. set_solver.
Qed.

Lemma restrict_lookup {V} fields (item : gmap string V) k :
  k ∈ fields → workflow.restrict fields item !! k = item !! k.
Proof.
  intros Hk. unfold workflow.restrict. apply option_eq. intros v.
  rewrite map_lookup_filter_Some. simpl. tauto.
Qed.

(** [collect] reads the fields only: on the dictionaries that [select]
    yields for the same fields it returns what it returns on the items
    themselves. *)
Theorem collect_after_select {V} (lst : list (gmap string V)) fields rename :
  Forall (λ item, ∀ k, k ∈ fields → is_Some (item !! k)) lst →
  workflow.collect (workflow.select lst fields).1 fields rename
  = workflow.collect lst fields rename.
Proof.
  intros Hall. rewrite select_complete by done. unfold workflow.collect. simpl.
  generalize (∅ : gmap string (list V)). clear Hall.
  induction lst as [|item lst IH]; intros selected; simpl; [done|].
  rewrite (collect_item_agree rename fields (workflow.restrict fields item) item)
    by (intros k Hk; by apply restrict_lookup).
  destruct (workflow.collect_item rename fields item selected); [apply IH|done].
Qed.

Lemma collect_after_select_witness :
  workflow.collect
    (workflow.select [ ({[ "A" := "a1"; "B" := "b1" ]} : gmap string string) ] ["A"]).1
    ["A"] ∅
  = workflow.collect [ ({[ "A" := "a1"; "B" := "b1" ]} : gmap string string) ] ["A"] ∅.
Proof.
  apply (collect_after_select [ ({[ "A" := "a1"; "B" := "b1" ]} : gmap string string) ]
           ["A"] ∅).
  repeat constructor. intros k ->%list_elem_of_singleton. by eexists.
Defined.

(** The example of the documentation. *)
Example collect_example :
  workflow.collect
    [ ({[ "A" := "a1"; "B" := "b1" ]} : gmap string string);
      {[ "A" := "a2"; "B" := "b2" ]}; {[ "A" := "a3"; "B" := "b3" ]} ] ["A"] ∅
  = inl {[ "As" := ["a1"; "a2"; "a3"] ]}.
Proof. by vm_compute. Qed.

(** ** [_add_target] and [include_workflow] *)

Section include.
Variable qualname : Target → string → string.

Lemma add_target_spec targets target namespace :
  workflow.add_target qualname targets target namespace
  = if decide (name (workflow.qualified qualname namespace target) ∈ targets.*1)
    then inr (workflow.TargetExists (name (workflow.qualified qualname namespace target)))
    else inl (targets ++ [(name (workflow.qualified qualname namespace target),
                           workflow.qualified qualname namespace target)]).
Proof. done. Qed.

Lemma keyed_snoc targets t :
  workflow.keyed targets → name t ∉ targets.*1 → workflow.keyed (targets ++ [(name t, t)]).
Proof.
  intros [Hnd Hkeys] Hfresh. split.
  - rewrite fmap_app. apply NoDup_app. split; [done|]. split; [|apply NoDup_singleton].
    intros k Hk ->%list_elem_of_singleton. done.
  - intros k t' [Hin|Heq%list_elem_of_singleton]%elem_of_app; [by apply Hkeys|].
    by injection Heq as -> ->.
Qed.

(** The loop over the dictionary of another workflow, from the position
    [pos] on: the dictionary it iterates does not change. *)
Lemma add_targets_another w rest pos targets namespace targets' e :
  pos + rest = length (workflow.workflow_targets w) →
  workflow.add_targets qualname rest (length (workflow.workflow_targets w)) targets
    (workflow.Another w) namespace = (targets', e) →
  ∃ k, targets' = targets ++ ((λ t, (name t, t)) ∘ workflow.qualified qualname namespace
                              <$> take k (drop pos (workflow.workflow_targets w).*2))
    ∧ (workflow.keyed targets → workflow.keyed targets')
    ∧ match e with
      | None => k = rest
      | Some err => ∃ t, (workflow.workflow_targets w).*2 !! (pos + k) = Some t
          ∧ err = workflow.TargetExists (name (workflow.qualified qualname namespace t))
          ∧ name (workflow.qualified qualname namespace t) ∈ targets'.*1
      end.
Proof.
  revert pos targets. induction rest as [|rest IH]; intros pos targets Hpos;
    cbn [workflow.add_targets workflow.live_targets]; rewrite decide_False by (intros H; by apply H).
  - intros [= <- <-]. exists 0. simpl. by rewrite app_nil_r.
  - replace (length (workflow.workflow_targets w) - S rest) with pos by lia.
    destruct (workflow.workflow_targets w !! pos) as [[key t]|] eqn:Hlook.
    2: { apply lookup_ge_None in Hlook. lia. }
    assert ((workflow.workflow_targets w).*2 !! pos = Some t) as Ht.
    { by rewrite list_lookup_fmap, Hlook. }
    rewrite add_target_spec. case_decide as Hin.
    + intros [= <- <-]. exists 0. simpl. rewrite app_nil_r. split; [done|]. split; [done|].
      exists t. by rewrite Nat.add_0_r.
    + intros (k & -> & Hkeyed & He)%(IH (S pos)); [|lia]. exists (S k).
      rewrite (drop_S _ t pos Ht). simpl. split; [by rewrite <-app_assoc|].
      split; [intros Hk; apply Hkeyed; by apply keyed_snoc|].
      destruct e as [err|]; [|by rewrite He].
      destruct He as (t' & Hlook' & He). exists t'. split; [|done].
      by replace (pos + S k) with (S pos + k) by lia.
Qed.

(** The loop over the dictionary of this workflow: the first target that is
    added changes the size of the dictionary, and the iterator raises. *)
Lemma add_targets_itself targets namespace :
  workflow.add_targets qualname (length targets) (length targets) targets
    workflow.Itself namespace
  = match targets with
    | [] => (targets, None)
    | (_, t) :: _ =>
        if decide (name (workflow.qualified qualname namespace t) ∈ targets.*1)
        then (targets,
              Some (workflow.TargetExists (name (workflow.qualified qualname namespace t))))
        else (targets ++ [(name (workflow.qualified qualname namespace t),
                           workflow.qualified qualname namespace t)],
              Some workflow.ChangedSize)
    end.
Proof.
  destruct targets as [|[key t] targets]; [done|].
  cbn [workflow.add_targets workflow.live_targets length].
  rewrite decide_False by (intros H; by apply H).
  rewrite Nat.sub_diag. cbn [lookup list_lookup]. rewrite add_target_spec.
  case_decide; [done|].
  destruct (length targets) as [|n] eqn:Hlen; cbn [workflow.add_targets workflow.live_targets];
    (rewrite decide_True; [done|]); rewrite length_app; simpl; lia.
Qed.

(** [include_workflow] keeps the dictionary of targets keyed by the names
    of its targets, also when it raises: it only adds entries behind those
    that were there, never touches the name of the workflow, and the
    targets it leaves have names that differ, as [from_targets] needs
    them. *)
Theorem include_workflow_keyed self other namespace self' e :
  workflow.keyed (workflow.workflow_targets self) →
  workflow.include_workflow qualname self other namespace = (self', e) →
  workflow.keyed (workflow.workflow_targets self')
  ∧ workflow.workflow_name self' = workflow.workflow_name self
  ∧ (∃ added, workflow.workflow_targets self' = workflow.workflow_targets self ++ added)
  ∧ NoDup (name <$> (workflow.workflow_targets self').*2).
Proof.
  intros Hkeyed Hrun.
  assert (workflow.keyed (workflow.workflow_targets self')
          ∧ workflow.workflow_name self' = workflow.workflow_name self
          ∧ ∃ added, workflow.workflow_targets self' = workflow.workflow_targets self ++ added)
    as (Hk & Hname & Hadded).
  { unfold workflow.include_workflow in Hrun.
    case_decide; [injection Hrun as <- <-; split; [done|]; split; [done|]; exists [];
                  by rewrite app_nil_r|].
    case_decide; [injection Hrun as <- <-; split; [done|]; split; [done|]; exists [];
                  by rewrite app_nil_r|].
    destruct (workflow.add_targets _ _ _ _ _ _) as [targets e'] eqn:Hadd.
    injection Hrun as <- <-. simpl. destruct other as [|w]; simpl in Hadd.
    - rewrite add_targets_itself in Hadd.
      destruct (workflow.workflow_targets self) as [|[key t] rest] eqn:Hself.
      { injection Hadd as <- <-. split; [done|]. split; [done|]. by exists []. }
      case_decide as Hin; injection Hadd as <- <-.
      + split; [done|]. split; [done|]. exists []. by rewrite app_nil_r.
      + split; [exact (keyed_snoc ((key, t) :: rest) _ Hkeyed Hin)|]. split; [done|].
        by eexists [_].
    - apply (add_targets_another w _ 0) in Hadd as (k & -> & Hkeyed' & _); [|done].
      split; [by apply Hkeyed'|]. split; [done|]. by eexists. }
  split; [done|]. split; [done|]. split; [done|].
  destruct Hk as [Hnd Hkeys].
  assert (name <$> (workflow.workflow_targets self').*2 = (workflow.workflow_targets self').*1)
    as ->; [|done].
  rewrite <-list_fmap_compose. apply list_fmap_ext. intros i [k t] Hi. simpl.
  apply Hkeys. by eapply list_elem_of_lookup_2.
Qed.

(** What [include_workflow] does.  It raises at once, and changes nothing,
    when neither the included workflow nor the call names a namespace, or
    when the namespace is the name of this workflow; an empty namespace
    counts as none.  Else, for another workflow, it adds the targets one by
    one under their qualified names until one of these names is taken: the
    targets before that one stay included, and the error names it.  For
    this workflow itself it ends at once when there is no target, and else
    tries the first target: when its qualified name is taken the error
    names it; when not, the target is added, and the iteration over the
    dictionary that has grown raises. *)
Theorem include_workflow_outcome self other namespace :
  let other_name := workflow.workflow_name (workflow.included self other) in
  let prefix := workflow.namespace_or namespace other_name in
  let r := workflow.include_workflow qualname self other namespace in
  (other_name = None ∧ namespace = None → r = (self, Some workflow.NotNamed))
  ∧ (¬ (other_name = None ∧ namespace = None) →
     prefix = workflow.workflow_name self → r = (self, Some workflow.SameName))
  ∧ (¬ (other_name = None ∧ namespace = None) →
     prefix ≠ workflow.workflow_name self →
     match other with
     | workflow.Another w =>
         let others := (workflow.workflow_targets w).*2 in
         ∃ k, workflow.workflow_targets r.1
              = workflow.workflow_targets self
                ++ ((λ t, (name t, t)) ∘ workflow.qualified qualname prefix <$> take k others)
           ∧ workflow.workflow_name r.1 = workflow.workflow_name self
           ∧ match r.2 with
             | None => k = length others
             | Some err => ∃ t, others !! k = Some t
                 ∧ err = workflow.TargetExists (name (workflow.qualified qualname prefix t))
                 ∧ name (workflow.qualified qualname prefix t)
                   ∈ (workflow.workflow_targets r.1).*1
             end
     | workflow.Itself =>
         match workflow.workflow_targets self with
         | [] => r = (self, None)
         | (_, t) :: _ =>
             let q := workflow.qualified qualname prefix t in
             if decide (name q ∈ (workflow.workflow_targets self).*1)
             then r = (self, Some (workflow.TargetExists (name q)))
             else r = ({| workflow.workflow_name := workflow.workflow_name self;
                          workflow.workflow_targets :=
                            workflow.workflow_targets self ++ [(name q, q)] |},
                       Some workflow.ChangedSize)
         end
     end).
Proof.
  intros other_name prefix r. subst r. unfold workflow.include_workflow.
  fold other_name. split; [|split].
  - intros H. by rewrite decide_True.
  - intros H1 H2. rewrite decide_False by done. by rewrite decide_True.
  - intros H1 H2. rewrite decide_False by done. fold prefix. rewrite decide_False by done.
    destruct other as [|w]; cbn [workflow.live_targets].
    + rewrite add_targets_itself. destruct self as [self_name [|[key t] rest]]; simpl; [done|].
      by case_decide.
    + destruct (workflow.add_targets _ _ _ _ _ _) as [targets e] eqn:Hadd. simpl.
      apply (add_targets_another w _ 0) in Hadd as (k & -> & _ & He); [|done].
      exists k. split; [done|]. split; [done|]. destruct e as [err|]; [done|].
      by rewrite He, length_fmap.
Qed.
End include.

Lemma main_workflow_keyed : workflow.keyed (workflow.workflow_targets main_workflow).
Proof.
  split; [compute_done|]. intros k t Hin%list_elem_of_singleton. by injection Hin as -> ->.
Qed.

Lemma sub_workflow_keyed : workflow.keyed (workflow.workflow_targets sub_workflow).
Proof.
  split; [compute_done|]. intros k t Hin%list_elem_of_singleton. by injection Hin as -> ->.
Qed.

Lemma include_workflow_keyed_witness :
  workflow.keyed (workflow.workflow_targets main_workflow)
  ∧ ∃ self' e,
      workflow.include_workflow workflow.dotted main_workflow
        (workflow.Another sub_workflow) None = (self', e)
      ∧ workflow.keyed (workflow.workflow_targets self')
      ∧ workflow.workflow_name self' = workflow.workflow_name main_workflow
      ∧ (∃ added, workflow.workflow_targets self'
                  = workflow.workflow_targets main_workflow ++ added)
      ∧ NoDup (name <$> (workflow.workflow_targets self').*2).
Proof.
  split; [apply main_workflow_keyed|].
  destruct (workflow.include_workflow workflow.dotted main_workflow
              (workflow.Another sub_workflow) None) as [self' e] eqn:Hrun.
  exists self', e. split; [done|].
  exact (include_workflow_keyed workflow.dotted main_workflow (workflow.Another sub_workflow)
           None self' e main_workflow_keyed Hrun).
Defined.

Lemma add_targets_fresh qualname w rest pos targets namespace :
  pos + rest = length (workflow.workflow_targets w) →
  NoDup (name ∘ workflow.qualified qualname namespace
         <$> drop pos (workflow.workflow_targets w).*2) →
  (∀ t, t ∈ drop pos (workflow.workflow_targets w).*2 →
        name (workflow.qualified qualname namespace t) ∉ targets.*1) →
  workflow.add_targets qualname rest (length (workflow.workflow_targets w)) targets
    (workflow.Another w) namespace
  = (targets ++ ((λ t, (name t, t)) ∘ workflow.qualified qualname namespace
                 <$> drop pos (workflow.workflow_targets w).*2), None).
Proof.
  intros Hpos Hnd Hfresh.
  destruct (workflow.add_targets _ _ _ _ _ _) as [targets' e] eqn:Hadd.
  destruct (add_targets_another qualname w rest pos targets namespace targets' e Hpos Hadd)
    as (k & -> & _ & He).
  destruct e as [err|].
  - exfalso. destruct He as (t & Ht & _ & Hin).
    assert (drop pos (workflow.workflow_targets w).*2 !! k = Some t) as Hk.
    { by rewrite lookup_drop. }
    rewrite fmap_app in Hin. apply elem_of_app in Hin as [Hin|Hin].
    + by apply (Hfresh t); [eapply list_elem_of_lookup_2|].
    + rewrite <-list_fmap_compose in Hin. apply list_elem_of_fmap in Hin as (t' & Heq & Hin).
      simpl in Heq. apply list_elem_of_lookup in Hin as (i & Hi).
      apply lookup_take_Some in Hi as [Hi Hlt].
      assert (i = k); [|lia].
      eapply NoDup_lookup; [exact Hnd| |].
      * by rewrite list_lookup_fmap, Hi.
      * rewrite list_lookup_fmap, Hk. simpl. by rewrite Heq.
  - subst k. f_equal. f_equal. f_equal. apply take_ge. rewrite length_drop, length_fmap. lia.
Qed.

(** With the dotted names of the documentation, another workflow is
    included whole under a namespace as soon as none of the dotted names is
    taken in this workflow: each of its targets is added under the
    namespace, a dot and its name, behind the targets that were there. *)
Theorem include_workflow_dotted self other ns :
  workflow.keyed (workflow.workflow_targets other) →
  ns ≠ "" → Some ns ≠ workflow.workflow_name self →
  (∀ t, t ∈ (workflow.workflow_targets other).*2 →
        workflow.dotted t ns ∉ (workflow.workflow_targets self).*1) →
  workflow.include_workflow workflow.dotted self (workflow.Another other) (Some ns)
  = ({| workflow.workflow_name := workflow.workflow_name self;
        workflow.workflow_targets :=
          workflow.workflow_targets self
          ++ ((λ t, (workflow.dotted t ns, workflow.with_name (workflow.dotted t ns) t))
              <$> (workflow.workflow_targets other).*2) |}, None).
Proof.
  intros [Hnd Hkeys] Hns Hself Hfresh. unfold workflow.include_workflow.
  rewrite decide_False by (by intros [_ ?]).
  unfold workflow.namespace_or. rewrite (decide_False (P := ns = "")) by done.
  rewrite decide_False by done. cbn [workflow.live_targets].
  rewrite (add_targets_fresh _ _ _ 0); [done|done| |done].
  rewrite drop_0.
  assert (name ∘ workflow.qualified workflow.dotted (Some ns)
            <$> (workflow.workflow_targets other).*2
          = (λ n, ns +:+ "." +:+ n) <$> (workflow.workflow_targets other).*1) as ->.
  { rewrite <-!list_fmap_compose. apply list_fmap_ext. intros i [k t] Hi. simpl.
    unfold workflow.dotted. f_equal. f_equal. apply Hkeys. by eapply list_elem_of_lookup_2. }
  apply NoDup_fmap_2; [|done]. intros n1 n2 Heq. by simplify_eq.
Qed.

Lemma include_workflow_dotted_witness :
  workflow.keyed (workflow.workflow_targets sub_workflow)
  ∧ "lib" ≠ "" ∧ Some "lib" ≠ workflow.workflow_name main_workflow
  ∧ (∀ t, t ∈ (workflow.workflow_targets sub_workflow).*2 →
          workflow.dotted t "lib" ∉ (workflow.workflow_targets main_workflow).*1)
  ∧ workflow.include_workflow workflow.dotted main_workflow
      (workflow.Another sub_workflow) (Some "lib")
    = ({| workflow.workflow_name := None;
          workflow.workflow_targets :=
            [("A", tA); ("lib.B", workflow.with_name "lib.B" tB)] |}, None).
Proof.
  assert (∀ t, t ∈ (workflow.workflow_targets sub_workflow).*2 →
               workflow.dotted t "lib" ∉ (workflow.workflow_targets main_workflow).*1)
    as Hfresh.
  { intros t Ht%list_elem_of_singleton. subst t. compute_done. }
  split; [apply sub_workflow_keyed|]. split; [done|]. split; [done|]. split; [exact Hfresh|].
  exact (include_workflow_dotted main_workflow sub_workflow "lib" sub_workflow_keyed
           ltac:(done) ltac:(done) Hfresh).
Defined.

(** A workflow that includes another under the name of one of its own
    targets stops there: the targets before the clash stay included. *)
Example include_workflow_clash :
  workflow.include_workflow workflow.dotted
    {| workflow.workflow_name := None;
       workflow.workflow_targets := [("sub.C", workflow.with_name "sub.C" tC)] |}
    (workflow.Another
       {| workflow.workflow_name := Some "sub";
          workflow.workflow_targets := [("B", tB); ("C", tC); ("A", tA)] |}) None
  = ({| workflow.workflow_name := None;
        workflow.workflow_targets := [("sub.C", workflow.with_name "sub.C" tC);
                                      ("sub.B", workflow.with_name "sub.B" tB)] |},
     Some (workflow.TargetExists "sub.C")).
Proof. by vm_compute. Qed.

(** A workflow that includes itself under a namespace adds its first target
    under the qualified name, and then the iteration over its dictionary,
    which has grown, raises. *)
Example include_workflow_itself :
  workflow.include_workflow workflow.dotted main_workflow workflow.Itself (Some "lib")
  = ({| workflow.workflow_name := None;
        workflow.workflow_targets := [("A", tA); ("lib.A", workflow.with_name "lib.A" tA)] |},
     Some workflow.ChangedSize).
Proof. by vm_compute. Qed.
